(** * Browser engine: navigation history and the HTML parsing pipeline

    Shallow embedding of
    - [src/kernel/src/browser/engine.c] (the engine and its tabs: creation,
      [browser_navigate], back, forward and stop, the active tab, closing a
      tab, the shutdown loop),
    - [src/userspace/browser/main.c] ([parse_arguments] and
      [init_browser_engine]),
    - the declarations of [src/kernel/src/browser/html/parser.h] and
      [src/kernel/src/browser/html/dom.h] (tokenizer states, token types,
      insertion modes, parser record, node types).

    The bodies of the functions declared in [parser.h] are not part of the
    source tree; they are modelled from the specification and every such
    definition says so in its documentation. *)

From Stdlib Require Import ZArith Ascii String Lia Bool.
From stdpp Require Import base tactics option list strings gmap.

Local Open Scope string_scope.
Local Open Scope list_scope.

(** Decide a closed decidable proposition by evaluation. *)
Ltac by_compute := apply (bool_decide_unpack _); vm_compute; exact I.

(* ===================================================================== *)
(** * Part I: [engine.c], navigation history                             *)
(* ===================================================================== *)

Module Engine.

Local Open Scope Z_scope.

(** [uint32_t] arithmetic wraps modulo 2^32. *)
Definition UINT32_MOD : Z := 2 ^ 32.
Definition wrap32 (z : Z) : Z := z mod UINT32_MOD.

(** Capacity of the history array: [calloc(100, sizeof(void* ))]. *)
Definition HISTORY_CAPACITY : Z := 100.

(** [struct browser_tab], restricted to the fields [browser_navigate]
    reads or writes.  A [char*] is [option string] ([None] is NULL); the
    history array is the list of its 100 slots. *)
Record browser_tab_t := mk_tab {
  url : option string;
  title : option string;
  document : option string;       (* text the current document was built from *)
  loading : bool;
  secure : bool;
  progress : Z;
  history : list (option string);
  history_index : Z;
  history_count : Z
}.

(** What the fetch layer ([fetch_create_request], [fetch_start], declared
    in [webapi/fetch.h]) hands back for one URL. *)
Inductive fetch_outcome :=
| FetchNoRequest                         (* fetch_create_request returned NULL *)
| FetchNoOperation                       (* fetch_start returned NULL *)
| FetchNoResponse                        (* fetch_op->response == NULL *)
| FetchResponse (ok : bool) (body : string).

(** Navigation part of [browser_create_tab]. *)
Definition browser_create_tab_navigation : browser_tab_t :=
  {| url := Some "about:blank"; title := Some "New Tab"; document := Some "";
     loading := false; secure := false; progress := 0;
     history := replicate 100 None;
     history_index := 0; history_count := 0 |}.

Section Navigate.

(** The network and the page loader are collaborators of [browser_navigate];
    [load_html] stands for [browser_load_html], which writes the document,
    the title and the render tree of the tab and nothing else. *)
Variable fetch : string -> fetch_outcome.
Variable load_title : string -> option string.

Definition browser_load_html (tab : browser_tab_t) (html : string) : browser_tab_t :=
  {| url := url tab;
     title := match load_title html with Some t => Some t | None => title tab end;
     document := Some html;
     loading := loading tab; secure := secure tab; progress := progress tab;
     history := history tab;
     history_index := history_index tab; history_count := history_count tab |}.

(** First block of "Add to history": when [history_index < history_count - 1]
    (unsigned comparison, the subtraction wraps), the forward entries are
    freed and [history_count] becomes [history_index + 1].  [free] leaves
    the slots of the array as they are. *)
Definition clear_forward_history (idx cnt : Z) : Z :=
  if idx <? wrap32 (cnt - 1) then wrap32 (idx + 1) else cnt.

(** Does this navigation store the URL (second block, [history_count < 100])? *)
Definition records_url (tab : browser_tab_t) : bool :=
  clear_forward_history (history_index tab) (history_count tab) <? HISTORY_CAPACITY.

Definition set_loading (tab : browser_tab_t) (l : bool) (p : Z) : browser_tab_t :=
  {| url := url tab; title := title tab; document := document tab;
     loading := l; secure := secure tab; progress := p;
     history := history tab;
     history_index := history_index tab; history_count := history_count tab |}.

(** [browser_navigate], with a non-null tab; [u = None] is a NULL url. *)
Definition browser_navigate (tab : browser_tab_t) (u : option string)
  : browser_tab_t * Z :=
  match u with
  | None => (tab, -1)
  | Some u =>
    let cnt1 := clear_forward_history (history_index tab) (history_count tab) in
    let '(hist, idx, cnt) :=
      if cnt1 <? HISTORY_CAPACITY
      then (<[Z.to_nat cnt1 := Some u]> (history tab),
            wrap32 (wrap32 (cnt1 + 1) - 1), wrap32 (cnt1 + 1))
      else (history tab, history_index tab, cnt1) in
    let tab1 :=
      {| url := Some u; title := title tab; document := document tab;
         loading := true; secure := String.prefix "https://" u; progress := 0;
         history := hist; history_index := idx; history_count := cnt |} in
    match fetch u with
    | FetchNoRequest | FetchNoOperation =>
        (set_loading tab1 false (progress tab1), -1)
    | FetchNoResponse => (set_loading tab1 false 100, 0)
    | FetchResponse ok body =>
        let tab2 := if ok then browser_load_html tab1 body else tab1 in
        (set_loading tab2 false 100, 0)
    end
  end.

(** The shape every tab built by [browser_create_tab] has and
    [browser_navigate] keeps: the count and the index stay within the
    100 slots of the array. *)
Definition history_ok (tab : browser_tab_t) : Prop :=
  0 <= history_count tab <= HISTORY_CAPACITY /\
  0 <= history_index tab < HISTORY_CAPACITY /\
  length (history tab) = 100%nat.

(** The entries a reader of the history sees: slots [0 .. history_count-1]. *)
Definition visible_history (tab : browser_tab_t) : list (option string) :=
  take (Z.to_nat (history_count tab)) (history tab).

End Navigate.

End Engine.

(* ===================================================================== *)
(** * Part I-b: [engine.c], back, forward and stop                       *)
(* ===================================================================== *)

Module History.
Import Engine.

Local Open Scope Z_scope.

(** [response_t] of [webapi/fetch.h], the two fields [engine.c] reads. *)
Record response_t := mk_response { ok : bool; body : option string }.

Section Collaborators.

(** The fetch layer, in the two calls [engine.c] makes: a [request_t*] that
    is not NULL is a value of [request_t]; [fetch_start] returns NULL or an
    operation, of which [engine.c] reads the [response] field. *)
Variable request_t : Type.
Variable fetch_create_request : string -> option request_t.
Variable fetch_start : option request_t -> option (option response_t).
Variable load_title : string -> option string.

(** What [browser_navigate] sees of the two calls for one URL. *)
Definition fetch (u : string) : fetch_outcome :=
  match fetch_create_request u with
  | None => FetchNoRequest
  | Some r =>
      match fetch_start (Some r) with
      | None => FetchNoOperation
      | Some None => FetchNoResponse
      | Some (Some resp) =>
          match body resp with
          | Some html => FetchResponse (ok resp) html
          | None => FetchResponse false ""   (* browser_load_html(tab, NULL) returns -1 *)
          end
      end
  end.

(** [if (fetch_op && fetch_op->response && fetch_op->response->ok)
    browser_load_html(tab, body)], the request passed on unchecked. *)
Definition load_fetched (tab : browser_tab_t) (u : string) : browser_tab_t :=
  match fetch_start (fetch_create_request u) with
  | Some (Some resp) =>
      if ok resp
      then match body resp with
           | Some html => browser_load_html load_title tab html
           | None => tab
           end
      else tab
  | _ => tab
  end.

(** The statements of [browser_go_back] and [browser_go_forward] after the
    index has moved to [idx], which are the same in both: read the slot,
    replace the URL by a copy of it, fetch and load, clear [loading],
    return 0.  [None] stands for undefined behaviour: the slot is outside the
    array, or it holds NULL and [strdup] is called on it. *)
Definition visit_entry (tab : browser_tab_t) (idx : Z) : option (browser_tab_t * Z) :=
  match history tab !! Z.to_nat idx with
  | Some (Some u) =>
      let tab1 :=
        {| url := Some u; title := title tab; document := document tab;
           loading := true; secure := secure tab; progress := progress tab;
           history := history tab; history_index := idx;
           history_count := history_count tab |} in
      let tab2 := load_fetched tab1 u in
      Some (set_loading tab2 false (progress tab2), 0)
  | _ => None
  end.

(** [browser_go_back], with a non-null tab. *)
Definition browser_go_back (tab : browser_tab_t) : option (browser_tab_t * Z) :=
  if history_index tab =? 0 then Some (tab, -1)
  else visit_entry tab (wrap32 (history_index tab - 1)).

(** [browser_go_forward], with a non-null tab; the comparison is unsigned
    and [history_count - 1] wraps. *)
Definition browser_go_forward (tab : browser_tab_t) : option (browser_tab_t * Z) :=
  if wrap32 (history_count tab - 1) <=? history_index tab then Some (tab, -1)
  else visit_entry tab (wrap32 (history_index tab + 1)).

(** [browser_stop], with a non-null tab. *)
Definition browser_stop (tab : browser_tab_t) : browser_tab_t := set_loading tab false 0.

(** The tabs a user can get: a new tab, then page visits, steps back and
    forward that are defined, and stops. *)
Inductive reachable_tab : browser_tab_t -> Prop :=
| tab_created : reachable_tab browser_create_tab_navigation
| tab_navigate t u :
    reachable_tab t -> reachable_tab (browser_navigate fetch load_title t (Some u)).1
| tab_back t t' r :
    reachable_tab t -> browser_go_back t = Some (t', r) -> reachable_tab t'
| tab_forward t t' r :
    reachable_tab t -> browser_go_forward t = Some (t', r) -> reachable_tab t'
| tab_stop t : reachable_tab t -> reachable_tab (browser_stop t).

End Collaborators.

(** The shape of the history of a tab: slot 0 is NULL; either nothing has
    been visited and all slots are NULL, or the count is at least 2, the index lies between 1 and
    the count, and the slots from 1 up to the count hold URLs. *)
Definition tab_inv (t : browser_tab_t) : Prop :=
  length (history t) = 100%nat /\
  history t !! 0%nat = Some None /\
  ((history_count t = 0 /\ history_index t = 0 /\ history t = replicate 100 None) \/
   (2 <= history_count t <= 100 /\ 1 <= history_index t < history_count t /\
    Forall is_Some (drop 1 (take (Z.to_nat (history_count t)) (history t))))).

(** Two tabs for examples: one that has visited [a], [b] and [c] and
    stepped back to [b], and one whose history is full. *)
Definition visited_tab : browser_tab_t :=
  {| url := Some "b"; title := Some "New Tab"; document := Some "";
     loading := false; secure := false; progress := 100;
     history := None :: Some "a" :: Some "b" :: Some "c" :: replicate 96 None;
     history_index := 2; history_count := 4 |}.

Definition full_tab : browser_tab_t :=
  {| url := Some "p"; title := Some "New Tab"; document := Some "";
     loading := false; secure := false; progress := 100;
     history := None :: replicate 99 (Some "p");
     history_index := 99; history_count := 100 |}.

End History.

(* ===================================================================== *)
(** * Part I-c: [engine.c], the tabs of an engine                        *)
(* ===================================================================== *)

Module Tabs.
Import Engine.

Local Open Scope Z_scope.

(** [browser_config_t] of [engine.h]. *)
Record browser_config_t := mk_config {
  max_tabs : Z;
  js_heap_size : Z;
  cache_size : Z;
  enable_gpu : bool;
  enable_webgl : bool;
  enable_webrtc : bool;
  enable_sandbox : bool;
  max_workers : Z
}.

(** The default configuration of [browser_engine_create]. *)
Definition default_config : browser_config_t :=
  {| max_tabs := 100; js_heap_size := 256 * 1024 * 1024;
     cache_size := 100 * 1024 * 1024;
     enable_gpu := true; enable_webgl := true; enable_webrtc := true;
     enable_sandbox := true; max_workers := 4 |}.

(** A [browser_tab_t*] that is not NULL is the address of a tab object. *)
Definition addr := nat.

(** A tab object: [id] and the members of [Engine.browser_tab_t]
    ([js_context] and [render_tree] are left out). *)
Record tab_object := mk_tab_object {
  id : Z;
  page : browser_tab_t
}.

(** [browser_engine_t], the members the tab functions use: the
    configuration and [tabs.tabs] (the array, a slot is NULL or an
    address), [tabs.tab_count], [tabs.active_tab]. *)
Record browser_engine_t := mk_engine {
  config : browser_config_t;
  tabs : list (option addr);
  tab_count : Z;
  active_tab : Z
}.

(** An engine and the tab objects that are allocated. *)
Record machine := mk_machine {
  engine : browser_engine_t;
  heap : gmap addr tab_object
}.

(** [browser_engine_create]: [config = None] is a NULL configuration; the
    booleans tell whether the two [calloc] calls succeed.  [None] is the
    NULL result. *)
Definition browser_engine_create (cfg : option browser_config_t)
    (engine_alloc tabs_alloc : bool) : option browser_engine_t :=
  if negb engine_alloc then None
  else
    let c := match cfg with Some c => c | None => default_config end in
    if negb tabs_alloc then None
    else Some {| config := c; tabs := replicate (Z.to_nat (max_tabs c)) None;
                 tab_count := 0; active_tab := 0 |}.

(** [browser_engine_init], with a non-null engine: the booleans tell
    whether [html_parser_create], the [calloc] of the CSS parser,
    [js_engine_create] and the [calloc] of the rendering engine succeed.
    The members it fills are not part of [browser_engine_t] here; the
    result is the returned status. *)
Definition browser_engine_init (html_ok css_ok js_ok render_ok : bool) : Z :=
  if negb html_ok then -1
  else if negb css_ok then -1
  else if negb js_ok then -1
  else if negb render_ok then -1
  else 0.

(** [browser_create_tab], with a non-null engine.  [tab] is what
    [calloc] returns for the tab, the booleans tell whether
    [js_engine_create] and [dom_document_create] succeed.  The result is
    the machine and the pointer returned; [None] stands for undefined
    behaviour (a write outside the array). *)
Definition browser_create_tab (m : machine) (tab : option addr) (js_ok doc_ok : bool)
  : option (machine * option addr) :=
  let e := engine m in
  if max_tabs (config e) <=? tab_count e then Some (m, None)
  else
    match tab with
    | None => Some (m, None)
    | Some a =>
        if negb js_ok then Some (m, None)
        else if negb doc_ok then Some (m, None)
        else
          let t := {| id := tab_count e; page := browser_create_tab_navigation |} in
          if bool_decide (Z.to_nat (tab_count e) < length (tabs e))%nat
          then
            let cnt := wrap32 (tab_count e + 1) in
            Some ({| engine := {| config := config e;
                                  tabs := <[Z.to_nat (tab_count e) := Some a]> (tabs e);
                                  tab_count := cnt;
                                  active_tab := wrap32 (cnt - 1) |};
                     heap := <[a := t]> (heap m) |},
                  Some a)
          else None
    end.

(** [browser_get_active_tab], with a non-null engine; [None] stands for a
    read outside the array. *)
Definition browser_get_active_tab (m : machine) : option (option addr) :=
  let e := engine m in
  if tab_count e =? 0 then Some None
  else if tab_count e <=? active_tab e then Some None
  else tabs e !! Z.to_nat (active_tab e).

(** The first loop of [browser_close_tab], from slot [i] with [k] slots to
    go: the first tab with the identifier, with its slot.  [None] stands
    for undefined behaviour: a slot outside the array, or one that holds
    NULL or the address of no tab object, is dereferenced. *)
Fixpoint find_tab (h : gmap addr tab_object) (ts : list (option addr)) (tab_id : Z)
    (i k : nat) : option (option (nat * addr)) :=
  match k with
  | O => Some None
  | S k' =>
      match ts !! i with
      | Some (Some a) =>
          match h !! a with
          | Some t => if id t =? tab_id then Some (Some (i, a))
                      else find_tab h ts tab_id (S i) k'
          | None => None
          end
      | _ => None
      end
  end.

(** The loop that removes the slot [i] from the array, [k] iterations:
    [tabs[i] = tabs[i + 1]]. *)
Fixpoint shift_tabs (ts : list (option addr)) (i k : nat) : option (list (option addr)) :=
  match k with
  | O => Some ts
  | S k' =>
      match ts !! S i with
      | Some p => shift_tabs (<[i := p]> ts) (S i) k'
      | None => None
      end
  end.

(** The loop of [browser_close_tab] that frees the entries of the history
    reads the slots below [history_count]: they have to be slots of the
    history. *)
Definition history_readable (t : tab_object) : bool :=
  bool_decide (Z.to_nat (history_count (page t)) <= length (history (page t)))%nat.

(** [browser_close_tab], with a non-null engine.  The strings and the
    members of the tab are freed with the tab object. *)
Definition browser_close_tab (m : machine) (tab_id : Z) : option machine :=
  let e := engine m in
  match find_tab (heap m) (tabs e) tab_id 0 (Z.to_nat (tab_count e)) with
  | None => None
  | Some None => Some m
  | Some (Some (tab_index, a)) =>
      match heap m !! a with
      | None => None
      | Some t =>
          if negb (history_readable t) then None
          else
            let h := delete a (heap m) in
            match shift_tabs (tabs e) tab_index
                    (Z.to_nat (wrap32 (tab_count e - 1)) - tab_index) with
            | None => None
            | Some ts =>
                let cnt := wrap32 (tab_count e - 1) in
                let act := if (cnt <=? active_tab e) && (0 <? cnt)
                           then wrap32 (cnt - 1) else active_tab e in
                Some {| engine := {| config := config e; tabs := ts;
                                     tab_count := cnt; active_tab := act |};
                        heap := h |}
            end
      end
  end.

(** The loop of [browser_engine_shutdown] that closes the tabs, at most
    [fuel] times; the boolean tells whether the loop has ended.  The
    statements after the loop free members of the engine that are not
    part of [browser_engine_t] here. *)
Fixpoint browser_engine_shutdown (fuel : nat) (m : machine) : option (machine * bool) :=
  if tab_count (engine m) =? 0 then Some (m, true)
  else
    match fuel with
    | O => Some (m, false)
    | S fuel' =>
        match tabs (engine m) !! 0%nat with
        | Some (Some a) =>
            match heap m !! a with
            | Some t =>
                match browser_close_tab m (id t) with
                | Some m' => browser_engine_shutdown fuel' m'
                | None => None
                end
            | None => None
            end
        | _ => None
        end
    end.

(** The tabs of an engine: the slots below [tab_count]. *)
Definition live_tabs (m : machine) : list (option addr) :=
  take (Z.to_nat (tab_count (engine m))) (tabs (engine m)).

(** Is the slot the address of a tab object? *)
Definition allocated (h : gmap addr tab_object) (p : option addr) : Prop :=
  match p with
  | Some a => is_Some (h !! a)
  | None => False
  end.

#[global] Instance allocated_dec h p : Decision (allocated h p).
Proof. destruct p; simpl; apply _. Defined.

#[global] Instance tab_inv_dec t : Decision (History.tab_inv t).
Proof. unfold History.tab_inv. apply _. Defined.

(** A well-formed machine: the array has [max_tabs] slots, the count is
    within it, the tabs of the engine are distinct tab objects, the
    active tab is one of them, and the history of every tab object has
    the shape [History.tab_inv]. *)
Definition engine_ok (m : machine) : Prop :=
  let e := engine m in
  0 <= max_tabs (config e) < 2 ^ 32 /\
  length (tabs e) = Z.to_nat (max_tabs (config e)) /\
  0 <= tab_count e <= max_tabs (config e) /\
  Forall (allocated (heap m)) (live_tabs m) /\
  NoDup (live_tabs m) /\
  0 <= active_tab e /\ (tab_count e = 0 \/ active_tab e < tab_count e) /\
  map_Forall (fun _ t => History.tab_inv (page t)) (heap m).

(** [tabs[i]->id] for a slot that holds the address of a tab object. *)
Definition tab_id_of (h : gmap addr tab_object) (p : option addr) : option Z :=
  a ← p; id <$> h !! a.

(** The identifiers of the tabs of an engine, in the order of the array. *)
Definition tab_ids (m : machine) : list (option Z) :=
  tab_id_of (heap m) <$> live_tabs m.

(** A slot that holds a tab object with another identifier. *)
Definition other_id (h : gmap addr tab_object) (tab_id : Z) (p : option addr) : Prop :=
  allocated h p /\ tab_id_of h p <> Some tab_id.

(** A tab object as [browser_create_tab] leaves it. *)
Definition new_tab (i : Z) : tab_object :=
  {| id := i; page := browser_create_tab_navigation |}.

(** An engine with three tabs, the second one active. *)
Definition three_tabs : machine :=
  {| engine := {| config := default_config;
                  tabs := [Some 10%nat; Some 11%nat; Some 12%nat] ++ replicate 97 None;
                  tab_count := 3; active_tab := 1 |};
     heap := {[ 10%nat := new_tab 0; 11%nat := new_tab 1; 12%nat := new_tab 2 ]} |}.

End Tabs.

(* ===================================================================== *)
(** * Part I-d: [main.c], the command line                               *)
(* ===================================================================== *)

Module Main.
Import Engine Tabs.

Local Open Scope Z_scope.

(** [browser_options_t]; a [char*] member is NULL or a string. *)
Record browser_options_t := mk_options {
  initial_url : option string;
  private_mode : bool;
  fullscreen : bool;
  width : Z;
  height : Z;
  profile_path : option string;
  no_sandbox : bool;
  disable_gpu : bool;
  disable_js : bool;
  user_agent : option string;
  proxy : option string;
  show_devtools : bool
}.

(** What [parse_arguments] prints before [exit(0)]. *)
Inductive exit_message := Usage | Version.

(** [strncmp(s, lit, n) == 0], with [n] the length of the literal. *)
Definition strncmp_eq (s lit : string) : bool := String.prefix lit s.

(** [s + n], for a string with at least [n] characters. *)
Fixpoint after (n : nat) (s : string) : string :=
  match n, s with
  | O, _ => s
  | S n', String _ r => after n' r
  | S _, EmptyString => EmptyString
  end.

(** [s[0] != '-']; the first character of the empty string is the
    terminator. *)
Definition not_dash (s : string) : bool :=
  match s with
  | String c _ => negb (Ascii.eqb c "-"%char)
  | EmptyString => true
  end.

Section Libc.

(** [atoi] of the C library. *)
Variable atoi : string -> Z.

(** The body of the loop of [parse_arguments], for the argument [a]. *)
Definition parse_argument (a : string) (o : browser_options_t)
  : exit_message + browser_options_t :=
  if (a =? "-h")%string || (a =? "--help")%string then inl Usage
  else if (a =? "-v")%string || (a =? "--version")%string then inl Version
  else if (a =? "-p")%string || (a =? "--private")%string then
    inr (mk_options (initial_url o) true (fullscreen o) (width o) (height o)
           (profile_path o) (no_sandbox o) (disable_gpu o) (disable_js o)
           (user_agent o) (proxy o) (show_devtools o))
  else if (a =? "-f")%string || (a =? "--fullscreen")%string then
    inr (mk_options (initial_url o) (private_mode o) true (width o) (height o)
           (profile_path o) (no_sandbox o) (disable_gpu o) (disable_js o)
           (user_agent o) (proxy o) (show_devtools o))
  else if strncmp_eq a "--width=" then
    inr (mk_options (initial_url o) (private_mode o) (fullscreen o)
           (wrap32 (atoi (after 8 a))) (height o)
           (profile_path o) (no_sandbox o) (disable_gpu o) (disable_js o)
           (user_agent o) (proxy o) (show_devtools o))
  else if strncmp_eq a "--height=" then
    inr (mk_options (initial_url o) (private_mode o) (fullscreen o)
           (width o) (wrap32 (atoi (after 9 a)))
           (profile_path o) (no_sandbox o) (disable_gpu o) (disable_js o)
           (user_agent o) (proxy o) (show_devtools o))
  else if strncmp_eq a "--profile=" then
    inr (mk_options (initial_url o) (private_mode o) (fullscreen o) (width o) (height o)
           (Some (after 10 a)) (no_sandbox o) (disable_gpu o) (disable_js o)
           (user_agent o) (proxy o) (show_devtools o))
  else if (a =? "--no-sandbox")%string then
    inr (mk_options (initial_url o) (private_mode o) (fullscreen o) (width o) (height o)
           (profile_path o) true (disable_gpu o) (disable_js o)
           (user_agent o) (proxy o) (show_devtools o))
  else if (a =? "--disable-gpu")%string then
    inr (mk_options (initial_url o) (private_mode o) (fullscreen o) (width o) (height o)
           (profile_path o) (no_sandbox o) true (disable_js o)
           (user_agent o) (proxy o) (show_devtools o))
  else if (a =? "--disable-js")%string then
    inr (mk_options (initial_url o) (private_mode o) (fullscreen o) (width o) (height o)
           (profile_path o) (no_sandbox o) (disable_gpu o) true
           (user_agent o) (proxy o) (show_devtools o))
  else if strncmp_eq a "--user-agent=" then
    inr (mk_options (initial_url o) (private_mode o) (fullscreen o) (width o) (height o)
           (profile_path o) (no_sandbox o) (disable_gpu o) (disable_js o)
           (Some (after 13 a)) (proxy o) (show_devtools o))
  else if strncmp_eq a "--proxy=" then
    inr (mk_options (initial_url o) (private_mode o) (fullscreen o) (width o) (height o)
           (profile_path o) (no_sandbox o) (disable_gpu o) (disable_js o)
           (user_agent o) (Some (after 8 a)) (show_devtools o))
  else if (a =? "--devtools")%string then
    inr (mk_options (initial_url o) (private_mode o) (fullscreen o) (width o) (height o)
           (profile_path o) (no_sandbox o) (disable_gpu o) (disable_js o)
           (user_agent o) (proxy o) true)
  else if not_dash a then
    inr (mk_options (Some a) (private_mode o) (fullscreen o) (width o) (height o)
           (profile_path o) (no_sandbox o) (disable_gpu o) (disable_js o)
           (user_agent o) (proxy o) (show_devtools o))
  else inr o.

(** The loop of [parse_arguments] over [argv[1]], [argv[2]], ... *)
Fixpoint parse_arguments_loop (args : list string) (o : browser_options_t)
  : exit_message + browser_options_t :=
  match args with
  | [] => inr o
  | a :: rest =>
      match parse_argument a o with
      | inl e => inl e
      | inr o' => parse_arguments_loop rest o'
      end
  end.

(** The initial value of [options] in [parse_arguments]. *)
Definition initial_options : browser_options_t :=
  mk_options None false false 1280 720 None false false false None None false.

(** [parse_arguments]: [inl] is [exit(0)] after the message, [inr] the
    options returned.  [argv] has [argc] entries. *)
Definition parse_arguments (argv : list string) : exit_message + browser_options_t :=
  match parse_arguments_loop (drop 1 argv) initial_options with
  | inl e => inl e
  | inr o =>
      match initial_url o with
      | None =>
          inr (mk_options (Some "about:blank") (private_mode o) (fullscreen o)
                 (width o) (height o) (profile_path o) (no_sandbox o)
                 (disable_gpu o) (disable_js o) (user_agent o) (proxy o)
                 (show_devtools o))
      | Some _ => inr o
      end
  end.

End Libc.

(** [init_browser_engine]: the booleans are the outcomes of the
    allocations of [browser_engine_create] and [browser_engine_init];
    [None] is the NULL result. *)
Definition init_browser_engine (options : browser_options_t)
    (engine_alloc tabs_alloc html_ok css_ok js_ok render_ok : bool)
  : option browser_engine_t :=
  let config :=
    {| max_tabs := 100; js_heap_size := 256 * 1024 * 1024;
       cache_size := 100 * 1024 * 1024;
       enable_gpu := negb (disable_gpu options);
       enable_webgl := negb (disable_gpu options);
       enable_webrtc := true;
       enable_sandbox := negb (no_sandbox options);
       max_workers := 4 |} in
  match browser_engine_create (Some config) engine_alloc tabs_alloc with
  | None => None
  | Some e =>
      if negb (browser_engine_init html_ok css_ok js_ok render_ok =? 0) then None
      else Some e
  end.

(** The arguments that make [parse_arguments] leave the program. *)
Definition leaves (a : string) : Prop :=
  a = "-h" \/ a = "--help" \/ a = "-v" \/ a = "--version".

#[global] Instance leaves_dec a : Decision (leaves a).
Proof. unfold leaves. apply _. Defined.

(** A command line, with a constant for [atoi], and the options it gives. *)
Definition sample_argv : list string :=
  ["browser"; "--width=800"; "-p"; "http://a"; "--disable-gpu"; "http://b"; "--width"].

Definition sample_atoi (s : string) : Z := 800.

Definition sample_options : browser_options_t :=
  mk_options (Some "http://b") true false 800 720 None false true false None None false.

End Main.

(* ===================================================================== *)
(** * Part II: declarations of [html/parser.h]                           *)
(* ===================================================================== *)

(** [html_tokenizer_state_t] *)
Inductive html_tokenizer_state_t :=
| STATE_DATA
| STATE_TAG_OPEN
| STATE_END_TAG_OPEN
| STATE_TAG_NAME
| STATE_BEFORE_ATTRIBUTE_NAME
| STATE_ATTRIBUTE_NAME
| STATE_AFTER_ATTRIBUTE_NAME
| STATE_BEFORE_ATTRIBUTE_VALUE
| STATE_ATTRIBUTE_VALUE_DOUBLE_QUOTED
| STATE_ATTRIBUTE_VALUE_SINGLE_QUOTED
| STATE_ATTRIBUTE_VALUE_UNQUOTED
| STATE_AFTER_ATTRIBUTE_VALUE_QUOTED
| STATE_SELF_CLOSING_START_TAG
| STATE_COMMENT_START
| STATE_COMMENT
| STATE_COMMENT_END
| STATE_DOCTYPE
| STATE_SCRIPT_DATA
| STATE_STYLE_DATA
| STATE_CDATA_SECTION.

(** [html_token_type_t] *)
Inductive html_token_type_t :=
| TOKEN_DOCTYPE
| TOKEN_START_TAG
| TOKEN_END_TAG
| TOKEN_SELF_CLOSING_TAG
| TOKEN_COMMENT
| TOKEN_CHARACTER
| TOKEN_EOF.

(** [html_insertion_mode_t] *)
Inductive html_insertion_mode_t :=
| MODE_INITIAL
| MODE_BEFORE_HTML
| MODE_BEFORE_HEAD
| MODE_IN_HEAD
| MODE_AFTER_HEAD
| MODE_IN_BODY
| MODE_AFTER_BODY
| MODE_AFTER_AFTER_BODY
| MODE_IN_TABLE
| MODE_IN_TABLE_BODY
| MODE_IN_ROW
| MODE_IN_CELL
| MODE_IN_SELECT
| MODE_IN_TEMPLATE
| MODE_IN_FRAMESET
| MODE_AFTER_FRAMESET.

(** [html_parse_error_t] *)
Inductive html_parse_error_t :=
| HTML_ERROR_UNEXPECTED_TOKEN
| HTML_ERROR_UNEXPECTED_EOF
| HTML_ERROR_MISSING_END_TAG
| HTML_ERROR_NESTED_FORM
| HTML_ERROR_INVALID_NESTING
| HTML_ERROR_DUPLICATE_ATTRIBUTE
| HTML_ERROR_INVALID_CHARACTER.

#[global] Instance html_tokenizer_state_eq_dec : EqDecision html_tokenizer_state_t.
Proof. solve_decision. Defined.
#[global] Instance html_token_type_eq_dec : EqDecision html_token_type_t.
Proof. solve_decision. Defined.
#[global] Instance html_insertion_mode_eq_dec : EqDecision html_insertion_mode_t.
Proof. solve_decision. Defined.
#[global] Instance html_parse_error_eq_dec : EqDecision html_parse_error_t.
Proof. solve_decision. Defined.

Module Decl.

(** The enumerators of [html_insertion_mode_t], in declaration order. *)
Definition all_modes : list html_insertion_mode_t :=
  [ MODE_INITIAL; MODE_BEFORE_HTML; MODE_BEFORE_HEAD; MODE_IN_HEAD;
    MODE_AFTER_HEAD; MODE_IN_BODY; MODE_AFTER_BODY; MODE_AFTER_AFTER_BODY;
    MODE_IN_TABLE; MODE_IN_TABLE_BODY; MODE_IN_ROW; MODE_IN_CELL;
    MODE_IN_SELECT; MODE_IN_TEMPLATE; MODE_IN_FRAMESET; MODE_AFTER_FRAMESET ].

(** The name of a mode: its enumerator without the [MODE_] prefix, in lower
    case, with dashes for underscores. *)
Definition mode_name (m : html_insertion_mode_t) : string :=
  match m with
  | MODE_INITIAL => "initial"
  | MODE_BEFORE_HTML => "before-html"
  | MODE_BEFORE_HEAD => "before-head"
  | MODE_IN_HEAD => "in-head"
  | MODE_AFTER_HEAD => "after-head"
  | MODE_IN_BODY => "in-body"
  | MODE_AFTER_BODY => "after-body"
  | MODE_AFTER_AFTER_BODY => "after-after-body"
  | MODE_IN_TABLE => "in-table"
  | MODE_IN_TABLE_BODY => "in-table-body"
  | MODE_IN_ROW => "in-row"
  | MODE_IN_CELL => "in-cell"
  | MODE_IN_SELECT => "in-select"
  | MODE_IN_TEMPLATE => "in-template"
  | MODE_IN_FRAMESET => "in-frameset"
  | MODE_AFTER_FRAMESET => "after-frameset"
  end.

(** The insertion modes as the specification enumerates them (section 3,
    InsertionMode); this list follows the specification's words and is
    compared with [all_modes] below. *)
Definition spec_insertion_modes : list string :=
  [ "initial"; "before-html"; "before-head"; "in-head"; "after-head";
    "in-body"; "text"; "in-table"; "in-table-body"; "in-row"; "in-cell";
    "in-caption"; "in-column-group"; "in-select"; "in-select-in-table";
    "in-template"; "after-body"; "in-frameset"; "after-frameset";
    "after-after-body"; "after-after-frameset" ].

(** Types of the members of [html_parser_t]. *)
Inductive c_type :=
| T_bool
| T_uint32
| T_insertion_mode                      (* html_insertion_mode_t *)
| T_struct (name : string)
| T_ptr (t : c_type).

#[global] Instance c_type_eq_dec : EqDecision c_type.
Proof. solve_decision. Defined.

(** The member declarations of [html_parser_t], in order. *)
Definition html_parser_t_members : list (string * c_type) :=
  [ ("tokenizer", T_ptr (T_struct "html_tokenizer_t"));
    ("mode", T_insertion_mode);
    ("open_elements", T_ptr (T_ptr (T_struct "dom_element")));
    ("open_elements_count", T_uint32);
    ("active_formatting", T_ptr (T_ptr (T_struct "dom_element")));
    ("active_formatting_count", T_uint32);
    ("document", T_ptr (T_struct "dom_document"));
    ("head_element", T_ptr (T_struct "dom_element"));
    ("form_element", T_ptr (T_struct "dom_element"));
    ("scripting_enabled", T_bool);
    ("fragment_parsing", T_bool) ].

(** Members that can hold one insertion mode, and members that can hold a
    sequence of insertion modes (a pointer to them). *)
Definition mode_slots : list string :=
  (filter (fun d => d.2 = T_insertion_mode) html_parser_t_members).*1.
Definition mode_stacks : list string :=
  (filter (fun d => d.2 = T_ptr T_insertion_mode) html_parser_t_members).*1.

(** The claim as the specification words it: the modes are the 21 listed
    ones, and the parser record has room for an original insertion mode
    besides the current one and for a stack of template insertion modes. *)
Definition modes_as_specified : Prop :=
  (forall n, n ∈ spec_insertion_modes <-> exists m, mode_name m = n) /\
  (exists s, s ∈ mode_slots /\ s <> "mode") /\
  mode_stacks <> [].

End Decl.

(* ===================================================================== *)
(** * Part III: the tokenizer                                            *)
(* ===================================================================== *)

Module Tokenizer.

(** [html_token_t].  [attribute_count] is the length of [attributes]. *)
Record html_token_t := mk_token {
  type : html_token_type_t;
  tag_name : string;
  attributes : list (string * string);
  data : string;
  self_closing : bool
}.

Definition attribute_count (t : html_token_t) : nat := length (attributes t).

(** [html_tokenizer_t].  [input] is the character array, of which the
    first [length] characters are read; [buffer_size] is the length of
    [buffer]. *)
Record html_tokenizer_t := mk_tokenizer {
  input : list ascii;
  position : nat;
  length : nat;
  state : html_tokenizer_state_t;
  current_token : option html_token_t;
  buffer : string
}.

(** ** Character classes (specification 4.1: whitespace, "<", ">", "/",
    "=", quote, EOF, any other) *)

Definition is_whitespace (c : ascii) : bool :=
  let n := nat_of_ascii c in
  (n =? 9)%nat || (n =? 10)%nat || (n =? 12)%nat || (n =? 13)%nat || (n =? 32)%nat.

Definition is_upper (c : ascii) : bool :=
  let n := nat_of_ascii c in (65 <=? n)%nat && (n <=? 90)%nat.

Definition is_alpha (c : ascii) : bool :=
  let n := nat_of_ascii c in
  is_upper c || ((97 <=? n)%nat && (n <=? 122)%nat).

Definition lower (c : ascii) : ascii :=
  if is_upper c then ascii_of_nat (nat_of_ascii c + 32) else c.

Definition double_quote : ascii := ascii_of_nat 34.
Definition str (c : ascii) : string := String c EmptyString.
Definition snoc (s : string) (c : ascii) : string := s +:+ str c.

(** Does the lookahead [look] start with the letters [w], in any case? *)
Definition starts_with_ci (w : string) (look : list ascii) : bool :=
  bool_decide (lower <$> take (String.length w) look = list_ascii_of_string w).

(** ** Tokens under construction *)

(** The token being built, the attribute being built ([p_attr] says
    whether there is one) and whether a comment is a bogus one, which ends
    at the first ">". *)
Record pending := mk_pending {
  p_tok : html_token_t;
  p_name : string;
  p_value : string;
  p_attr : bool;
  p_bogus : bool
}.

Definition new_token (ty : html_token_type_t) (name : string) : html_token_t :=
  mk_token ty name [] "" false.
Definition char_token (s : string) : html_token_t :=
  mk_token TOKEN_CHARACTER "" [] s false.
Definition eof_token : html_token_t := new_token TOKEN_EOF "".

Definition start_pending (ty : html_token_type_t) (name : string) : pending :=
  mk_pending (new_token ty name) "" "" false false.
Definition bogus_pending (d : string) : pending :=
  mk_pending (mk_token TOKEN_COMMENT "" [] d false) "" "" false true.

Definition attribute_names (t : html_token_t) : list string := (attributes t).*1.

(** Modelled from the spec: the body of the tokenizer is not in the source
    tree.  Section 3: "attribute names within one StartTag are unique --
    duplicates are dropped, first occurrence wins, and this is a reportable
    parse error".  A finished attribute is added to the token unless its
    name is already there. *)
Definition commit (p : pending) : html_token_t * list html_parse_error_t :=
  let t := p_tok p in
  if p_attr p then
    if bool_decide (p_name p ∈ attribute_names t)
    then (t, [HTML_ERROR_DUPLICATE_ATTRIBUTE])
    else (mk_token (type t) (tag_name t) (attributes t ++ [(p_name p, p_value p)])
                   (data t) (self_closing t), [])
  else (t, []).

Definition committed (p : pending) : pending :=
  mk_pending (commit p).1 "" "" false (p_bogus p).

Definition name_snoc (p : pending) (c : ascii) : pending :=
  mk_pending (p_tok p) (snoc (p_name p) c) (p_value p) (p_attr p) (p_bogus p).
Definition value_snoc (p : pending) (c : ascii) : pending :=
  mk_pending (p_tok p) (p_name p) (snoc (p_value p) c) (p_attr p) (p_bogus p).
Definition tag_name_snoc (p : pending) (c : ascii) : pending :=
  let t := p_tok p in
  mk_pending (mk_token (type t) (snoc (tag_name t) c) (attributes t) (data t)
                       (self_closing t))
             (p_name p) (p_value p) (p_attr p) (p_bogus p).
Definition data_append (p : pending) (s : string) : pending :=
  let t := p_tok p in
  mk_pending (mk_token (type t) (tag_name t) (attributes t) (data t +:+ s)
                       (self_closing t))
             (p_name p) (p_value p) (p_attr p) (p_bogus p).

(** Start a new attribute whose name begins with [c], after the one being
    built, if any, has been committed. *)
Definition new_attribute (p : pending) (c : ascii) : pending :=
  mk_pending (commit p).1 (str (lower c)) "" true (p_bogus p).

(** "/>": the tag is self-closing; a start tag becomes a
    [TOKEN_SELF_CLOSING_TAG]. *)
Definition set_self_closing (p : pending) : pending :=
  let t := p_tok p in
  mk_pending (mk_token (match type t with
                        | TOKEN_START_TAG => TOKEN_SELF_CLOSING_TAG
                        | ty => ty
                        end)
                       (tag_name t) (attributes t) (data t) true)
             (p_name p) (p_value p) (p_attr p) (p_bogus p).

(** ** One step of the state machine *)

(** What one step does: emit a token (leaving the tokenizer in state [st],
    with the current character consumed or not), or go on in state [st]
    after skipping [skip] more characters that the lookahead has matched. *)
Inductive action :=
| Emit (tok : html_token_t) (st : html_tokenizer_state_t)
       (errs : list html_parse_error_t) (consumed : bool)
| Continue (st : html_tokenizer_state_t) (p : pending)
           (errs : list html_parse_error_t) (skip : nat).

Definition emit_tag (p : pending) : action :=
  Emit (commit p).1 STATE_DATA (commit p).2 true.

(** "before attribute name" on a character that is neither whitespace nor
    "/" nor ">": a new attribute starts. *)
Definition before_attribute_name (p : pending) (c : ascii) : action :=
  if is_whitespace c then Continue STATE_BEFORE_ATTRIBUTE_NAME (committed p) (commit p).2 0
  else if (c =? "/")%char then Continue STATE_SELF_CLOSING_START_TAG (committed p) (commit p).2 0
  else if (c =? ">")%char then emit_tag p
  else Continue STATE_ATTRIBUTE_NAME (new_attribute p c)
         ((commit p).2 ++ if (c =? "=")%char then [HTML_ERROR_INVALID_CHARACTER] else []) 0.

(** After "<!": a comment, a doctype, or a bogus comment. *)
Definition markup_declaration_open (look : list ascii) : action :=
  if starts_with_ci "--" look
  then Continue STATE_COMMENT_START (start_pending TOKEN_COMMENT "") [] 2
  else if starts_with_ci "doctype" look
  then Continue STATE_DOCTYPE (start_pending TOKEN_DOCTYPE "") [] 7
  else Continue STATE_COMMENT (bogus_pending "") [HTML_ERROR_INVALID_CHARACTER] 0.

Definition comment_step (p : pending) (c : ascii) (look : list ascii) : action :=
  if p_bogus p then
    if (c =? ">")%char then Emit (p_tok p) STATE_DATA [] true
    else Continue STATE_COMMENT (data_append p (str c)) [] 0
  else if (c =? "-")%char && starts_with_ci "-" look
  then Continue STATE_COMMENT_END p [] 1
  else Continue STATE_COMMENT (data_append p (str c)) [] 0.

(** Raw text ("script data", "style data"): only the matching end tag,
    compared without case, is markup. *)
Definition raw_text_step (st : html_tokenizer_state_t) (name : string)
    (c : ascii) (look : list ascii) : action :=
  let n := String.length name in
  if (c =? "<")%char && starts_with_ci ("/" +:+ name) look
     && match look !! S n with
        | Some d => is_whitespace d || (d =? "/")%char || (d =? ">")%char
        | None => false
        end
  then Continue STATE_TAG_NAME (start_pending TOKEN_END_TAG name) [] (S n)
  else Emit (char_token (str c)) st [] true.

(** Modelled from the spec: the body of [html_tokenizer_next_token] is not
    in the source tree.  Section 4.1: the transition out of a state is
    driven by the class of the next character (whitespace, "<", ">", "/",
    "=", quote, any other), with the bounded lookahead that tells "<!--",
    "<!DOCTYPE" and the end tag of a raw-text element apart.  The states are
    those of [html_tokenizer_state_t]. *)
Definition step (st : html_tokenizer_state_t) (p : pending) (c : ascii)
    (look : list ascii) : action :=
  match st with
  | STATE_DATA =>
      if (c =? "<")%char then Continue STATE_TAG_OPEN p [] 0
      else Emit (char_token (str c)) STATE_DATA [] true
  | STATE_TAG_OPEN =>
      if (c =? "!")%char then markup_declaration_open look
      else if (c =? "/")%char then Continue STATE_END_TAG_OPEN p [] 0
      else if is_alpha c
      then Continue STATE_TAG_NAME (start_pending TOKEN_START_TAG (str (lower c))) [] 0
      else if (c =? "?")%char
      then Continue STATE_COMMENT (bogus_pending (str c)) [HTML_ERROR_INVALID_CHARACTER] 0
      else Emit (char_token "<") STATE_DATA [HTML_ERROR_INVALID_CHARACTER] false
  | STATE_END_TAG_OPEN =>
      if is_alpha c
      then Continue STATE_TAG_NAME (start_pending TOKEN_END_TAG (str (lower c))) [] 0
      else if (c =? ">")%char
      then Continue STATE_DATA p [HTML_ERROR_MISSING_END_TAG] 0
      else Continue STATE_COMMENT (bogus_pending (str c)) [HTML_ERROR_INVALID_CHARACTER] 0
  | STATE_TAG_NAME =>
      if is_whitespace c then Continue STATE_BEFORE_ATTRIBUTE_NAME p [] 0
      else if (c =? "/")%char then Continue STATE_SELF_CLOSING_START_TAG p [] 0
      else if (c =? ">")%char then emit_tag p
      else Continue STATE_TAG_NAME (tag_name_snoc p (lower c)) [] 0
  | STATE_BEFORE_ATTRIBUTE_NAME => before_attribute_name p c
  | STATE_ATTRIBUTE_NAME =>
      if is_whitespace c then Continue STATE_AFTER_ATTRIBUTE_NAME p [] 0
      else if (c =? "/")%char
      then Continue STATE_SELF_CLOSING_START_TAG (committed p) (commit p).2 0
      else if (c =? "=")%char then Continue STATE_BEFORE_ATTRIBUTE_VALUE p [] 0
      else if (c =? ">")%char then emit_tag p
      else Continue STATE_ATTRIBUTE_NAME (name_snoc p (lower c)) [] 0
  | STATE_AFTER_ATTRIBUTE_NAME =>
      if is_whitespace c then Continue STATE_AFTER_ATTRIBUTE_NAME p [] 0
      else if (c =? "/")%char
      then Continue STATE_SELF_CLOSING_START_TAG (committed p) (commit p).2 0
      else if (c =? "=")%char then Continue STATE_BEFORE_ATTRIBUTE_VALUE p [] 0
      else if (c =? ">")%char then emit_tag p
      else Continue STATE_ATTRIBUTE_NAME (new_attribute p c) (commit p).2 0
  | STATE_BEFORE_ATTRIBUTE_VALUE =>
      if is_whitespace c then Continue STATE_BEFORE_ATTRIBUTE_VALUE p [] 0
      else if (c =? double_quote)%char then Continue STATE_ATTRIBUTE_VALUE_DOUBLE_QUOTED p [] 0
      else if (c =? "'")%char then Continue STATE_ATTRIBUTE_VALUE_SINGLE_QUOTED p [] 0
      else if (c =? ">")%char
      then Emit (commit p).1 STATE_DATA (HTML_ERROR_INVALID_CHARACTER :: (commit p).2) true
      else Continue STATE_ATTRIBUTE_VALUE_UNQUOTED (value_snoc p c) [] 0
  | STATE_ATTRIBUTE_VALUE_DOUBLE_QUOTED =>
      if (c =? double_quote)%char
      then Continue STATE_AFTER_ATTRIBUTE_VALUE_QUOTED (committed p) (commit p).2 0
      else Continue STATE_ATTRIBUTE_VALUE_DOUBLE_QUOTED (value_snoc p c) [] 0
  | STATE_ATTRIBUTE_VALUE_SINGLE_QUOTED =>
      if (c =? "'")%char
      then Continue STATE_AFTER_ATTRIBUTE_VALUE_QUOTED (committed p) (commit p).2 0
      else Continue STATE_ATTRIBUTE_VALUE_SINGLE_QUOTED (value_snoc p c) [] 0
  | STATE_ATTRIBUTE_VALUE_UNQUOTED =>
      if is_whitespace c
      then Continue STATE_BEFORE_ATTRIBUTE_NAME (committed p) (commit p).2 0
      else if (c =? ">")%char then emit_tag p
      else Continue STATE_ATTRIBUTE_VALUE_UNQUOTED (value_snoc p c) [] 0
  | STATE_AFTER_ATTRIBUTE_VALUE_QUOTED =>
      if is_whitespace c || (c =? "/")%char || (c =? ">")%char
      then before_attribute_name p c
      else match before_attribute_name p c with
           | Continue st' p' e k => Continue st' p' (HTML_ERROR_INVALID_CHARACTER :: e) k
           | a => a
           end
  | STATE_SELF_CLOSING_START_TAG =>
      if (c =? ">")%char then emit_tag (set_self_closing p)
      else match before_attribute_name p c with
           | Continue st' p' e k => Continue st' p' (HTML_ERROR_INVALID_CHARACTER :: e) k
           | a => a
           end
  | STATE_COMMENT_START =>
      if (c =? ">")%char then Emit (p_tok p) STATE_DATA [HTML_ERROR_INVALID_CHARACTER] true
      else comment_step p c look
  | STATE_COMMENT => comment_step p c look
  | STATE_COMMENT_END =>
      if (c =? ">")%char then Emit (p_tok p) STATE_DATA [] true
      else if (c =? "-")%char then Continue STATE_COMMENT_END (data_append p "-") [] 0
      else Continue STATE_COMMENT (data_append p ("--" +:+ str c)) [] 0
  | STATE_DOCTYPE =>
      if (c =? ">")%char then Emit (p_tok p) STATE_DATA [] true
      else if is_whitespace c && bool_decide (tag_name (p_tok p) = "")
      then Continue STATE_DOCTYPE p [] 0
      else Continue STATE_DOCTYPE (tag_name_snoc p (lower c)) [] 0
  | STATE_SCRIPT_DATA => raw_text_step STATE_SCRIPT_DATA "script" c look
  | STATE_STYLE_DATA => raw_text_step STATE_STYLE_DATA "style" c look
  | STATE_CDATA_SECTION =>
      if (c =? "]")%char && starts_with_ci "]>" look
      then Continue STATE_DATA p [] 2
      else Emit (char_token (str c)) STATE_CDATA_SECTION [] true
  end.

(** The states in which no token is under construction. *)
Definition content_state (st : html_tokenizer_state_t) : bool :=
  match st with
  | STATE_DATA | STATE_SCRIPT_DATA | STATE_STYLE_DATA | STATE_CDATA_SECTION => true
  | _ => false
  end.

(** The states inside a tag, where the token under construction is a tag. *)
Definition tag_state (st : html_tokenizer_state_t) : bool :=
  match st with
  | STATE_TAG_NAME | STATE_BEFORE_ATTRIBUTE_NAME | STATE_ATTRIBUTE_NAME
  | STATE_AFTER_ATTRIBUTE_NAME | STATE_BEFORE_ATTRIBUTE_VALUE
  | STATE_ATTRIBUTE_VALUE_DOUBLE_QUOTED | STATE_ATTRIBUTE_VALUE_SINGLE_QUOTED
  | STATE_ATTRIBUTE_VALUE_UNQUOTED | STATE_AFTER_ATTRIBUTE_VALUE_QUOTED
  | STATE_SELF_CLOSING_START_TAG => true
  | _ => false
  end.

(** The states inside a comment or a doctype. *)
Definition comment_or_doctype_state (st : html_tokenizer_state_t) : bool :=
  match st with
  | STATE_COMMENT_START | STATE_COMMENT | STATE_COMMENT_END | STATE_DOCTYPE => true
  | _ => false
  end.

(** Modelled from the spec: end of input (body of
    [html_tokenizer_next_token] not in the source tree).  Section 4.1: "an
    unexpected EOF in any state still forces emission of whatever partial
    token is pending (unterminated tag, doctype, or comment) followed by an
    EOF token -- the tokenizer never raises a fatal error, only records a
    parse-error kind".  With nothing pending the token is [TOKEN_EOF]; a
    lone "<" or "</" is emitted as text. *)
Definition at_eof (st : html_tokenizer_state_t) (p : pending)
  : html_token_t * list html_parse_error_t :=
  match st with
  | STATE_DATA | STATE_SCRIPT_DATA | STATE_STYLE_DATA => (eof_token, [])
  | STATE_CDATA_SECTION => (eof_token, [HTML_ERROR_UNEXPECTED_EOF])
  | STATE_TAG_OPEN => (char_token "<", [HTML_ERROR_UNEXPECTED_EOF])
  | STATE_END_TAG_OPEN => (char_token "</", [HTML_ERROR_UNEXPECTED_EOF])
  | STATE_COMMENT_START | STATE_COMMENT | STATE_COMMENT_END | STATE_DOCTYPE =>
      (p_tok p, [HTML_ERROR_UNEXPECTED_EOF])
  | _ => ((commit p).1, HTML_ERROR_UNEXPECTED_EOF :: (commit p).2)
  end.

Definition state_after_eof (st : html_tokenizer_state_t) : html_tokenizer_state_t :=
  if content_state st then st else STATE_DATA.

(** Result of scanning up to the next token. *)
Record scan_result := mk_scan {
  r_token : html_token_t;
  r_state : html_tokenizer_state_t;
  r_errors : list html_parse_error_t;
  r_rest : list ascii
}.

(** The scanning loop: run [step] on the characters of [rest] until a token
    is emitted. *)
Fixpoint scan (skip : nat) (st : html_tokenizer_state_t) (p : pending)
    (errs : list html_parse_error_t) (rest : list ascii) : scan_result :=
  match rest with
  | [] => mk_scan (at_eof st p).1 (state_after_eof st) (errs ++ (at_eof st p).2) []
  | c :: rest' =>
      match skip with
      | S k => scan k st p errs rest'
      | O =>
          match step st p c rest' with
          | Emit tok st' e consumed =>
              mk_scan tok st' (errs ++ e) (if consumed then rest' else rest)
          | Continue st' p' e k => scan k st' p' (errs ++ e) rest'
          end
      end
  end.

(** The characters not yet read. *)
Definition remaining (tk : html_tokenizer_t) : list ascii :=
  drop (position tk) (take (length tk) (input tk)).

Definition pending_of (tk : html_tokenizer_t) : pending :=
  mk_pending (default (new_token TOKEN_START_TAG "") (current_token tk))
             (buffer tk) "" (negb (bool_decide (buffer tk = ""))) false.

(** [html_tokenizer_create] *)
Definition html_tokenizer_create (input : string) (length : nat) : html_tokenizer_t :=
  mk_tokenizer (list_ascii_of_string input) 0 length STATE_DATA None "".

(** Modelled from the spec: [html_tokenizer_next_token] (declared in
    [parser.h], body not in the source tree).  Section 4.1: "next_token() ->
    Token, called repeatedly until EndOfFile; internal cursor never rewinds
    except for the bounded lookahead".  Returns the tokenizer after the call,
    the token, and the parse errors recorded during the call. *)
Definition html_tokenizer_next_token (tk : html_tokenizer_t)
  : html_tokenizer_t * html_token_t * list html_parse_error_t :=
  let r := scan 0 (state tk) (pending_of tk) [] (remaining tk) in
  (mk_tokenizer (input tk)
                (position tk + (List.length (remaining tk) - List.length (r_rest r)))
                (length tk) (r_state r) None "",
   r_token r, r_errors r).

(** Call [html_tokenizer_next_token] up to [n] times, stopping after
    [TOKEN_EOF]. *)
Fixpoint tokens (n : nat) (tk : html_tokenizer_t) : list html_token_t :=
  match n with
  | O => []
  | S n' =>
      let '(tk', tok, _) := html_tokenizer_next_token tk in
      match type tok with
      | TOKEN_EOF => [tok]
      | _ => tok :: tokens n' tk'
      end
  end.

(** Enough calls for any tokenizer: two per unread character and two more. *)
Definition enough_calls (tk : html_tokenizer_t) : nat :=
  2 * List.length (remaining tk) + 2.

Definition tokenize (input : string) : list html_token_t :=
  let tk := html_tokenizer_create input (String.length input) in
  tokens (enough_calls tk) tk.

(** ** Properties of tokens and of tokenizer steps *)

(** The attribute names of a token are pairwise distinct. *)
Definition unique_names (t : html_token_t) : Prop := NoDup (attribute_names t).

(** The same for the token an action emits or goes on with. *)
Definition action_unique (a : action) : Prop :=
  match a with
  | Emit tok _ _ _ => unique_names tok
  | Continue _ p _ _ => unique_names (p_tok p)
  end.

(** An emitted token leaves the tokenizer in a content state. *)
Definition action_content (a : action) : Prop :=
  match a with
  | Emit _ st _ consumed =>
      content_state st = true
  | Continue _ _ _ _ => True
  end.

(** The measure that decreases from call to call. *)
Definition calls_left (tk : html_tokenizer_t) : nat :=
  2 * List.length (remaining tk) + (if content_state (state tk) then 0 else 1).

(** Every run of [tokens] with enough calls ends with [TOKEN_EOF], and
    has no [TOKEN_EOF] before. *)
Definition ends_with_eof (l : list html_token_t) : Prop :=
  exists l' t, l = l' ++ [t] /\ type t = TOKEN_EOF /\
               Forall (fun t => type t <> TOKEN_EOF) l'.

(** An action only adds attributes at the end of those of the token. *)
Definition action_extends (p : pending) (a : action) : Prop :=
  match a with
  | Emit tok _ _ _ => attributes (p_tok p) `prefix_of` attributes tok
  | Continue st' p' _ _ =>
      tag_state st' = true /\ attributes (p_tok p) `prefix_of` attributes (p_tok p')
  end.

End Tokenizer.

(* ===================================================================== *)
(** * Part IV: the node tree ([html/dom.h])                              *)
(* ===================================================================== *)

Module Dom.

(** [dom_node_type_t] *)
Inductive dom_node_type_t :=
| NODE_ELEMENT
| NODE_ATTRIBUTE
| NODE_TEXT
| NODE_CDATA_SECTION
| NODE_PROCESSING_INSTRUCTION
| NODE_COMMENT
| NODE_DOCUMENT
| NODE_DOCUMENT_TYPE
| NODE_DOCUMENT_FRAGMENT.

#[global] Instance dom_node_type_eq_dec : EqDecision dom_node_type_t.
Proof. solve_decision. Defined.

(** Nodes live in an arena (specification, section 9: "arena-owned tree
    with parent-owning-children and index back-references"); a node
    pointer is an index into it. *)
Abbreviation node_id := nat (only parsing).

(** [struct dom_node] with the members of [struct dom_element] the parser
    uses.  The sibling chain [first_child .. next_sibling] is the ordered
    list [child_nodes]. *)
Record dom_node_t := mk_node {
  node_type : dom_node_type_t;
  node_name : string;
  node_value : string;
  node_attributes : list (string * string);
  namespace_uri : string;
  parent_node : option node_id;
  child_nodes : list node_id
}.

Definition HTML_NAMESPACE : string := "http://www.w3.org/1999/xhtml".

(** [struct dom_document]: the arena, whose node 0 is the document node
    itself ([base]), and the three element references. *)
Record dom_document_t := mk_document {
  nodes : list dom_node_t;
  document_element : option node_id;
  head : option node_id;
  body : option node_id
}.

Definition document_node : node_id := 0.

Definition dom_document_create : dom_document_t :=
  mk_document [mk_node NODE_DOCUMENT "#document" "" [] "" None []] None None None.

Definition element_node (tag : string) (attrs : list (string * string)) : dom_node_t :=
  mk_node NODE_ELEMENT tag "" attrs HTML_NAMESPACE None [].
Definition text_node (s : string) : dom_node_t :=
  mk_node NODE_TEXT "#text" s [] "" None [].
Definition comment_node (s : string) : dom_node_t :=
  mk_node NODE_COMMENT "#comment" s [] "" None [].
Definition doctype_node (name : string) : dom_node_t :=
  mk_node NODE_DOCUMENT_TYPE name "" [] "" None [].

Definition is_element (n : dom_node_t) : bool := bool_decide (node_type n = NODE_ELEMENT).

(** Tag name of the element [i]; the empty string for anything else. *)
Definition tag_of (a : list dom_node_t) (i : node_id) : string :=
  match a !! i with
  | Some n => if is_element n then node_name n else ""
  | None => ""
  end.

Definition attributes_of (a : list dom_node_t) (i : node_id) : list (string * string) :=
  match a !! i with
  | Some n => node_attributes n
  | None => []
  end.

Definition children_of (a : list dom_node_t) (i : node_id) : list node_id :=
  match a !! i with
  | Some n => child_nodes n
  | None => []
  end.

Definition set_parent (p : option node_id) (n : dom_node_t) : dom_node_t :=
  mk_node (node_type n) (node_name n) (node_value n) (node_attributes n)
          (namespace_uri n) p (child_nodes n).
Definition set_children (cs : list node_id) (n : dom_node_t) : dom_node_t :=
  mk_node (node_type n) (node_name n) (node_value n) (node_attributes n)
          (namespace_uri n) (parent_node n) cs.
Definition add_child (c : node_id) (n : dom_node_t) : dom_node_t :=
  set_children (child_nodes n ++ [c]) n.
Definition remove_child (c : node_id) (n : dom_node_t) : dom_node_t :=
  set_children (filter (fun x => x <> c) (child_nodes n)) n.
Definition set_value (v : string) (n : dom_node_t) : dom_node_t :=
  mk_node (node_type n) (node_name n) v (node_attributes n)
          (namespace_uri n) (parent_node n) (child_nodes n).
Definition set_attributes (at' : list (string * string)) (n : dom_node_t) : dom_node_t :=
  mk_node (node_type n) (node_name n) (node_value n) at'
          (namespace_uri n) (parent_node n) (child_nodes n).

(** Unlink [c] from its parent, if it has one. *)
Definition detach (a : list dom_node_t) (c : node_id) : list dom_node_t :=
  match a !! c with
  | Some n =>
      match parent_node n with
      | Some p => alter (set_parent None) c (alter (remove_child c) p a)
      | None => a
      end
  | None => a
  end.

(** Make [c] the last child of [p], unlinking it from where it was. *)
Definition append_child (a : list dom_node_t) (p c : node_id) : list dom_node_t :=
  alter (set_parent (Some p)) c (alter (add_child c) p (detach a c)).

(** Move the nodes [cs], in order, to the end of the children of [p]. *)
Definition append_children (a : list dom_node_t) (p : node_id) (cs : list node_id)
  : list dom_node_t :=
  fold_left (fun a c => append_child a p c) cs a.

(** The tree below a node, for comparing results. *)
#[warnings="-register-all"]
Inductive tree :=
| Document (kids : list tree)
| Element (tag : string) (attrs : list (string * string)) (kids : list tree)
| Text (s : string)
| Comment (s : string)
| Doctype (name : string)
| Other.

Fixpoint render (fuel : nat) (a : list dom_node_t) (i : node_id) : tree :=
  match fuel with
  | O => Other
  | S fuel' =>
      match a !! i with
      | None => Other
      | Some n =>
          let kids := render fuel' a <$> child_nodes n in
          match node_type n with
          | NODE_DOCUMENT => Document kids
          | NODE_ELEMENT => Element (node_name n) (node_attributes n) kids
          | NODE_TEXT => Text (node_value n)
          | NODE_COMMENT => Comment (node_value n)
          | NODE_DOCUMENT_TYPE => Doctype (node_name n)
          | _ => Other
          end
      end
  end.

(** The tree below node [i] of a document; the depth of a tree is at most
    the number of nodes. *)
Definition subtree (d : dom_document_t) (i : node_id) : tree :=
  render (S (length (nodes d))) (nodes d) i.

(** Is [x] a descendant of [anc] (walking up the parent links)? *)
Fixpoint is_descendant (fuel : nat) (a : list dom_node_t) (anc x : node_id) : bool :=
  match fuel with
  | O => false
  | S fuel' =>
      match a !! x with
      | Some n =>
          match parent_node n with
          | Some p => bool_decide (p = anc) || is_descendant fuel' a anc p
          | None => false
          end
      | None => false
      end
  end.

End Dom.

(* ===================================================================== *)
(** * Part V: the tree constructor                                       *)
(* ===================================================================== *)

Module Parser.
Import Dom.

(** [html_parser_t].  [open_elements] lists the array from
    [open_elements[open_elements_count - 1]] (the current node) down to
    [open_elements[0]]; [active_formatting] likewise lists the most recent
    entry first, and a marker is a NULL entry, [None].  [error_log] is what
    the handler set by [html_parser_set_error_handler] has received. *)
Record html_parser_t := mk_parser {
  tokenizer : option Tokenizer.html_tokenizer_t;
  mode : html_insertion_mode_t;
  open_elements : list node_id;
  active_formatting : list (option node_id);
  document : dom_document_t;
  head_element : option node_id;
  form_element : option node_id;
  scripting_enabled : bool;
  fragment_parsing : bool;
  error_log : list html_parse_error_t
}.

Definition open_elements_count (s : html_parser_t) : nat := length (open_elements s).
Definition active_formatting_count (s : html_parser_t) : nat :=
  length (active_formatting s).

(** [html_parser_create] *)
Definition html_parser_create : html_parser_t :=
  mk_parser None MODE_INITIAL [] [] dom_document_create None None false false [].

Definition arena (s : html_parser_t) : list dom_node_t := nodes (document s).

Definition with_tokenizer (t : option Tokenizer.html_tokenizer_t) (s : html_parser_t) :=
  mk_parser t (mode s) (open_elements s) (active_formatting s) (document s)
            (head_element s) (form_element s) (scripting_enabled s)
            (fragment_parsing s) (error_log s).
Definition with_mode (m : html_insertion_mode_t) (s : html_parser_t) :=
  mk_parser (tokenizer s) m (open_elements s) (active_formatting s) (document s)
            (head_element s) (form_element s) (scripting_enabled s)
            (fragment_parsing s) (error_log s).
Definition with_open (oe : list node_id) (s : html_parser_t) :=
  mk_parser (tokenizer s) (mode s) oe (active_formatting s) (document s)
            (head_element s) (form_element s) (scripting_enabled s)
            (fragment_parsing s) (error_log s).
Definition with_formatting (af : list (option node_id)) (s : html_parser_t) :=
  mk_parser (tokenizer s) (mode s) (open_elements s) af (document s)
            (head_element s) (form_element s) (scripting_enabled s)
            (fragment_parsing s) (error_log s).
Definition with_document (d : dom_document_t) (s : html_parser_t) :=
  mk_parser (tokenizer s) (mode s) (open_elements s) (active_formatting s) d
            (head_element s) (form_element s) (scripting_enabled s)
            (fragment_parsing s) (error_log s).
Definition with_nodes (a : list dom_node_t) (s : html_parser_t) :=
  with_document (mk_document a (document_element (document s)) (head (document s))
                             (body (document s))) s.
Definition with_head_element (h : option node_id) (s : html_parser_t) :=
  mk_parser (tokenizer s) (mode s) (open_elements s) (active_formatting s) (document s)
            h (form_element s) (scripting_enabled s)
            (fragment_parsing s) (error_log s).
Definition with_form_element (f : option node_id) (s : html_parser_t) :=
  mk_parser (tokenizer s) (mode s) (open_elements s) (active_formatting s) (document s)
            (head_element s) f (scripting_enabled s)
            (fragment_parsing s) (error_log s).

(** A parse error goes to the error handler; it is never fatal. *)
Definition parse_error (e : html_parse_error_t) (s : html_parser_t) :=
  mk_parser (tokenizer s) (mode s) (open_elements s) (active_formatting s) (document s)
            (head_element s) (form_element s) (scripting_enabled s)
            (fragment_parsing s) (error_log s ++ [e]).
Definition parse_errors (es : list html_parse_error_t) (s : html_parser_t) :=
  fold_left (fun s e => parse_error e s) es s.

(** ** Element categories *)

Definition mem (x : string) (l : list string) : bool := bool_decide (x ∈ l).

(** Modelled from the spec: [html_is_void_element] (declared in
    [parser.h], body not in the source tree): the elements that are
    "inserted and immediately popped", section 4.2, with the membership of
    the standard HTML parsing algorithm (section 9 defers to its tables). *)
Definition html_is_void_element (t : string) : bool :=
  mem t ["area"; "base"; "basefont"; "bgsound"; "br"; "col"; "embed"; "frame";
         "hr"; "img"; "input"; "keygen"; "link"; "meta"; "param"; "source";
         "track"; "wbr"].

(** Modelled from the spec: [html_is_formatting_element] (declared in
    [parser.h]): the formatting elements of the standard algorithm. *)
Definition html_is_formatting_element (t : string) : bool :=
  mem t ["a"; "b"; "big"; "code"; "em"; "font"; "i"; "nobr"; "s"; "small";
         "strike"; "strong"; "tt"; "u"].

(** Modelled from the spec: [html_is_special_element] (declared in
    [parser.h]): the special elements of the standard algorithm. *)
Definition html_is_special_element (t : string) : bool :=
  mem t ["address"; "applet"; "area"; "article"; "aside"; "base"; "basefont";
         "bgsound"; "blockquote"; "body"; "br"; "button"; "caption"; "center";
         "col"; "colgroup"; "dd"; "details"; "dir"; "div"; "dl"; "dt"; "embed";
         "fieldset"; "figcaption"; "figure"; "footer"; "form"; "frame";
         "frameset"; "h1"; "h2"; "h3"; "h4"; "h5"; "h6"; "head"; "header";
         "hgroup"; "hr"; "html"; "iframe"; "img"; "input"; "keygen"; "li";
         "link"; "listing"; "main"; "marquee"; "menu"; "meta"; "nav"; "noembed";
         "noframes"; "noscript"; "object"; "ol"; "p"; "param"; "plaintext";
         "pre"; "script"; "search"; "section"; "select"; "source"; "style";
         "summary"; "table"; "tbody"; "td"; "template"; "textarea"; "tfoot";
         "th"; "thead"; "title"; "tr"; "track"; "ul"; "wbr"; "xmp"].

(** The elements whose start tag puts a marker on the list of active
    formatting elements while in body. *)
Definition is_marker_element (t : string) : bool :=
  mem t ["applet"; "marquee"; "object"].

(** The elements whose content is text only (section 4.1, raw-text
    states). *)
Definition is_raw_text_element (t : string) : bool :=
  mem t ["script"; "style"; "title"; "textarea"].

Definition is_heading (t : string) : bool :=
  mem t ["h1"; "h2"; "h3"; "h4"; "h5"; "h6"].

Definition is_implied_end_tag (t : string) : bool :=
  mem t ["dd"; "dt"; "li"; "optgroup"; "option"; "p"; "rb"; "rp"; "rt"; "rtc"].

(** ** The stack of open elements *)

Definition top (l : list node_id) : option node_id :=
  match l with
  | x :: _ => Some x
  | [] => None
  end.

Definition current_node (s : html_parser_t) : option node_id := top (open_elements s).

(** The node new content goes into: the current node, or the document while
    no element is open. *)
Definition insertion_parent (s : html_parser_t) : node_id :=
  default document_node (current_node s).

Definition pop_open (s : html_parser_t) : html_parser_t :=
  with_open (tail (open_elements s)) s.

Definition has_tag (a : list dom_node_t) (t : string) (x : node_id) : bool :=
  bool_decide (tag_of a x = t).

(** Scope boundaries (membership from the standard algorithm). *)
Definition default_scope_boundary (t : string) : bool :=
  mem t ["applet"; "caption"; "html"; "table"; "td"; "th"; "marquee"; "object";
         "template"].
Definition list_item_scope_boundary (t : string) : bool :=
  default_scope_boundary t || mem t ["ol"; "ul"].
Definition button_scope_boundary (t : string) : bool :=
  default_scope_boundary t || mem t ["button"].
Definition table_scope_boundary (t : string) : bool :=
  mem t ["html"; "table"; "template"].
Definition select_scope_boundary (t : string) : bool :=
  negb (mem t ["optgroup"; "option"]).

(** Walk the stack from the top: true if a target is met before a
    boundary. *)
Fixpoint has_in_scope (a : list dom_node_t) (target : node_id -> bool)
    (boundary : string -> bool) (oe : list node_id) : bool :=
  match oe with
  | [] => false
  | x :: r =>
      if target x then true
      else if boundary (tag_of a x) then false
      else has_in_scope a target boundary r
  end.

Definition has_element_in_scope (s : html_parser_t) (t : string) : bool :=
  has_in_scope (arena s) (has_tag (arena s) t) default_scope_boundary (open_elements s).
Definition has_element_in_list_item_scope (s : html_parser_t) (t : string) : bool :=
  has_in_scope (arena s) (has_tag (arena s) t) list_item_scope_boundary (open_elements s).
Definition has_element_in_button_scope (s : html_parser_t) (t : string) : bool :=
  has_in_scope (arena s) (has_tag (arena s) t) button_scope_boundary (open_elements s).
Definition has_element_in_table_scope (s : html_parser_t) (t : string) : bool :=
  has_in_scope (arena s) (has_tag (arena s) t) table_scope_boundary (open_elements s).
Definition has_element_in_select_scope (s : html_parser_t) (t : string) : bool :=
  has_in_scope (arena s) (has_tag (arena s) t) select_scope_boundary (open_elements s).

(** Pop up to and including the first node, from the top, that is a
    target. *)
Fixpoint pop_until (target : node_id -> bool) (oe : list node_id) : list node_id :=
  match oe with
  | [] => []
  | x :: r => if target x then r else pop_until target r
  end.

(** Modelled from the spec: [html_close_element] (declared in [parser.h]):
    pop the stack down to and including the nearest open element with that
    tag name. *)
Definition html_close_element (s : html_parser_t) (t : string) : html_parser_t :=
  with_open (pop_until (has_tag (arena s) t) (open_elements s)) s.

(** Generate implied end tags, except for [except]. *)
Fixpoint implied_end_tags (a : list dom_node_t) (except : string) (oe : list node_id)
  : list node_id :=
  match oe with
  | [] => []
  | x :: r =>
      if is_implied_end_tag (tag_of a x) && negb (bool_decide (tag_of a x = except))
      then implied_end_tags a except r
      else oe
  end.

Definition generate_implied_end_tags (s : html_parser_t) (except : string) :=
  with_open (implied_end_tags (arena s) except (open_elements s)) s.

(** ** Inserting nodes *)

(** Create the node [n] and make it the last child of [parent]. *)
Definition insert_node_at (parent : node_id) (n : dom_node_t) (s : html_parser_t)
  : html_parser_t :=
  let a := arena s in
  with_nodes (append_child (a ++ [n]) parent (length a)) s.

(** Modelled from the spec: [html_insert_element] (declared in
    [parser.h]).  Section 4.2: insert a node at the appropriate place
    (computed from the current node) and push it; "void/self-closing
    elements are inserted and immediately popped (never pushed onto the
    stack)". *)
Definition insert_element (s : html_parser_t) (tag : string)
    (attrs : list (string * string)) : html_parser_t :=
  let id := length (arena s) in
  let s1 := insert_node_at (insertion_parent s) (element_node tag attrs) s in
  if html_is_void_element tag then s1 else with_open (id :: open_elements s1) s1.

Definition html_insert_element (s : html_parser_t) (tok : Tokenizer.html_token_t)
  : html_parser_t :=
  insert_element s (Tokenizer.tag_name tok) (Tokenizer.attributes tok).

Definition last_text_child (a : list dom_node_t) (p : node_id) : option node_id :=
  match last (children_of a p) with
  | Some l =>
      match a !! l with
      | Some n => if bool_decide (node_type n = NODE_TEXT) then Some l else None
      | None => None
      end
  | None => None
  end.

(** Modelled from the spec: [html_insert_text] (declared in [parser.h]):
    the text goes to the end of the Text node that is the last child of the
    insertion parent, or into a new Text node there. *)
Definition html_insert_text (s : html_parser_t) (text : string) : html_parser_t :=
  let a := arena s in
  match last_text_child a (insertion_parent s) with
  | Some l => with_nodes (alter (fun n => set_value (node_value n +:+ text) n) l a) s
  | None => insert_node_at (insertion_parent s) (text_node text) s
  end.

(** Modelled from the spec: [html_insert_comment] (declared in
    [parser.h]). *)
Definition html_insert_comment (s : html_parser_t) (comment : string) : html_parser_t :=
  insert_node_at (insertion_parent s) (comment_node comment) s.

(** Add to the element [x] the attributes of the token it does not have yet
    (section 3: "attribute merging on duplicate html/body tags"). *)
Definition merge_attributes (s : html_parser_t) (x : node_id)
    (attrs : list (string * string)) : html_parser_t :=
  let a := arena s in
  let old := attributes_of a x in
  let fresh := filter (fun kv => kv.1 ∉ old.*1) attrs in
  with_nodes (alter (set_attributes (old ++ fresh)) x a) s.

(** ** The list of active formatting elements *)

(** Same tag name, namespace and attribute set. *)
Definition attrs_subset (l1 l2 : list (string * string)) : bool :=
  forallb (fun kv => bool_decide (kv ∈ l2)) l1.

Definition element_key : Type := string * string * list (string * string).

(** Tag name, namespace and attributes of the node [x]. *)
Definition key_of (a : list dom_node_t) (x : node_id) : element_key :=
  match a !! x with
  | Some n => (node_name n, namespace_uri n, node_attributes n)
  | None => ("", "", [])
  end.

Definition same_key (k1 k2 : element_key) : bool :=
  bool_decide (k1.1.1 = k2.1.1) && bool_decide (k1.1.2 = k2.1.2)
  && attrs_subset k1.2 k2.2 && attrs_subset k2.2 k1.2.

Definition same_element (a : list dom_node_t) (x y : node_id) : bool :=
  same_key (key_of a x) (key_of a y).

(** The entries after the last marker, most recent first. *)
Fixpoint last_segment {A} (af : list (option A)) : list A :=
  match af with
  | Some x :: r => x :: last_segment r
  | _ => []
  end.

Definition count_matching (f : node_id -> bool) (l : list node_id) : nat :=
  length (filter (fun x => f x = true) l).

(** Remove, after the last marker, the earliest entry that matches. *)
Fixpoint remove_earliest (f : node_id -> bool) (af : list (option node_id))
  : list (option node_id) :=
  match af with
  | Some x :: r =>
      if f x && negb (existsb f (last_segment r)) then r
      else Some x :: remove_earliest f r
  | _ => af
  end.

(** Modelled from the spec: pushing onto the list of active formatting
    elements.  Section 3, the "Noah's Ark clause": "at most 3 entries
    referring to elements with identical tag name, namespace, and attribute
    set may exist between the list start and the nearest preceding marker;
    insertion of a 4th causes removal of the earliest". *)
Definition push_formatting (s : html_parser_t) (x : node_id) : html_parser_t :=
  let af := active_formatting s in
  let same := same_element (arena s) x in
  let af1 := if (3 <=? count_matching same (last_segment af))%nat
             then remove_earliest same af else af in
  with_formatting (Some x :: af1) s.

Definition push_marker (s : html_parser_t) : html_parser_t :=
  with_formatting (None :: active_formatting s) s.

Fixpoint clear_to_last_marker (af : list (option node_id)) : list (option node_id) :=
  match af with
  | [] => []
  | None :: r => r
  | Some _ :: r => clear_to_last_marker r
  end.

Definition remove_formatting (x : node_id) (af : list (option node_id)) :=
  filter (fun e => e <> Some x) af.

Definition replace_formatting (x y : node_id) (af : list (option node_id)) :=
  (fun e => if bool_decide (e = Some x) then Some y else e) <$> af.

(** Put the entry [y] immediately after the entry [n] (that is, just
    before it in this most-recent-first list); at the recent end if [n] is
    not there. *)
Fixpoint insert_after (n y : node_id) (af : list (option node_id))
  : list (option node_id) :=
  match af with
  | [] => [Some y]
  | e :: r =>
      if bool_decide (e = Some n) then Some y :: e :: r
      else if bool_decide (Some n ∈ r) then e :: insert_after n y r
      else Some y :: e :: r
  end.

(** The entries, most recent first, that come after the last entry that is
    a marker or an open element. *)
Fixpoint unopened_prefix (oe : list node_id) (af : list (option node_id))
  : list node_id :=
  match af with
  | Some x :: r => if bool_decide (x ∈ oe) then [] else x :: unopened_prefix oe r
  | _ => []
  end.

(** Insert a copy of every element of [pre], oldest (last of the list)
    first; returns the new entries in the order of [pre]. *)
Fixpoint reopen (pre : list node_id) (s : html_parser_t)
  : html_parser_t * list (option node_id) :=
  match pre with
  | [] => (s, [])
  | x :: older =>
      let '(s1, older') := reopen older s in
      let id := length (arena s1) in
      (insert_element s1 (tag_of (arena s1) x) (attributes_of (arena s1) x),
       Some id :: older')
  end.

(** Modelled from the spec: [html_reconstruct_formatting] (declared in
    [parser.h]).  Section 4.2: "if the last entry of ActiveFormattingList is
    not a marker and not already present on OpenElementsStack, the algorithm
    walks the list backward to find the deepest entry already on the stack
    (or the list start / nearest marker), then re-inserts clones of every
    entry after that point, in list order, onto both the stack and the tree,
    and rebinds the corresponding list entries to the new clones". *)
Definition html_reconstruct_formatting (s : html_parser_t) : html_parser_t :=
  let af := active_formatting s in
  let pre := unopened_prefix (open_elements s) af in
  let '(s1, pre') := reopen pre s in
  with_formatting (pre' ++ drop (length pre) af) s1.

(** ** The adoption agency algorithm *)

(** The formatting element: the most recent entry after the last marker
    with the tag name [subject]. *)
Fixpoint find_formatting (a : list dom_node_t) (subject : string)
    (af : list (option node_id)) : option node_id :=
  match af with
  | Some x :: r => if has_tag a subject x then Some x else find_formatting a subject r
  | _ => None
  end.

(** Split the stack at the node [x]: the nodes above it (more recent) and
    the nodes below it. *)
Fixpoint split_stack (x : node_id) (oe : list node_id)
  : option (list node_id * list node_id) :=
  match oe with
  | [] => None
  | y :: r =>
      if bool_decide (y = x) then Some ([], r)
      else match split_stack x r with
           | Some (above, below) => Some (y :: above, below)
           | None => None
           end
  end.

(** The furthest block among the nodes [above] the formatting element: the
    special element nearest to the formatting element.  Returns the nodes
    more recent than it, the block, and the nodes between the block and the
    formatting element. *)
Fixpoint split_furthest (a : list dom_node_t) (above : list node_id)
  : option (list node_id * node_id * list node_id) :=
  match above with
  | [] => None
  | x :: r =>
      match split_furthest a r with
      | Some (hi, fb, mid) => Some (x :: hi, fb, mid)
      | None => if html_is_special_element (tag_of a x) then Some ([], x, r) else None
      end
  end.

(** State of the inner loop: the arena, the list of active formatting
    elements, the last node, the bookmark ([None]: the place of the
    formatting element; [Some n]: immediately after the entry [n]). *)
Record inner_state := mk_inner {
  i_nodes : list dom_node_t;
  i_formatting : list (option node_id);
  i_last : node_id;
  i_bookmark : option node_id
}.

(** The inner loop walks from the furthest block [fb] toward the formatting
    element over the nodes [mid] between them; it returns what is left of
    [mid] on the stack (clones in place of the nodes they copy). *)
Fixpoint adoption_inner (fb : node_id) (mid : list node_id) (counter : nat)
    (st : inner_state) : inner_state * list node_id :=
  match mid with
  | [] => (st, [])
  | node :: rest =>
      let counter := S counter in
      let af1 := if (3 <? counter)%nat && bool_decide (Some node ∈ i_formatting st)
                 then remove_formatting node (i_formatting st)
                 else i_formatting st in
      if negb (bool_decide (Some node ∈ af1))
      then adoption_inner fb rest counter
             (mk_inner (i_nodes st) af1 (i_last st) (i_bookmark st))
      else
        let a := i_nodes st in
        let clone := length a in
        let a1 := a ++ [element_node (tag_of a node) (attributes_of a node)] in
        let af2 := replace_formatting node clone af1 in
        let bm := if bool_decide (i_last st = fb) then Some clone else i_bookmark st in
        let a2 := append_child a1 clone (i_last st) in
        let '(st', rest') := adoption_inner fb rest counter (mk_inner a2 af2 clone bm) in
        (st', clone :: rest')
  end.

(** One iteration of the outer loop, when the formatting element [fe] is on
    the stack (split as [above ++ fe :: below]) and in scope. *)
Definition adoption_step (s : html_parser_t) (fe : node_id)
    (above below : list node_id) : html_parser_t :=
  match split_furthest (arena s) above with
  | None =>
      (* no furthest block: pop down to and including the formatting element *)
      with_formatting (remove_formatting fe (active_formatting s)) (with_open below s)
  | Some (hi, fb, mid) =>
      let common_ancestor := default document_node (top below) in
      let '(st, mid') :=
        adoption_inner fb mid 0
          (mk_inner (arena s) (active_formatting s) fb None) in
      let a1 := append_child (i_nodes st) common_ancestor (i_last st) in
      let clone := length a1 in
      let a2 := a1 ++ [element_node (tag_of a1 fe) (attributes_of a1 fe)] in
      let a3 := append_children a2 clone (children_of a2 fb) in
      let a4 := append_child a3 fb clone in
      let af := match i_bookmark st with
                | None => replace_formatting fe clone (i_formatting st)
                | Some n => insert_after n clone (remove_formatting fe (i_formatting st))
                end in
      with_formatting af (with_open (hi ++ clone :: fb :: mid' ++ below) (with_nodes a4 s))
  end.

(** The "any other end tag" steps of the in-body rules: walk the stack from
    the current node; a node with the tag name ends the walk and is popped
    with everything above it; a special element ends it with an error. *)
Fixpoint any_other_end_tag_walk (a : list dom_node_t) (t : string) (oe : list node_id)
  : option (list node_id) :=
  match oe with
  | [] => None
  | x :: r =>
      if has_tag a t x then Some r
      else if html_is_special_element (tag_of a x) then None
      else any_other_end_tag_walk a t r
  end.

Definition any_other_end_tag (s : html_parser_t) (t : string) : html_parser_t :=
  match any_other_end_tag_walk (arena s) t (open_elements s) with
  | Some oe => with_open oe s
  | None => parse_error HTML_ERROR_UNEXPECTED_TOKEN s
  end.

(** The outer loop, at most [n] iterations. *)
Fixpoint adoption_outer (n : nat) (subject : string) (s : html_parser_t)
  : html_parser_t :=
  match n with
  | O => s
  | S n' =>
      match find_formatting (arena s) subject (active_formatting s) with
      | None => any_other_end_tag s subject
      | Some fe =>
          match split_stack fe (open_elements s) with
          | None =>
              parse_error HTML_ERROR_INVALID_NESTING
                (with_formatting (remove_formatting fe (active_formatting s)) s)
          | Some (above, below) =>
              if negb (has_in_scope (arena s) (fun x => bool_decide (x = fe))
                         default_scope_boundary (open_elements s))
              then parse_error HTML_ERROR_INVALID_NESTING s
              else
                let s1 := match above with
                          | [] => s
                          | _ => parse_error HTML_ERROR_INVALID_NESTING s
                          end in
                match split_furthest (arena s1) above with
                | None => adoption_step s1 fe above below
                | Some _ => adoption_outer n' subject (adoption_step s1 fe above below)
                end
          end
      end
  end.

(** Modelled from the spec: [html_adoption_agency_algorithm] (declared in
    [parser.h]).  Section 4.2: "invoked on an end tag whose name matches a
    misnested formatting element.  Runs at most 8 outer-loop iterations.
    Each iteration: locate the formatting element ...; if absent, fall back
    to ordinary end-tag handling; if present but not on the open-elements
    stack, remove it from the list and stop; if present on the stack but not
    in scope, report an error and stop; otherwise locate the furthest block
    ....  If no furthest block exists, pop the stack down to and including
    the formatting element and remove its list entry.  Otherwise: save a
    bookmark ...; run an inner loop ...; finally move a clone of the
    formatting element to be the furthest block's last child, remove the old
    list/stack entries, and insert the new clone's list entry at the
    bookmark and its stack entry immediately above the furthest block."  The
    steps the section leaves out are those of the standard algorithm. *)
Definition html_adoption_agency_algorithm (s : html_parser_t)
    (tok : Tokenizer.html_token_t) : html_parser_t :=
  let subject := Tokenizer.tag_name tok in
  match current_node s with
  | Some c =>
      if has_tag (arena s) subject c
         && negb (bool_decide (Some c ∈ active_formatting s))
      then pop_open s
      else adoption_outer 8 subject s
  | None => adoption_outer 8 subject s
  end.

(** ** Tokens as the tree constructor sees them *)

Definition is_start_tag (tok : Tokenizer.html_token_t) : bool :=
  match Tokenizer.type tok with
  | TOKEN_START_TAG | TOKEN_SELF_CLOSING_TAG => true
  | _ => false
  end.

Definition is_end_tag (tok : Tokenizer.html_token_t) : bool :=
  bool_decide (Tokenizer.type tok = TOKEN_END_TAG).

Definition start_tag_in (tok : Tokenizer.html_token_t) (names : list string) : bool :=
  is_start_tag tok && mem (Tokenizer.tag_name tok) names.

Definition end_tag_in (tok : Tokenizer.html_token_t) (names : list string) : bool :=
  is_end_tag tok && mem (Tokenizer.tag_name tok) names.

Definition is_whitespace_token (tok : Tokenizer.html_token_t) : bool :=
  match Tokenizer.type tok, Tokenizer.data tok with
  | TOKEN_CHARACTER, String c EmptyString => Tokenizer.is_whitespace c
  | _, _ => false
  end.

Definition start_tag (name : string) : Tokenizer.html_token_t :=
  Tokenizer.new_token TOKEN_START_TAG name.

(** ** The in-body rules *)

Definition head_content_tags : list string :=
  ["base"; "basefont"; "bgsound"; "link"; "meta"; "script"; "style"; "title"].

Definition block_start_tags : list string :=
  ["address"; "article"; "aside"; "blockquote"; "center"; "details"; "dialog";
   "dir"; "div"; "dl"; "fieldset"; "figcaption"; "figure"; "footer"; "header";
   "hgroup"; "main"; "menu"; "nav"; "ol"; "p"; "search"; "section"; "summary";
   "ul"].

Definition block_end_tags : list string :=
  ["address"; "article"; "aside"; "blockquote"; "button"; "center"; "details";
   "dialog"; "dir"; "div"; "dl"; "fieldset"; "figcaption"; "figure"; "footer";
   "header"; "hgroup"; "listing"; "main"; "menu"; "nav"; "ol"; "pre"; "search";
   "section"; "summary"; "ul"].

Definition ignored_start_tags : list string :=
  ["caption"; "col"; "colgroup"; "frame"; "frameset"; "head"; "tbody"; "td";
   "tfoot"; "th"; "thead"; "tr"].

Definition current_tag (s : html_parser_t) : string :=
  match current_node s with
  | Some c => tag_of (arena s) c
  | None => ""
  end.

(** The bottom of the stack. *)
Definition bottom_node (s : html_parser_t) : option node_id := last (open_elements s).

(** A start tag "html" after the first: its new attributes go to the html
    element. *)
Definition in_body_start_html (s : html_parser_t) (tok : Tokenizer.html_token_t) :=
  let s1 := parse_error HTML_ERROR_UNEXPECTED_TOKEN s in
  match document_element (document s1) with
  | Some h => merge_attributes s1 h (Tokenizer.attributes tok)
  | None => s1
  end.

(** The in-head rules for the start tags of [head_content_tags]: the void
    ones are inserted and not pushed; "title", "script" and "style" are
    inserted and become the current node, which makes the text rules
    apply. *)
Definition in_head_content (s : html_parser_t) (tok : Tokenizer.html_token_t) :=
  html_insert_element s tok.

Definition close_p_element (s : html_parser_t) : html_parser_t :=
  let s1 := generate_implied_end_tags s "p" in
  let s2 := if bool_decide (current_tag s1 = "p") then s1
            else parse_error HTML_ERROR_MISSING_END_TAG s1 in
  html_close_element s2 "p".

Definition close_p_if_in_button_scope (s : html_parser_t) : html_parser_t :=
  if has_element_in_button_scope s "p" then close_p_element s else s.

(** The walk of the "li", "dd" and "dt" start tags: from the current
    node, an element with one of the [names] is closed; a special element
    other than address, div and p stops the walk. *)
Fixpoint list_item_walk (a : list dom_node_t) (names : list string) (oe : list node_id)
  : option (list node_id) :=
  match oe with
  | [] => None
  | x :: r =>
      if mem (tag_of a x) names then Some r
      else if html_is_special_element (tag_of a x)
              && negb (mem (tag_of a x) ["address"; "div"; "p"])
      then None
      else list_item_walk a names r
  end.

Definition close_list_item (s : html_parser_t) (names : list string) : html_parser_t :=
  match list_item_walk (arena s) names (open_elements s) with
  | Some oe => with_open oe s
  | None => s
  end.

(** Insert a formatting element and put it on the list of active
    formatting elements. *)
Definition insert_formatting_element (s : html_parser_t) (tok : Tokenizer.html_token_t) :=
  let id := length (arena s) in
  push_formatting (html_insert_element s tok) id.

Definition remove_open (x : node_id) (s : html_parser_t) : html_parser_t :=
  with_open (filter (fun y => y <> x) (open_elements s)) s.

Definition in_body_start (s : html_parser_t) (tok : Tokenizer.html_token_t)
  : html_parser_t :=
  let name := Tokenizer.tag_name tok in
  if bool_decide (name = "html") then in_body_start_html s tok
  else if mem name head_content_tags then in_head_content s tok
  else if bool_decide (name = "body") then
    let s1 := parse_error HTML_ERROR_UNEXPECTED_TOKEN s in
    match body (document s1) with
    | Some b => if bool_decide (b ∈ open_elements s1)
                then merge_attributes s1 b (Tokenizer.attributes tok) else s1
    | None => s1
    end
  else if mem name block_start_tags
  then html_insert_element (close_p_if_in_button_scope s) tok
  else if is_heading name then
    let s1 := close_p_if_in_button_scope s in
    let s2 := if is_heading (current_tag s1)
              then pop_open (parse_error HTML_ERROR_INVALID_NESTING s1) else s1 in
    html_insert_element s2 tok
  else if mem name ["pre"; "listing"]
  then html_insert_element (close_p_if_in_button_scope s) tok
  else if bool_decide (name = "form") then
    match form_element s with
    | Some _ => parse_error HTML_ERROR_NESTED_FORM s
    | None =>
        let s1 := close_p_if_in_button_scope s in
        with_form_element (Some (length (arena s1))) (html_insert_element s1 tok)
    end
  else if bool_decide (name = "li")
  then html_insert_element (close_p_if_in_button_scope (close_list_item s ["li"])) tok
  else if mem name ["dd"; "dt"]
  then html_insert_element
         (close_p_if_in_button_scope (close_list_item s ["dd"; "dt"])) tok
  else if bool_decide (name = "button") then
    let s1 := if has_element_in_scope s "button"
              then html_close_element
                     (generate_implied_end_tags
                        (parse_error HTML_ERROR_INVALID_NESTING s) "") "button"
              else s in
    html_insert_element (html_reconstruct_formatting s1) tok
  else if bool_decide (name = "a") then
    let s1 := match find_formatting (arena s) "a" (active_formatting s) with
              | Some x =>
                  let s' := html_adoption_agency_algorithm
                              (parse_error HTML_ERROR_INVALID_NESTING s) tok in
                  remove_open x
                    (with_formatting (remove_formatting x (active_formatting s')) s')
              | None => s
              end in
    insert_formatting_element (html_reconstruct_formatting s1) tok
  else if bool_decide (name = "nobr") then
    let s1 := html_reconstruct_formatting s in
    let s2 := if has_element_in_scope s1 "nobr"
              then html_reconstruct_formatting
                     (html_adoption_agency_algorithm
                        (parse_error HTML_ERROR_INVALID_NESTING s1) tok)
              else s1 in
    insert_formatting_element s2 tok
  else if html_is_formatting_element name
  then insert_formatting_element (html_reconstruct_formatting s) tok
  else if is_marker_element name
  then push_marker (html_insert_element (html_reconstruct_formatting s) tok)
  else if mem name ["area"; "br"; "embed"; "img"; "keygen"; "wbr"; "input"]
  then html_insert_element (html_reconstruct_formatting s) tok
  else if mem name ["param"; "source"; "track"] then html_insert_element s tok
  else if bool_decide (name = "hr")
  then html_insert_element (close_p_if_in_button_scope s) tok
  else if bool_decide (name = "image")
  then insert_element
         (html_reconstruct_formatting (parse_error HTML_ERROR_UNEXPECTED_TOKEN s))
         "img" (Tokenizer.attributes tok)
  else if mem name ignored_start_tags then parse_error HTML_ERROR_UNEXPECTED_TOKEN s
  else html_insert_element (html_reconstruct_formatting s) tok.

Definition in_body_end (s : html_parser_t) (tok : Tokenizer.html_token_t)
  : html_parser_t :=
  let name := Tokenizer.tag_name tok in
  let unexpected := parse_error HTML_ERROR_UNEXPECTED_TOKEN s in
  if bool_decide (name = "body") then
    if has_element_in_scope s "body" then with_mode MODE_AFTER_BODY s else unexpected
  else if bool_decide (name = "html") then
    (* as for "body", then the token is processed again after the body *)
    if has_element_in_scope s "body" then with_mode MODE_AFTER_AFTER_BODY s
    else unexpected
  else if mem name block_end_tags then
    if has_element_in_scope s name
    then
      let s1 := generate_implied_end_tags s "" in
      let s2 := if bool_decide (current_tag s1 = name) then s1
                else parse_error HTML_ERROR_MISSING_END_TAG s1 in
      html_close_element s2 name
    else unexpected
  else if bool_decide (name = "form") then
    match form_element s with
    | None => unexpected
    | Some node =>
        let s1 := with_form_element None s in
        if has_in_scope (arena s1) (fun x => bool_decide (x = node))
             default_scope_boundary (open_elements s1)
        then remove_open node (generate_implied_end_tags s1 "")
        else parse_error HTML_ERROR_UNEXPECTED_TOKEN s1
    end
  else if bool_decide (name = "p") then
    if has_element_in_button_scope s "p" then close_p_element s
    else close_p_element (insert_element unexpected "p" [])
  else if bool_decide (name = "li") then
    if has_element_in_list_item_scope s "li"
    then html_close_element (generate_implied_end_tags s "li") "li"
    else unexpected
  else if mem name ["dd"; "dt"] then
    if has_element_in_scope s name
    then html_close_element (generate_implied_end_tags s name) name
    else unexpected
  else if is_heading name then
    if has_in_scope (arena s) (fun x => is_heading (tag_of (arena s) x))
         default_scope_boundary (open_elements s)
    then
      let s1 := generate_implied_end_tags s "" in
      with_open (pop_until (fun x => is_heading (tag_of (arena s1) x))
                           (open_elements s1)) s1
    else unexpected
  else if html_is_formatting_element name then html_adoption_agency_algorithm s tok
  else if is_marker_element name then
    if has_element_in_scope s name
    then
      let s1 := html_close_element (generate_implied_end_tags s "") name in
      with_formatting (clear_to_last_marker (active_formatting s1)) s1
    else unexpected
  else if bool_decide (name = "br")
  then insert_element (html_reconstruct_formatting unexpected) "br" []
  else any_other_end_tag s name.

(** Modelled from the spec: the in-body mode of [html_process_token]
    (declared in [parser.h]).  Section 4.2 names what a mode may do with a
    token (insert at the appropriate place, pop/push, switch mode,
    reprocess, ignore with an error) and the cross-cutting algorithms; the
    rule table is that of the standard algorithm, without foster parenting,
    tables, select, template, frameset and foreign content. *)
Definition in_body (s : html_parser_t) (tok : Tokenizer.html_token_t) : html_parser_t :=
  match Tokenizer.type tok with
  | TOKEN_CHARACTER =>
      html_insert_text (html_reconstruct_formatting s) (Tokenizer.data tok)
  | TOKEN_COMMENT => html_insert_comment s (Tokenizer.data tok)
  | TOKEN_DOCTYPE => parse_error HTML_ERROR_UNEXPECTED_TOKEN s
  | TOKEN_START_TAG | TOKEN_SELF_CLOSING_TAG => in_body_start s tok
  | TOKEN_END_TAG => in_body_end s tok
  | TOKEN_EOF => s
  end.

(** ** The modes before and after the body *)

(** Insert the body element and note it in the document. *)
Definition insert_body (s : html_parser_t) (tok : Tokenizer.html_token_t) :=
  let id := length (arena s) in
  let s1 := html_insert_element s tok in
  with_mode MODE_IN_BODY
    (with_document (mk_document (arena s1) (document_element (document s1))
                                (head (document s1)) (Some id)) s1).

Definition after_head (s : html_parser_t) (tok : Tokenizer.html_token_t) : html_parser_t :=
  if is_whitespace_token tok then html_insert_text s (Tokenizer.data tok)
  else match Tokenizer.type tok with
  | TOKEN_COMMENT => html_insert_comment s (Tokenizer.data tok)
  | TOKEN_DOCTYPE => parse_error HTML_ERROR_UNEXPECTED_TOKEN s
  | _ =>
    if start_tag_in tok ["html"] then in_body_start_html s tok
    else if start_tag_in tok ["body"] then insert_body s tok
    else if start_tag_in tok head_content_tags then
      match head_element s with
      | Some h =>
          let s1 := parse_error HTML_ERROR_UNEXPECTED_TOKEN s in
          remove_open h (in_head_content (with_open (h :: open_elements s1) s1) tok)
      | None => parse_error HTML_ERROR_UNEXPECTED_TOKEN s
      end
    else if start_tag_in tok ["head"]
            || (is_end_tag tok && negb (end_tag_in tok ["body"; "html"; "br"]))
    then parse_error HTML_ERROR_UNEXPECTED_TOKEN s
    else in_body (insert_body s (start_tag "body")) tok
  end.

Definition in_head (s : html_parser_t) (tok : Tokenizer.html_token_t) : html_parser_t :=
  if is_whitespace_token tok then html_insert_text s (Tokenizer.data tok)
  else match Tokenizer.type tok with
  | TOKEN_COMMENT => html_insert_comment s (Tokenizer.data tok)
  | TOKEN_DOCTYPE => parse_error HTML_ERROR_UNEXPECTED_TOKEN s
  | _ =>
    if start_tag_in tok ["html"] then in_body_start_html s tok
    else if start_tag_in tok head_content_tags then in_head_content s tok
    else if end_tag_in tok ["head"] then with_mode MODE_AFTER_HEAD (pop_open s)
    else if start_tag_in tok ["head"]
            || (is_end_tag tok && negb (end_tag_in tok ["body"; "html"; "br"]))
    then parse_error HTML_ERROR_UNEXPECTED_TOKEN s
    else after_head (with_mode MODE_AFTER_HEAD (pop_open s)) tok
  end.

(** Insert the head element and note it in the parser and the document. *)
Definition insert_head (s : html_parser_t) (tok : Tokenizer.html_token_t) :=
  let id := length (arena s) in
  let s1 := html_insert_element s tok in
  with_mode MODE_IN_HEAD
    (with_head_element (Some id)
       (with_document (mk_document (arena s1) (document_element (document s1))
                                   (Some id) (body (document s1))) s1)).

Definition before_head (s : html_parser_t) (tok : Tokenizer.html_token_t) : html_parser_t :=
  if is_whitespace_token tok then s
  else match Tokenizer.type tok with
  | TOKEN_COMMENT => html_insert_comment s (Tokenizer.data tok)
  | TOKEN_DOCTYPE => parse_error HTML_ERROR_UNEXPECTED_TOKEN s
  | _ =>
    if start_tag_in tok ["html"] then in_body_start_html s tok
    else if start_tag_in tok ["head"] then insert_head s tok
    else if is_end_tag tok && negb (end_tag_in tok ["head"; "body"; "html"; "br"])
    then parse_error HTML_ERROR_UNEXPECTED_TOKEN s
    else in_head (insert_head s (start_tag "head")) tok
  end.

(** Create the html element as the document element and push it. *)
Definition insert_html (s : html_parser_t) (tok : Tokenizer.html_token_t) :=
  let id := length (arena s) in
  let s1 := with_open [id] (insert_node_at document_node
              (element_node "html" (Tokenizer.attributes tok)) s) in
  with_mode MODE_BEFORE_HEAD
    (with_document (mk_document (arena s1) (Some id) (head (document s1))
                                (body (document s1))) s1).

Definition before_html (s : html_parser_t) (tok : Tokenizer.html_token_t) : html_parser_t :=
  if is_whitespace_token tok then s
  else match Tokenizer.type tok with
  | TOKEN_COMMENT => insert_node_at document_node (comment_node (Tokenizer.data tok)) s
  | TOKEN_DOCTYPE => parse_error HTML_ERROR_UNEXPECTED_TOKEN s
  | _ =>
    if start_tag_in tok ["html"] then insert_html s tok
    else if is_end_tag tok && negb (end_tag_in tok ["head"; "body"; "html"; "br"])
    then parse_error HTML_ERROR_UNEXPECTED_TOKEN s
    else before_head (insert_html s (start_tag "html")) tok
  end.

Definition initial (s : html_parser_t) (tok : Tokenizer.html_token_t) : html_parser_t :=
  if is_whitespace_token tok then s
  else match Tokenizer.type tok with
  | TOKEN_COMMENT => insert_node_at document_node (comment_node (Tokenizer.data tok)) s
  | TOKEN_DOCTYPE =>
      with_mode MODE_BEFORE_HTML
        (insert_node_at document_node (doctype_node (Tokenizer.tag_name tok)) s)
  | _ => before_html (with_mode MODE_BEFORE_HTML s) tok
  end.

Definition after_body (s : html_parser_t) (tok : Tokenizer.html_token_t) : html_parser_t :=
  if is_whitespace_token tok then in_body s tok
  else match Tokenizer.type tok with
  | TOKEN_COMMENT =>
      insert_node_at (default document_node (bottom_node s))
                     (comment_node (Tokenizer.data tok)) s
  | TOKEN_DOCTYPE => parse_error HTML_ERROR_UNEXPECTED_TOKEN s
  | TOKEN_EOF => s
  | _ =>
    if start_tag_in tok ["html"] then in_body s tok
    else if end_tag_in tok ["html"] then with_mode MODE_AFTER_AFTER_BODY s
    else in_body (with_mode MODE_IN_BODY (parse_error HTML_ERROR_UNEXPECTED_TOKEN s)) tok
  end.

Definition after_after_body (s : html_parser_t) (tok : Tokenizer.html_token_t)
  : html_parser_t :=
  if is_whitespace_token tok then in_body s tok
  else match Tokenizer.type tok with
  | TOKEN_COMMENT => insert_node_at document_node (comment_node (Tokenizer.data tok)) s
  | TOKEN_DOCTYPE => in_body s tok
  | TOKEN_EOF => s
  | _ =>
    if start_tag_in tok ["html"] then in_body s tok
    else in_body (with_mode MODE_IN_BODY (parse_error HTML_ERROR_UNEXPECTED_TOKEN s)) tok
  end.

(** Dispatch on the insertion mode.  The specification gives no rules for
    the table, select, template and frameset modes, and no rule of this
    model enters them; a parser found in one of them treats the token as in
    body. *)
Definition mode_dispatch (s : html_parser_t) (tok : Tokenizer.html_token_t)
  : html_parser_t :=
  match mode s with
  | MODE_INITIAL => initial s tok
  | MODE_BEFORE_HTML => before_html s tok
  | MODE_BEFORE_HEAD => before_head s tok
  | MODE_IN_HEAD => in_head s tok
  | MODE_AFTER_HEAD => after_head s tok
  | MODE_IN_BODY => in_body s tok
  | MODE_AFTER_BODY => after_body s tok
  | MODE_AFTER_AFTER_BODY => after_after_body s tok
  | _ => in_body s tok
  end.

(** The rules for text-only elements.  [html_insertion_mode_t] has no text
    mode and [html_parser_t] no slot for the mode to return to: the rules
    apply while the current node is a text-only element, and the mode is
    left as it is. *)
Definition text_rules (s : html_parser_t) (tok : Tokenizer.html_token_t) : html_parser_t :=
  match Tokenizer.type tok with
  | TOKEN_CHARACTER => html_insert_text s (Tokenizer.data tok)
  | TOKEN_END_TAG =>
      if bool_decide (Tokenizer.tag_name tok = current_tag s) then pop_open s
      else pop_open (parse_error HTML_ERROR_UNEXPECTED_TOKEN s)
  | TOKEN_EOF => mode_dispatch (pop_open (parse_error HTML_ERROR_UNEXPECTED_EOF s)) tok
  | _ => parse_error HTML_ERROR_UNEXPECTED_TOKEN s
  end.

(** One token whose text, if it is a character token, is a single
    character. *)
Definition process_one (s : html_parser_t) (tok : Tokenizer.html_token_t) : html_parser_t :=
  let s1 := match Tokenizer.type tok with
            | TOKEN_SELF_CLOSING_TAG =>
                if html_is_void_element (Tokenizer.tag_name tok) then s
                else parse_error HTML_ERROR_UNEXPECTED_TOKEN s
            | _ => s
            end in
  if is_raw_text_element (current_tag s1) then text_rules s1 tok
  else mode_dispatch s1 tok.

(** Modelled from the spec: [html_process_token] (declared in [parser.h]).
    Section 4.2: "process_token(token) dispatches on
    (current_insertion_mode, token)"; "reprocess" is a rerun of the same
    token in a new mode.  A character token that holds several characters
    (section 3) is handled one character at a time. *)
Definition html_process_token (s : html_parser_t) (tok : Tokenizer.html_token_t)
  : html_parser_t :=
  match Tokenizer.type tok with
  | TOKEN_CHARACTER =>
      fold_left (fun s c => process_one s (Tokenizer.char_token (Tokenizer.str c)))
                (list_ascii_of_string (Tokenizer.data tok)) s
  | _ => process_one s tok
  end.

(** ** The driver *)

(** After a "script" or "style" start tag has been inserted, the tokenizer
    reads raw text. *)
Definition switch_tokenizer (s : html_parser_t) (tok : Tokenizer.html_token_t)
    (tk : Tokenizer.html_tokenizer_t) : Tokenizer.html_tokenizer_t :=
  let raw st :=
    Tokenizer.mk_tokenizer (Tokenizer.input tk) (Tokenizer.position tk)
      (Tokenizer.length tk) st (Tokenizer.current_token tk) (Tokenizer.buffer tk) in
  if is_start_tag tok && bool_decide (current_tag s = Tokenizer.tag_name tok) then
    if bool_decide (Tokenizer.tag_name tok = "script") then raw STATE_SCRIPT_DATA
    else if bool_decide (Tokenizer.tag_name tok = "style") then raw STATE_STYLE_DATA
    else tk
  else tk.

(** Take tokens and process them until [TOKEN_EOF] has been processed, at
    most [fuel] times; the boolean tells whether [TOKEN_EOF] was reached. *)
Fixpoint parse_loop (fuel : nat) (s : html_parser_t) (tk : Tokenizer.html_tokenizer_t)
  : html_parser_t * bool :=
  match fuel with
  | O => (with_tokenizer (Some tk) s, false)
  | S fuel' =>
      let '(tk1, tok, errs) := Tokenizer.html_tokenizer_next_token tk in
      let s1 := html_process_token (parse_errors errs s) tok in
      match Tokenizer.type tok with
      | TOKEN_EOF => (with_tokenizer (Some tk1) s1, true)
      | _ => parse_loop fuel' s1 (switch_tokenizer s1 tok tk1)
      end
  end.

(** The characters of the input stream: the first [length] of [input]. *)
Definition input_stream (input : string) (length : nat) : list ascii :=
  take length (list_ascii_of_string input).

(** A parser ready for a new document. *)
Definition reset_parser (p : html_parser_t) (fragment : bool) : html_parser_t :=
  mk_parser None MODE_INITIAL [] [] dom_document_create None None
            (scripting_enabled p) fragment (error_log p).

(** Modelled from the spec: [html_parse] (declared in [parser.h], called by
    [browser_load_html]).  Section 7: "parsing always completes and yields a
    Document even for arbitrarily malformed input; only an empty input
    stream and a null context for fragment parsing are contract-violation
    conditions that fail before any token is produced".  Returns the parser
    after the call and the document, [None] for the NULL result. *)
Definition html_parse (p : html_parser_t) (input : string) (length : nat)
  : html_parser_t * option dom_document_t :=
  match input_stream input length with
  | [] => (p, None)
  | _ =>
      let tk := Tokenizer.html_tokenizer_create input length in
      let s := (parse_loop (Tokenizer.enough_calls tk) (reset_parser p false) tk).1 in
      (s, Some (document s))
  end.

(** Modelled from the spec: [html_parse_fragment] (declared in
    [parser.h]).  Section 6: the context element "seeds the
    OpenElementsStack and InsertionMode"; a NULL context is a contract
    violation (section 7).  The stack starts with a root html element; the
    mode is before-head for an html context and in-body otherwise; the
    tokenizer starts in the raw-text state of a script or style context. *)
Definition html_parse_fragment (p : html_parser_t) (input : string) (length : nat)
    (context : option dom_node_t) : html_parser_t * option dom_document_t :=
  match context, input_stream input length with
  | None, _ => (p, None)
  | _, [] => (p, None)
  | Some ctx, _ =>
      let tk := Tokenizer.html_tokenizer_create input length in
      let tk0 :=
        Tokenizer.mk_tokenizer (Tokenizer.input tk) 0 length
          (if bool_decide (node_name ctx = "script") then STATE_SCRIPT_DATA
           else if bool_decide (node_name ctx = "style") then STATE_STYLE_DATA
           else STATE_DATA) None "" in
      let s0 := insert_html (reset_parser p true) (start_tag "html") in
      let s1 := with_mode (if bool_decide (node_name ctx = "html")
                           then MODE_BEFORE_HEAD else MODE_IN_BODY) s0 in
      let s := (parse_loop (Tokenizer.enough_calls tk0) s1 tk0).1 in
      (s, Some (document s))
  end.

(** The document [html_parse] builds from a string, with a fresh parser. *)
Definition parse_string (input : string) : option dom_document_t :=
  (html_parse html_parser_create input (String.length input)).2.

End Parser.

(* ===================================================================== *)
(** * Part VI: what a parse is observed by                               *)
(* ===================================================================== *)

Module Outcome.
Import Dom Parser.

(** The parser after at most [fuel] tokens of a document parse: every point
    of the parse, token by token. *)
Definition parse_state (p : html_parser_t) (input : string) (len fuel : nat)
  : html_parser_t :=
  (parse_loop fuel (reset_parser p false) (Tokenizer.html_tokenizer_create input len)).1.

(** The same for a fragment parse that starts in the mode [m]
    (before-head for an html context, in-body otherwise) with the tokenizer
    in the state [st]. *)
Definition fragment_state (p : html_parser_t) (input : string) (len : nat)
    (body_mode : bool) (st : html_tokenizer_state_t) (fuel : nat) : html_parser_t :=
  (parse_loop fuel
     (with_mode (if body_mode then MODE_IN_BODY else MODE_BEFORE_HEAD)
                (insert_html (reset_parser p true) (start_tag "html")))
     (Tokenizer.mk_tokenizer (list_ascii_of_string input) 0 len st None "")).1.

(** The parser after [html_parse] of a whole string. *)
Definition final_state (input : string) : html_parser_t :=
  (html_parse html_parser_create input (String.length input)).1.

(** The tree of the document, and the tree of its body element. *)
Definition doc_tree (input : string) : option tree :=
  match parse_string input with
  | Some d => Some (subtree d document_node)
  | None => None
  end.

Definition body_tree (input : string) : option tree :=
  match parse_string input with
  | Some d =>
      match body d with
      | Some b => Some (subtree d b)
      | None => None
      end
  | None => None
  end.

(** The text nodes of a tree in document order, each with whether it has
    an ancestor element named [tag]. *)
Fixpoint texts_under (tag : string) (inside : bool) (t : tree) : list (string * bool) :=
  match t with
  | Document kids => flat_map (texts_under tag inside) kids
  | Element name _ kids =>
      flat_map (texts_under tag (inside || bool_decide (name = tag))) kids
  | Text s => [(s, inside)]
  | _ => []
  end.

(** The text nodes of a tree in document order. *)
Definition texts (t : tree) : list string := (texts_under "" false t).*1.

(** A token that is a tag or text. *)
Definition content_token (t : Tokenizer.html_token_t) : bool :=
  match Tokenizer.type t with
  | TOKEN_START_TAG | TOKEN_END_TAG | TOKEN_SELF_CLOSING_TAG | TOKEN_CHARACTER => true
  | _ => false
  end.

(** An element without attributes. *)
Definition el (tag : string) (kids : list tree) : tree := Element tag [] kids.

(** The empty skeleton of a document. *)
Definition skeleton : tree := el "html" [el "head" []; el "body" []].

(** ** The claims that do not hold, as the specification words them *)

(** The claim as the specification words it: every input gives a document,
    whose document element is there exactly when the input has a tag or a
    text character. *)
Definition document_element_as_specified : Prop :=
  forall input, exists d,
    parse_string input = Some d /\
    (is_Some (document_element d) <-> existsb content_token (Tokenizer.tokenize input) = true).

(** The claim as the specification words it: the body of
    [<b>1<i>2<p>3</b>4</p>5</i>] is
    [<b>1<i>2</i></b><p><i><b></b>3</i>4</p><i>5</i>]. *)
Definition misnesting_as_specified : Prop :=
  body_tree "<b>1<i>2<p>3</b>4</p>5</i>" =
    Some (el "body"
            [el "b" [Text "1"; el "i" [Text "2"]];
             el "p" [el "i" [el "b" []; Text "3"]; Text "4"];
             el "i" [Text "5"]]).

(** The claim as the specification words it: in [<b>x<div>y</div>z</b>]
    the texts x and z are below a [b] element and the text y is not. *)
Definition reconstruction_as_specified : Prop :=
  exists t, body_tree "<b>x<div>y</div>z</b>" = Some t /\
            texts_under "b" false t = [("x", true); ("y", false); ("z", true)].

End Outcome.

(* ===================================================================== *)
(** * Part VII: invariants of the tree constructor                       *)
(* ===================================================================== *)

Module Invariants.
Import Dom Parser.

(** What an operation on the arena keeps of a node: its type, name and
    namespace, and, for a formatting element, its attributes. *)
Definition node_same (n n' : dom_node_t) : Prop :=
  node_type n' = node_type n /\ node_name n' = node_name n /\
  namespace_uri n' = namespace_uri n /\
  (is_element n = true -> html_is_formatting_element (node_name n) = true ->
   node_attributes n' = node_attributes n).

Definition keeps (a a' : list dom_node_t) : Prop :=
  forall i n, a !! i = Some n -> exists n', a' !! i = Some n' /\ node_same n n'.

(** No void element has a child. *)
Definition void_childless (a : list dom_node_t) : Prop :=
  forall i, html_is_void_element (tag_of a i) = true -> children_of a i = [].

(** An HTML formatting element. *)
Definition fmt_node (a : list dom_node_t) (x : node_id) : Prop :=
  exists n, a !! x = Some n /\ is_element n = true /\
            html_is_formatting_element (node_name n) = true /\
            namespace_uri n = HTML_NAMESPACE.

(** Marker elements on the stack and markers on the list. *)
Definition is_me (a : list dom_node_t) (x : node_id) : bool :=
  is_marker_element (tag_of a x).
Definition count_me (a : list dom_node_t) (oe : list node_id) : nat :=
  length (filter (fun x => is_me a x = true) oe).
Definition count_markers (af : list (option node_id)) : nat :=
  length (filter (fun e => e = None) af).

(** The level of a stack entry: the number of marker elements below it;
    the level of a list entry: the number of markers older than it. *)
Fixpoint stack_levels (a : list dom_node_t) (oe : list node_id) : list (node_id * nat) :=
  match oe with
  | [] => []
  | x :: r => (x, count_me a r) :: stack_levels a r
  end.
Fixpoint list_levels (af : list (option node_id)) : list (node_id * nat) :=
  match af with
  | [] => []
  | None :: r => list_levels r
  | Some x :: r => (x, count_markers r) :: list_levels r
  end.

(** The list and the stack agree: as many markers as open marker elements,
    and an element that is on both is at the same level on both. *)
Definition corr (a : list dom_node_t) (oe : list node_id) (af : list (option node_id))
  : Prop :=
  count_markers af = count_me a oe /\
  forall x k k', (x, k) ∈ list_levels af -> (x, k') ∈ stack_levels a oe -> k = k'.

(** The Noah's Ark condition on the keys of the list: every entry has at
    most two older entries with the same key before the next older marker. *)
Definition keys (a : list dom_node_t) (af : list (option node_id))
  : list (option element_key) :=
  (fun e : option node_id => key_of a <$> e) <$> af.
Definition count_same (k : element_key) (l : list element_key) : nat :=
  length (filter (fun k' => same_key k k' = true) l).
Fixpoint ark_keys (l : list (option element_key)) : Prop :=
  match l with
  | [] => True
  | None :: r => ark_keys r
  | Some k :: r => count_same k (last_segment r) <= 2 /\ ark_keys r
  end.
Definition ark (a : list dom_node_t) (af : list (option node_id)) : Prop :=
  ark_keys (keys a af).

(** [thin l' l]: [l'] is [l] without some of its entries that are not
    markers. *)
Inductive thin {A} : list (option A) -> list (option A) -> Prop :=
| thin_nil : thin [] []
| thin_keep e l' l : thin l' l -> thin (e :: l') (e :: l)
| thin_drop x l' l : thin l' l -> thin l' (Some x :: l).

(** The invariant of the inner loop of the adoption agency algorithm,
    relative to the arena [a0] and the list [af0] it starts from and to the
    formatting element [fe]: nodes are kept, entries are only removed or
    rebound to new copies at the level of the last segment, the formatting
    element stays after the last marker, and so does the bookmark. *)
Record inner_inv (a0 : list dom_node_t) (af0 : list (option node_id)) (fe : node_id)
    (st : inner_state) : Prop := mk_inner_inv {
  ii_keeps : keeps a0 (i_nodes st);
  ii_void : void_childless (i_nodes st);
  ii_fmt : forall x, Some x ∈ i_formatting st -> fmt_node (i_nodes st) x;
  ii_markers : count_markers (i_formatting st) = count_markers af0;
  ii_levels : forall x k, (x, k) ∈ list_levels (i_formatting st) ->
      (x < length a0 /\ (x, k) ∈ list_levels af0) \/
      (length a0 <= x /\ k = count_markers af0);
  ii_thin : thin (keys (i_nodes st) (i_formatting st)) (keys a0 af0);
  ii_fe : fe ∈ last_segment (i_formatting st);
  ii_bookmark : forall c, i_bookmark st = Some c ->
      c ∈ last_segment (i_formatting st) /\ length a0 <= c
}.

(** The modes before the body. *)
Definition early_mode (m : html_insertion_mode_t) : bool :=
  match m with
  | MODE_INITIAL | MODE_BEFORE_HTML | MODE_BEFORE_HEAD | MODE_IN_HEAD
  | MODE_AFTER_HEAD => true
  | _ => false
  end.

(** What the steps inside a mode leave alone: the mode and the three
    element references of the document. *)
Definition frame (s s' : html_parser_t) : Prop :=
  mode s' = mode s /\
  document_element (document s') = document_element (document s) /\
  head (document s') = head (document s) /\
  body (document s') = body (document s).

(** A step into or inside the modes of the body: the references of the
    document stay. *)
Definition late_step (s s' : html_parser_t) : Prop :=
  early_mode (mode s') = false /\
  document_element (document s') = document_element (document s) /\
  head (document s') = head (document s) /\
  body (document s') = body (document s).

(** How far the modes before the body have got: the html element is there
    from before-head on, the head element from in-head on, the body element
    after after-head. *)
Definition stage (m : html_insertion_mode_t) : nat :=
  match m with
  | MODE_INITIAL | MODE_BEFORE_HTML => 0
  | MODE_BEFORE_HEAD => 1
  | MODE_IN_HEAD | MODE_AFTER_HEAD => 2
  | _ => 3
  end.

Definition refs_ok (s : html_parser_t) : Prop :=
  (1 <= stage (mode s) -> is_Some (document_element (document s))) /\
  (2 <= stage (mode s) -> is_Some (head (document s))) /\
  (3 <= stage (mode s) -> is_Some (body (document s))).

(** The invariant of the tree constructor. *)
Record Inv (s : html_parser_t) : Prop := mk_Inv {
  inv_doc : tag_of (arena s) document_node = "" /\ 0 < length (arena s);
  inv_open_bound : forall x, x ∈ open_elements s -> x < length (arena s);
  inv_open_nonvoid :
    forall x, x ∈ open_elements s -> html_is_void_element (tag_of (arena s) x) = false;
  inv_fmt : forall x, Some x ∈ active_formatting s -> fmt_node (arena s) x;
  inv_void : void_childless (arena s);
  inv_head : forall h, head_element s = Some h -> tag_of (arena s) h = "head";
  inv_form : forall f, form_element s = Some f -> tag_of (arena s) f = "form";
  inv_root : forall h, document_element (document s) = Some h ->
                       tag_of (arena s) h = "html";
  inv_body : forall b, body (document s) = Some b -> tag_of (arena s) b = "body";
  inv_early : early_mode (mode s) = true -> active_formatting s = [];
  inv_corr : corr (arena s) (open_elements s) (active_formatting s);
  inv_ark : ark (arena s) (active_formatting s)
}.

(** The states of a parser during a parse: it starts from a reset parser
    (with the root element of a fragment parse), and then tokens are
    processed and tokenizer errors reported. *)
Inductive reachable : html_parser_t -> Prop :=
| reach_reset p fragment : reachable (reset_parser p fragment)
| reach_fragment s m :
    reachable s -> mode s = MODE_INITIAL -> m = MODE_BEFORE_HEAD \/ m = MODE_IN_BODY ->
    open_elements s = [] ->
    reachable (with_mode m (insert_html s (start_tag "html")))
| reach_token s tok : reachable s -> reachable (html_process_token s tok)
| reach_error s e : reachable s -> reachable (parse_error e s)
| reach_tokenizer s t : reachable s -> reachable (with_tokenizer t s).

(** A scope boundary stops at every marker element. *)
Definition boundary_ok (boundary : string -> bool) : Prop :=
  forall t, is_marker_element t = true -> boundary t = true.

(** The arena after the html, head and body elements have been made by the
    rules for the end of the input. *)
Definition with_skeleton (a : list dom_node_t) : list dom_node_t :=
  alter (add_child (length a)) document_node a
  ++ [mk_node NODE_ELEMENT "html" "" [] HTML_NAMESPACE (Some document_node)
              [S (length a); S (S (length a))];
      mk_node NODE_ELEMENT "head" "" [] HTML_NAMESPACE (Some (length a)) [];
      mk_node NODE_ELEMENT "body" "" [] HTML_NAMESPACE (Some (length a)) []].

(** The steps that the end of the input takes from a state before the
    html element. *)
Definition finish (s : html_parser_t) : html_parser_t :=
  insert_body
    (with_mode MODE_AFTER_HEAD
       (pop_open (insert_head (insert_html s (start_tag "html")) (start_tag "head"))))
    (start_tag "body").

(** A state before the html element: nothing is open. *)
Definition before_html_state (s : html_parser_t) : Prop :=
  stage (mode s) = 0 /\ open_elements s = [] /\ 0 < length (arena s).

End Invariants.

(* ===================================================================== *)
(** * Theorems                                                           *)
(* ===================================================================== *)

Module EngineProofs.
Import Engine.
Local Open Scope Z_scope.

Lemma clear_forward_history_bound idx cnt :
  0 <= cnt <= HISTORY_CAPACITY -> 0 <= idx < HISTORY_CAPACITY ->
  0 <= clear_forward_history idx cnt <= HISTORY_CAPACITY.
Proof.
  unfold clear_forward_history, wrap32, UINT32_MOD, HISTORY_CAPACITY.
  intros Hc Hi. destruct (idx <? (cnt - 1) mod 2 ^ 32) eqn:E.
  - rewrite Z.mod_small by lia. lia.
  - lia.
Qed.

Lemma navigation_after fetch load_title tab u :
  let cnt1 := clear_forward_history (history_index tab) (history_count tab) in
  let tab' := (browser_navigate fetch load_title tab (Some u)).1 in
  if cnt1 <? HISTORY_CAPACITY
  then history tab' = <[Z.to_nat cnt1 := Some u]> (history tab) /\
       history_index tab' = wrap32 (wrap32 (cnt1 + 1) - 1) /\
       history_count tab' = wrap32 (cnt1 + 1)
  else history tab' = history tab /\
       history_index tab' = history_index tab /\
       history_count tab' = cnt1.
Proof.
  cbv zeta. unfold browser_navigate.
  destruct (clear_forward_history _ _ <? HISTORY_CAPACITY);
    destruct (fetch u) as [| | |[] body]; simpl; auto.
Qed.

(** C10. For a tab whose history lies within the 100 slots of its array
    and a non-null URL, [browser_navigate] leaves at most 100 entries in the
    history; when it records the URL, [history_index] is
    [history_count - 1], the new last visible entry is the URL, and the
    entries before it are the old ones up to the previous index (the forward
    entries are dropped first) or, when there was no forward history, all the
    old entries. *)
Theorem browser_navigate_history fetch load_title tab u :
  history_ok tab ->
  let tab' := (browser_navigate fetch load_title tab (Some u)).1 in
  history_ok tab' /\
  history_count tab' <= 100 /\
  (records_url tab = true ->
     history_index tab' = history_count tab' - 1 /\
     visible_history tab' =
       take (Z.to_nat (clear_forward_history (history_index tab) (history_count tab)))
            (history tab) ++ [Some u] /\
     (history_index tab < wrap32 (history_count tab - 1) ->
        history_count tab' = history_index tab + 2)).
Proof.
  intros (Hc & Hi & Hl). intros tab'.
  pose proof (navigation_after fetch load_title tab u) as Hn. cbv zeta in Hn.
  fold tab' in Hn.
  pose proof (clear_forward_history_bound _ _ Hc Hi) as Hb.
  unfold records_url, visible_history, history_ok.
  destruct (clear_forward_history _ _ <? HISTORY_CAPACITY) eqn:E;
    destruct Hn as (Hh & Hx & Hn); rewrite Hh, Hx, Hn;
    unfold HISTORY_CAPACITY, wrap32, UINT32_MOD in *.
  - apply Z.ltb_lt in E.
    rewrite (Z.mod_small (_ + 1)) by lia.
    rewrite Z.mod_small by lia.
    rewrite length_insert.
    repeat split; try lia.
    + replace (Z.to_nat (clear_forward_history (history_index tab) (history_count tab) + 1))
        with (S (Z.to_nat (clear_forward_history (history_index tab) (history_count tab))))
        by lia.
      erewrite take_S_r.
      * rewrite take_insert_ge by lia. reflexivity.
      * apply list_lookup_insert_eq. lia.
    + intros Hlt. unfold clear_forward_history, wrap32, UINT32_MOD.
      apply Z.ltb_lt in Hlt. unfold wrap32, UINT32_MOD in Hlt. rewrite Hlt.
      rewrite Z.mod_small by lia. lia.
  - repeat split; try lia; try discriminate.
Qed.

(** Witness for C10: a fresh tab visiting one page. *)
Lemma browser_navigate_history_witness :
  let tab' := (browser_navigate (fun _ => FetchNoResponse) (fun _ => None)
                 browser_create_tab_navigation (Some "https://a")).1 in
  history_ok tab' /\
  history_count tab' <= 100 /\
  (records_url browser_create_tab_navigation = true ->
     history_index tab' = history_count tab' - 1 /\
     visible_history tab' =
       take (Z.to_nat (clear_forward_history
                         (history_index browser_create_tab_navigation)
                         (history_count browser_create_tab_navigation)))
            (history browser_create_tab_navigation) ++ [Some "https://a"] /\
     (history_index browser_create_tab_navigation
        < wrap32 (history_count browser_create_tab_navigation - 1) ->
        history_count tab' = history_index browser_create_tab_navigation + 2)).
Proof.
  apply (browser_navigate_history (fun _ => FetchNoResponse) (fun _ => None)
           browser_create_tab_navigation "https://a").
  unfold history_ok, HISTORY_CAPACITY. simpl. repeat split; lia.
Defined.

End EngineProofs.

Module DeclProofs.
Import Decl.

Lemma all_modes_complete m : m ∈ all_modes.
Proof. destruct m; by_compute. Qed.

(** C9, as stated, fails: no enumerator is the text mode. *)
Lemma insertion_modes_not_as_specified : ~ modes_as_specified.
Proof.
  intros [H _].
  destruct (proj1 (H "text")) as [m Hm].
  - by_compute.
  - destruct m; discriminate Hm.
Qed.

(** C9, amended. The insertion mode is exactly one of the 16 enumerators
    of [html_insertion_mode_t]; their names are 16 of the 21 specified
    ones, the other five (text, in-caption, in-column-group,
    in-select-in-table, after-after-frameset) have no enumerator; the parser
    record has the single mode member [mode] and no member that holds a
    sequence of modes. *)
Theorem insertion_modes_declared :
  (forall m : html_insertion_mode_t, m ∈ all_modes) /\
  NoDup all_modes /\ length all_modes = 16 /\
  NoDup (mode_name <$> all_modes) /\
  (forall n, n ∈ spec_insertion_modes ->
     (exists m, mode_name m = n) \/
     n ∈ ["text"; "in-caption"; "in-column-group"; "in-select-in-table";
          "after-after-frameset"]) /\
  (forall m, mode_name m ∈ spec_insertion_modes) /\
  (forall n, n ∈ ["text"; "in-caption"; "in-column-group"; "in-select-in-table";
                  "after-after-frameset"] -> forall m, mode_name m <> n) /\
  mode_slots = ["mode"] /\ mode_stacks = [].
Proof.
  split; [exact all_modes_complete|].
  split; [by_compute|].
  split; [reflexivity|].
  split; [by_compute|].
  split.
  { intros n Hn. unfold spec_insertion_modes in Hn.
    repeat (apply elem_of_cons in Hn as [->|Hn]);
      try (right; by_compute).
    all: try (left;
      first [ by exists MODE_INITIAL | by exists MODE_BEFORE_HTML
            | by exists MODE_BEFORE_HEAD | by exists MODE_IN_HEAD
            | by exists MODE_AFTER_HEAD | by exists MODE_IN_BODY
            | by exists MODE_AFTER_BODY | by exists MODE_AFTER_AFTER_BODY
            | by exists MODE_IN_TABLE | by exists MODE_IN_TABLE_BODY
            | by exists MODE_IN_ROW | by exists MODE_IN_CELL
            | by exists MODE_IN_SELECT | by exists MODE_IN_TEMPLATE
            | by exists MODE_IN_FRAMESET | by exists MODE_AFTER_FRAMESET ]).
    inversion Hn. }
  split.
  { intros m. destruct m; by_compute. }
  split.
  { intros n Hn m.
    repeat (apply elem_of_cons in Hn as [->|Hn]); try (destruct m; discriminate).
    inversion Hn. }
  split; reflexivity.
Qed.

(** Witness for C9: the in-body mode is declared, the text mode is not. *)
Lemma insertion_modes_declared_witness :
  ((exists m, mode_name m = "in-body") \/
   "in-body" ∈ ["text"; "in-caption"; "in-column-group"; "in-select-in-table";
                "after-after-frameset"]) /\
  mode_name MODE_IN_BODY <> "text".
Proof.
  destruct insertion_modes_declared as (_ & _ & _ & _ & H1 & _ & H2 & _).
  split.
  - apply (H1 "in-body"). by_compute.
  - apply (H2 "text"). by_compute.
Defined.

End DeclProofs.

Module TokenizerProofs.
Import Tokenizer.

#[local] Arguments html_tokenizer_next_token : simpl never.

(** Case analysis on the tests a tokenizer step makes. *)
Ltac step_cases :=
  repeat match goal with
         | |- context [if ?b then _ else _] => destruct b eqn:?
         | |- context [match ?x with Emit _ _ _ _ => _ | _ => _ end] =>
             destruct x eqn:?
         end.

Lemma commit_unique p : unique_names (p_tok p) -> unique_names (commit p).1.
Proof.
  unfold unique_names, commit, attribute_names. intros H.
  destruct (p_attr p); [|exact H].
  case_bool_decide as Hin; simpl; [exact H|].
  rewrite fmap_app. simpl. apply NoDup_app. split; [exact H|].
  split; [|apply NoDup_singleton].
  intros x Hx Hx'. apply list_elem_of_singleton in Hx'. subst. auto.
Qed.

(** What [commit] does with a finished attribute. *)
Lemma commit_duplicate p :
  p_attr p = true -> p_name p ∈ attribute_names (p_tok p) ->
  commit p = (p_tok p, [HTML_ERROR_DUPLICATE_ATTRIBUTE]).
Proof.
  intros Ha Hin. unfold commit. rewrite Ha. rewrite bool_decide_eq_true_2; auto.
Qed.

Lemma commit_fresh p :
  p_attr p = true -> p_name p ∉ attribute_names (p_tok p) ->
  attributes (commit p).1 = attributes (p_tok p) ++ [(p_name p, p_value p)] /\
  (commit p).2 = [].
Proof.
  intros Ha Hin. unfold commit. rewrite Ha. rewrite bool_decide_eq_false_2; auto.
Qed.

Lemma commit_keeps p a : a ∈ attributes (p_tok p) -> a ∈ attributes (commit p).1.
Proof.
  unfold commit. intros H. destruct (p_attr p); [|exact H].
  case_bool_decide; simpl; [exact H|]. apply elem_of_app. auto.
Qed.

Lemma commit_shape p :
  type (commit p).1 = type (p_tok p) /\ tag_name (commit p).1 = tag_name (p_tok p) /\
  data (commit p).1 = data (p_tok p) /\ self_closing (commit p).1 = self_closing (p_tok p).
Proof. unfold commit. destruct (p_attr p); [case_bool_decide|]; simpl; auto. Qed.

Lemma unique_nil ty n d sc : unique_names (mk_token ty n [] d sc).
Proof. apply NoDup_nil_2. Qed.

Lemma step_unique st p c look :
  unique_names (p_tok p) -> action_unique (step st p c look).
Proof.
  intros H. pose proof (commit_unique p H) as Hc.
  destruct st; simpl;
    unfold before_attribute_name, markup_declaration_open, comment_step,
      raw_text_step, emit_tag;
    step_cases; simpl; auto using unique_nil;
    try match goal with
        | E : _ = Emit _ _ _ _ |- _ => injection E as <- <- <- <-
        | E : _ = Continue _ _ _ _ |- _ => injection E as <- <- <- <-
        end; simpl; auto using unique_nil; try discriminate.
  all: try (apply (commit_unique (set_self_closing p)); exact H).
  all: apply unique_nil.
Qed.

Lemma at_eof_unique st p : unique_names (p_tok p) -> unique_names (at_eof st p).1.
Proof.
  intros H. pose proof (commit_unique p H).
  destruct st; simpl; auto; apply unique_nil.
Qed.

Lemma scan_unique rest : forall skip st p errs,
  unique_names (p_tok p) -> unique_names (r_token (scan skip st p errs rest)).
Proof.
  induction rest as [|c rest IH]; intros skip st p errs H; simpl.
  - by apply at_eof_unique.
  - destruct skip; [|by apply IH].
    pose proof (step_unique st p c rest H) as Hs.
    destruct (step st p c rest); simpl in *; auto.
Qed.

(** *** Progress of the scanning loop *)

Lemma step_emit_content st p c look tok st' e consumed :
  step st p c look = Emit tok st' e consumed ->
  content_state st' = true /\ (consumed = false -> content_state st = false).
Proof.
  destruct st; simpl;
    unfold before_attribute_name, markup_declaration_open, comment_step,
      raw_text_step, emit_tag;
    step_cases; intros E; try discriminate;
    try (injection E as <- <- <- <-; auto; fail).
  all: repeat match goal with
       | E : (if ?b then _ else _) = _ |- _ => destruct b
       end; try discriminate.
  all: try match goal with
       | E : Emit _ _ _ _ = Emit _ _ _ _ |- _ => injection E as <- <- <- <-
       end.
  all: try match goal with
       | E1 : Emit _ _ _ _ = Emit _ _ _ _, E2 : Emit _ _ _ _ = Emit _ _ _ _ |- _ =>
           injection E1 as <- <- <- <-; injection E2 as <- <- <- <-
       end; auto.
Qed.

Lemma state_after_eof_content st : content_state (state_after_eof st) = true.
Proof. unfold state_after_eof. destruct (content_state st) eqn:E; auto. Qed.

(** The unread input after a scan is a suffix of the unread input before
    it; the tokenizer is left in a state with no token under construction;
    and unless the token is [TOKEN_EOF], either a character has been read or
    the scan started inside a token. *)
Lemma scan_progress rest : forall skip st p errs,
  let r := scan skip st p errs rest in
  (exists pre, rest = pre ++ r_rest r) /\
  content_state (r_state r) = true /\
  (List.length (r_rest r) < List.length rest \/
   (r_rest r = rest /\
    (content_state st = false \/ (rest = [] /\ r_token r = eof_token)))).
Proof.
  induction rest as [|c rest IH]; intros skip st p errs; simpl.
  - split; [by exists []|]. split; [apply state_after_eof_content|].
    right. split; [done|].
    destruct st; simpl; auto.
  - destruct skip.
    + destruct (step st p c rest) as [tok st' e consumed|st' p' e k] eqn:E; simpl.
      * apply step_emit_content in E as [Hc Hu].
        split; [|split; [exact Hc|]].
        { destruct consumed; [by exists [c]|by exists []]. }
        destruct consumed; [left; simpl; lia|right; auto].
      * destruct (IH k st' p' (errs ++ e)) as ([pre Hpre] & Hc & Hlen).
        split; [exists (c :: pre); simpl; congruence|].
        split; [exact Hc|]. left.
        destruct Hlen as [Hlt|[Heq _]]; [simpl; lia|rewrite Heq; simpl; lia].
    + destruct (IH skip st p errs) as ([pre Hpre] & Hc & Hlen).
      split; [exists (c :: pre); simpl; congruence|].
      split; [exact Hc|]. left.
      destruct Hlen as [Hlt|[Heq _]]; [simpl; lia|rewrite Heq; simpl; lia].
Qed.

Lemma next_token_remaining tk :
  remaining (html_tokenizer_next_token tk).1.1 =
  r_rest (scan 0 (state tk) (pending_of tk) [] (remaining tk)).
Proof.
  unfold html_tokenizer_next_token. simpl.
  destruct (scan_progress (remaining tk) 0 (state tk) (pending_of tk) [])
    as ([pre Hpre] & _ & _).
  set (r := scan 0 (state tk) (pending_of tk) [] (remaining tk)) in *.
  unfold remaining at 1. simpl.
  rewrite Hpre at 1. rewrite length_app.
  replace (List.length pre + List.length (r_rest r) - List.length (r_rest r))
    with (List.length pre) by lia.
  rewrite <- drop_drop. fold (remaining tk). rewrite Hpre.
  by rewrite drop_app_length.
Qed.

Lemma next_token_progress tk :
  let '(tk', tok, _) := html_tokenizer_next_token tk in
  content_state (state tk') = true /\
  (tok = eof_token \/ calls_left tk' < calls_left tk).
Proof.
  pose proof (next_token_remaining tk) as Hr.
  destruct (html_tokenizer_next_token tk) as [[tk' tok] e] eqn:E.
  simpl in Hr.
  unfold html_tokenizer_next_token in E. injection E as <- <- <-.
  destruct (scan_progress (remaining tk) 0 (state tk) (pending_of tk) [])
    as (_ & Hc & Hlen).
  set (r := scan 0 (state tk) (pending_of tk) [] (remaining tk)) in *.
  split; [exact Hc|].
  unfold calls_left. rewrite Hr. simpl. rewrite Hc.
  destruct Hlen as [Hlt|[Heq [Hn|[_ He]]]].
  - right. destruct (content_state (state tk)); lia.
  - right. rewrite Heq, Hn. lia.
  - left. exact He.
Qed.

Lemma tokens_S n tk :
  tokens (S n) tk =
  match type (html_tokenizer_next_token tk).1.2 with
  | TOKEN_EOF => [(html_tokenizer_next_token tk).1.2]
  | _ => (html_tokenizer_next_token tk).1.2
           :: tokens n (html_tokenizer_next_token tk).1.1
  end.
Proof. reflexivity. Qed.

Lemma tokens_eof n : forall tk, calls_left tk < n -> ends_with_eof (tokens n tk).
Proof.
  induction n as [|n IH]; intros tk Hn; [lia|].
  rewrite tokens_S. pose proof (next_token_progress tk) as Hp.
  destruct (html_tokenizer_next_token tk) as [[tk' tok] e].
  destruct Hp as [_ Hp]. cbn [fst snd].
  destruct (type tok) eqn:Et.
  7: { exists [], tok. split; [done|]. split; [done|constructor]. }
  all: destruct Hp as [Heq|Hlt]; [subst tok; vm_compute in Et; discriminate Et|].
  all: destruct (IH tk') as (l' & t & -> & Ht & Hl'); [lia|].
  all: exists (tok :: l'), t; split; [done|]; split; [done|].
  all: constructor; [congruence|done].
Qed.

(** *** Attributes are only ever added at the end *)

Lemma commit_prefix p : attributes (p_tok p) `prefix_of` attributes (commit p).1.
Proof.
  unfold commit. destruct (p_attr p); [|done].
  case_bool_decide; simpl; [done|]. by apply prefix_app_r.
Qed.

Lemma step_extends st p c look :
  tag_state st = true -> action_extends p (step st p c look).
Proof.
  intros Hst. pose proof (commit_prefix p) as Hc.
  destruct st; try discriminate Hst; simpl;
    unfold before_attribute_name, emit_tag;
    step_cases; simpl; auto;
    try match goal with
        | E : _ = Emit _ _ _ _ |- _ => injection E as <- <- <- <-
        | E : _ = Continue _ _ _ _ |- _ => injection E as <- <- <- <-
        end; simpl; auto; try discriminate.
  all: try exact (commit_prefix (set_self_closing p)).
Qed.

Lemma at_eof_extends st p :
  tag_state st = true -> attributes (p_tok p) `prefix_of` attributes (at_eof st p).1.
Proof.
  intros Hst. pose proof (commit_prefix p).
  destruct st; try discriminate Hst; simpl; auto.
Qed.

Lemma scan_extends rest : forall st p errs,
  tag_state st = true ->
  attributes (p_tok p) `prefix_of` attributes (r_token (scan 0 st p errs rest)).
Proof.
  induction rest as [|c rest IH]; intros st p errs Hst; simpl.
  - by apply at_eof_extends.
  - pose proof (step_extends st p c rest Hst) as Hs.
    destruct (step st p c rest) as [tok st' e consumed|st' p' e k] eqn:E;
      simpl in *; [done|].
    destruct Hs as [Hst' Hp].
    assert (k = 0) as ->.
    { clear -E Hst. destruct st; try discriminate Hst; simpl in E;
        unfold before_attribute_name, emit_tag in E;
        repeat match type of E with
               | context [if ?b then _ else _] => destruct b
               | context [match ?x with Emit _ _ _ _ => _ | _ => _ end] =>
                   destruct x eqn:?
               end; try discriminate; try (by injection E);
        repeat match goal with
               | H : (if ?b then _ else _) = _ |- _ => destruct b
               end; try discriminate;
        match goal with
        | H : Continue _ _ _ _ = Continue _ _ _ _ |- _ =>
            injection H as <- <- <- <-
        end; by injection E. }
    etrans; [exact Hp|]. by apply IH.
Qed.

(** *** End of input *)

Lemma in_UNEXPECTED_EOF_app (l1 l2 : list html_parse_error_t) :
  HTML_ERROR_UNEXPECTED_EOF ∈ l2 -> HTML_ERROR_UNEXPECTED_EOF ∈ l1 ++ l2.
Proof. intros. apply elem_of_app. auto. Qed.

Lemma scan_eof_pending skip st p errs :
  tag_state st || comment_or_doctype_state st = true ->
  let r := scan skip st p errs [] in
  type (r_token r) = type (p_tok p) /\
  tag_name (r_token r) = tag_name (p_tok p) /\
  data (r_token r) = data (p_tok p) /\
  attributes (p_tok p) `prefix_of` attributes (r_token r) /\
  HTML_ERROR_UNEXPECTED_EOF ∈ r_errors r /\
  r_state r = STATE_DATA /\ r_rest r = [].
Proof.
  intros Hst. pose proof (commit_shape p) as (H1 & H2 & H3 & _).
  pose proof (commit_prefix p) as H4.
  destruct st; try discriminate Hst; simpl;
    repeat split; auto; apply in_UNEXPECTED_EOF_app; constructor.
Qed.

Lemma next_token_at_end tk :
  remaining tk = [] ->
  remaining (html_tokenizer_next_token tk).1.1 = [] /\
  content_state (state (html_tokenizer_next_token tk).1.1) = true.
Proof.
  intros Hr. split.
  - rewrite next_token_remaining, Hr. reflexivity.
  - unfold html_tokenizer_next_token. simpl. rewrite Hr. simpl.
    apply state_after_eof_content.
Qed.

Lemma next_token_eof tk :
  remaining tk = [] -> content_state (state tk) = true ->
  (html_tokenizer_next_token tk).1.2 = eof_token.
Proof.
  intros Hr Hc. unfold html_tokenizer_next_token. simpl. rewrite Hr. simpl.
  destruct (state tk); try discriminate Hc; reflexivity.
Qed.

Lemma calls_left_enough tk : calls_left tk < enough_calls tk.
Proof. unfold calls_left, enough_calls. destruct (content_state _); lia. Qed.

Lemma tokens_unique n : forall tk,
  (forall t, current_token tk = Some t -> unique_names t) ->
  Forall unique_names (tokens n tk).
Proof.
  induction n as [|n IH]; intros tk Htk; [constructor|].
  rewrite tokens_S.
  assert (unique_names (html_tokenizer_next_token tk).1.2) as Hu.
  { unfold html_tokenizer_next_token. simpl. apply scan_unique.
    unfold pending_of. simpl. destruct (current_token tk); simpl; auto.
    apply unique_nil. }
  assert (Forall unique_names (tokens n (html_tokenizer_next_token tk).1.1)) as Hr.
  { apply IH. unfold html_tokenizer_next_token. simpl. discriminate. }
  destruct (type _); repeat constructor; auto.
Qed.

(** C5. End of input inside a tag, a doctype or a comment: the scanning
    loop emits the token under construction (same type, name and data, the
    attributes read so far kept), records [HTML_ERROR_UNEXPECTED_EOF] and
    leaves the tokenizer in the data state at the end of the input; whatever
    the state, the call after one that met the end of the input returns
    [TOKEN_EOF]; and calling [html_tokenizer_next_token] repeatedly yields
    [TOKEN_EOF] after at most two calls per unread character and two more. *)
Theorem tokenizer_eof :
  (forall skip st p errs,
     tag_state st || comment_or_doctype_state st = true ->
     let r := scan skip st p errs [] in
     type (r_token r) = type (p_tok p) /\
     tag_name (r_token r) = tag_name (p_tok p) /\
     data (r_token r) = data (p_tok p) /\
     attributes (p_tok p) `prefix_of` attributes (r_token r) /\
     HTML_ERROR_UNEXPECTED_EOF ∈ r_errors r /\
     r_state r = STATE_DATA /\ r_rest r = []) /\
  (forall tk, remaining tk = [] ->
     (html_tokenizer_next_token (html_tokenizer_next_token tk).1.1).1.2 = eof_token) /\
  (forall tk, ends_with_eof (tokens (enough_calls tk) tk)) /\
  tokenize "<div cla" =
    [mk_token TOKEN_START_TAG "div" [("cla", "")] "" false; eof_token] /\
  tokenize "<!doctype ht" = [mk_token TOKEN_DOCTYPE "ht" [] "" false; eof_token] /\
  tokenize "<!-- x" = [mk_token TOKEN_COMMENT "" [] " x" false; eof_token].
Proof.
  split; [exact scan_eof_pending|].
  split.
  { intros tk Hr. destruct (next_token_at_end tk Hr) as [Hr' Hc'].
    by apply next_token_eof. }
  split.
  { intros tk. apply tokens_eof, calls_left_enough. }
  repeat split; vm_compute; reflexivity.
Qed.

(** Witness for C5: an input that stops inside an attribute value. *)
Lemma tokenizer_eof_witness :
  let p := mk_pending (new_token TOKEN_START_TAG "a") "href" "x" true false in
  let r := scan 0 STATE_ATTRIBUTE_VALUE_DOUBLE_QUOTED p [] [] in
  (type (r_token r) = type (p_tok p) /\
   tag_name (r_token r) = tag_name (p_tok p) /\
   data (r_token r) = data (p_tok p) /\
   attributes (p_tok p) `prefix_of` attributes (r_token r) /\
   HTML_ERROR_UNEXPECTED_EOF ∈ r_errors r /\
   r_state r = STATE_DATA /\ r_rest r = []) /\
  (html_tokenizer_next_token
     (html_tokenizer_next_token (html_tokenizer_create "" 0)).1.1).1.2 = eof_token.
Proof.
  split.
  - apply (proj1 tokenizer_eof 0 STATE_ATTRIBUTE_VALUE_DOUBLE_QUOTED
             (mk_pending (new_token TOKEN_START_TAG "a") "href" "x" true false) []).
    reflexivity.
  - apply (proj1 (proj2 tokenizer_eof) (html_tokenizer_create "" 0)). reflexivity.
Defined.



End TokenizerProofs.

(* ===================================================================== *)
(** ** The arena                                                         *)
(* ===================================================================== *)

Module ArenaProofs.
Import Dom Parser Invariants.

Lemma node_same_refl n : node_same n n.
Proof. by repeat split. Qed.

Lemma node_same_trans n1 n2 n3 : node_same n1 n2 -> node_same n2 n3 -> node_same n1 n3.
Proof.
  intros (H1 & H2 & H3 & H4) (H1' & H2' & H3' & H4').
  repeat split; try congruence.
  intros He Hf. rewrite H4'; [by apply H4| |by rewrite H2].
  unfold is_element in *. by rewrite H1.
Qed.

Lemma keeps_refl a : keeps a a.
Proof. intros i n H. exists n. split; [done|apply node_same_refl]. Qed.

Lemma keeps_trans a1 a2 a3 : keeps a1 a2 -> keeps a2 a3 -> keeps a1 a3.
Proof.
  intros H12 H23 i n H. destruct (H12 i n H) as (n2 & H2 & Hs2).
  destruct (H23 i n2 H2) as (n3 & H3 & Hs3).
  exists n3. split; [done|]. by eapply node_same_trans.
Qed.

Lemma keeps_length a a' : keeps a a' -> length a <= length a'.
Proof.
  intros H. destruct (decide (length a <= length a')) as [|Hn]; [done|].
  assert (length a' < length a) as Hlt by lia.
  destruct (lookup_lt_is_Some_2 a (length a') Hlt) as [n Hn'].
  destruct (H _ _ Hn') as (n' & Hn'' & _).
  apply lookup_lt_Some in Hn''. lia.
Qed.

Lemma keeps_app a l : keeps a (a ++ l).
Proof.
  intros i n H. exists n. split; [|apply node_same_refl].
  by apply lookup_app_l_Some.
Qed.

Lemma keeps_alter f i a :
  (forall n, a !! i = Some n -> node_same n (f n)) -> keeps a (alter f i a).
Proof.
  intros Hf j n H. destruct (decide (i = j)) as [->|Hne].
  - exists (f n). rewrite list_lookup_alter_eq, H. split; [done|]. by apply Hf.
  - exists n. rewrite list_lookup_alter_ne by done. split; [done|apply node_same_refl].
Qed.

Lemma node_same_set_parent p n : node_same n (set_parent p n).
Proof. by repeat split. Qed.
Lemma node_same_set_children cs n : node_same n (set_children cs n).
Proof. by repeat split. Qed.
Lemma node_same_add_child c n : node_same n (add_child c n).
Proof. by repeat split. Qed.
Lemma node_same_remove_child c n : node_same n (remove_child c n).
Proof. by repeat split. Qed.
Lemma node_same_set_value v n : node_same n (set_value v n).
Proof. by repeat split. Qed.
Lemma node_same_set_attributes at' n :
  (if is_element n then node_name n else "") = "" \/
  html_is_formatting_element (if is_element n then node_name n else "") = false ->
  node_same n (set_attributes at' n).
Proof.
  intros H. repeat split. simpl. intros He Hf. rewrite He in H.
  destruct H as [H|H]; [by rewrite H in Hf|congruence].
Qed.

Lemma keeps_detach a c : keeps a (detach a c).
Proof.
  unfold detach. destruct (a !! c) as [n|]; [|apply keeps_refl].
  destruct (parent_node n) as [p|]; [|apply keeps_refl].
  eapply keeps_trans; apply keeps_alter; intros;
    auto using node_same_set_parent, node_same_remove_child.
Qed.

Lemma keeps_append_child a p c : keeps a (append_child a p c).
Proof.
  unfold append_child.
  eapply keeps_trans; [apply keeps_detach|].
  eapply keeps_trans; apply keeps_alter; intros;
    auto using node_same_set_parent, node_same_add_child.
Qed.

Lemma keeps_append_children cs : forall a p, keeps a (append_children a p cs).
Proof.
  unfold append_children.
  induction cs as [|c cs IH]; intros a p; simpl; [apply keeps_refl|].
  eapply keeps_trans; [apply keeps_append_child|apply IH].
Qed.

Lemma tag_of_keeps a a' i : keeps a a' -> i < length a -> tag_of a' i = tag_of a i.
Proof.
  intros H Hi. destruct (lookup_lt_is_Some_2 a i Hi) as [n Hn].
  destruct (H _ _ Hn) as (n' & Hn' & Ht & Hnm & _).
  unfold tag_of, is_element. rewrite Hn, Hn', Ht, Hnm. done.
Qed.

Lemma tag_of_Some a i : tag_of a i <> "" -> i < length a.
Proof.
  unfold tag_of. destruct (a !! i) eqn:E; [|done].
  intros _. by eapply lookup_lt_Some.
Qed.

Lemma tag_of_keeps_ne a a' i :
  keeps a a' -> tag_of a i <> "" -> tag_of a' i = tag_of a i.
Proof. intros H Hi. apply tag_of_keeps; [done|by apply tag_of_Some]. Qed.

Lemma fmt_node_keeps a a' x : keeps a a' -> fmt_node a x -> fmt_node a' x.
Proof.
  intros H (n & Hn & He & Hf & Hns).
  destruct (H _ _ Hn) as (n' & Hn' & Ht & Hnm & Hns' & _).
  exists n'. unfold is_element in *. rewrite Ht, Hnm, Hns'. done.
Qed.

Lemma fmt_node_bound a x : fmt_node a x -> x < length a.
Proof. intros (n & Hn & _). by eapply lookup_lt_Some. Qed.

Lemma fmt_node_tag a x :
  fmt_node a x -> html_is_formatting_element (tag_of a x) = true.
Proof. intros (n & Hn & He & Hf & _). unfold tag_of. by rewrite Hn, He. Qed.

Lemma key_of_keeps a a' x : keeps a a' -> fmt_node a x -> key_of a' x = key_of a x.
Proof.
  intros H (n & Hn & He & Hf & Hns).
  destruct (H _ _ Hn) as (n' & Hn' & Ht & Hnm & Hns' & Hat).
  unfold key_of. rewrite Hn, Hn', Hnm, Hns', Hat; done.
Qed.

(** *** Children *)

Lemma tag_of_alter f i a j :
  (forall n, node_type (f n) = node_type n /\ node_name (f n) = node_name n) ->
  tag_of (alter f i a) j = tag_of a j.
Proof.
  intros Hf. unfold tag_of, is_element.
  destruct (decide (i = j)) as [->|Hne].
  - rewrite list_lookup_alter_eq. destruct (a !! j) as [n|]; [|done]. simpl.
    destruct (Hf n) as [-> ->]. done.
  - by rewrite list_lookup_alter_ne.
Qed.

Lemma children_of_alter_ne f i a j : i <> j -> children_of (alter f i a) j = children_of a j.
Proof. intros H. unfold children_of. by rewrite list_lookup_alter_ne. Qed.

Lemma children_of_alter_same f i a j :
  (forall n, child_nodes (f n) = child_nodes n) ->
  children_of (alter f i a) j = children_of a j.
Proof.
  intros Hf. unfold children_of. destruct (decide (i = j)) as [->|Hne].
  - rewrite list_lookup_alter_eq. destruct (a !! j); simpl; auto.
  - by rewrite list_lookup_alter_ne.
Qed.

Lemma void_childless_alter_same f i a :
  (forall n, node_type (f n) = node_type n /\ node_name (f n) = node_name n) ->
  (forall n, child_nodes (f n) = child_nodes n) ->
  void_childless a -> void_childless (alter f i a).
Proof.
  intros Ht Hc H j Hv. rewrite tag_of_alter in Hv by done.
  rewrite children_of_alter_same by done. by apply H.
Qed.

Lemma void_childless_remove_child c p a :
  void_childless a -> void_childless (alter (remove_child c) p a).
Proof.
  intros H j Hv. rewrite tag_of_alter in Hv by done.
  specialize (H j Hv). unfold children_of in *.
  destruct (decide (p = j)) as [->|Hne].
  - rewrite list_lookup_alter_eq. destruct (a !! j); simpl in *; [|done].
    by rewrite H.
  - by rewrite list_lookup_alter_ne.
Qed.

Lemma void_childless_add_child c p a :
  html_is_void_element (tag_of a p) = false ->
  void_childless a -> void_childless (alter (add_child c) p a).
Proof.
  intros Hp H j Hv. rewrite tag_of_alter in Hv by done.
  destruct (decide (p = j)) as [->|Hne]; [congruence|].
  rewrite children_of_alter_ne by done. by apply H.
Qed.

Lemma tag_of_detach a c j : tag_of (detach a c) j = tag_of a j.
Proof.
  unfold detach. destruct (a !! c) as [n|]; [|done].
  destruct (parent_node n); [|done]. by rewrite !tag_of_alter.
Qed.

Lemma void_childless_detach a c : void_childless a -> void_childless (detach a c).
Proof.
  intros H. unfold detach. destruct (a !! c) as [n|]; [|done].
  destruct (parent_node n); [|done].
  apply void_childless_alter_same; [done..|]. by apply void_childless_remove_child.
Qed.

Lemma tag_of_append_child a p c j : tag_of (append_child a p c) j = tag_of a j.
Proof. unfold append_child. by rewrite !tag_of_alter, tag_of_detach. Qed.

Lemma void_childless_append_child a p c :
  html_is_void_element (tag_of a p) = false ->
  void_childless a -> void_childless (append_child a p c).
Proof.
  intros Hp H. unfold append_child.
  apply void_childless_alter_same; [done..|].
  apply void_childless_add_child; [by rewrite tag_of_detach|].
  by apply void_childless_detach.
Qed.

Lemma tag_of_append_children cs : forall a p j,
  tag_of (append_children a p cs) j = tag_of a j.
Proof.
  unfold append_children. induction cs as [|c cs IH]; intros a p j; simpl; [done|].
  by rewrite IH, tag_of_append_child.
Qed.

Lemma void_childless_append_children cs : forall a p,
  html_is_void_element (tag_of a p) = false ->
  void_childless a -> void_childless (append_children a p cs).
Proof.
  unfold append_children. induction cs as [|c cs IH]; intros a p Hp H; simpl; [done|].
  apply IH; [by rewrite tag_of_append_child|by apply void_childless_append_child].
Qed.

Lemma tag_of_app_l a l i : i < length a -> tag_of (a ++ l) i = tag_of a i.
Proof. intros H. unfold tag_of. by rewrite lookup_app_l. Qed.

Lemma tag_of_app_new a n : tag_of (a ++ [n]) (length a) = if is_element n then node_name n else "".
Proof. unfold tag_of. by rewrite list_lookup_middle. Qed.

Lemma tag_of_ge a i : length a <= i -> tag_of a i = "".
Proof. intros H. unfold tag_of. by rewrite lookup_ge_None_2. Qed.

Lemma children_of_ge a i : length a <= i -> children_of a i = [].
Proof. intros H. unfold children_of. by rewrite lookup_ge_None_2. Qed.

Lemma void_childless_app a n :
  child_nodes n = [] -> void_childless a -> void_childless (a ++ [n]).
Proof.
  intros Hn H i Hv. unfold children_of.
  destruct (decide (i < length a)) as [Hi|Hi].
  - rewrite tag_of_app_l in Hv by done. rewrite lookup_app_l by done. by apply H.
  - destruct (decide (i = length a)) as [->|Hne].
    + by rewrite list_lookup_middle.
    + rewrite lookup_ge_None_2; [done|]. rewrite length_app. simpl. lia.
Qed.

End ArenaProofs.

(* ===================================================================== *)
(** ** Levels of stack and list entries                                  *)
(* ===================================================================== *)

Module LevelProofs.
Import Dom Parser Invariants ArenaProofs.

Lemma count_me_cons a x oe :
  count_me a (x :: oe) = (if is_me a x then 1 else 0) + count_me a oe.
Proof.
  unfold count_me. rewrite filter_cons.
  destruct (is_me a x); case_decide; simpl; congruence.
Qed.

Lemma count_me_app a l1 l2 : count_me a (l1 ++ l2) = count_me a l1 + count_me a l2.
Proof. unfold count_me. by rewrite filter_app, length_app. Qed.

Lemma count_me_zero a l : count_me a l = 0 <-> forall x, x ∈ l -> is_me a x = false.
Proof.
  induction l as [|y l IH]; simpl.
  - split; [intros _ x Hx; inversion Hx|done].
  - rewrite count_me_cons. split.
    + intros H x Hx. destruct (is_me a y) eqn:E; [simpl in H; lia|].
      apply elem_of_cons in Hx as [->|Hx]; [done|]. apply IH; [simpl in H; lia|done].
    + intros H. rewrite (H y) by constructor. simpl. apply IH.
      intros x Hx. apply H. by constructor.
Qed.

Lemma count_markers_cons e af :
  count_markers (e :: af) = (if e is None then 1 else 0) + count_markers af.
Proof.
  unfold count_markers. rewrite filter_cons. destruct e; case_decide; simpl; congruence.
Qed.

Lemma count_markers_app l1 l2 :
  count_markers (l1 ++ l2) = count_markers l1 + count_markers l2.
Proof. unfold count_markers. by rewrite filter_app, length_app. Qed.

Lemma is_me_keeps a a' x : keeps a a' -> x < length a -> is_me a' x = is_me a x.
Proof. intros H Hx. unfold is_me. by rewrite (tag_of_keeps a a'). Qed.

Lemma count_me_keeps a a' oe :
  keeps a a' -> (forall x, x ∈ oe -> x < length a) -> count_me a' oe = count_me a oe.
Proof.
  intros H. induction oe as [|x oe IH]; intros Hb; [done|].
  rewrite !count_me_cons, IH, (is_me_keeps a a'); auto.
  - apply Hb. constructor.
  - intros y Hy. apply Hb. by constructor.
Qed.

Lemma stack_levels_keeps a a' oe :
  keeps a a' -> (forall x, x ∈ oe -> x < length a) ->
  stack_levels a' oe = stack_levels a oe.
Proof.
  intros H. induction oe as [|x oe IH]; intros Hb; [done|]. simpl.
  rewrite IH, (count_me_keeps a a'); auto; intros y Hy; apply Hb; by constructor.
Qed.

Lemma stack_levels_elem a oe x k : (x, k) ∈ stack_levels a oe -> x ∈ oe.
Proof.
  induction oe as [|y oe IH]; simpl; intros H; [inversion H|].
  apply elem_of_cons in H as [[= -> ->]|H]; [constructor|].
  constructor. by apply IH.
Qed.

Lemma list_levels_elem af x k : (x, k) ∈ list_levels af -> Some x ∈ af.
Proof.
  induction af as [|[y|] af IH]; simpl; intros H; [inversion H| |].
  - apply elem_of_cons in H as [[= -> ->]|H]; [constructor|].
    constructor. by apply IH.
  - constructor. by apply IH.
Qed.

Lemma list_levels_intro af x : Some x ∈ af -> exists k, (x, k) ∈ list_levels af.
Proof.
  induction af as [|[y|] af IH]; simpl; intros H; [inversion H| |].
  - apply elem_of_cons in H as [[= ->]|H].
    + eexists. constructor.
    + destruct (IH H) as [k Hk]. exists k. by constructor.
  - apply elem_of_cons in H as [[=]|H]. by apply IH.
Qed.

Lemma stack_levels_app a l1 l2 :
  stack_levels a (l1 ++ l2) =
  ((fun p : nat * nat => (p.1, p.2 + count_me a l2)) <$> stack_levels a l1)
  ++ stack_levels a l2.
Proof.
  induction l1 as [|x l1 IH]; [done|]. simpl.
  by rewrite IH, count_me_app.
Qed.

Lemma stack_levels_suffix a pre oe p :
  p ∈ stack_levels a oe -> p ∈ stack_levels a (pre ++ oe).
Proof. intros H. rewrite stack_levels_app. apply elem_of_app. by right. Qed.

(** In a prefix without marker elements every node is at the level of the
    top of the rest. *)
Lemma stack_levels_prefix a pre oe x k :
  count_me a pre = 0 ->
  (x, k) ∈ stack_levels a (pre ++ oe) ->
  (x ∈ pre /\ k = count_me a oe) \/ (x, k) ∈ stack_levels a oe.
Proof.
  intros Hz. rewrite stack_levels_app. intros H.
  apply elem_of_app in H as [H|H]; [left|by right].
  apply list_elem_of_fmap in H as ([y j] & [= -> ->] & Hy). simpl.
  split; [by eapply stack_levels_elem|].
  clear -Hz Hy. revert Hz Hy.
  induction pre as [|z pre IH]; simpl; intros Hz Hy; [inversion Hy|].
  rewrite count_me_cons in Hz.
  apply elem_of_cons in Hy as [[= -> ->]|Hy]; [lia|]. apply IH; [lia|done].
Qed.

Lemma stack_levels_prefix_intro a pre oe x :
  count_me a pre = 0 -> x ∈ pre -> (x, count_me a oe) ∈ stack_levels a (pre ++ oe).
Proof.
  intros Hz Hx. induction pre as [|z pre IH]; [inversion Hx|].
  rewrite count_me_cons in Hz. simpl.
  apply elem_of_cons in Hx as [->|Hx].
  - rewrite count_me_app. replace (count_me a pre) with 0 by lia. constructor.
  - constructor. apply IH; [lia|done].
Qed.

Lemma list_levels_app l1 l2 :
  list_levels (l1 ++ l2) =
  ((fun p : nat * nat => (p.1, p.2 + count_markers l2)) <$> list_levels l1)
  ++ list_levels l2.
Proof.
  induction l1 as [|[x|] l1 IH]; [done| |]; simpl.
  - by rewrite IH, count_markers_app.
  - done.
Qed.

Lemma list_levels_suffix pre af p : p ∈ list_levels af -> p ∈ list_levels (pre ++ af).
Proof. intros H. rewrite list_levels_app. apply elem_of_app. by right. Qed.

Lemma list_levels_prefix pre af x k :
  count_markers pre = 0 ->
  (x, k) ∈ list_levels (pre ++ af) ->
  (Some x ∈ pre /\ k = count_markers af) \/ (x, k) ∈ list_levels af.
Proof.
  intros Hz. rewrite list_levels_app. intros H.
  apply elem_of_app in H as [H|H]; [left|by right].
  apply list_elem_of_fmap in H as ([y j] & [= -> ->] & Hy). simpl.
  split; [by eapply list_levels_elem|].
  clear -Hz Hy. revert Hz Hy.
  induction pre as [|[z|] pre IH]; simpl; intros Hz Hy; [inversion Hy| |].
  - rewrite count_markers_cons in Hz.
    apply elem_of_cons in Hy as [[= -> ->]|Hy]; [simpl in Hz; lia|].
    apply IH; [simpl in Hz; lia|done].
  - rewrite count_markers_cons in Hz. simpl in Hz. lia.
Qed.

Lemma list_levels_prefix_intro pre af x :
  count_markers pre = 0 -> Some x ∈ pre ->
  (x, count_markers af) ∈ list_levels (pre ++ af).
Proof.
  intros Hz Hx. induction pre as [|[z|] pre IH]; [inversion Hx| |].
  - rewrite count_markers_cons in Hz. simpl in *.
    apply elem_of_cons in Hx as [[= ->]|Hx].
    + rewrite count_markers_app. replace (count_markers pre) with 0 by lia. constructor.
    + constructor. apply IH; [lia|done].
  - rewrite count_markers_cons in Hz. simpl in Hz. lia.
Qed.

(** *** Removing entries *)

Lemma count_me_filter a (P : nat -> Prop) `{HP : !forall x, Decision (P x)} oe :
  (forall x, x ∈ oe -> ~ P x -> is_me a x = false) ->
  count_me a (filter P oe) = count_me a oe.
Proof.
  induction oe as [|x oe IH]; intros Hne; [done|].
  rewrite filter_cons. case_decide as Hp.
  - rewrite !count_me_cons, IH; [done|]. intros y Hy. apply Hne. by constructor.
  - rewrite count_me_cons, (Hne x); [|constructor|done]. simpl.
    apply IH. intros y Hy. apply Hne. by constructor.
Qed.

Lemma stack_levels_filter a (P : nat -> Prop) `{HP : !forall x, Decision (P x)} oe p :
  (forall x, x ∈ oe -> ~ P x -> is_me a x = false) ->
  p ∈ stack_levels a (filter P oe) -> p ∈ stack_levels a oe.
Proof.
  induction oe as [|x oe IH]; intros Hne; [done|].
  rewrite filter_cons. simpl.
  assert (forall y, y ∈ oe -> ~ P y -> is_me a y = false) as Hne'.
  { intros y Hy. apply Hne. by constructor. }
  case_decide as Hp; simpl.
  - rewrite count_me_filter by done. intros Hin.
    apply elem_of_cons in Hin as [->|Hin]; [constructor|].
    constructor. by apply IH.
  - intros Hin. constructor. by apply IH.
Qed.

Lemma count_markers_remove x af :
  count_markers (remove_formatting x af) = count_markers af.
Proof.
  unfold remove_formatting. induction af as [|e af IH]; [done|].
  rewrite filter_cons. case_decide as He.
  - by rewrite !count_markers_cons, IH.
  - rewrite count_markers_cons. destruct e; [simpl; exact IH|discriminate He].
Qed.

Lemma list_levels_remove x af p :
  p ∈ list_levels (remove_formatting x af) -> p ∈ list_levels af.
Proof.
  induction af as [|e af IH]; [done|].
  unfold remove_formatting in *. rewrite filter_cons.
  case_decide as He.
  - destruct e as [y|]; simpl; [|done].
    fold (remove_formatting x af). rewrite count_markers_remove.
    intros Hin. apply elem_of_cons in Hin as [->|Hin]; [constructor|].
    constructor. by apply IH.
  - destruct e as [y|]; [|discriminate He]. simpl.
    intros Hin. constructor. by apply IH.
Qed.

Lemma elem_of_remove_formatting x y af :
  Some y ∈ remove_formatting x af <-> Some y ∈ af /\ y <> x.
Proof.
  unfold remove_formatting. rewrite list_elem_of_filter. split.
  - intros [H1 H2]. split; [done|]. congruence.
  - intros [H1 H2]. split; [|done]. congruence.
Qed.

End LevelProofs.

(* ===================================================================== *)
(** ** The Noah's Ark condition                                          *)
(* ===================================================================== *)

Module ArkProofs.
Import Dom Parser Invariants ArenaProofs.

Lemma attrs_subset_spec l1 l2 : attrs_subset l1 l2 = true <-> forall x, x ∈ l1 -> x ∈ l2.
Proof.
  unfold attrs_subset. rewrite forallb_forall. split.
  - intros H x Hx. apply list_elem_of_In in Hx. apply H in Hx.
    by apply bool_decide_eq_true in Hx.
  - intros H x Hx. apply bool_decide_eq_true. apply H. by apply list_elem_of_In.
Qed.

Lemma same_key_spec k1 k2 :
  same_key k1 k2 = true <->
  k1.1.1 = k2.1.1 /\ k1.1.2 = k2.1.2 /\ (forall x, x ∈ k1.2 <-> x ∈ k2.2).
Proof.
  unfold same_key. rewrite !andb_true_iff, !bool_decide_eq_true, !attrs_subset_spec.
  split.
  - intros [[[H1 H2] H3] H4]. repeat split; auto.
  - intros (H1 & H2 & H3). repeat split; auto; intros x Hx; by apply H3.
Qed.

Lemma same_key_refl k : same_key k k = true.
Proof. apply same_key_spec. repeat split; auto. Qed.

Lemma same_key_sym k1 k2 : same_key k1 k2 = true -> same_key k2 k1 = true.
Proof.
  rewrite !same_key_spec. intros (H1 & H2 & H3).
  repeat split; auto; intros Hx; by apply H3.
Qed.

Lemma same_key_trans k1 k2 k3 :
  same_key k1 k2 = true -> same_key k2 k3 = true -> same_key k1 k3 = true.
Proof.
  rewrite !same_key_spec. intros (H1 & H2 & H3) (H1' & H2' & H3').
  repeat split; try congruence; intros Hx; [by apply H3', H3|by apply H3, H3'].
Qed.

Lemma same_key_eq k1 k2 k : same_key k1 k2 = true -> same_key k1 k = same_key k2 k.
Proof.
  intros H. destruct (same_key k1 k) eqn:E1, (same_key k2 k) eqn:E2; try done.
  - rewrite <- E2. symmetry. eapply same_key_trans; [by apply same_key_sym|done].
  - rewrite <- E1. eapply same_key_trans; done.
Qed.

Lemma count_same_cons k k' l :
  count_same k (k' :: l) = (if same_key k k' then 1 else 0) + count_same k l.
Proof.
  unfold count_same. rewrite filter_cons.
  destruct (same_key k k'); case_decide; simpl; congruence.
Qed.

Lemma count_same_app k l1 l2 : count_same k (l1 ++ l2) = count_same k l1 + count_same k l2.
Proof. unfold count_same. by rewrite filter_app, length_app. Qed.

Lemma count_same_eq k1 k2 l : same_key k1 k2 = true -> count_same k1 l = count_same k2 l.
Proof.
  intros H. induction l as [|k l IH]; [done|].
  by rewrite !count_same_cons, IH, (same_key_eq k1 k2).
Qed.

Lemma last_segment_app_Some {A} (l1 : list A) (l2 : list (option A)) :
  last_segment ((Some <$> l1) ++ l2) = l1 ++ last_segment l2.
Proof. induction l1 as [|x l1 IH]; csimpl; [done|]. by rewrite IH. Qed.

(** *** Thinning *)

Lemma thin_refl {A} (l : list (option A)) : thin l l.
Proof. induction l; constructor; done. Qed.

Lemma thin_count k l' l :
  thin l' l -> count_same k (last_segment l') <= count_same k (last_segment l).
Proof.
  induction 1 as [|[j|] l' l H IH|j l' l H IH]; simpl; [done| |done|].
  - rewrite !count_same_cons. lia.
  - rewrite count_same_cons. lia.
Qed.

Lemma ark_thin l' l : thin l' l -> ark_keys l -> ark_keys l'.
Proof.
  induction 1 as [|[j|] l' l H IH|j l' l H IH]; simpl; [done| |done|].
  - intros [Hc Ha]. split; [|by apply IH].
    pose proof (thin_count j _ _ H). lia.
  - intros [_ Ha]. by apply IH.
Qed.

Lemma thin_fmap_filter {A B} (f : option A -> option B) (P : option A -> Prop)
    `{HP : !forall x, Decision (P x)} (l : list (option A)) :
  (forall e, ~ P e -> exists y, f e = Some y) ->
  thin (f <$> filter P l) (f <$> l).
Proof.
  intros Hf. induction l as [|e l IH]; simpl; [constructor|].
  rewrite filter_cons. case_decide as Hp; simpl.
  - by constructor.
  - destruct (Hf e Hp) as [y ->]. by constructor.
Qed.

Lemma thin_keys_remove a x af : thin (keys a (remove_formatting x af)) (keys a af).
Proof.
  unfold keys, remove_formatting. apply thin_fmap_filter.
  intros e He. destruct e as [y|]; [by eexists|].
  exfalso. apply He. discriminate.
Qed.

Lemma thin_keys_remove_earliest a f af : thin (keys a (remove_earliest f af)) (keys a af).
Proof.
  unfold keys. induction af as [|[x|] af IH]; simpl; [constructor| |apply thin_refl].
  destruct (f x && negb (existsb f (last_segment af))); simpl.
  - constructor. apply thin_refl.
  - by constructor.
Qed.

Lemma thin_keys_clear a af : ark a af -> ark a (clear_to_last_marker af).
Proof.
  unfold ark, keys. induction af as [|[x|] af IH]; simpl; [done| |done].
  intros [_ H]. by apply IH.
Qed.

(** *** Counting *)

Lemma ark_count l k : ark_keys l -> count_same k (last_segment l) <= 3.
Proof.
  induction l as [|[j|] l IH]; simpl; [unfold count_same; simpl; lia| |unfold count_same; simpl; lia].
  intros [Hc Ha]. rewrite count_same_cons.
  destruct (same_key k j) eqn:E.
  - rewrite (count_same_eq k j) by done. lia.
  - specialize (IH Ha). lia.
Qed.

(** An entry may be added anywhere after the last marker when at most two
    entries there have its key. *)
Lemma ark_insert (l1 : list element_key) l2 k :
  ark_keys ((Some <$> l1) ++ l2) ->
  count_same k (l1 ++ last_segment l2) <= 2 ->
  ark_keys ((Some <$> l1) ++ Some k :: l2).
Proof.
  induction l1 as [|j l1 IH]; csimpl.
  - intros Ha Hc. done.
  - intros [Hj Ha] Hc. rewrite count_same_cons in Hc. split.
    + rewrite last_segment_app_Some in Hj |- *.
      simpl (last_segment (Some k :: l2)).
      rewrite count_same_app in Hj |- *. rewrite count_same_cons.
      destruct (same_key j k) eqn:E; [|lia].
      rewrite (same_key_sym _ _ E) in Hc.
      rewrite (count_same_eq k j) in Hc by (by apply same_key_sym).
      rewrite count_same_app in Hc. lia.
    + apply IH; [done|lia].
Qed.

Lemma last_segment_keys a af : last_segment (keys a af) = key_of a <$> last_segment af.
Proof. induction af as [|[x|] af IH]; [done| |done]. simpl. by rewrite IH. Qed.

Lemma count_matching_cons f x l :
  count_matching f (x :: l) = (if f x then 1 else 0) + count_matching f l.
Proof.
  unfold count_matching. rewrite filter_cons.
  destruct (f x); case_decide; simpl; congruence.
Qed.

Lemma count_matching_keys a x l :
  count_matching (same_element a x) l = count_same (key_of a x) (key_of a <$> l).
Proof.
  induction l as [|y l IH]; [done|].
  rewrite fmap_cons, count_matching_cons, count_same_cons, IH. done.
Qed.

Lemma count_matching_existsb f l :
  existsb f l = false <-> count_matching f l = 0.
Proof.
  induction l as [|x l IH]; [done|].
  rewrite count_matching_cons. simpl. destruct (f x); simpl; [|done].
  split; [discriminate|lia].
Qed.

(** [remove_earliest] takes out exactly one matching entry after the last
    marker, the oldest one. *)
Lemma remove_earliest_spec f af :
  existsb f (last_segment af) = true ->
  exists l1 y l2,
    af = (Some <$> l1) ++ Some y :: l2 /\ f y = true /\
    existsb f (last_segment l2) = false /\
    remove_earliest f af = (Some <$> l1) ++ l2.
Proof.
  induction af as [|[x|] af IH]; simpl; [discriminate| |discriminate].
  intros H. destruct (f x) eqn:Ex; simpl in *.
  - destruct (existsb f (last_segment af)) eqn:Er; simpl.
    + destruct (IH eq_refl) as (l1 & y & l2 & -> & Hy & Hn & Hr).
      exists (x :: l1), y, l2. simpl. by rewrite Hr.
    + exists [], x, af. done.
  - destruct (IH H) as (l1 & y & l2 & -> & Hy & Hn & Hr).
    exists (x :: l1), y, l2. simpl. by rewrite Hr.
Qed.

Lemma count_remove_earliest f af :
  count_matching f (last_segment (remove_earliest f af)) =
  count_matching f (last_segment af) - 1.
Proof.
  destruct (existsb f (last_segment af)) eqn:E.
  - destruct (remove_earliest_spec f af E) as (l1 & y & l2 & -> & Hy & Hn & ->).
    rewrite !last_segment_app_Some. simpl.
    apply count_matching_existsb in Hn.
    unfold count_matching in *. rewrite !filter_app, !length_app, filter_cons.
    case_decide; [|done]. simpl. lia.
  - assert (remove_earliest f af = af) as ->.
    { induction af as [|[x|] af IH]; simpl in *; [done| |done].
      apply orb_false_iff in E as [-> E]. simpl. by rewrite IH. }
    apply count_matching_existsb in E. lia.
Qed.

(** Pushing with the Noah's Ark clause keeps the condition. *)
Lemma ark_push a af x :
  ark a af ->
  ark a (Some x :: (if (3 <=? count_matching (same_element a x) (last_segment af))%nat
                    then remove_earliest (same_element a x) af else af)).
Proof.
  intros Ha. unfold ark in *.
  pose proof (ark_count _ (key_of a x) Ha) as Hc.
  rewrite last_segment_keys, <- count_matching_keys in Hc.
  destruct (3 <=? count_matching (same_element a x) (last_segment af))%nat eqn:E.
  - apply Nat.leb_le in E. split.
    + rewrite last_segment_keys, <- count_matching_keys, count_remove_earliest. lia.
    + eapply ark_thin; [apply thin_keys_remove_earliest|done].
  - apply Nat.leb_gt in E. split; [|done].
    rewrite last_segment_keys, <- count_matching_keys. lia.
Qed.

Lemma keys_keeps a a' af :
  keeps a a' -> (forall x, Some x ∈ af -> fmt_node a x) -> keys a' af = keys a af.
Proof.
  intros H. induction af as [|e af IH]; intros Hf; [done|].
  unfold keys in *. rewrite !fmap_cons. f_equal.
  - destruct e as [x|]; [|done]. simpl.
    rewrite (key_of_keeps a a'); [done|done|]. apply Hf. constructor.
  - apply IH. intros y Hy. apply Hf. by constructor.
Qed.

Lemma ark_keeps a a' af :
  keeps a a' -> (forall x, Some x ∈ af -> fmt_node a x) -> ark a af -> ark a' af.
Proof. intros H Hf. unfold ark. by rewrite (keys_keeps a a'). Qed.

End ArkProofs.

(* ===================================================================== *)
(** ** The list and the stack agree                                      *)
(* ===================================================================== *)

Module CorrProofs.
Import Dom Parser Invariants ArenaProofs LevelProofs.

Lemma corr_keeps a a' oe af :
  keeps a a' -> (forall x, x ∈ oe -> x < length a) -> corr a oe af -> corr a' oe af.
Proof.
  intros H Hb [Hc Hl]. split.
  - by rewrite (count_me_keeps a a').
  - intros x k k'. rewrite (stack_levels_keeps a a') by done. apply Hl.
Qed.

Lemma corr_sub a oe af oe' af' :
  corr a oe af ->
  count_me a oe' = count_me a oe -> count_markers af' = count_markers af ->
  (forall p, p ∈ stack_levels a oe' -> p ∈ stack_levels a oe) ->
  (forall p, p ∈ list_levels af' -> p ∈ list_levels af) ->
  corr a oe' af'.
Proof.
  intros [Hc Hl] Hoe Haf Hs Hf. split; [congruence|].
  intros x k k' H1 H2. eapply Hl; eauto.
Qed.

Lemma corr_push a oe af x :
  corr a oe af -> is_me a x = false -> Some x ∉ af -> corr a (x :: oe) af.
Proof.
  intros [Hc Hl] Hx Hn. split.
  - rewrite count_me_cons, Hx. done.
  - intros y k k' H1 H2. simpl in H2.
    apply elem_of_cons in H2 as [[= -> ->]|H2]; [|by eapply Hl].
    exfalso. apply Hn. by eapply list_levels_elem.
Qed.

Lemma corr_push_marker a oe af x :
  corr a oe af -> is_me a x = true -> Some x ∉ af -> corr a (x :: oe) (None :: af).
Proof.
  intros [Hc Hl] Hx Hn. split.
  - rewrite count_me_cons, Hx, count_markers_cons. simpl. lia.
  - intros y k k' H1 H2. simpl in H1, H2.
    apply elem_of_cons in H2 as [[= -> ->]|H2]; [|by eapply Hl].
    exfalso. apply Hn. by eapply list_levels_elem.
Qed.

Lemma corr_suffix a pre oe af :
  corr a (pre ++ oe) af -> count_me a pre = 0 -> corr a oe af.
Proof.
  intros H Hz. eapply corr_sub; [exact H| |done| |done].
  - rewrite count_me_app. lia.
  - intros p. apply stack_levels_suffix.
Qed.

Lemma corr_filter_open a (P : nat -> Prop) `{HP : !forall x, Decision (P x)} oe af :
  corr a oe af -> (forall x, x ∈ oe -> ~ P x -> is_me a x = false) ->
  corr a (filter P oe) af.
Proof.
  intros H Hne. eapply corr_sub; [exact H| |done| |done].
  - by apply count_me_filter.
  - intros p. by apply stack_levels_filter.
Qed.

Lemma corr_remove_formatting a oe af x :
  corr a oe af -> corr a oe (remove_formatting x af).
Proof.
  intros H. eapply corr_sub; [exact H|done| |done|].
  - apply count_markers_remove.
  - intros p. apply list_levels_remove.
Qed.

Lemma count_markers_remove_earliest f af :
  count_markers (remove_earliest f af) = count_markers af.
Proof.
  induction af as [|[x|] af IH]; simpl; [done| |done].
  destruct (f x && negb (existsb f (last_segment af))).
  - by rewrite count_markers_cons.
  - by rewrite !count_markers_cons, IH.
Qed.

Lemma list_levels_remove_earliest f af p :
  p ∈ list_levels (remove_earliest f af) -> p ∈ list_levels af.
Proof.
  induction af as [|[x|] af IH]; simpl; [done| |done].
  destruct (f x && negb (existsb f (last_segment af))); simpl.
  - intros H. by constructor.
  - rewrite count_markers_remove_earliest. intros H.
    apply elem_of_cons in H as [->|H]; [constructor|]. constructor. by apply IH.
Qed.

Lemma elem_of_remove_earliest f af e : e ∈ remove_earliest f af -> e ∈ af.
Proof.
  induction af as [|[x|] af IH]; simpl; [done| |done].
  destruct (f x && negb (existsb f (last_segment af))); simpl.
  - intros H. by constructor.
  - intros H. apply elem_of_cons in H as [->|H]; [constructor|]. constructor. by apply IH.
Qed.

Lemma corr_remove_earliest a oe af f :
  corr a oe af -> corr a oe (remove_earliest f af).
Proof.
  intros H. eapply corr_sub; [exact H|done| |done|].
  - apply count_markers_remove_earliest.
  - intros p. apply list_levels_remove_earliest.
Qed.

(** The element on top of the stack, when it is not a marker element and
    not elsewhere on the stack, may be added to the list. *)
Lemma corr_push_formatting a x oe af :
  corr a (x :: oe) af -> is_me a x = false -> x ∉ oe ->
  corr a (x :: oe) (Some x :: af).
Proof.
  intros [Hc Hl] Hx Hn. split.
  - by rewrite count_markers_cons.
  - intros y k k' H1 H2. simpl in H1.
    apply elem_of_cons in H1 as [[= -> ->]|H1]; [|by eapply Hl].
    simpl in H2. apply elem_of_cons in H2 as [[= ->]|H2].
    + rewrite count_me_cons, Hx in Hc. simpl in Hc. done.
    + exfalso. apply Hn. by eapply stack_levels_elem.
Qed.

Lemma count_markers_clear af :
  count_markers (clear_to_last_marker af) = count_markers af - 1.
Proof.
  induction af as [|[x|] af IH]; cbn [clear_to_last_marker]; [done| |].
  - by rewrite count_markers_cons.
  - rewrite count_markers_cons. lia.
Qed.

Lemma list_levels_clear af p :
  p ∈ list_levels (clear_to_last_marker af) -> p ∈ list_levels af.
Proof.
  induction af as [|[x|] af IH]; simpl; [done| |done].
  intros H. constructor. by apply IH.
Qed.

Lemma elem_of_clear af e : e ∈ clear_to_last_marker af -> e ∈ af.
Proof.
  induction af as [|[x|] af IH]; simpl; [done| |].
  - intros H. constructor. by apply IH.
  - intros H. by constructor.
Qed.

(** Popping the stack through a marker element and clearing the list up to
    the last marker. *)
Lemma corr_clear a pre e oe af :
  corr a (pre ++ e :: oe) af -> count_me a pre = 0 -> is_me a e = true ->
  corr a oe (clear_to_last_marker af).
Proof.
  intros [Hc Hl] Hz He.
  rewrite count_me_app, count_me_cons, He, Hz in Hc. split.
  - rewrite count_markers_clear. lia.
  - intros x k k' H1 H2. eapply Hl; [by apply list_levels_clear|].
    apply stack_levels_suffix. simpl. by constructor.
Qed.

End CorrProofs.

(* ===================================================================== *)
(** ** Operations of the tree constructor keep the invariant             *)
(* ===================================================================== *)

Module InvProofs.
Import Dom Parser Invariants ArenaProofs LevelProofs ArkProofs CorrProofs.

Lemma is_void_empty : html_is_void_element "" = false.
Proof. reflexivity. Qed.

(** Unfold the field updates of the parser record. *)
Ltac psimpl :=
  unfold html_close_element, generate_implied_end_tags, pop_open, remove_open,
    push_marker, insert_node_at, with_nodes, with_tokenizer, with_mode, with_open,
    with_formatting, with_document, with_head_element, with_form_element,
    parse_error, arena in *;
  cbn [tokenizer mode open_elements active_formatting document head_element
       form_element scripting_enabled fragment_parsing error_log
       nodes document_element head body] in *.

Lemma Inv_with_mode s m :
  Inv s -> (early_mode m = true -> active_formatting s = []) -> Inv (with_mode m s).
Proof. intros [] Hm. by constructor. Qed.

Lemma Inv_with_mode_late s m : Inv s -> early_mode m = false -> Inv (with_mode m s).
Proof. intros H Hm. apply Inv_with_mode; [done|]. congruence. Qed.

Lemma Inv_parse_error s e : Inv s -> Inv (parse_error e s).
Proof. intros []. by constructor. Qed.

Lemma Inv_parse_errors es : forall s, Inv s -> Inv (parse_errors es s).
Proof.
  unfold parse_errors. induction es as [|e es IH]; intros s H; simpl; [done|].
  by apply IH, Inv_parse_error.
Qed.

Lemma Inv_with_tokenizer s t : Inv s -> Inv (with_tokenizer t s).
Proof. intros []. by constructor. Qed.

Lemma Inv_with_form_element s f :
  Inv s -> (forall x, f = Some x -> tag_of (arena s) x = "form") ->
  Inv (with_form_element f s).
Proof. intros [] Hf. by constructor. Qed.

Lemma Inv_with_head_element s h :
  Inv s -> (forall x, h = Some x -> tag_of (arena s) x = "head") ->
  Inv (with_head_element h s).
Proof. intros [] Hf. by constructor. Qed.

(** Changing the references of the document. *)
Lemma Inv_with_refs s de hd bd :
  Inv s ->
  (forall x, de = Some x -> tag_of (arena s) x = "html") ->
  (forall x, bd = Some x -> tag_of (arena s) x = "body") ->
  Inv (with_document (mk_document (arena s) de hd bd) s).
Proof. intros [] Hde Hbd. by constructor. Qed.

(** A change of the arena that keeps the nodes and leaves void elements
    without children. *)
Lemma Inv_arena s a' :
  Inv s -> keeps (arena s) a' -> void_childless a' -> Inv (with_nodes a' s).
Proof.
  intros [[Hd0 Hd1] Hb Hnv Hf Hv Hh Hfo Hr Hbd He Hc Ha] Hk Hv'.
  pose proof (keeps_length _ _ Hk) as Hlen.
  constructor; unfold arena in *; simpl in *.
  - rewrite (tag_of_keeps _ _ _ Hk) by done. split; [done|lia].
  - intros x Hx. specialize (Hb x Hx). lia.
  - intros x Hx. rewrite (tag_of_keeps _ _ _ Hk); auto.
  - intros x Hx. eapply fmt_node_keeps; eauto.
  - done.
  - intros h Hh'. rewrite (tag_of_keeps_ne _ _ _ Hk); rewrite (Hh h Hh'); done.
  - intros h Hh'. rewrite (tag_of_keeps_ne _ _ _ Hk); rewrite (Hfo h Hh'); done.
  - intros h Hh'. rewrite (tag_of_keeps_ne _ _ _ Hk); rewrite (Hr h Hh'); done.
  - intros h Hh'. rewrite (tag_of_keeps_ne _ _ _ Hk); rewrite (Hbd h Hh'); done.
  - done.
  - eapply corr_keeps; eauto.
  - eapply ark_keeps; eauto.
Qed.

Lemma insertion_parent_ok s :
  Inv s ->
  insertion_parent s < length (arena s) /\
  html_is_void_element (tag_of (arena s) (insertion_parent s)) = false.
Proof.
  intros [[Hd0 Hd1] Hb Hnv _ _ _ _ _ _ _ _ _].
  unfold insertion_parent, current_node.
  destruct (open_elements s) as [|x oe]; simpl.
  - unfold document_node in *. by rewrite Hd0.
  - split; [apply Hb|apply Hnv]; constructor.
Qed.

Lemma bottom_node_ok s x :
  Inv s -> bottom_node s = Some x ->
  x < length (arena s) /\ html_is_void_element (tag_of (arena s) x) = false.
Proof.
  intros [_ Hb Hnv _ _ _ _ _ _ _ _ _] Hx. unfold bottom_node in Hx.
  assert (x ∈ open_elements s) as Hin.
  { apply last_Some in Hx as [l ->]. apply elem_of_app. right. constructor. }
  auto.
Qed.

Lemma keeps_new_child a n p : keeps a (append_child (a ++ [n]) p (length a)).
Proof. eapply keeps_trans; [apply keeps_app|apply keeps_append_child]. Qed.

Lemma void_childless_new_child a n p :
  void_childless a -> child_nodes n = [] -> p < length a ->
  html_is_void_element (tag_of a p) = false ->
  void_childless (append_child (a ++ [n]) p (length a)).
Proof.
  intros Hv Hn Hp Hpv. apply void_childless_append_child.
  - by rewrite tag_of_app_l.
  - by apply void_childless_app.
Qed.

Lemma Inv_insert_node_at s p n :
  Inv s -> p < length (arena s) ->
  html_is_void_element (tag_of (arena s) p) = false -> child_nodes n = [] ->
  Inv (insert_node_at p n s).
Proof.
  intros H Hp Hpv Hn. unfold insert_node_at. apply Inv_arena; [done|..].
  - apply keeps_new_child.
  - apply void_childless_new_child; [apply H|done..].
Qed.

Lemma Inv_insert_comment s c : Inv s -> Inv (html_insert_comment s c).
Proof.
  intros H. destruct (insertion_parent_ok s H).
  unfold html_insert_comment. by apply Inv_insert_node_at.
Qed.

Lemma Inv_insert_text s t : Inv s -> Inv (html_insert_text s t).
Proof.
  intros H. destruct (insertion_parent_ok s H).
  unfold html_insert_text. destruct (last_text_child _ _).
  - apply Inv_arena; [done|..].
    + apply keeps_alter. intros. apply node_same_set_value.
    + apply void_childless_alter_same; [done..|apply H].
  - by apply Inv_insert_node_at.
Qed.

Lemma Inv_merge_attributes s x attrs :
  Inv s -> html_is_formatting_element (tag_of (arena s) x) = false ->
  Inv (merge_attributes s x attrs).
Proof.
  intros H Hx. unfold merge_attributes. apply Inv_arena; [done|..].
  - apply keeps_alter. intros n Hn.
    unfold tag_of in Hx. rewrite Hn in Hx.
    apply node_same_set_attributes. by right.
  - apply void_childless_alter_same; [done..|apply H].
Qed.

(** *** Element categories *)

(** Split a hypothesis [mem t l = true] into the cases of [l]. *)
Ltac tag_cases H :=
  unfold html_is_void_element, html_is_formatting_element, html_is_special_element,
    is_marker_element, is_raw_text_element, is_heading, is_implied_end_tag, mem in H;
  apply bool_decide_eq_true in H;
  repeat (apply elem_of_cons in H as [->|H]);
  [..|by apply elem_of_nil in H].

Lemma me_not_void t : is_marker_element t = true -> html_is_void_element t = false.
Proof. intros H. tag_cases H; reflexivity. Qed.

Lemma me_special t : is_marker_element t = true -> html_is_special_element t = true.
Proof. intros H. tag_cases H; reflexivity. Qed.

Lemma me_default_boundary t :
  is_marker_element t = true -> default_scope_boundary t = true.
Proof. intros H. tag_cases H; reflexivity. Qed.

Lemma fmt_not_void t : html_is_formatting_element t = true -> html_is_void_element t = false.
Proof. intros H. tag_cases H; reflexivity. Qed.

Lemma fmt_not_me t : html_is_formatting_element t = true -> is_marker_element t = false.
Proof. intros H. tag_cases H; reflexivity. Qed.

Lemma implied_not_me t : is_implied_end_tag t = true -> is_marker_element t = false.
Proof. intros H. tag_cases H; reflexivity. Qed.

Lemma heading_not_me t : is_heading t = true -> is_marker_element t = false.
Proof. intros H. tag_cases H; reflexivity. Qed.

Lemma raw_text_not_me t : is_raw_text_element t = true -> is_marker_element t = false.
Proof. intros H. tag_cases H; reflexivity. Qed.

Lemma not_special_not_me t :
  html_is_special_element t = false -> is_marker_element t = false.
Proof.
  intros H. destruct (is_marker_element t) eqn:E; [|done].
  apply me_special in E. congruence.
Qed.

(** *** The stack *)

Lemma Inv_push_open s x :
  Inv s -> x < length (arena s) ->
  html_is_void_element (tag_of (arena s) x) = false ->
  is_me (arena s) x = false -> Some x ∉ active_formatting s ->
  Inv (with_open (x :: open_elements s) s).
Proof.
  intros [Hd Hb Hnv Hf Hv Hh Hfo Hr Hbd He Hc Ha] Hx Hxv Hxm Hxa.
  constructor; simpl; try done.
  - intros y Hy. apply elem_of_cons in Hy as [->|Hy]; auto.
  - intros y Hy. apply elem_of_cons in Hy as [->|Hy]; auto.
  - by apply corr_push.
Qed.

Lemma Inv_with_open_suffix s pre oe :
  Inv s -> open_elements s = pre ++ oe -> count_me (arena s) pre = 0 ->
  Inv (with_open oe s).
Proof.
  intros [Hd Hb Hnv Hf Hv Hh Hfo Hr Hbd He Hc Ha] Hoe Hz.
  rewrite Hoe in *.
  constructor; simpl; try done.
  - intros y Hy. apply Hb, elem_of_app. by right.
  - intros y Hy. apply Hnv, elem_of_app. by right.
  - by eapply corr_suffix.
Qed.

Lemma Inv_pop_open s :
  Inv s -> is_marker_element (current_tag s) = false -> Inv (pop_open s).
Proof.
  intros H Hc. unfold pop_open, current_tag, current_node in *.
  destruct (open_elements s) as [|x oe] eqn:E; simpl in *.
  - apply (Inv_with_open_suffix s [] []); [done|by rewrite E|done].
  - apply (Inv_with_open_suffix s [x] oe); [done|by rewrite E|].
    rewrite count_me_cons. unfold is_me. by rewrite Hc.
Qed.

Lemma Inv_remove_open s x :
  Inv s -> is_me (arena s) x = false -> Inv (remove_open x s).
Proof.
  intros [Hd Hb Hnv Hf Hv Hh Hfo Hr Hbd He Hc Ha] Hx.
  constructor; simpl; try done.
  - intros y Hy. apply list_elem_of_filter in Hy as [_ Hy]. auto.
  - intros y Hy. apply list_elem_of_filter in Hy as [_ Hy]. auto.
  - apply corr_filter_open; [done|].
    intros y Hy Hne. destruct (decide (y = x)) as [->|]; [done|]. by destruct Hne.
Qed.

Lemma Inv_remove_formatting s x :
  Inv s -> Inv (with_formatting (remove_formatting x (active_formatting s)) s).
Proof.
  intros [Hd Hb Hnv Hf Hv Hh Hfo Hr Hbd He Hc Ha].
  constructor; simpl; try done.
  - intros y Hy. apply elem_of_remove_formatting in Hy as [Hy _]. auto.
  - intros Hm. by rewrite (He Hm).
  - by apply corr_remove_formatting.
  - unfold ark in *. eapply ark_thin; [apply thin_keys_remove|done].
Qed.

(** *** Inserting elements *)

Lemma arena_insert_node_at p n s :
  arena (insert_node_at p n s) = append_child (arena s ++ [n]) p (length (arena s)).
Proof. reflexivity. Qed.

Lemma tag_of_insert_old p n s i :
  i < length (arena s) -> tag_of (arena (insert_node_at p n s)) i = tag_of (arena s) i.
Proof.
  intros Hi. by rewrite arena_insert_node_at, tag_of_append_child, tag_of_app_l.
Qed.

Lemma tag_of_insert_new p tag attrs s :
  tag_of (arena (insert_node_at p (element_node tag attrs) s)) (length (arena s)) = tag.
Proof. by rewrite arena_insert_node_at, tag_of_append_child, tag_of_app_new. Qed.

Lemma length_insert_node_at p n s :
  length (arena (insert_node_at p n s)) = S (length (arena s)).
Proof.
  rewrite arena_insert_node_at. unfold append_child.
  rewrite !length_alter.
  assert (forall a c, length (detach a c) = length a) as Hd.
  { intros a c. unfold detach. destruct (a !! c) as [m|]; [|done].
    destruct (parent_node m); [|done]. by rewrite !length_alter. }
  rewrite Hd, length_app. simpl. lia.
Qed.

Lemma fresh_not_in_formatting s :
  Inv s -> Some (length (arena s)) ∉ active_formatting s.
Proof.
  intros H Hin. apply (inv_fmt s H) in Hin. apply fmt_node_bound in Hin. lia.
Qed.

Lemma fresh_not_open s : Inv s -> length (arena s) ∉ open_elements s.
Proof. intros H Hin. apply (inv_open_bound s H) in Hin. lia. Qed.

Lemma Inv_insert_element s tag attrs :
  Inv s -> is_marker_element tag = false -> Inv (insert_element s tag attrs).
Proof.
  intros H Hm. destruct (insertion_parent_ok s H) as [Hp Hpv].
  unfold insert_element.
  assert (Inv (insert_node_at (insertion_parent s) (element_node tag attrs) s)) as H1.
  { by apply Inv_insert_node_at. }
  destruct (html_is_void_element tag) eqn:Ev; [done|].
  apply (Inv_push_open
           (insert_node_at (insertion_parent s) (element_node tag attrs) s)
           (length (arena s))); [done|..].
  - pose proof (length_insert_node_at (insertion_parent s) (element_node tag attrs) s).
    lia.
  - by rewrite tag_of_insert_new.
  - unfold is_me. by rewrite tag_of_insert_new.
  - exact (fresh_not_in_formatting s H).
Qed.

Lemma Inv_html_insert_element s tok :
  Inv s -> is_marker_element (Tokenizer.tag_name tok) = false ->
  Inv (html_insert_element s tok).
Proof. apply Inv_insert_element. Qed.

Lemma open_insert_element s tag attrs :
  open_elements (insert_element s tag attrs) =
  if html_is_void_element tag then open_elements s
  else length (arena s) :: open_elements s.
Proof. unfold insert_element. by destruct (html_is_void_element tag). Qed.

Lemma Inv_insert_marker_element s tag attrs :
  Inv s -> is_marker_element tag = true -> early_mode (mode s) = false ->
  Inv (push_marker (insert_element s tag attrs)).
Proof.
  intros H Hm Hlate. destruct (insertion_parent_ok s H) as [Hp Hpv].
  unfold insert_element. rewrite (me_not_void _ Hm).
  assert (Inv (insert_node_at (insertion_parent s) (element_node tag attrs) s)) as H1.
  { by apply Inv_insert_node_at. }
  pose proof (fresh_not_in_formatting s H) as Hfresh.
  pose proof (tag_of_insert_new (insertion_parent s) tag attrs s) as Htag.
  pose proof (length_insert_node_at (insertion_parent s) (element_node tag attrs) s) as Hlen.
  destruct H1 as [Hd Hb Hnv Hf Hv Hh Hfo Hr Hbd He Hc Ha].
  constructor; simpl in *; try done.
  - intros y Hy. apply elem_of_cons in Hy as [->|Hy]; [|auto].
    unfold arena in *. simpl in *. lia.
  - intros y Hy. apply elem_of_cons in Hy as [->|Hy]; [|auto].
    unfold arena in *. simpl in *. rewrite Htag. by apply me_not_void.
  - intros y Hy. apply elem_of_cons in Hy as [[=]|Hy]. auto.
  - congruence.
  - apply corr_push_marker; [done| |done].
    unfold is_me, arena in *. simpl in *. by rewrite Htag.
Qed.

Lemma Inv_push_formatting s x oe :
  Inv s -> open_elements s = x :: oe -> x ∉ oe -> fmt_node (arena s) x ->
  early_mode (mode s) = false ->
  Inv (push_formatting s x).
Proof.
  intros [Hd Hb Hnv Hf Hv Hh Hfo Hr Hbd He Hc Ha] Hoe Hx Hfx Hlate.
  unfold push_formatting.
  set (af1 := if (3 <=? _)%nat then _ else _).
  assert (forall e, e ∈ af1 -> e ∈ active_formatting s) as Hsub.
  { intros e. unfold af1. destruct (_ <=? _)%nat; [apply elem_of_remove_earliest|done]. }
  assert (corr (arena s) (open_elements s) af1) as Hc1.
  { unfold af1. destruct (_ <=? _)%nat; [by apply corr_remove_earliest|done]. }
  constructor; simpl; try done.
  - intros y Hy. apply elem_of_cons in Hy as [[= ->]|Hy]; auto.
  - congruence.
  - rewrite Hoe in *. apply corr_push_formatting; [done| |done].
    unfold is_me. apply fmt_not_me. by apply fmt_node_tag.
  - by apply ark_push.
Qed.

Lemma Inv_insert_formatting_element s tok :
  Inv s -> html_is_formatting_element (Tokenizer.tag_name tok) = true ->
  early_mode (mode s) = false ->
  Inv (insert_formatting_element s tok).
Proof.
  intros H Hfm Hlate. destruct (insertion_parent_ok s H) as [Hp Hpv].
  unfold insert_formatting_element, html_insert_element, insert_element.
  rewrite (fmt_not_void _ Hfm).
  set (tag := Tokenizer.tag_name tok) in *.
  set (attrs := Tokenizer.attributes tok).
  set (s1 := insert_node_at (insertion_parent s) (element_node tag attrs) s).
  assert (Inv s1) as H1 by by apply Inv_insert_node_at.
  pose proof (tag_of_insert_new (insertion_parent s) tag attrs s) as Htag.
  pose proof (length_insert_node_at (insertion_parent s) (element_node tag attrs) s) as Hlen.
  fold s1 in Htag, Hlen.
  assert (fmt_node (arena s1) (length (arena s))) as Hnew.
  { unfold s1. rewrite arena_insert_node_at.
    eapply fmt_node_keeps; [apply keeps_append_child|].
    exists (element_node tag attrs). rewrite list_lookup_middle by done. done. }
  apply (Inv_push_formatting _ _ (open_elements s)); [|done| |done|done].
  - apply (Inv_push_open s1 (length (arena s))); [done|lia| | |].
    + rewrite Htag. by apply fmt_not_void.
    + unfold is_me. rewrite Htag. by apply fmt_not_me.
    + exact (fresh_not_in_formatting s H).
  - exact (fresh_not_open s H).
Qed.

(** *** Popping *)

Lemma default_boundary_ok : boundary_ok default_scope_boundary.
Proof. exact me_default_boundary. Qed.

Lemma button_boundary_ok : boundary_ok button_scope_boundary.
Proof.
  intros t H. unfold button_scope_boundary. by rewrite me_default_boundary.
Qed.

Lemma list_item_boundary_ok : boundary_ok list_item_scope_boundary.
Proof.
  intros t H. unfold list_item_scope_boundary. by rewrite me_default_boundary.
Qed.

Lemma implied_end_tags_split a except oe :
  exists pre, oe = pre ++ implied_end_tags a except oe /\
              forall x, x ∈ pre ->
                is_implied_end_tag (tag_of a x) = true /\ tag_of a x <> except.
Proof.
  induction oe as [|x oe (pre & Hpre & Hall)]; simpl.
  - exists []. split; [done|]. intros x Hx. inversion Hx.
  - destruct (is_implied_end_tag (tag_of a x)) eqn:E1; simpl.
    + case_bool_decide as E2; simpl.
      * exists []. split; [done|]. intros y Hy. inversion Hy.
      * exists (x :: pre). split; [simpl; congruence|].
        intros y Hy. apply elem_of_cons in Hy as [->|Hy]; auto.
    + exists []. split; [done|]. intros y Hy. inversion Hy.
Qed.

Lemma Inv_generate_implied_end_tags s except :
  Inv s -> Inv (generate_implied_end_tags s except).
Proof.
  intros H. unfold generate_implied_end_tags.
  destruct (implied_end_tags_split (arena s) except (open_elements s))
    as (pre & Hpre & Hall).
  eapply Inv_with_open_suffix; [done|exact Hpre|].
  apply count_me_zero. intros x Hx. apply implied_not_me. by apply Hall.
Qed.

Lemma pop_until_scope a target boundary oe :
  boundary_ok boundary ->
  has_in_scope a target boundary oe = true ->
  exists pre x, oe = pre ++ x :: pop_until target oe /\ target x = true /\
                forall y, y ∈ pre -> is_me a y = false.
Proof.
  intros Hb. induction oe as [|x oe IH]; simpl; [discriminate|].
  destruct (target x) eqn:Et.
  - intros _. exists [], x. split; [done|]. split; [done|]. intros y Hy. inversion Hy.
  - destruct (boundary (tag_of a x)) eqn:Eb; [discriminate|].
    intros H. destruct (IH H) as (pre & y & Hoe & Hy & Hall).
    exists (x :: pre), y. split; [simpl; congruence|]. split; [done|].
    intros z Hz. apply elem_of_cons in Hz as [->|Hz]; [|auto].
    unfold is_me. destruct (is_marker_element (tag_of a x)) eqn:Em; [|done].
    apply Hb in Em. congruence.
Qed.

Lemma Inv_pop_until_scope s target boundary :
  Inv s -> boundary_ok boundary ->
  has_in_scope (arena s) target boundary (open_elements s) = true ->
  (forall x, target x = true -> is_me (arena s) x = false) ->
  Inv (with_open (pop_until target (open_elements s)) s).
Proof.
  intros H Hb Hs Ht.
  destruct (pop_until_scope _ _ _ _ Hb Hs) as (pre & x & Hoe & Hx & Hall).
  apply (Inv_with_open_suffix s (pre ++ [x])); [done|by rewrite <- app_assoc|].
  apply count_me_zero. intros y Hy.
  apply elem_of_app in Hy as [Hy|Hy]; [auto|].
  apply list_elem_of_singleton in Hy as ->. auto.
Qed.

Lemma Inv_html_close_element s t boundary :
  Inv s -> boundary_ok boundary ->
  has_in_scope (arena s) (has_tag (arena s) t) boundary (open_elements s) = true ->
  is_marker_element t = false ->
  Inv (html_close_element s t).
Proof.
  intros H Hb Hs Ht. unfold html_close_element.
  eapply Inv_pop_until_scope; eauto.
  intros x Hx. unfold has_tag in Hx. apply bool_decide_eq_true in Hx.
  unfold is_me. by rewrite Hx.
Qed.

Lemma has_in_scope_suffix a target boundary pre oe :
  has_in_scope a target boundary (pre ++ oe) = true ->
  (forall x, x ∈ pre -> target x = false) ->
  has_in_scope a target boundary oe = true.
Proof.
  induction pre as [|x pre IH]; simpl; [done|].
  intros H Hall. rewrite (Hall x) in H by constructor.
  destruct (boundary (tag_of a x)); [discriminate|].
  apply IH; [done|]. intros y Hy. apply Hall. by constructor.
Qed.

Lemma has_in_scope_implied a target boundary except oe :
  has_in_scope a target boundary oe = true ->
  (forall x, is_implied_end_tag (tag_of a x) = true -> tag_of a x <> except ->
             target x = false) ->
  has_in_scope a target boundary (implied_end_tags a except oe) = true.
Proof.
  intros H Ht.
  destruct (implied_end_tags_split a except oe) as (pre & Hpre & Hall).
  rewrite Hpre in H. eapply has_in_scope_suffix; [exact H|].
  intros x Hx. destruct (Hall x Hx). auto.
Qed.

Lemma has_tag_implied a t except x :
  is_implied_end_tag t = false \/ t = except ->
  is_implied_end_tag (tag_of a x) = true -> tag_of a x <> except ->
  has_tag a t x = false.
Proof.
  intros Ht Hi Hne. unfold has_tag. apply bool_decide_eq_false.
  intros Heq. rewrite Heq in *. destruct Ht; congruence.
Qed.

(** Close the element [t], which is in the scope bounded by [boundary],
    after generating implied end tags. *)
Lemma Inv_close_after_implied s t except boundary :
  Inv s -> boundary_ok boundary ->
  has_in_scope (arena s) (has_tag (arena s) t) boundary (open_elements s) = true ->
  is_marker_element t = false ->
  is_implied_end_tag t = false \/ t = except ->
  Inv (html_close_element (generate_implied_end_tags s except) t) /\
  Inv (html_close_element
         (parse_error HTML_ERROR_MISSING_END_TAG (generate_implied_end_tags s except)) t).
Proof.
  intros H Hb Hs Ht Hi.
  assert (has_in_scope (arena s) (has_tag (arena s) t) boundary
            (implied_end_tags (arena s) except (open_elements s)) = true) as Hs'.
  { apply has_in_scope_implied; [done|]. intros x. by apply has_tag_implied. }
  split.
  - eapply Inv_html_close_element; [by apply Inv_generate_implied_end_tags|exact Hb|exact Hs'|done].
  - eapply Inv_html_close_element;
      [by apply Inv_parse_error, Inv_generate_implied_end_tags|exact Hb|exact Hs'|done].
Qed.

Lemma Inv_close_p_element s :
  Inv s -> has_element_in_button_scope s "p" = true -> Inv (close_p_element s).
Proof.
  intros H Hs. unfold close_p_element.
  destruct (Inv_close_after_implied s "p" "p" button_scope_boundary)
    as [H1 H2]; [done|apply button_boundary_ok|exact Hs|done|by right|].
  by case_bool_decide.
Qed.

Lemma Inv_close_p_if_in_button_scope s : Inv s -> Inv (close_p_if_in_button_scope s).
Proof.
  intros H. unfold close_p_if_in_button_scope.
  destruct (has_element_in_button_scope s "p") eqn:E; [|done].
  by apply Inv_close_p_element.
Qed.

Lemma list_item_walk_split a names oe oe' :
  (forall t, mem t names = true -> is_marker_element t = false) ->
  list_item_walk a names oe = Some oe' ->
  exists pre, oe = pre ++ oe' /\ count_me a pre = 0.
Proof.
  intros Hn. revert oe'. induction oe as [|x oe IH]; intros oe'; simpl; [discriminate|].
  destruct (mem (tag_of a x) names) eqn:E1.
  - intros [= <-]. exists [x]. split; [done|].
    rewrite count_me_cons. unfold is_me. by rewrite (Hn _ E1).
  - destruct (html_is_special_element (tag_of a x)
              && negb (mem (tag_of a x) ["address"; "div"; "p"])) eqn:E2; [discriminate|].
    intros H. destruct (IH _ H) as (pre & -> & Hz).
    exists (x :: pre). split; [done|].
    rewrite count_me_cons, Hz. unfold is_me.
    destruct (is_marker_element (tag_of a x)) eqn:Em; [|done].
    exfalso. rewrite (me_special _ Em) in E2. simpl in E2.
    apply negb_false_iff in E2. clear -Em E2.
    revert Em E2. generalize (tag_of a x). intros t Em E2.
    tag_cases E2; discriminate Em.
Qed.

Lemma Inv_close_list_item s names :
  Inv s -> (forall t, mem t names = true -> is_marker_element t = false) ->
  Inv (close_list_item s names).
Proof.
  intros H Hn. unfold close_list_item.
  destruct (list_item_walk _ _ _) as [oe'|] eqn:E; [|done].
  destruct (list_item_walk_split _ _ _ _ Hn E) as (pre & Hoe & Hz).
  by eapply Inv_with_open_suffix.
Qed.

Lemma any_other_walk_split a t oe oe' :
  is_marker_element t = false ->
  any_other_end_tag_walk a t oe = Some oe' ->
  exists pre, oe = pre ++ oe' /\ count_me a pre = 0.
Proof.
  intros Ht. revert oe'. induction oe as [|x oe IH]; intros oe'; simpl; [discriminate|].
  destruct (has_tag a t x) eqn:E1.
  - intros [= <-]. exists [x]. split; [done|].
    unfold has_tag in E1. apply bool_decide_eq_true in E1.
    rewrite count_me_cons. unfold is_me. by rewrite E1, Ht.
  - destruct (html_is_special_element (tag_of a x)) eqn:E2; [discriminate|].
    intros H. destruct (IH _ H) as (pre & -> & Hz).
    exists (x :: pre). split; [done|].
    rewrite count_me_cons, Hz. unfold is_me. by rewrite (not_special_not_me _ E2).
Qed.

Lemma Inv_any_other_end_tag s t :
  Inv s -> is_marker_element t = false -> Inv (any_other_end_tag s t).
Proof.
  intros H Ht. unfold any_other_end_tag.
  destruct (any_other_end_tag_walk _ _ _) as [oe'|] eqn:E.
  - destruct (any_other_walk_split _ _ _ _ Ht E) as (pre & Hoe & Hz).
    by eapply Inv_with_open_suffix.
  - by apply Inv_parse_error.
Qed.

(** The end tag of a marker element that is in scope. *)
Lemma Inv_close_marker s name :
  Inv s -> is_marker_element name = true -> has_element_in_scope s name = true ->
  Inv (with_formatting
         (clear_to_last_marker
            (active_formatting (html_close_element (generate_implied_end_tags s "") name)))
         (html_close_element (generate_implied_end_tags s "") name)).
Proof.
  intros H Hm Hs.
  assert (has_in_scope (arena s) (has_tag (arena s) name) default_scope_boundary
            (implied_end_tags (arena s) "" (open_elements s)) = true) as Hs'.
  { apply has_in_scope_implied; [done|]. intros x Hi Hne.
    unfold has_tag. apply bool_decide_eq_false. intros Heq.
    rewrite Heq in Hi. apply implied_not_me in Hi. congruence. }
  destruct (pop_until_scope _ _ _ _ default_boundary_ok Hs')
    as (pre & x & Hoe & Hx & Hall).
  pose proof (Inv_generate_implied_end_tags s "" H) as H0.
  destruct H0 as [Hd Hb Hnv Hf Hv Hh Hfo Hr Hbd He Hc Ha].
  simpl in *. rewrite Hoe in Hb, Hnv, Hc.
  constructor; simpl; try done.
  - intros y Hy. apply Hb. apply elem_of_app. right. by constructor.
  - intros y Hy. apply Hnv. apply elem_of_app. right. by constructor.
  - intros y Hy. apply Hf. by apply elem_of_clear.
  - intros Hmode. by rewrite (He Hmode).
  - eapply corr_clear; [exact Hc| |].
    + by apply count_me_zero.
    + unfold has_tag in Hx. apply bool_decide_eq_true in Hx.
      unfold is_me, arena in *.
      change (is_marker_element (tag_of (nodes (document s)) x) = true).
      by rewrite Hx.
  - by apply thin_keys_clear.
Qed.

(** *** Reconstructing the active formatting elements *)

Lemma arena_insert_element s tag attrs :
  arena (insert_element s tag attrs) =
  append_child (arena s ++ [element_node tag attrs]) (insertion_parent s)
               (length (arena s)).
Proof. unfold insert_element. by destruct (html_is_void_element tag). Qed.

Lemma keeps_insert_element s tag attrs :
  keeps (arena s) (arena (insert_element s tag attrs)).
Proof. rewrite arena_insert_element. apply keeps_new_child. Qed.

Lemma formatting_insert_element s tag attrs :
  active_formatting (insert_element s tag attrs) = active_formatting s.
Proof. unfold insert_element. by destruct (html_is_void_element tag). Qed.

Lemma mode_insert_element s tag attrs : mode (insert_element s tag attrs) = mode s.
Proof. unfold insert_element. by destruct (html_is_void_element tag). Qed.

Lemma clone_is_fmt a x p :
  fmt_node a x ->
  fmt_node (append_child (a ++ [element_node (tag_of a x) (attributes_of a x)])
                         p (length a)) (length a) /\
  key_of (append_child (a ++ [element_node (tag_of a x) (attributes_of a x)])
                       p (length a)) (length a) = key_of a x.
Proof.
  intros (n & Hn & He & Hf & Hns).
  set (c := element_node (tag_of a x) (attributes_of a x)).
  assert ((a ++ [c]) !! length a = Some c) as Hc by by rewrite list_lookup_middle.
  destruct (keeps_append_child (a ++ [c]) p (length a) _ _ Hc)
    as (c' & Hc' & Ht & Hnm & Hns' & Hat).
  assert (tag_of a x = node_name n) as Htag by (unfold tag_of; by rewrite Hn, He).
  split.
  - exists c'. unfold is_element in *. rewrite Ht, Hnm, Hns'. simpl.
    split; [done|]. split; [done|]. split; [by rewrite Htag|done].
  - unfold key_of. rewrite Hc', Hn, Hnm, Hns', Hat; simpl.
    + unfold attributes_of. by rewrite Hn, Htag, Hns.
    + done.
    + by rewrite Htag.
Qed.

Lemma reopen_spec pre : forall s,
  Inv s -> (forall x, x ∈ pre -> fmt_node (arena s) x) ->
  exists clones,
    (reopen pre s).2 = Some <$> clones /\
    Inv (reopen pre s).1 /\
    keeps (arena s) (arena (reopen pre s).1) /\
    active_formatting (reopen pre s).1 = active_formatting s /\
    mode (reopen pre s).1 = mode s /\
    open_elements (reopen pre s).1 = clones ++ open_elements s /\
    (forall c, c ∈ clones ->
       length (arena s) <= c /\ fmt_node (arena (reopen pre s).1) c) /\
    key_of (arena (reopen pre s).1) <$> clones = key_of (arena s) <$> pre.
Proof.
  induction pre as [|x older IH]; intros s H Hpre; simpl.
  - exists []. split; [done|]. split; [done|]. split; [apply keeps_refl|].
    split; [done|]. split; [done|]. split; [done|]. split; [|done].
    intros c Hc. inversion Hc.
  - destruct (IH s H) as (clones & Hcl & H1 & Hk & Haf & Hm & Hoe & Hall & Hkeys).
    { intros y Hy. apply Hpre. by constructor. }
    destruct (reopen older s) as [s1 older'] eqn:E. simpl in *.
    assert (fmt_node (arena s1) x) as Hx.
    { eapply fmt_node_keeps; [exact Hk|]. apply Hpre. constructor. }
    pose proof (fmt_node_tag _ _ Hx) as Hxt.
    destruct (clone_is_fmt (arena s1) x (insertion_parent s1) Hx) as [Hnew Hnewk].
    rewrite <- arena_insert_element in Hnew, Hnewk.
    exists (length (arena s1) :: clones). subst older'.
    split; [done|].
    split; [apply Inv_insert_element; [done|by apply fmt_not_me]|].
    split; [eapply keeps_trans; [exact Hk|apply keeps_insert_element]|].
    split; [by rewrite formatting_insert_element|].
    split; [by rewrite mode_insert_element|].
    split; [rewrite open_insert_element, (fmt_not_void _ Hxt), Hoe; done|].
    split.
    + intros c Hc. apply elem_of_cons in Hc as [->|Hc].
      * split; [by apply keeps_length|done].
      * destruct (Hall c Hc) as [Hge Hfc]. split; [done|].
        eapply fmt_node_keeps; [apply keeps_insert_element|done].
    + rewrite !fmap_cons. f_equal.
      * rewrite Hnewk. apply key_of_keeps; [done|]. apply Hpre. constructor.
      * etrans; [|exact Hkeys]. apply list_fmap_ext. intros i c Hc.
        apply key_of_keeps; [apply keeps_insert_element|].
        apply Hall. by eapply list_elem_of_lookup_2.
Qed.

Lemma unopened_prefix_split oe af :
  af = (Some <$> unopened_prefix oe af)
       ++ drop (length (unopened_prefix oe af)) af.
Proof.
  induction af as [|[x|] af IH]; simpl; [done| |done].
  case_bool_decide; [done|]. csimpl. f_equal. exact IH.
Qed.

Lemma count_markers_Some (l : list nat) : count_markers (Some <$> l) = 0.
Proof. induction l as [|x l IH]; [done|]. by rewrite fmap_cons, count_markers_cons. Qed.

Lemma keys_app a l1 l2 : keys a (l1 ++ l2) = keys a l1 ++ keys a l2.
Proof. unfold keys. by rewrite fmap_app. Qed.

Lemma keys_Some a (l : list nat) : keys a (Some <$> l) = Some <$> (key_of a <$> l).
Proof.
  unfold keys. rewrite <- !list_fmap_compose. by apply list_fmap_ext.
Qed.

Lemma Inv_reconstruct s : Inv s -> Inv (html_reconstruct_formatting s).
Proof.
  intros H. unfold html_reconstruct_formatting.
  set (pre := unopened_prefix (open_elements s) (active_formatting s)).
  pose proof (unopened_prefix_split (open_elements s) (active_formatting s)) as Hsplit.
  fold pre in Hsplit. set (rest := drop (length pre) (active_formatting s)) in *.
  assert (forall x, x ∈ pre -> fmt_node (arena s) x) as Hpre.
  { intros x Hx. apply (inv_fmt s H). rewrite Hsplit. apply elem_of_app. left.
    apply list_elem_of_fmap. by exists x. }
  destruct (reopen_spec pre s H Hpre)
    as (clones & Hcl & H1 & Hk & Haf & Hm & Hoe & Hall & Hkeys).
  destruct (reopen pre s) as [s1 pre'] eqn:E. simpl in *. subst pre'.
  assert (forall x, Some x ∈ rest -> fmt_node (arena s) x) as Hrest.
  { intros x Hx. apply (inv_fmt s H). rewrite Hsplit. apply elem_of_app. by right. }
  assert (length clones = length pre) as Hlen.
  { rewrite <- (length_fmap (key_of (arena s1)) clones), Hkeys. by rewrite length_fmap. }
  pose proof H as [_ Hb0 _ _ _ _ _ _ _ He0 _ Ha0].
  destruct H1 as [Hd Hb Hnv Hf Hv Hh Hfo Hr Hbd He Hc Ha].
  constructor; simpl; try done.
  - intros x Hx. apply elem_of_app in Hx as [Hx|Hx].
    + apply list_elem_of_fmap in Hx as (c & [= ->] & Hc'). by apply Hall.
    + eapply fmt_node_keeps; [exact Hk|by apply Hrest].
  - intros Hmode. rewrite Hm in Hmode. specialize (He0 Hmode).
    subst rest pre. rewrite He0 in *. simpl in *.
    destruct clones; [done|discriminate Hlen].
  - rewrite Hoe, Haf, Hsplit in Hc. destruct Hc as [Hcnt Hlev].
    rewrite count_markers_app, count_markers_Some in Hcnt.
    assert (count_me (arena s1) clones = 0) as Hz.
    { apply count_me_zero. intros c Hc'. unfold is_me.
      apply fmt_not_me, fmt_node_tag. by apply Hall. }
    rewrite Hoe. split.
    + by rewrite count_markers_app, count_markers_Some.
    + intros x k k' H1 H2.
      apply list_levels_prefix in H1; [|apply count_markers_Some].
      destruct H1 as [[Hx ->]|H1].
      * apply list_elem_of_fmap in Hx as (c & [= ->] & Hc').
        apply stack_levels_prefix in H2; [|done].
        destruct H2 as [[_ ->]|H2].
        -- rewrite count_me_app, Hz in Hcnt. done.
        -- apply stack_levels_elem in H2. apply Hb0 in H2.
           destruct (Hall c Hc'). lia.
      * eapply Hlev; [|exact H2]. by apply list_levels_suffix.
  - unfold ark in *. psimpl. rewrite keys_app, keys_Some, Hkeys.
    rewrite Hsplit, keys_app, keys_Some in Ha0.
    rewrite (keys_keeps (nodes (document s)) (nodes (document s1)) rest); done.
Qed.

Lemma mode_reconstruct s : mode (html_reconstruct_formatting s) = mode s.
Proof.
  unfold html_reconstruct_formatting.
  set (pre := unopened_prefix _ _). clearbody pre.
  assert (forall s, mode (reopen pre s).1 = mode s) as Hm.
  { induction pre as [|x pre IH]; intros s'; simpl; [done|].
    specialize (IH s'). destruct (reopen pre s'). simpl in *.
    by rewrite mode_insert_element. }
  specialize (Hm s). by destruct (reopen pre s).
Qed.

End InvProofs.

(* ===================================================================== *)
(** ** The adoption agency algorithm                                     *)
(* ===================================================================== *)

Module AdoptionProofs.
Import Dom Parser Invariants ArenaProofs LevelProofs ArkProofs CorrProofs InvProofs.

(** *** Lists *)

Lemma thin_trans {A} (l1 l2 l3 : list (option A)) :
  thin l1 l2 -> thin l2 l3 -> thin l1 l3.
Proof.
  intros H12 H23. revert l1 H12.
  induction H23 as [|e l2 l3 H IH|x l2 l3 H IH]; intros l1 H12.
  - done.
  - inversion H12; subst.
    + constructor. by apply IH.
    + constructor. by apply IH.
  - constructor. by apply IH.
Qed.

Lemma count_markers_replace x y af :
  count_markers (replace_formatting x y af) = count_markers af.
Proof.
  unfold replace_formatting. induction af as [|e af IH]; [done|].
  rewrite fmap_cons, !count_markers_cons, IH.
  case_bool_decide as He; [by subst|done].
Qed.

Lemma list_levels_replace x y af z k :
  (z, k) ∈ list_levels (replace_formatting x y af) ->
  ((z, k) ∈ list_levels af /\ z <> x) \/ (z = y /\ (x, k) ∈ list_levels af).
Proof.
  induction af as [|e af IH]; [intros H; inversion H|].
  unfold replace_formatting in *. rewrite fmap_cons.
  fold (replace_formatting x y af).
  case_bool_decide as He.
  - subst e. simpl. rewrite count_markers_replace. intros H.
    apply elem_of_cons in H as [[= -> ->]|H].
    + right. split; [done|constructor].
    + destruct (IH H) as [[H1 H2]|[H1 H2]];
        [left; split; [by constructor|done]|right; split; [done|by constructor]].
  - destruct e as [w|]; simpl; [|exact IH].
    rewrite count_markers_replace. intros H.
    apply elem_of_cons in H as [[= -> ->]|H].
    + left. split; [constructor|congruence].
    + destruct (IH H) as [[H1 H2]|[H1 H2]];
        [left; split; [by constructor|done]|right; split; [done|by constructor]].
Qed.

Lemma elem_of_replace_formatting x y af z :
  Some z ∈ replace_formatting x y af -> (Some z ∈ af /\ z <> x) \/ z = y.
Proof.
  unfold replace_formatting. intros H.
  apply list_elem_of_fmap in H as (e & He & Hin).
  case_bool_decide as Hx.
  - right. congruence.
  - left. subst e. split; [done|congruence].
Qed.

Lemma keys_replace a a' x y af :
  key_of a' y = key_of a x ->
  (forall z, Some z ∈ af -> key_of a' z = key_of a z) ->
  keys a' (replace_formatting x y af) = keys a af.
Proof.
  intros Hy Hz. unfold keys, replace_formatting.
  rewrite <- list_fmap_compose. apply list_fmap_ext. intros i e He. simpl.
  apply list_elem_of_lookup_2 in He.
  case_bool_decide as Hx; [subst e; simpl; by rewrite Hy|].
  destruct e as [z|]; simpl; [|done]. by rewrite Hz.
Qed.

Lemma last_segment_remove x y af :
  y ∈ last_segment af -> y <> x -> y ∈ last_segment (remove_formatting x af).
Proof.
  unfold remove_formatting. induction af as [|[z|] af IH]; simpl; [done| |done].
  intros Hy Hne. rewrite filter_cons. case_decide as Hz; simpl.
  - apply elem_of_cons in Hy as [->|Hy]; [constructor|]. constructor. by apply IH.
  - apply elem_of_cons in Hy as [->|Hy]; [congruence|]. by apply IH.
Qed.

Lemma last_segment_replace x y z af :
  z ∈ last_segment af -> z <> x -> z ∈ last_segment (replace_formatting x y af).
Proof.
  unfold replace_formatting. induction af as [|[w|] af IH]; simpl; [done| |done].
  intros Hz Hne. case_bool_decide as Hw; simpl.
  - apply elem_of_cons in Hz as [->|Hz]; [congruence|]. constructor. by apply IH.
  - apply elem_of_cons in Hz as [->|Hz]; [constructor|]. constructor. by apply IH.
Qed.

Lemma last_segment_replace_new x y af :
  x ∈ last_segment af -> y ∈ last_segment (replace_formatting x y af).
Proof.
  unfold replace_formatting.
  induction af as [|[w|] af IH]; simpl; [intros H; inversion H| |intros H; inversion H].
  intros Hx. case_bool_decide as Hw; simpl; [constructor|].
  apply elem_of_cons in Hx as [->|Hx]; [congruence|]. constructor. by apply IH.
Qed.

Lemma level_last_segment af x :
  (x, count_markers af) ∈ list_levels af -> x ∈ last_segment af.
Proof.
  induction af as [|[y|] af IH]; simpl; [intros H; inversion H| |].
  - rewrite count_markers_cons. simpl. intros H.
    apply elem_of_cons in H as [[= ->]|H]; [constructor|]. constructor. by apply IH.
  - rewrite count_markers_cons. simpl. intros H. exfalso.
    assert (forall l z k, (z, k) ∈ list_levels l -> k <= count_markers l) as Hle.
    { clear. induction l as [|[w|] l IH]; simpl; intros z k H; [inversion H| |].
      - rewrite count_markers_cons. simpl.
        apply elem_of_cons in H as [[= -> ->]|H]; [lia|by eapply IH].
      - rewrite count_markers_cons. apply IH in H. lia. }
    apply Hle in H. lia.
Qed.

Lemma last_segment_level af x :
  x ∈ last_segment af -> (x, count_markers af) ∈ list_levels af.
Proof.
  induction af as [|[y|] af IH]; simpl; [intros H; inversion H| |intros H; inversion H].
  rewrite count_markers_cons. simpl. intros H.
  apply elem_of_cons in H as [->|H]; [constructor|]. constructor. by apply IH.
Qed.

Lemma last_segment_elem {A} (af : list (option A)) x : x ∈ last_segment af -> Some x ∈ af.
Proof.
  induction af as [|[y|] af IH]; simpl; [intros H; inversion H| |intros H; inversion H].
  intros H. apply elem_of_cons in H as [->|H]; [constructor|]. constructor. by apply IH.
Qed.

(** Where [insert_after] puts the new entry when the bookmark is after the
    last marker or gone. *)
Lemma insert_after_spec n y af :
  n ∈ last_segment af \/ Some n ∉ af ->
  exists l1 l2, af = (Some <$> l1) ++ l2 /\
                insert_after n y af = (Some <$> l1) ++ Some y :: l2.
Proof.
  induction af as [|e af IH]; simpl.
  - intros _. by exists [], [].
  - intros H. case_bool_decide as He.
    + exists [], (e :: af). done.
    + case_bool_decide as Hin.
      * destruct e as [z|].
        -- destruct IH as (l1 & l2 & Haf & Hins).
           { destruct H as [H|H]; [left|right].
             - simpl in H. apply elem_of_cons in H as [->|H]; [congruence|done].
             - intros Hn. apply H. by constructor. }
           exists (z :: l1), l2. csimpl. by rewrite <- Haf, Hins.
        -- exfalso. destruct H as [H|H]; [simpl in H; inversion H|].
           apply H. by constructor.
      * exists [], (e :: af). done.
Qed.

Lemma list_levels_insert (l1 : list nat) l2 y p :
  p ∈ list_levels ((Some <$> l1) ++ Some y :: l2) <->
  p = (y, count_markers l2) \/ p ∈ list_levels ((Some <$> l1) ++ l2).
Proof.
  induction l1 as [|x l1 IH]; csimpl.
  - by rewrite elem_of_cons.
  - rewrite !count_markers_app, !count_markers_cons, !elem_of_cons, IH. simpl.
    tauto.
Qed.

Lemma count_markers_insert (l1 : list nat) l2 y :
  count_markers ((Some <$> l1) ++ Some y :: l2) = count_markers ((Some <$> l1) ++ l2).
Proof. by rewrite !count_markers_app, count_markers_cons. Qed.

Lemma count_same_remove a x af :
  x ∈ last_segment af ->
  count_same (key_of a x) (last_segment (keys a (remove_formatting x af)))
  < count_same (key_of a x) (last_segment (keys a af)).
Proof.
  unfold remove_formatting. induction af as [|[z|] af IH]; simpl; [intros H; inversion H| |intros H; inversion H].
  intros H. rewrite filter_cons. case_decide as Hz.
  - apply elem_of_cons in H as [->|H]; [congruence|].
    simpl. rewrite !count_same_cons. specialize (IH H). lia.
  - rewrite count_same_cons.
    injection Hz as ->.
    rewrite same_key_refl.
    pose proof (thin_count (key_of a x) _ _ (thin_keys_remove a x af)) as Hle.
    unfold remove_formatting in Hle. lia.
Qed.

(** *** Finding the formatting element and the furthest block *)

Lemma find_formatting_spec a subject af fe :
  find_formatting a subject af = Some fe ->
  fe ∈ last_segment af /\ tag_of a fe = subject.
Proof.
  induction af as [|[x|] af IH]; simpl; [discriminate| |discriminate].
  destruct (has_tag a subject x) eqn:E.
  - intros [= ->]. split; [constructor|].
    unfold has_tag in E. by apply bool_decide_eq_true in E.
  - intros H. destruct (IH H). split; [by constructor|done].
Qed.

Lemma split_stack_spec x oe above below :
  split_stack x oe = Some (above, below) -> oe = above ++ x :: below /\ x ∉ above.
Proof.
  revert above. induction oe as [|y oe IH]; intros above; simpl; [discriminate|].
  case_bool_decide as E.
  - intros [= <- <-]. subst. split; [done|]. intros H. inversion H.
  - destruct (split_stack x oe) as [[ab be]|]; [|discriminate].
    intros [= <- <-]. destruct (IH ab eq_refl) as [-> Hn].
    split; [done|]. intros H. apply elem_of_cons in H as [->|H]; done.
Qed.

Lemma split_furthest_spec a above hi fb mid :
  split_furthest a above = Some (hi, fb, mid) ->
  above = hi ++ fb :: mid /\ html_is_special_element (tag_of a fb) = true.
Proof.
  revert hi. induction above as [|x above IH]; intros hi; simpl; [discriminate|].
  destruct (split_furthest a above) as [[[h f] m]|].
  - intros [= <- <- <-]. destruct (IH h eq_refl) as [-> Hs]. done.
  - destruct (html_is_special_element (tag_of a x)) eqn:E; [|discriminate].
    intros [= <- <- <-]. done.
Qed.

Lemma clone_is_fmt_parent a x q :
  fmt_node a x ->
  fmt_node (append_child (a ++ [element_node (tag_of a x) (attributes_of a x)])
                         (length a) q) (length a) /\
  key_of (append_child (a ++ [element_node (tag_of a x) (attributes_of a x)])
                       (length a) q) (length a) = key_of a x.
Proof.
  intros (n & Hn & He & Hf & Hns).
  set (c := element_node (tag_of a x) (attributes_of a x)).
  assert ((a ++ [c]) !! length a = Some c) as Hc by by rewrite list_lookup_middle.
  destruct (keeps_append_child (a ++ [c]) (length a) q _ _ Hc)
    as (c' & Hc' & Ht & Hnm & Hns' & Hat).
  assert (tag_of a x = node_name n) as Htag by (unfold tag_of; by rewrite Hn, He).
  split.
  - exists c'. unfold is_element in *. rewrite Ht, Hnm, Hns'. simpl.
    split; [done|]. split; [done|]. split; [by rewrite Htag|done].
  - unfold key_of. rewrite Hc', Hn, Hnm, Hns', Hat; simpl.
    + unfold attributes_of. by rewrite Hn, Htag, Hns.
    + done.
    + by rewrite Htag.
Qed.

(** *** The inner loop *)

Lemma inner_inv_remove a0 af0 fe st node :
  inner_inv a0 af0 fe st -> node < length a0 -> node <> fe ->
  inner_inv a0 af0 fe
    (mk_inner (i_nodes st) (remove_formatting node (i_formatting st))
              (i_last st) (i_bookmark st)).
Proof.
  intros [Hk Hv Hf Hm Hl Ht Hfe Hb] Hn Hne. constructor; simpl.
  - done.
  - done.
  - intros x Hx. apply elem_of_remove_formatting in Hx as [Hx _]. auto.
  - by rewrite count_markers_remove.
  - intros x k Hx. apply list_levels_remove in Hx. auto.
  - eapply thin_trans; [apply thin_keys_remove|done].
  - by apply last_segment_remove.
  - intros c Hc. destruct (Hb c Hc) as [H1 H2]. split; [|done].
    apply last_segment_remove; [done|lia].
Qed.

Lemma adoption_inner_spec a0 af0 fe fb mid : forall counter st,
  (forall x, x ∈ mid ->
     x < length a0 /\ x <> fe /\ html_is_void_element (tag_of a0 x) = false /\
     forall k, (x, k) ∈ list_levels af0 -> k = count_markers af0) ->
  inner_inv a0 af0 fe st ->
  inner_inv a0 af0 fe (adoption_inner fb mid counter st).1 /\
  keeps (i_nodes st) (i_nodes (adoption_inner fb mid counter st).1) /\
  forall c, c ∈ (adoption_inner fb mid counter st).2 ->
    length a0 <= c /\ fmt_node (i_nodes (adoption_inner fb mid counter st).1) c.
Proof.
  induction mid as [|node rest IH]; intros counter st Hmid Hst.
  - simpl. split; [done|]. split; [apply keeps_refl|]. intros c Hc. inversion Hc.
  - destruct (Hmid node) as (Hnb & Hnfe & Hnv & Hnl); [constructor|].
    assert (forall x, x ∈ rest ->
       x < length a0 /\ x <> fe /\ html_is_void_element (tag_of a0 x) = false /\
       forall k, (x, k) ∈ list_levels af0 -> k = count_markers af0) as Hrest.
    { intros x Hx. apply Hmid. by constructor. }
    cbn [adoption_inner].
    set (af1 := if (3 <? S counter)%nat && bool_decide (Some node ∈ i_formatting st)
                then remove_formatting node (i_formatting st) else i_formatting st).
    assert (inner_inv a0 af0 fe (mk_inner (i_nodes st) af1 (i_last st) (i_bookmark st)))
      as Hst1.
    { unfold af1.
      destruct ((3 <? S counter)%nat && bool_decide (Some node ∈ i_formatting st));
        [by apply inner_inv_remove|by destruct st]. }
    clearbody af1.
    case_bool_decide as Hin; simpl.
    + (* the node is rebound to a copy *)
      destruct Hst1 as [Hk Hv Hf Hm Hl Ht Hfe Hb]. simpl in *.
      set (a := i_nodes st) in *.
      set (clone := length a).
      set (a1 := a ++ [element_node (tag_of a node) (attributes_of a node)]).
      set (a2 := append_child a1 clone (i_last st)).
      pose proof (Hf node Hin) as Hfn.
      destruct (clone_is_fmt_parent a node (i_last st) Hfn) as [Hcf Hck].
      fold clone a1 in Hcf, Hck.
      assert (keeps a a2) as Hk2.
      { eapply keeps_trans; [apply keeps_app|apply keeps_append_child]. }
      pose proof (keeps_length _ _ Hk) as Hlen.
      assert (node ∈ last_segment af1) as Hnseg.
      { apply level_last_segment.
        destruct (list_levels_intro _ _ Hin) as [k Hk'].
        destruct (Hl _ _ Hk') as [[_ H1]|[H1 _]]; [|lia].
        rewrite (Hnl k H1) in Hk'. by rewrite Hm. }
      set (bm := if bool_decide (i_last st = fb) then Some clone else i_bookmark st).
      assert (inner_inv a0 af0 fe
                (mk_inner a2 (replace_formatting node clone af1) clone bm)) as Hst2.
      { constructor; simpl.
        - by eapply keeps_trans.
        - apply void_childless_append_child.
          + unfold a1, clone. rewrite tag_of_app_new. simpl.
            by rewrite (tag_of_keeps a0 a).
          + by apply void_childless_app.
        - intros x Hx. apply elem_of_replace_formatting in Hx as [[Hx _]| ->]; [|done].
          eapply fmt_node_keeps; [exact Hk2|auto].
        - by rewrite count_markers_replace.
        - intros x k Hx. apply list_levels_replace in Hx as [[Hx _]|[-> Hx]]; [auto|].
          right. split; [unfold clone; lia|].
          destruct (Hl _ _ Hx) as [[_ H1]|[H1 _]]; [by apply Hnl|lia].
        - rewrite (keys_replace a a2); [done|done|].
          intros z Hz. apply key_of_keeps; auto.
        - by apply last_segment_replace.
        - intros c. unfold bm. case_bool_decide.
          + intros [= <-]. split; [by apply last_segment_replace_new|unfold clone; lia].
          + intros Hc. destruct (Hb c Hc) as [H1 H2]. split; [|done].
            apply last_segment_replace; [done|lia]. }
      destruct (IH (S counter) _ Hrest Hst2) as (H1 & H2 & H3).
      destruct (adoption_inner fb rest (S counter) _) as [st' rest']. simpl in *.
      split; [done|]. split; [by eapply keeps_trans|].
      intros c Hc. apply elem_of_cons in Hc as [->|Hc]; [|auto].
      split; [unfold clone; lia|]. by eapply fmt_node_keeps.
    + (* the node leaves the stack *)
      destruct (IH (S counter) _ Hrest Hst1) as (H1 & H2 & H3). done.
Qed.

(** *** One iteration of the outer loop *)

Lemma Inv_set_lists s oe af :
  Inv s ->
  (forall x, x ∈ oe -> x < length (arena s)) ->
  (forall x, x ∈ oe -> html_is_void_element (tag_of (arena s) x) = false) ->
  (forall x, Some x ∈ af -> fmt_node (arena s) x) ->
  (early_mode (mode s) = true -> af = []) ->
  corr (arena s) oe af -> ark (arena s) af ->
  Inv (with_formatting af (with_open oe s)).
Proof. intros [] ? ? ? ? ? ?. by constructor. Qed.

Lemma new_copy_fmt a x :
  fmt_node a x ->
  fmt_node (a ++ [element_node (tag_of a x) (attributes_of a x)]) (length a) /\
  key_of (a ++ [element_node (tag_of a x) (attributes_of a x)]) (length a) = key_of a x.
Proof.
  intros (n & Hn & He & Hf & Hns).
  set (c := element_node (tag_of a x) (attributes_of a x)).
  assert ((a ++ [c]) !! length a = Some c) as Hc by by rewrite list_lookup_middle.
  assert (tag_of a x = node_name n) as Htag by (unfold tag_of; by rewrite Hn, He).
  split.
  - exists c. split; [done|]. split; [done|]. simpl. by rewrite Htag.
  - unfold key_of. rewrite Hc, Hn. simpl.
    unfold attributes_of. by rewrite Hn, Htag, Hns.
Qed.

Lemma fmt_node_not_me a x : fmt_node a x -> is_me a x = false.
Proof. intros H. unfold is_me. by apply fmt_not_me, fmt_node_tag. Qed.

Lemma fmt_node_nonvoid a x : fmt_node a x -> html_is_void_element (tag_of a x) = false.
Proof. intros H. by apply fmt_not_void, fmt_node_tag. Qed.

Lemma Inv_adoption_step_pop s fe above below :
  Inv s -> open_elements s = above ++ fe :: below ->
  fe ∈ last_segment (active_formatting s) -> count_me (arena s) above = 0 ->
  Inv (with_formatting (remove_formatting fe (active_formatting s)) (with_open below s)).
Proof.
  intros HI Hoe Hseg Hme.
  pose proof (inv_fmt _ HI _ (last_segment_elem _ _ Hseg)) as Hffe.
  assert (Inv (with_open below s)) as H1.
  { apply (Inv_with_open_suffix s (above ++ [fe]) below); [done|by rewrite <- app_assoc|].
    rewrite count_me_app, Hme, count_me_cons, (fmt_node_not_me _ _ Hffe). done. }
  exact (Inv_remove_formatting _ fe H1).
Qed.

(** The list after the copy of the formatting element has taken its place
    at the bookmark. *)
Lemma adoption_list_spec a0 af0 fe st a4 clone :
  inner_inv a0 af0 fe st -> keeps (i_nodes st) a4 ->
  fmt_node a4 clone -> key_of a4 clone = key_of (i_nodes st) fe ->
  length a0 <= clone -> fe < length a0 -> ark a0 af0 ->
  (forall k, (fe, k) ∈ list_levels af0 -> k = count_markers af0) ->
  forall af,
  af = match i_bookmark st with
       | None => replace_formatting fe clone (i_formatting st)
       | Some n => insert_after n clone (remove_formatting fe (i_formatting st))
       end ->
  count_markers af = count_markers af0 /\
  (forall x k, (x, k) ∈ list_levels af ->
     (x < length a0 /\ (x, k) ∈ list_levels af0) \/
     (length a0 <= x /\ k = count_markers af0)) /\
  (forall x, Some x ∈ af -> fmt_node a4 x) /\
  ark a4 af.
Proof.
  intros [Hk0 Hv Hf Hm Hl Ht Hfe Hb] Hk Hcf Hck Hcb Hfeb Hark Hfel af ->.
  assert (ark_keys (keys (i_nodes st) (i_formatting st))) as Hark1
    by (eapply ark_thin; eauto).
  assert (forall z, Some z ∈ i_formatting st -> key_of a4 z = key_of (i_nodes st) z) as Hkeys.
  { intros z Hz. apply key_of_keeps; auto. }
  destruct (i_bookmark st) as [n|] eqn:Ebm.
  - destruct (Hb n eq_refl) as [Hn1 Hn2].
    assert (n ∈ last_segment (remove_formatting fe (i_formatting st))) as Hn3
      by (apply last_segment_remove; [done|lia]).
    destruct (insert_after_spec n clone _ (or_introl Hn3)) as (l1 & l2 & E1 & E2).
    rewrite E2.
    assert (count_markers l2 = count_markers af0) as Hl2.
    { rewrite <- Hm, <- (count_markers_remove fe (i_formatting st)), E1,
        count_markers_app, count_markers_Some. done. }
    split; [|split; [|split]].
    + by rewrite count_markers_insert, <- E1, count_markers_remove.
    + intros x k Hx. apply list_levels_insert in Hx as [[= -> ->]|Hx].
      * right. done.
      * rewrite <- E1 in Hx. apply list_levels_remove in Hx. auto.
    + intros x Hx.
      assert (x = clone \/ Some x ∈ remove_formatting fe (i_formatting st)) as [->|Hx'].
      { rewrite E1. apply elem_of_app in Hx as [Hx|Hx]; [right; apply elem_of_app; by left|].
        apply elem_of_cons in Hx as [[= ->]|Hx]; [by left|].
        right. apply elem_of_app. by right. }
      * done.
      * apply elem_of_remove_formatting in Hx' as [Hx' _].
        eapply fmt_node_keeps; [exact Hk|auto].
    + unfold ark. rewrite keys_app, keys_Some. cbn [keys fmap list_fmap option_fmap option_map].
      fold (keys a4 l2).
      assert (keys a4 (remove_formatting fe (i_formatting st))
              = keys (i_nodes st) (remove_formatting fe (i_formatting st))) as Ekeys.
      { apply keys_keeps; [done|]. intros x Hx.
        apply elem_of_remove_formatting in Hx as [Hx _]. auto. }
      apply ark_insert.
      * rewrite <- keys_Some, <- keys_app, <- E1, Ekeys.
        eapply ark_thin; [apply thin_keys_remove|done].
      * rewrite <- last_segment_app_Some, <- keys_Some, <- keys_app, <- E1, Ekeys, Hck.
        pose proof (count_same_remove (i_nodes st) fe _ Hfe) as H1.
        pose proof (ark_count _ (key_of (i_nodes st) fe) Hark1) as H2. lia.
  - split; [|split; [|split]].
    + by rewrite count_markers_replace.
    + intros x k Hx. apply list_levels_replace in Hx as [[Hx _]|[-> Hx]]; [auto|].
      right. split; [done|].
      destruct (Hl _ _ Hx) as [[_ H1]|[H1 _]]; [auto|lia].
    + intros x Hx. apply elem_of_replace_formatting in Hx as [[Hx _]| ->]; [|done].
      eapply fmt_node_keeps; [exact Hk|auto].
    + unfold ark. by rewrite (keys_replace (i_nodes st) a4).
Qed.

Lemma Inv_adoption_step s fe above below :
  Inv s -> open_elements s = above ++ fe :: below -> fe ∉ above ->
  fe ∈ last_segment (active_formatting s) -> count_me (arena s) above = 0 ->
  Inv (adoption_step s fe above below) /\
  mode (adoption_step s fe above below) = mode s /\
  keeps (arena s) (arena (adoption_step s fe above below)).
Proof.
  intros HI Hoe Hfe Hseg Hme.
  pose proof (last_segment_elem _ _ Hseg) as Hfin.
  pose proof (inv_fmt _ HI _ Hfin) as Hffe.
  pose proof (fmt_node_not_me _ _ Hffe) as Hfeme.
  pose proof (fmt_node_bound _ _ Hffe) as Hfeb.
  assert (count_me (arena s) below = count_markers (active_formatting s)) as HT.
  { destruct (inv_corr _ HI) as [Hc _].
    rewrite Hc, Hoe, count_me_app, count_me_cons, Hme, Hfeme. done. }
  assert (forall x, x ∈ above ++ [fe] -> forall k,
            (x, k) ∈ list_levels (active_formatting s) ->
            k = count_markers (active_formatting s)) as Hlv.
  { intros x Hx k Hk. destruct (inv_corr _ HI) as [_ Hc].
    rewrite <- HT. apply (Hc x); [done|].
    rewrite Hoe. change (fe :: below) with ([fe] ++ below). rewrite app_assoc.
    apply stack_levels_prefix_intro; [|done].
    rewrite count_me_app, Hme, count_me_cons, Hfeme. done. }
  unfold adoption_step.
  destruct (split_furthest (arena s) above) as [[[hi fb] mid]|] eqn:Esf.
  2: { split; [by eapply Inv_adoption_step_pop|]. split; [done|apply keeps_refl]. }
  apply split_furthest_spec in Esf as [Habove Hsp].
  assert (forall x, x ∈ above -> x ∈ open_elements s) as Hab_in.
  { intros x Hx. rewrite Hoe. apply elem_of_app. by left. }
  assert (forall x, x ∈ mid ->
     x < length (arena s) /\ x <> fe /\
     html_is_void_element (tag_of (arena s) x) = false /\
     forall k, (x, k) ∈ list_levels (active_formatting s) ->
               k = count_markers (active_formatting s)) as Hmid.
  { intros x Hx.
    assert (x ∈ above) as Hxa.
    { rewrite Habove. apply elem_of_app. right. by constructor. }
    split; [by apply (inv_open_bound _ HI), Hab_in|].
    split; [intros ->; by apply Hfe|].
    split; [by apply (inv_open_nonvoid _ HI), Hab_in|].
    apply Hlv. apply elem_of_app. by left. }
  assert (inner_inv (arena s) (active_formatting s) fe
            (mk_inner (arena s) (active_formatting s) fb None)) as Hst0.
  { constructor; simpl.
    - apply keeps_refl.
    - apply (inv_void _ HI).
    - apply (inv_fmt _ HI).
    - done.
    - intros x k Hx. left. split; [|done].
      apply fmt_node_bound, (inv_fmt _ HI). by eapply list_levels_elem.
    - apply thin_refl.
    - done.
    - discriminate. }
  destruct (adoption_inner_spec _ _ fe fb mid 0 _ Hmid Hst0) as (Hst & _ & Hmid').
  destruct (adoption_inner fb mid 0 _) as [st mid']. cbn [fst snd] in Hst, Hmid'.
  cbv beta iota zeta.
  pose proof (ii_keeps _ _ _ _ Hst) as Hk0.
  pose proof (ii_void _ _ _ _ Hst) as Hv.
  pose proof (keeps_length _ _ Hk0) as Hlen0.
  set (a := i_nodes st) in *.
  set (ca := default document_node (top below)).
  set (a1 := append_child a ca (i_last st)).
  set (clone := length a1).
  set (a2 := a1 ++ [element_node (tag_of a1 fe) (attributes_of a1 fe)]).
  set (a3 := append_children a2 clone (children_of a2 fb)).
  set (a4 := append_child a3 fb clone).
  set (af := match i_bookmark st with
             | Some n => insert_after n clone (remove_formatting fe (i_formatting st))
             | None => replace_formatting fe clone (i_formatting st)
             end).
  assert (fb ∈ above) as Hfba.
  { rewrite Habove. apply elem_of_app. right. constructor. }
  assert (html_is_void_element (tag_of a ca) = false) as Hcanv.
  { unfold ca. destruct below as [|c below']; simpl.
    - rewrite (tag_of_keeps _ _ _ Hk0); [|apply (inv_doc _ HI)].
      by rewrite (proj1 (inv_doc _ HI)).
    - assert (c ∈ open_elements s) as Hc.
      { rewrite Hoe. apply elem_of_app. right. do 2 constructor. }
      rewrite (tag_of_keeps _ _ _ Hk0); [|by apply (inv_open_bound _ HI)].
      by apply (inv_open_nonvoid _ HI). }
  assert (keeps a a1) as Hk1 by apply keeps_append_child.
  assert (void_childless a1) as Hv1 by by apply void_childless_append_child.
  assert (fmt_node a1 fe) as Hffe1.
  { eapply fmt_node_keeps; [exact Hk1|]. by eapply fmt_node_keeps. }
  destruct (new_copy_fmt a1 fe Hffe1) as [Hcf2 Hck2]. fold clone a2 in Hcf2, Hck2.
  assert (keeps a1 a2) as Hk2 by apply keeps_app.
  assert (void_childless a2) as Hv2 by by apply void_childless_app.
  assert (keeps a2 a3) as Hk3 by apply keeps_append_children.
  assert (void_childless a3) as Hv3.
  { apply void_childless_append_children; [|done]. by apply fmt_node_nonvoid. }
  assert (keeps a3 a4) as Hk4 by apply keeps_append_child.
  assert (keeps a a3) as Hka3.
  { eapply keeps_trans; [exact Hk1|]. eapply keeps_trans; [exact Hk2|done]. }
  assert (keeps a a4) as Hka4 by (eapply keeps_trans; [exact Hka3|exact Hk4]).
  assert (keeps (arena s) a4) as Hk04 by (eapply keeps_trans; [exact Hk0|exact Hka4]).
  assert (void_childless a4) as Hv4.
  { apply void_childless_append_child; [|done].
    rewrite (tag_of_keeps (arena s) a3).
    - by apply (inv_open_nonvoid _ HI), Hab_in.
    - eapply keeps_trans; [exact Hk0|exact Hka3].
    - by apply (inv_open_bound _ HI), Hab_in. }
  assert (fmt_node a4 clone) as Hcf4.
  { eapply fmt_node_keeps; [|exact Hcf2]. eapply keeps_trans; [exact Hk3|exact Hk4]. }
  assert (key_of a4 clone = key_of a fe) as Hck4.
  { rewrite (key_of_keeps a2 a4); [|eapply keeps_trans; [exact Hk3|exact Hk4]|done].
    rewrite Hck2. apply key_of_keeps; [done|]. by eapply fmt_node_keeps. }
  assert (length (arena s) <= clone) as Hcb.
  { unfold clone. pose proof (keeps_length _ _ Hk1). lia. }
  destruct (adoption_list_spec _ _ fe st a4 clone Hst Hka4 Hcf4 Hck4 Hcb Hfeb
              (inv_ark _ HI)) with (af := af) as (Hafm & Hafl & Haff & Hafa).
  { apply Hlv. apply elem_of_app. right. constructor. }
  { unfold af. by destruct (i_bookmark st). }
  split; [|split; [done|exact Hk04]].
  (* the stack *)
  assert (hi ++ clone :: fb :: mid' ++ below = (hi ++ clone :: fb :: mid') ++ below)
    as -> by by rewrite <- app_assoc.
  set (pre := hi ++ clone :: fb :: mid').
  assert (forall x, x ∈ pre ->
            (x ∈ above /\ x < length (arena s)) \/
            (length (arena s) <= x /\ fmt_node a4 x)) as Hpre.
  { intros x Hx. unfold pre in Hx.
    apply elem_of_app in Hx as [Hx|Hx].
    { left. assert (x ∈ above) as Hxa by (rewrite Habove; apply elem_of_app; by left).
      split; [done|]. by apply (inv_open_bound _ HI), Hab_in. }
    apply elem_of_cons in Hx as [->|Hx]; [by right|].
    apply elem_of_cons in Hx as [->|Hx].
    { left. split; [done|]. by apply (inv_open_bound _ HI), Hab_in. }
    right. destruct (Hmid' x Hx) as [H1 H2]. split; [done|].
    eapply fmt_node_keeps; [exact Hka4|exact H2]. }
  assert (forall x, x ∈ below -> x ∈ open_elements s) as Hbe_in.
  { intros x Hx. rewrite Hoe. apply elem_of_app. right. by constructor. }
  assert (count_me a4 pre = 0) as Hpme.
  { apply count_me_zero. intros x Hx. destruct (Hpre x Hx) as [[H1 H2]|[H1 H2]].
    - rewrite (is_me_keeps _ _ _ Hk04 H2).
      by apply (proj1 (count_me_zero _ _) Hme).
    - by apply fmt_node_not_me. }
  assert (count_me a4 below = count_markers (active_formatting s)) as HT4.
  { rewrite <- HT. apply count_me_keeps; [done|].
    intros x Hx. by apply (inv_open_bound _ HI), Hbe_in. }
  apply (Inv_set_lists (with_nodes a4 s)).
  - by apply Inv_arena.
  - intros x Hx. psimpl. pose proof (keeps_length _ _ Hk04).
    apply elem_of_app in Hx as [Hx|Hx].
    + destruct (Hpre x Hx) as [[H1 H2]|[H1 H2]]; [lia|by apply fmt_node_bound].
    + apply Hbe_in, (inv_open_bound _ HI) in Hx. unfold arena in Hx. lia.
  - intros x Hx. psimpl.
    apply elem_of_app in Hx as [Hx|Hx].
    + destruct (Hpre x Hx) as [[H1 H2]|[H1 H2]]; [|by apply fmt_node_nonvoid].
      rewrite (tag_of_keeps _ _ _ Hk04 H2). by apply (inv_open_nonvoid _ HI), Hab_in.
    + pose proof (Hbe_in x Hx) as Hx'.
      rewrite (tag_of_keeps _ _ _ Hk04); [by apply (inv_open_nonvoid _ HI)|].
      by apply (inv_open_bound _ HI).
  - done.
  - intros He. apply (inv_early _ HI) in He. rewrite He in Hfin. inversion Hfin.
  - split.
    + change (arena (with_nodes a4 s)) with a4.
      rewrite count_me_app, Hpme, HT4. done.
    + change (arena (with_nodes a4 s)) with a4.
      intros x k k' Hl Hs.
      apply stack_levels_prefix in Hs as [[Hx ->]|Hs]; [| |done].
      * rewrite HT4.
        destruct (Hafl _ _ Hl) as [[H1 H2]|[H1 H2]]; [|done].
        destruct (Hpre x Hx) as [[H3 H4]|[H3 H4]]; [|lia].
        apply (Hlv x); [|done]. apply elem_of_app. by left.
      * rewrite (stack_levels_keeps (arena s)) in Hs; [|done|].
        2: { intros y Hy. by apply (inv_open_bound _ HI), Hbe_in. }
        destruct (Hafl _ _ Hl) as [[H1 H2]|[H1 H2]].
        -- destruct (inv_corr _ HI) as [_ Hc]. apply (Hc x); [done|].
           rewrite Hoe. change (fe :: below) with ([fe] ++ below). rewrite app_assoc.
           by apply stack_levels_suffix.
        -- apply stack_levels_elem, Hbe_in, (inv_open_bound _ HI) in Hs. lia.
  - done.
Qed.

(** *** The outer loop and the algorithm *)

Lemma has_in_scope_me a target above : forall x below,
  has_in_scope a target default_scope_boundary (above ++ x :: below) = true ->
  (forall y, y ∈ above -> target y = false) ->
  count_me a above = 0.
Proof.
  induction above as [|y above IH]; intros x below H Ht; [done|].
  simpl in H. rewrite (Ht y) in H by constructor.
  destruct (default_scope_boundary (tag_of a y)) eqn:Eb; [done|].
  rewrite count_me_cons, (IH x below); [|done|intros z Hz; apply Ht; by constructor].
  unfold is_me. destruct (is_marker_element (tag_of a y)) eqn:Em; [|done].
  apply me_default_boundary in Em. congruence.
Qed.

Lemma any_other_end_tag_same s t :
  mode (any_other_end_tag s t) = mode s /\
  arena (any_other_end_tag s t) = arena s.
Proof. unfold any_other_end_tag. by destruct (any_other_end_tag_walk _ _ _). Qed.

Lemma Inv_adoption_outer n subject : forall s,
  Inv s -> is_marker_element subject = false ->
  Inv (adoption_outer n subject s) /\
  mode (adoption_outer n subject s) = mode s /\
  keeps (arena s) (arena (adoption_outer n subject s)).
Proof.
  induction n as [|n IH]; intros s HI Hsub; simpl.
  { split; [done|]. split; [done|apply keeps_refl]. }
  destruct (find_formatting (arena s) subject (active_formatting s)) as [fe|] eqn:Ef.
  2: { destruct (any_other_end_tag_same s subject) as [H1 H2].
       split; [by apply Inv_any_other_end_tag|]. split; [done|].
       rewrite H2. apply keeps_refl. }
  apply find_formatting_spec in Ef as [Hseg _].
  destruct (split_stack fe (open_elements s)) as [[above below]|] eqn:Es.
  2: { split; [apply Inv_parse_error, Inv_remove_formatting; done|].
       split; [done|apply keeps_refl]. }
  apply split_stack_spec in Es as [Hoe Hfe].
  destruct (has_in_scope (arena s) (fun x => bool_decide (x = fe))
              default_scope_boundary (open_elements s)) eqn:Hsc; simpl.
  2: { split; [by apply Inv_parse_error|]. split; [done|apply keeps_refl]. }
  assert (count_me (arena s) above = 0) as Hme.
  { rewrite Hoe in Hsc. eapply has_in_scope_me; [exact Hsc|].
    intros y Hy. apply bool_decide_eq_false. intros ->. done. }
  set (s1 := match above with
             | [] => s
             | _ :: _ => parse_error HTML_ERROR_INVALID_NESTING s
             end).
  assert (Inv s1 /\ open_elements s1 = open_elements s /\
          active_formatting s1 = active_formatting s /\
          arena s1 = arena s /\ mode s1 = mode s) as (HI1 & Ho1 & Hf1 & Ha1 & Hm1).
  { unfold s1. destruct above; [done|]. split; [by apply Inv_parse_error|done]. }
  destruct (Inv_adoption_step s1 fe above below) as (H1 & H2 & H3).
  { done. } { by rewrite Ho1. } { done. } { by rewrite Hf1. } { by rewrite Ha1. }
  rewrite Ha1 in H3. rewrite Hm1 in H2.
  destruct (split_furthest (arena s1) above) as [x|]; [|done].
  destruct (IH _ H1 Hsub) as (H4 & H5 & H6).
  split; [done|]. split; [congruence|]. by eapply keeps_trans.
Qed.

Lemma Inv_adoption_agency s tok :
  Inv s -> html_is_formatting_element (Tokenizer.tag_name tok) = true ->
  Inv (html_adoption_agency_algorithm s tok) /\
  mode (html_adoption_agency_algorithm s tok) = mode s /\
  keeps (arena s) (arena (html_adoption_agency_algorithm s tok)).
Proof.
  intros HI Hf. unfold html_adoption_agency_algorithm.
  pose proof (fmt_not_me _ Hf) as Hme.
  destruct (current_node s) as [c|] eqn:Ec; [|by apply Inv_adoption_outer].
  destruct (has_tag (arena s) (Tokenizer.tag_name tok) c
            && negb (bool_decide (Some c ∈ active_formatting s))) eqn:Eb;
    [|by apply Inv_adoption_outer].
  apply andb_true_iff in Eb as [Eb _]. apply bool_decide_eq_true in Eb.
  split; [|split; [done|apply keeps_refl]].
  apply Inv_pop_open; [done|]. unfold current_tag. by rewrite Ec, Eb.
Qed.

End AdoptionProofs.

(* --------------------------------------------------------------------- *)
(** ** Steps that keep the mode and the references of the document       *)
(* --------------------------------------------------------------------- *)

Module FrameProofs.
Import Dom Parser Invariants.

Lemma frame_refl s : frame s s.
Proof. by unfold frame. Qed.

Lemma frame_trans s1 s2 s3 : frame s1 s2 -> frame s2 s3 -> frame s1 s3.
Proof. unfold frame. intros (-> & -> & -> & ->) (-> & -> & -> & ->). done. Qed.

Lemma frame_with_nodes a s : frame s (with_nodes a s).
Proof. by unfold frame. Qed.

Lemma frame_with_open oe s : frame s (with_open oe s).
Proof. by unfold frame. Qed.

Lemma frame_with_formatting af s : frame s (with_formatting af s).
Proof. by unfold frame. Qed.

Lemma frame_parse_error e s : frame s (parse_error e s).
Proof. by unfold frame. Qed.

Lemma frame_with_form_element f s : frame s (with_form_element f s).
Proof. by unfold frame. Qed.

Lemma frame_pop_open s : frame s (pop_open s).
Proof. by unfold frame. Qed.

Lemma frame_remove_open x s : frame s (remove_open x s).
Proof. by unfold frame. Qed.

Lemma frame_insert_node_at p n s : frame s (insert_node_at p n s).
Proof. by unfold frame. Qed.

Lemma frame_insert_element s tag attrs : frame s (insert_element s tag attrs).
Proof. unfold insert_element. by destruct (html_is_void_element tag). Qed.

Lemma frame_html_insert_element s tok : frame s (html_insert_element s tok).
Proof. apply frame_insert_element. Qed.

Lemma frame_insert_text s t : frame s (html_insert_text s t).
Proof. unfold html_insert_text. by destruct (last_text_child _ _). Qed.

Lemma frame_insert_comment s c : frame s (html_insert_comment s c).
Proof. by unfold frame. Qed.

Lemma frame_merge_attributes s x attrs : frame s (merge_attributes s x attrs).
Proof. by unfold frame. Qed.

Lemma frame_push_formatting s x : frame s (push_formatting s x).
Proof. by unfold frame. Qed.

Lemma frame_push_marker s : frame s (push_marker s).
Proof. by unfold frame. Qed.

Lemma frame_close_element s t : frame s (html_close_element s t).
Proof. by unfold frame. Qed.

Lemma frame_implied_end_tags s except : frame s (generate_implied_end_tags s except).
Proof. by unfold frame. Qed.

Lemma frame_close_p_element s : frame s (close_p_element s).
Proof. unfold close_p_element. by case_bool_decide. Qed.

Lemma frame_close_p_if_in_button_scope s : frame s (close_p_if_in_button_scope s).
Proof.
  unfold close_p_if_in_button_scope.
  destruct (has_element_in_button_scope s "p"); [apply frame_close_p_element|apply frame_refl].
Qed.

Lemma frame_close_list_item s names : frame s (close_list_item s names).
Proof. unfold close_list_item. by destruct (list_item_walk _ _ _). Qed.

Lemma frame_any_other_end_tag s t : frame s (any_other_end_tag s t).
Proof. unfold any_other_end_tag. by destruct (any_other_end_tag_walk _ _ _). Qed.

Lemma frame_reopen pre : forall s, frame s (reopen pre s).1.
Proof.
  induction pre as [|x pre IH]; intros s; simpl; [apply frame_refl|].
  specialize (IH s). destruct (reopen pre s) as [s1 l]. simpl in *.
  eapply frame_trans; [exact IH|apply frame_insert_element].
Qed.

Lemma frame_reconstruct s : frame s (html_reconstruct_formatting s).
Proof.
  unfold html_reconstruct_formatting.
  pose proof (frame_reopen (unopened_prefix (open_elements s) (active_formatting s)) s) as H.
  destruct (reopen _ s) as [s1 l]. simpl in H.
  eapply frame_trans; [exact H|apply frame_with_formatting].
Qed.

Lemma frame_adoption_step s fe above below : frame s (adoption_step s fe above below).
Proof.
  unfold adoption_step.
  destruct (split_furthest (arena s) above) as [[[hi fb] mid]|]; [|done].
  by destruct (adoption_inner fb mid 0 _) as [st mid'].
Qed.

Lemma frame_adoption_outer n subject : forall s, frame s (adoption_outer n subject s).
Proof.
  induction n as [|n IH]; intros s; simpl; [apply frame_refl|].
  destruct (find_formatting _ _ _) as [fe|]; [|apply frame_any_other_end_tag].
  destruct (split_stack fe (open_elements s)) as [[above below]|]; [|done].
  destruct (negb _); [done|].
  set (s1 := match above with [] => s | _ :: _ => parse_error _ s end).
  assert (frame s s1) as H1 by (unfold s1; by destruct above).
  pose proof (frame_adoption_step s1 fe above below) as H2.
  destruct (split_furthest (arena s1) above); [|by eapply frame_trans].
  eapply frame_trans; [exact H1|]. eapply frame_trans; [exact H2|apply IH].
Qed.

Lemma frame_adoption_agency s tok : frame s (html_adoption_agency_algorithm s tok).
Proof.
  unfold html_adoption_agency_algorithm.
  destruct (current_node s) as [c|]; [|apply frame_adoption_outer].
  destruct (_ && _); [done|apply frame_adoption_outer].
Qed.

Lemma frame_insert_formatting_element s tok : frame s (insert_formatting_element s tok).
Proof.
  unfold insert_formatting_element.
  eapply frame_trans; [apply frame_html_insert_element|apply frame_push_formatting].
Qed.

Lemma frame_in_body_start_html s tok : frame s (in_body_start_html s tok).
Proof. unfold in_body_start_html. by destruct (document_element _). Qed.

(** The same lemmas, composed with a frame that is already there. *)
Section Compose.
Context (s t : html_parser_t) (H : frame s t).

Lemma fr_with_nodes a : frame s (with_nodes a t).
Proof. eapply frame_trans; [exact H|apply frame_with_nodes]. Qed.
Lemma fr_with_open oe : frame s (with_open oe t).
Proof. eapply frame_trans; [exact H|apply frame_with_open]. Qed.
Lemma fr_with_formatting af : frame s (with_formatting af t).
Proof. eapply frame_trans; [exact H|apply frame_with_formatting]. Qed.
Lemma fr_parse_error e : frame s (parse_error e t).
Proof. eapply frame_trans; [exact H|apply frame_parse_error]. Qed.
Lemma fr_with_form_element f : frame s (with_form_element f t).
Proof. eapply frame_trans; [exact H|apply frame_with_form_element]. Qed.
Lemma fr_pop_open : frame s (pop_open t).
Proof. eapply frame_trans; [exact H|apply frame_pop_open]. Qed.
Lemma fr_remove_open x : frame s (remove_open x t).
Proof. eapply frame_trans; [exact H|apply frame_remove_open]. Qed.
Lemma fr_insert_node_at p n : frame s (insert_node_at p n t).
Proof. eapply frame_trans; [exact H|apply frame_insert_node_at]. Qed.
Lemma fr_insert_element tag attrs : frame s (insert_element t tag attrs).
Proof. eapply frame_trans; [exact H|apply frame_insert_element]. Qed.
Lemma fr_html_insert_element tok : frame s (html_insert_element t tok).
Proof. eapply frame_trans; [exact H|apply frame_html_insert_element]. Qed.
Lemma fr_in_head_content tok : frame s (in_head_content t tok).
Proof. apply fr_html_insert_element. Qed.
Lemma fr_insert_text x : frame s (html_insert_text t x).
Proof. eapply frame_trans; [exact H|apply frame_insert_text]. Qed.
Lemma fr_insert_comment c : frame s (html_insert_comment t c).
Proof. eapply frame_trans; [exact H|apply frame_insert_comment]. Qed.
Lemma fr_merge_attributes x attrs : frame s (merge_attributes t x attrs).
Proof. eapply frame_trans; [exact H|apply frame_merge_attributes]. Qed.
Lemma fr_push_marker : frame s (push_marker t).
Proof. eapply frame_trans; [exact H|apply frame_push_marker]. Qed.
Lemma fr_close_element x : frame s (html_close_element t x).
Proof. eapply frame_trans; [exact H|apply frame_close_element]. Qed.
Lemma fr_implied_end_tags x : frame s (generate_implied_end_tags t x).
Proof. eapply frame_trans; [exact H|apply frame_implied_end_tags]. Qed.
Lemma fr_close_p_element : frame s (close_p_element t).
Proof. eapply frame_trans; [exact H|apply frame_close_p_element]. Qed.
Lemma fr_close_p_if_in_button_scope : frame s (close_p_if_in_button_scope t).
Proof. eapply frame_trans; [exact H|apply frame_close_p_if_in_button_scope]. Qed.
Lemma fr_close_list_item names : frame s (close_list_item t names).
Proof. eapply frame_trans; [exact H|apply frame_close_list_item]. Qed.
Lemma fr_any_other_end_tag x : frame s (any_other_end_tag t x).
Proof. eapply frame_trans; [exact H|apply frame_any_other_end_tag]. Qed.
Lemma fr_reconstruct : frame s (html_reconstruct_formatting t).
Proof. eapply frame_trans; [exact H|apply frame_reconstruct]. Qed.
Lemma fr_adoption_agency tok : frame s (html_adoption_agency_algorithm t tok).
Proof. eapply frame_trans; [exact H|apply frame_adoption_agency]. Qed.
Lemma fr_insert_formatting_element tok : frame s (insert_formatting_element t tok).
Proof. eapply frame_trans; [exact H|apply frame_insert_formatting_element]. Qed.
Lemma fr_in_body_start_html tok : frame s (in_body_start_html t tok).
Proof. eapply frame_trans; [exact H|apply frame_in_body_start_html]. Qed.

End Compose.

Ltac frame_solve :=
  repeat match goal with
  | |- frame ?s ?s => apply frame_refl
  | |- frame _ (if ?b then _ else _) => destruct b
  | |- frame _ (match ?x with Some _ => _ | None => _ end) => destruct x
  | |- frame _ (with_nodes _ _) => apply fr_with_nodes
  | |- frame _ (with_open _ _) => apply fr_with_open
  | |- frame _ (with_formatting _ _) => apply fr_with_formatting
  | |- frame _ (parse_error _ _) => apply fr_parse_error
  | |- frame _ (with_form_element _ _) => apply fr_with_form_element
  | |- frame _ (pop_open _) => apply fr_pop_open
  | |- frame _ (remove_open _ _) => apply fr_remove_open
  | |- frame _ (insert_node_at _ _ _) => apply fr_insert_node_at
  | |- frame _ (insert_element _ _ _) => apply fr_insert_element
  | |- frame _ (html_insert_element _ _) => apply fr_html_insert_element
  | |- frame _ (in_head_content _ _) => apply fr_in_head_content
  | |- frame _ (html_insert_text _ _) => apply fr_insert_text
  | |- frame _ (html_insert_comment _ _) => apply fr_insert_comment
  | |- frame _ (merge_attributes _ _ _) => apply fr_merge_attributes
  | |- frame _ (push_marker _) => apply fr_push_marker
  | |- frame _ (html_close_element _ _) => apply fr_close_element
  | |- frame _ (generate_implied_end_tags _ _) => apply fr_implied_end_tags
  | |- frame _ (close_p_element _) => apply fr_close_p_element
  | |- frame _ (close_p_if_in_button_scope _) => apply fr_close_p_if_in_button_scope
  | |- frame _ (close_list_item _ _) => apply fr_close_list_item
  | |- frame _ (any_other_end_tag _ _) => apply fr_any_other_end_tag
  | |- frame _ (html_reconstruct_formatting _) => apply fr_reconstruct
  | |- frame _ (html_adoption_agency_algorithm _ _) => apply fr_adoption_agency
  | |- frame _ (insert_formatting_element _ _) => apply fr_insert_formatting_element
  | |- frame _ (in_body_start_html _ _) => apply fr_in_body_start_html
  end.

Lemma frame_in_body_start s tok : frame s (in_body_start s tok).
Proof. unfold in_body_start. cbv zeta. frame_solve. Qed.

Lemma late_step_frame s s' :
  frame s s' -> early_mode (mode s) = false -> late_step s s'.
Proof. intros (Hm & ? & ? & ?) Hl. unfold late_step. by rewrite Hm. Qed.

Lemma late_step_in_body_end s tok :
  early_mode (mode s) = false -> late_step s (in_body_end s tok).
Proof.
  intros Hl. unfold in_body_end. cbv zeta.
  assert (forall m, early_mode m = false -> late_step s (with_mode m s)) as Hm
    by (intros m Hm; by unfold late_step).
  assert (late_step s (parse_error HTML_ERROR_UNEXPECTED_TOKEN s)) as He
    by by unfold late_step.
  destruct (bool_decide (Tokenizer.tag_name tok = "body"));
    [destruct (has_element_in_scope s "body"); [by apply Hm|done]|].
  destruct (bool_decide (Tokenizer.tag_name tok = "html"));
    [destruct (has_element_in_scope s "body"); [by apply Hm|done]|].
  apply late_step_frame; [|done]. frame_solve.
Qed.

Lemma late_step_in_body s tok :
  early_mode (mode s) = false -> late_step s (in_body s tok).
Proof.
  intros Hl. unfold in_body. destruct (Tokenizer.type tok).
  - apply late_step_frame; [frame_solve|done].
  - apply late_step_frame; [apply frame_in_body_start|done].
  - by apply late_step_in_body_end.
  - apply late_step_frame; [apply frame_in_body_start|done].
  - apply late_step_frame; [frame_solve|done].
  - apply late_step_frame; [frame_solve|done].
  - apply late_step_frame; [frame_solve|done].
Qed.

End FrameProofs.

(* --------------------------------------------------------------------- *)
(** ** The invariant is kept by the rules of every mode                  *)
(* --------------------------------------------------------------------- *)

Module HandlerProofs.
Import Dom Parser Invariants ArenaProofs LevelProofs ArkProofs CorrProofs InvProofs
       AdoptionProofs FrameProofs.

Lemma mem_forall (P : string -> bool) l t :
  mem t l = true -> forallb P l = true -> P t = true.
Proof.
  unfold mem. intros H Hall. apply bool_decide_eq_true in H.
  rewrite forallb_forall in Hall. apply Hall. by apply list_elem_of_In.
Qed.

Lemma mem_not_me l t :
  mem t l = true -> forallb (fun x => negb (is_marker_element x)) l = true ->
  is_marker_element t = false.
Proof.
  intros H Hall. apply negb_true_iff.
  exact (mem_forall (fun x => negb (is_marker_element x)) l t H Hall).
Qed.

Lemma late_frame s s' :
  frame s s' -> early_mode (mode s) = false -> early_mode (mode s') = false.
Proof. intros (-> & _). done. Qed.

Lemma tag_of_insert_element_new s tag attrs :
  tag_of (arena (insert_element s tag attrs)) (length (arena s)) = tag.
Proof.
  rewrite arena_insert_element, tag_of_append_child, tag_of_app_new. done.
Qed.

Lemma tag_of_insert_element_old s tag attrs i :
  i < length (arena s) -> tag_of (arena (insert_element s tag attrs)) i = tag_of (arena s) i.
Proof. intros H. by apply tag_of_keeps; [apply keeps_insert_element|]. Qed.

(** No marker element is open while the list of active formatting elements
    is empty. *)
Lemma no_me_open s x :
  Inv s -> active_formatting s = [] -> x ∈ open_elements s -> is_me (arena s) x = false.
Proof.
  intros HI Haf Hx. destruct (inv_corr _ HI) as [Hc _].
  rewrite Haf in Hc. symmetry in Hc. change (count_markers []) with 0 in Hc.
  by apply (proj1 (count_me_zero _ _) Hc).
Qed.

Lemma early_current_not_me s :
  Inv s -> early_mode (mode s) = true -> is_marker_element (current_tag s) = false.
Proof.
  intros HI He. unfold current_tag, current_node.
  destruct (open_elements s) as [|x oe] eqn:Eo; simpl; [done|].
  apply (no_me_open s x HI (inv_early _ HI He)). rewrite Eo. constructor.
Qed.

Lemma Inv_in_body_start_html s tok : Inv s -> Inv (in_body_start_html s tok).
Proof.
  intros HI. unfold in_body_start_html.
  destruct (document_element (document (parse_error _ s))) as [h|] eqn:Eh;
    [|by apply Inv_parse_error].
  apply Inv_merge_attributes; [by apply Inv_parse_error|].
  pose proof (inv_root _ HI h Eh) as Hr. psimpl. by rewrite Hr.
Qed.

Lemma Inv_in_head_content s tok :
  Inv s -> mem (Tokenizer.tag_name tok) head_content_tags = true ->
  Inv (in_head_content s tok).
Proof.
  intros HI H. apply Inv_html_insert_element; [done|].
  by apply (mem_not_me head_content_tags).
Qed.

Ltac top_if H :=
  match goal with |- Inv (if ?b then _ else _) => destruct b eqn:H end.

(** The "a" start tag: an "a" element still on the list is closed by the
    adoption agency algorithm and taken off the list and the stack. *)
Lemma Inv_close_open_a s tok x :
  Inv s -> html_is_formatting_element (Tokenizer.tag_name tok) = true ->
  find_formatting (arena s) "a" (active_formatting s) = Some x ->
  let s' := html_adoption_agency_algorithm (parse_error HTML_ERROR_INVALID_NESTING s) tok in
  Inv (remove_open x (with_formatting (remove_formatting x (active_formatting s')) s')).
Proof.
  intros HI Hf Hx s'.
  destruct (Inv_adoption_agency (parse_error HTML_ERROR_INVALID_NESTING s) tok)
    as (HI' & _ & Hk); [by apply Inv_parse_error|done|]. fold s' in HI', Hk.
  apply find_formatting_spec in Hx as [Hx _].
  pose proof (inv_fmt _ HI _ (last_segment_elem _ _ Hx)) as Hfx.
  apply Inv_remove_open; [by apply Inv_remove_formatting|].
  change (is_me (arena s') x = false).
  rewrite (is_me_keeps (arena s) (arena s')); [by apply fmt_node_not_me|done|].
  by apply fmt_node_bound.
Qed.

Lemma Inv_in_body_start s tok :
  Inv s -> early_mode (mode s) = false -> Inv (in_body_start s tok).
Proof.
  intros HI Hlate. unfold in_body_start. cbv zeta.
  top_if H1. { by apply Inv_in_body_start_html. }
  top_if H2. { by apply Inv_in_head_content. }
  top_if H3.
  { destruct (body (document (parse_error HTML_ERROR_UNEXPECTED_TOKEN s))) as [b|] eqn:Eb;
      [|by apply Inv_parse_error].
    top_if Hb; [|by apply Inv_parse_error].
    apply Inv_merge_attributes; [by apply Inv_parse_error|].
    pose proof (inv_body _ HI b Eb) as Hr. psimpl. by rewrite Hr. }
  top_if H4.
  { apply Inv_html_insert_element; [by apply Inv_close_p_if_in_button_scope|].
    by apply (mem_not_me block_start_tags). }
  top_if H5.
  { apply Inv_html_insert_element; [|by apply heading_not_me].
    pose proof (Inv_close_p_if_in_button_scope s HI) as HI1.
    destruct (is_heading (current_tag (close_p_if_in_button_scope s))) eqn:Eh; [|done].
    apply Inv_pop_open; [by apply Inv_parse_error|].
    exact (heading_not_me _ Eh). }
  top_if H6.
  { apply Inv_html_insert_element; [by apply Inv_close_p_if_in_button_scope|].
    by apply (mem_not_me ["pre"; "listing"]). }
  top_if H7.
  { apply bool_decide_eq_true in H7.
    destruct (form_element s) eqn:Ef; [by apply Inv_parse_error|].
    apply Inv_with_form_element.
    - apply Inv_html_insert_element; [by apply Inv_close_p_if_in_button_scope|].
      by rewrite H7.
    - intros x [= <-]. unfold html_insert_element.
      by rewrite tag_of_insert_element_new. }
  top_if H8.
  { apply bool_decide_eq_true in H8.
    apply Inv_html_insert_element; [|by rewrite H8].
    apply Inv_close_p_if_in_button_scope, Inv_close_list_item; [done|].
    intros t Ht. by apply (mem_not_me ["li"]). }
  top_if H9.
  { apply Inv_html_insert_element; [|by apply (mem_not_me ["dd"; "dt"])].
    apply Inv_close_p_if_in_button_scope, Inv_close_list_item; [done|].
    intros t Ht. by apply (mem_not_me ["dd"; "dt"]). }
  top_if H10.
  { apply bool_decide_eq_true in H10.
    apply Inv_html_insert_element; [|by rewrite H10]. apply Inv_reconstruct.
    destruct (has_element_in_scope s "button") eqn:Es; [|done].
    apply (Inv_close_after_implied (parse_error HTML_ERROR_INVALID_NESTING s)
             "button" "" default_scope_boundary);
      [by apply Inv_parse_error|apply default_boundary_ok|exact Es|done|by left]. }
  top_if H11.
  { apply bool_decide_eq_true in H11.
    assert (html_is_formatting_element (Tokenizer.tag_name tok) = true) as Hf
      by by rewrite H11.
    destruct (find_formatting (arena s) "a" (active_formatting s)) as [x|] eqn:Ex.
    - apply Inv_insert_formatting_element; [|done|].
      + by apply Inv_reconstruct, Inv_close_open_a.
      + rewrite mode_reconstruct.
        apply (late_frame s); [|done].
        eapply frame_trans; [apply (frame_parse_error HTML_ERROR_INVALID_NESTING)|].
        eapply frame_trans; [apply frame_adoption_agency|].
        eapply frame_trans; [apply frame_with_formatting|apply frame_remove_open].
    - apply Inv_insert_formatting_element; [by apply Inv_reconstruct|done|].
      by rewrite mode_reconstruct. }
  top_if H12.
  { apply bool_decide_eq_true in H12.
    assert (html_is_formatting_element (Tokenizer.tag_name tok) = true) as Hf
      by by rewrite H12.
    pose proof (Inv_reconstruct s HI) as HI1.
    assert (early_mode (mode (html_reconstruct_formatting s)) = false) as Hl1
      by by rewrite mode_reconstruct.
    destruct (has_element_in_scope (html_reconstruct_formatting s) "nobr").
    - destruct (Inv_adoption_agency
                  (parse_error HTML_ERROR_INVALID_NESTING (html_reconstruct_formatting s))
                  tok) as (HI2 & Hm2 & _); [by apply Inv_parse_error|done|].
      apply Inv_insert_formatting_element; [by apply Inv_reconstruct|done|].
      by rewrite mode_reconstruct, Hm2.
    - by apply Inv_insert_formatting_element. }
  top_if H13.
  { apply Inv_insert_formatting_element; [by apply Inv_reconstruct|done|].
    by rewrite mode_reconstruct. }
  top_if H14.
  { apply Inv_insert_marker_element; [by apply Inv_reconstruct|done|].
    by rewrite mode_reconstruct. }
  top_if H15. { apply Inv_html_insert_element; [by apply Inv_reconstruct|done]. }
  top_if H16. { by apply Inv_html_insert_element. }
  top_if H17. { apply Inv_html_insert_element; [by apply Inv_close_p_if_in_button_scope|done]. }
  top_if H18.
  { apply Inv_insert_element; [|done]. by apply Inv_reconstruct, Inv_parse_error. }
  top_if H19. { by apply Inv_parse_error. }
  apply Inv_html_insert_element; [by apply Inv_reconstruct|done].
Qed.

Lemma implied_not_heading t : is_implied_end_tag t = true -> is_heading t = false.
Proof. intros H. tag_cases H; reflexivity. Qed.

Lemma p_in_button_scope_after_insert s :
  has_element_in_button_scope (insert_element s "p" []) "p" = true.
Proof.
  unfold has_element_in_button_scope. rewrite open_insert_element.
  change (html_is_void_element "p") with false. cbn [has_in_scope].
  unfold has_tag at 1. rewrite tag_of_insert_element_new.
  by rewrite bool_decide_eq_true_2.
Qed.

Lemma Inv_in_body_end s tok :
  Inv s -> early_mode (mode s) = false -> Inv (in_body_end s tok).
Proof.
  intros HI Hlate. unfold in_body_end. cbv zeta.
  pose proof (Inv_parse_error s HTML_ERROR_UNEXPECTED_TOKEN HI) as HIu.
  top_if H1. { top_if Hs; [by apply Inv_with_mode_late|done]. }
  top_if H2. { top_if Hs; [by apply Inv_with_mode_late|done]. }
  top_if H3.
  { top_if Hs; [|done].
    destruct (Inv_close_after_implied s (Tokenizer.tag_name tok) ""
                default_scope_boundary) as [Ha Hb];
      [done|apply default_boundary_ok|exact Hs|by apply (mem_not_me block_end_tags)| |].
    { left. apply negb_true_iff.
      exact (mem_forall (fun x => negb (is_implied_end_tag x)) block_end_tags _ H3
               eq_refl). }
    match goal with
    | |- context [bool_decide (current_tag ?x = ?y)] =>
        by destruct (bool_decide (current_tag x = y))
    end. }
  top_if H4.
  { destruct (form_element s) as [node|] eqn:Ef; [|done].
    assert (Inv (with_form_element None s)) as HI1
      by (apply Inv_with_form_element; [done|discriminate]).
    top_if Hs; [|by apply Inv_parse_error].
    apply Inv_remove_open; [by apply Inv_generate_implied_end_tags|].
    change (is_me (arena s) node = false). unfold is_me.
    by rewrite (inv_form _ HI node Ef). }
  top_if H5.
  { top_if Hs; [by apply Inv_close_p_element|].
    apply Inv_close_p_element; [by apply Inv_insert_element|].
    apply p_in_button_scope_after_insert. }
  top_if H6.
  { top_if Hs; [|done].
    apply (Inv_close_after_implied s "li" "li" list_item_scope_boundary);
      [done|apply list_item_boundary_ok|exact Hs|done|by right]. }
  top_if H7.
  { top_if Hs; [|done].
    apply (Inv_close_after_implied s _ _ default_scope_boundary);
      [done|apply default_boundary_ok|exact Hs|by apply (mem_not_me ["dd"; "dt"])
      |by right]. }
  top_if H8.
  { top_if Hs; [|done].
    apply (Inv_pop_until_scope _ _ default_scope_boundary);
      [by apply Inv_generate_implied_end_tags|apply default_boundary_ok| |].
    - apply has_in_scope_implied; [exact Hs|].
      intros x Hx _. by apply implied_not_heading.
    - intros x Hx. by apply heading_not_me. }
  top_if H9. { by apply Inv_adoption_agency. }
  top_if H10. { top_if Hs; [by apply Inv_close_marker|done]. }
  top_if H11. { apply Inv_insert_element; [by apply Inv_reconstruct|done]. }
  by apply Inv_any_other_end_tag.
Qed.

Lemma Inv_in_body s tok : Inv s -> early_mode (mode s) = false -> Inv (in_body s tok).
Proof.
  intros HI Hlate. unfold in_body. destruct (Tokenizer.type tok).
  - by apply Inv_parse_error.
  - by apply Inv_in_body_start.
  - by apply Inv_in_body_end.
  - by apply Inv_in_body_start.
  - by apply Inv_insert_comment.
  - by apply Inv_insert_text, Inv_reconstruct.
  - done.
Qed.

(** *** The modes before the body *)

Lemma start_tag_in_mem tok l :
  start_tag_in tok l = true -> mem (Tokenizer.tag_name tok) l = true.
Proof. unfold start_tag_in. intros H. by apply andb_true_iff in H as [_ H]. Qed.

Lemma start_tag_in_single tok t :
  start_tag_in tok [t] = true -> Tokenizer.tag_name tok = t.
Proof.
  intros H. apply start_tag_in_mem in H. unfold mem in H.
  apply bool_decide_eq_true in H. by apply list_elem_of_singleton in H.
Qed.

Lemma Inv_insert_at_document s n :
  Inv s -> child_nodes n = [] -> Inv (insert_node_at document_node n s).
Proof.
  intros HI Hn. destruct (inv_doc _ HI) as [Hd0 Hd1].
  apply Inv_insert_node_at; [done|done|by rewrite Hd0|done].
Qed.

Lemma Inv_insert_body s tok :
  Inv s -> Tokenizer.tag_name tok = "body" -> Inv (insert_body s tok).
Proof.
  intros HI Ht. unfold insert_body. cbv zeta.
  assert (Inv (html_insert_element s tok)) as HI1
    by (apply Inv_html_insert_element; [done|by rewrite Ht]).
  apply Inv_with_mode_late; [|done].
  apply Inv_with_refs; [done|apply (inv_root _ HI1)|].
  intros x [= <-]. unfold html_insert_element.
  by rewrite tag_of_insert_element_new.
Qed.

Lemma Inv_insert_head s tok :
  Inv s -> active_formatting s = [] -> Tokenizer.tag_name tok = "head" ->
  Inv (insert_head s tok).
Proof.
  intros HI Haf Ht. unfold insert_head. cbv zeta.
  assert (Inv (html_insert_element s tok)) as HI1
    by (apply Inv_html_insert_element; [done|by rewrite Ht]).
  assert (tag_of (arena (html_insert_element s tok)) (length (arena s)) = "head") as Hh.
  { unfold html_insert_element. by rewrite tag_of_insert_element_new. }
  apply Inv_with_mode.
  - apply Inv_with_head_element.
    + apply Inv_with_refs; [done|apply (inv_root _ HI1)|apply (inv_body _ HI1)].
    + by intros x [= <-].
  - intros _. psimpl. unfold html_insert_element.
    by rewrite formatting_insert_element.
Qed.

Lemma Inv_insert_html s tok :
  Inv s -> active_formatting s = [] -> Inv (insert_html s tok).
Proof.
  intros HI Haf. unfold insert_html. cbv zeta.
  set (s1 := insert_node_at document_node
               (element_node "html" (Tokenizer.attributes tok)) s).
  assert (Inv s1) as HI1 by by apply Inv_insert_at_document.
  assert (tag_of (arena s1) (length (arena s)) = "html") as Hh
    by apply tag_of_insert_new.
  assert (Inv (with_open [length (arena s)] s1)) as HI2.
  { change (with_open [length (arena s)] s1)
      with (with_formatting (active_formatting s1) (with_open [length (arena s)] s1)).
    apply Inv_set_lists; [done| | |apply (inv_fmt _ HI1)|done| |apply (inv_ark _ HI1)].
    - intros x Hx. apply list_elem_of_singleton in Hx as ->.
      unfold s1. rewrite length_insert_node_at. lia.
    - intros x Hx. apply list_elem_of_singleton in Hx as ->. by rewrite Hh.
    - change (active_formatting s1) with (active_formatting s). rewrite Haf.
      split.
      + rewrite count_me_cons. unfold is_me. by rewrite Hh.
      + intros x k k' Hx. inversion Hx. }
  apply Inv_with_mode; [|done].
  apply Inv_with_refs; [done| |apply (inv_body _ HI2)].
  by intros x [= <-].
Qed.

(** The head element is put back on the stack for a start tag of the head
    that comes after it. *)
Lemma Inv_after_head_content s tok h :
  Inv s -> active_formatting s = [] -> head_element s = Some h ->
  mem (Tokenizer.tag_name tok) head_content_tags = true ->
  Inv (remove_open h
         (in_head_content
            (with_open (h :: open_elements (parse_error HTML_ERROR_UNEXPECTED_TOKEN s))
                       (parse_error HTML_ERROR_UNEXPECTED_TOKEN s)) tok)).
Proof.
  intros HI Haf Hh Hm.
  pose proof (inv_head _ HI h Hh) as Ht.
  assert (h < length (arena s)) as Hb by (apply tag_of_Some; by rewrite Ht).
  set (s1 := parse_error HTML_ERROR_UNEXPECTED_TOKEN s).
  assert (Inv (with_open (h :: open_elements s1) s1)) as HI1.
  { apply Inv_push_open; [by apply Inv_parse_error|done| | |].
    - change (arena s1) with (arena s). by rewrite Ht.
    - change (arena s1) with (arena s). unfold is_me. by rewrite Ht.
    - change (active_formatting s1) with (active_formatting s). rewrite Haf.
      apply not_elem_of_nil. }
  apply Inv_remove_open; [by apply Inv_in_head_content|].
  unfold in_head_content, html_insert_element, is_me.
  rewrite tag_of_insert_element_old; [|done].
  change (arena (with_open (h :: open_elements s1) s1)) with (arena s).
  by rewrite Ht.
Qed.

Lemma Inv_after_head s tok :
  Inv s -> early_mode (mode s) = true -> Inv (after_head s tok).
Proof.
  intros HI He. pose proof (inv_early _ HI He) as Haf.
  unfold after_head.
  top_if Hw; [by apply Inv_insert_text|].
  destruct (Tokenizer.type tok);
    try (by apply Inv_insert_comment); try (by apply Inv_parse_error).
  all: top_if H1; [by apply Inv_in_body_start_html|].
  all: top_if H2; [by apply Inv_insert_body, start_tag_in_single|].
  all: top_if H3;
    [destruct (head_element s) as [h|] eqn:Eh; [|by apply Inv_parse_error];
     by apply Inv_after_head_content; [| | |apply start_tag_in_mem]|].
  all: top_if H4; [by apply Inv_parse_error|].
  all: apply Inv_in_body; [by apply Inv_insert_body|done].
Qed.

Lemma Inv_in_head s tok :
  Inv s -> early_mode (mode s) = true -> Inv (in_head s tok).
Proof.
  intros HI He. pose proof (inv_early _ HI He) as Haf.
  assert (Inv (with_mode MODE_AFTER_HEAD (pop_open s))) as HI1.
  { apply Inv_with_mode; [|done]. apply Inv_pop_open; [done|].
    by apply early_current_not_me. }
  unfold in_head.
  top_if Hw; [by apply Inv_insert_text|].
  destruct (Tokenizer.type tok);
    try (by apply Inv_insert_comment); try (by apply Inv_parse_error).
  all: top_if H1; [by apply Inv_in_body_start_html|].
  all: top_if H2; [by apply Inv_in_head_content, start_tag_in_mem|].
  all: top_if H3; [done|].
  all: top_if H4; [by apply Inv_parse_error|].
  all: by apply Inv_after_head.
Qed.

Lemma Inv_before_head s tok :
  Inv s -> early_mode (mode s) = true -> Inv (before_head s tok).
Proof.
  intros HI He. pose proof (inv_early _ HI He) as Haf.
  unfold before_head.
  top_if Hw; [done|].
  destruct (Tokenizer.type tok);
    try (by apply Inv_insert_comment); try (by apply Inv_parse_error).
  all: top_if H1; [by apply Inv_in_body_start_html|].
  all: top_if H2; [by apply Inv_insert_head; [| |apply start_tag_in_single]|].
  all: top_if H3; [by apply Inv_parse_error|].
  all: apply Inv_in_head; [by apply Inv_insert_head|done].
Qed.

Lemma Inv_before_html s tok :
  Inv s -> early_mode (mode s) = true -> Inv (before_html s tok).
Proof.
  intros HI He. pose proof (inv_early _ HI He) as Haf.
  unfold before_html.
  top_if Hw; [done|].
  destruct (Tokenizer.type tok);
    try (by apply Inv_insert_at_document); try (by apply Inv_parse_error).
  all: top_if H1; [by apply Inv_insert_html|].
  all: top_if H2; [by apply Inv_parse_error|].
  all: apply Inv_before_head; [by apply Inv_insert_html|done].
Qed.

Lemma Inv_initial s tok :
  Inv s -> early_mode (mode s) = true -> Inv (initial s tok).
Proof.
  intros HI He. pose proof (inv_early _ HI He) as Haf.
  unfold initial.
  top_if Hw; [done|].
  destruct (Tokenizer.type tok); try (by apply Inv_insert_at_document).
  1: by apply Inv_with_mode; [apply Inv_insert_at_document|].
  all: apply Inv_before_html; [by apply Inv_with_mode|done].
Qed.

(** *** The modes after the body *)

Lemma Inv_insert_at_bottom s n :
  Inv s -> child_nodes n = [] ->
  Inv (insert_node_at (default document_node (bottom_node s)) n s).
Proof.
  intros HI Hn. destruct (bottom_node s) as [x|] eqn:Eb; simpl.
  - destruct (bottom_node_ok s x HI Eb) as [H1 H2]. by apply Inv_insert_node_at.
  - by apply Inv_insert_at_document.
Qed.

Lemma Inv_after_body s tok :
  Inv s -> early_mode (mode s) = false -> Inv (after_body s tok).
Proof.
  intros HI Hl. unfold after_body.
  top_if Hw; [by apply Inv_in_body|].
  destruct (Tokenizer.type tok);
    try (by apply Inv_insert_at_bottom); try (by apply Inv_parse_error); try done.
  all: top_if H1; [by apply Inv_in_body|].
  all: top_if H2; [by apply Inv_with_mode_late|].
  all: apply Inv_in_body; [|done].
  all: by apply Inv_with_mode_late; [apply Inv_parse_error|].
Qed.

Lemma Inv_after_after_body s tok :
  Inv s -> early_mode (mode s) = false -> Inv (after_after_body s tok).
Proof.
  intros HI Hl. unfold after_after_body.
  top_if Hw; [by apply Inv_in_body|].
  destruct (Tokenizer.type tok);
    try (by apply Inv_insert_at_document); try (by apply Inv_in_body); try done.
  all: top_if H1; [by apply Inv_in_body|].
  all: apply Inv_in_body; [|done].
  all: by apply Inv_with_mode_late; [apply Inv_parse_error|].
Qed.

(** *** Every token *)

Lemma Inv_mode_dispatch s tok : Inv s -> Inv (mode_dispatch s tok).
Proof.
  intros HI. unfold mode_dispatch. destruct (mode s) eqn:Em.
  - apply Inv_initial; [done|by rewrite Em].
  - apply Inv_before_html; [done|by rewrite Em].
  - apply Inv_before_head; [done|by rewrite Em].
  - apply Inv_in_head; [done|by rewrite Em].
  - apply Inv_after_head; [done|by rewrite Em].
  - apply Inv_in_body; [done|by rewrite Em].
  - apply Inv_after_body; [done|by rewrite Em].
  - apply Inv_after_after_body; [done|by rewrite Em].
  - apply Inv_in_body; [done|by rewrite Em].
  - apply Inv_in_body; [done|by rewrite Em].
  - apply Inv_in_body; [done|by rewrite Em].
  - apply Inv_in_body; [done|by rewrite Em].
  - apply Inv_in_body; [done|by rewrite Em].
  - apply Inv_in_body; [done|by rewrite Em].
  - apply Inv_in_body; [done|by rewrite Em].
  - apply Inv_in_body; [done|by rewrite Em].
Qed.

Lemma Inv_text_rules s tok :
  Inv s -> is_raw_text_element (current_tag s) = true -> Inv (text_rules s tok).
Proof.
  intros HI Hr. pose proof (raw_text_not_me _ Hr) as Hme.
  unfold text_rules. destruct (Tokenizer.type tok); try (by apply Inv_parse_error).
  - top_if H1; [by apply Inv_pop_open|].
    apply Inv_pop_open; [by apply Inv_parse_error|done].
  - by apply Inv_insert_text.
  - apply Inv_mode_dispatch, Inv_pop_open; [by apply Inv_parse_error|done].
Qed.

Lemma Inv_process_one s tok : Inv s -> Inv (process_one s tok).
Proof.
  intros HI. unfold process_one.
  set (s1 := match Tokenizer.type tok with
             | TOKEN_SELF_CLOSING_TAG => _
             | _ => s
             end).
  assert (Inv s1) as HI1.
  { unfold s1. destruct (Tokenizer.type tok); try done.
    top_if Hv; [done|by apply Inv_parse_error]. }
  clearbody s1. cbv zeta.
  top_if Hr; [by apply Inv_text_rules|by apply Inv_mode_dispatch].
Qed.

Lemma Inv_process_chars cs tok_of : forall s,
  Inv s ->
  Inv (fold_left (fun s (c : ascii) => process_one s (tok_of c)) cs s).
Proof.
  induction cs as [|c cs IH]; intros s HI; simpl; [done|].
  by apply IH, Inv_process_one.
Qed.

Lemma Inv_process_token s tok : Inv s -> Inv (html_process_token s tok).
Proof.
  intros HI. unfold html_process_token.
  destruct (Tokenizer.type tok); try (by apply Inv_process_one).
  by apply (Inv_process_chars _ (fun c => Tokenizer.char_token (Tokenizer.str c))).
Qed.

Lemma Inv_reset p fragment : Inv (reset_parser p fragment).
Proof.
  constructor; try done.
  - split; [reflexivity|]. simpl. unfold arena. simpl. lia.
  - intros x Hx. inversion Hx.
  - intros x Hx. inversion Hx.
  - intros x Hx. inversion Hx.
  - intros i. unfold arena, children_of. simpl.
    by destruct i as [|i].
  - split; [done|]. intros x k k' Hx. inversion Hx.
Qed.

Lemma reachable_Inv s : reachable s -> Inv s.
Proof.
  induction 1 as [p fragment|s m Hs IH Hm Hmode Ho|s tok Hs IH|s e Hs IH|s t Hs IH].
  - apply Inv_reset.
  - assert (active_formatting s = []) as Haf by (apply (inv_early _ IH); by rewrite Hm).
    apply Inv_with_mode; [by apply Inv_insert_html|done].
  - by apply Inv_process_token.
  - by apply Inv_parse_error.
  - by apply Inv_with_tokenizer.
Qed.

End HandlerProofs.

(* --------------------------------------------------------------------- *)
(** ** The driver                                                        *)
(* --------------------------------------------------------------------- *)

Module ParseProofs.
Import Tokenizer Dom Parser Outcome Invariants TokenizerProofs InvProofs FrameProofs
       HandlerProofs.

Lemma reachable_parse_errors es : forall s, reachable s -> reachable (parse_errors es s).
Proof.
  unfold parse_errors. induction es as [|e es IH]; intros s H; simpl; [done|].
  by apply IH, reach_error.
Qed.

Lemma parse_loop_reachable fuel : forall s tk,
  reachable s -> reachable (parse_loop fuel s tk).1.
Proof.
  induction fuel as [|fuel IH]; intros s tk H; cbn [parse_loop];
    [by apply reach_tokenizer|].
  destruct (html_tokenizer_next_token tk) as [[tk1 tok] errs].
  assert (reachable (html_process_token (parse_errors errs s) tok)) as H1
    by by apply reach_token, reachable_parse_errors.
  destruct (type tok); try (by apply IH).
  by apply reach_tokenizer.
Qed.

Lemma parse_state_reachable p input len fuel : reachable (parse_state p input len fuel).
Proof. apply parse_loop_reachable, reach_reset. Qed.

Lemma fragment_state_reachable p input len body_mode st fuel :
  reachable (fragment_state p input len body_mode st fuel).
Proof.
  apply parse_loop_reachable, reach_fragment; [apply reach_reset|done| |done].
  destruct body_mode; [by right|by left].
Qed.

(** The raw-text switch leaves the input and its position alone and puts
    the tokenizer in a content state. *)
Lemma calls_left_switch s tok tk :
  content_state (state tk) = true ->
  calls_left (switch_tokenizer s tok tk) = calls_left tk.
Proof.
  intros Hc. unfold switch_tokenizer, calls_left, remaining.
  destruct (is_start_tag tok && _); [|done].
  repeat case_bool_decide; simpl; by rewrite ?Hc.
Qed.

(** With more fuel than [calls_left], the loop reaches [TOKEN_EOF]. *)
Lemma parse_loop_complete fuel : forall s tk,
  calls_left tk < fuel -> (parse_loop fuel s tk).2 = true.
Proof.
  induction fuel as [|fuel IH]; intros s tk Hf; [lia|]. cbn [parse_loop].
  pose proof (next_token_progress tk) as Hp.
  destruct (html_tokenizer_next_token tk) as [[tk1 tok] errs].
  destruct Hp as [Hc Hp].
  destruct (type tok) eqn:Et; try done.
  all: destruct Hp as [->|Hlt]; [vm_compute in Et; discriminate Et|].
  all: apply IH; rewrite calls_left_switch; [lia|done].
Qed.

End ParseProofs.

(* --------------------------------------------------------------------- *)
(** ** The html, head and body elements of a document parse              *)
(* --------------------------------------------------------------------- *)

Module RefsProofs.
Import Tokenizer Dom Parser Outcome Invariants TokenizerProofs FrameProofs ParseProofs.

Lemma stage_late m : early_mode m = false <-> stage m = 3.
Proof. by destruct m. Qed.

Lemma refs_ok_frame s s' : frame s s' -> refs_ok s -> refs_ok s'.
Proof. intros (Hm & Hd & Hh & Hb) H. unfold refs_ok. by rewrite Hm, Hd, Hh, Hb. Qed.

Lemma refs_ok_late_step s s' :
  late_step s s' -> early_mode (mode s) = false -> refs_ok s ->
  refs_ok s' /\ early_mode (mode s') = false.
Proof.
  intros (Hl & Hd & Hh & Hb) Hs (H1 & H2 & H3). split; [|done].
  apply stage_late in Hs. unfold refs_ok. rewrite Hd, Hh, Hb.
  split; [|split]; intros _; [apply H1|apply H2|apply H3]; lia.
Qed.

Ltac rtop_if :=
  match goal with
  | |- refs_ok (if ?b then _ else _) => destruct b
  | |- refs_ok (if ?b then _ else _) /\ _ => destruct b
  end.

Ltac by_frame Hf := apply Hf; frame_solve; fail.

Lemma refs_in_body s tok :
  refs_ok s -> early_mode (mode s) = false ->
  refs_ok (in_body s tok) /\ early_mode (mode (in_body s tok)) = false.
Proof. intros HR Hl. by apply (refs_ok_late_step s); [apply late_step_in_body|..]. Qed.

Lemma refs_insert_body s tok :
  refs_ok s -> 2 <= stage (mode s) -> refs_ok (insert_body s tok).
Proof.
  intros (H1 & H2 & H3) Hs. unfold insert_body. cbv zeta.
  destruct (frame_html_insert_element s tok) as (Hm & Hd & Hh & Hb).
  unfold refs_ok. simpl. rewrite Hd, Hh.
  split; [|split]; intros _; [apply H1; lia|apply H2; lia|done].
Qed.

Lemma refs_after_head s tok :
  refs_ok s -> 2 <= stage (mode s) -> refs_ok (after_head s tok).
Proof.
  intros HR Hs. unfold after_head.
  assert (forall s', frame s s' -> refs_ok s') as Hf by (intros; by eapply refs_ok_frame).
  rtop_if; [by_frame Hf|].
  destruct (type tok); try by_frame Hf.
  all: rtop_if; [by_frame Hf|].
  all: rtop_if; [by apply refs_insert_body|].
  all: rtop_if; [by_frame Hf|].
  all: rtop_if; [by_frame Hf|].
  all: by apply refs_in_body; [apply refs_insert_body|].
Qed.

Lemma refs_in_head s tok :
  refs_ok s -> 2 <= stage (mode s) -> refs_ok (in_head s tok).
Proof.
  intros HR Hs. unfold in_head.
  assert (forall s', frame s s' -> refs_ok s') as Hf by (intros; by eapply refs_ok_frame).
  assert (refs_ok (with_mode MODE_AFTER_HEAD (pop_open s))) as HR1.
  { destruct HR as (H1 & H2 & H3). unfold refs_ok. simpl.
    split; [|split]; intros ?; [apply H1|apply H2|]; lia. }
  rtop_if; [by_frame Hf|].
  destruct (type tok); try by_frame Hf.
  all: rtop_if; [by_frame Hf|].
  all: rtop_if; [by_frame Hf|].
  all: rtop_if; [done|].
  all: rtop_if; [by_frame Hf|].
  all: by apply refs_after_head.
Qed.

Lemma refs_insert_head s tok :
  refs_ok s -> 1 <= stage (mode s) -> refs_ok (insert_head s tok).
Proof.
  intros (H1 & H2 & H3) Hs. unfold insert_head. cbv zeta.
  destruct (frame_html_insert_element s tok) as (Hm & Hd & Hh & Hb).
  unfold refs_ok. simpl. rewrite Hd.
  split; [|split]; intros ?; [apply H1; lia|done|lia].
Qed.

Lemma refs_before_head s tok :
  refs_ok s -> 1 <= stage (mode s) -> refs_ok (before_head s tok).
Proof.
  intros HR Hs. unfold before_head.
  assert (forall s', frame s s' -> refs_ok s') as Hf by (intros; by eapply refs_ok_frame).
  rtop_if; [done|].
  destruct (type tok); try by_frame Hf.
  all: rtop_if; [by_frame Hf|].
  all: rtop_if; [by apply refs_insert_head|].
  all: rtop_if; [by_frame Hf|].
  all: by apply refs_in_head; [apply refs_insert_head|].
Qed.

Lemma refs_insert_html s tok : refs_ok (insert_html s tok).
Proof.
  unfold insert_html, refs_ok. simpl. split; [|split]; intros ?; [done|lia|lia].
Qed.

Lemma refs_before_html s tok :
  refs_ok s -> stage (mode s) = 0 -> refs_ok (before_html s tok).
Proof.
  intros HR Hs. unfold before_html.
  assert (forall s', frame s s' -> refs_ok s') as Hf by (intros; by eapply refs_ok_frame).
  rtop_if; [done|].
  destruct (type tok); try by_frame Hf.
  all: rtop_if; [by apply refs_insert_html|].
  all: rtop_if; [by_frame Hf|].
  all: by apply refs_before_head; [apply refs_insert_html|].
Qed.

Lemma refs_initial s tok :
  refs_ok s -> stage (mode s) = 0 -> refs_ok (initial s tok).
Proof.
  intros HR Hs. unfold initial.
  assert (forall s', frame s s' -> refs_ok s') as Hf by (intros; by eapply refs_ok_frame).
  assert (forall s', refs_ok (with_mode MODE_BEFORE_HTML s')) as H0.
  { intros s'. unfold refs_ok. simpl. split; [|split]; intros ?; lia. }
  rtop_if; [done|].
  destruct (type tok); try by_frame Hf; try apply H0.
  all: by apply refs_before_html.
Qed.

Lemma refs_after_body s tok :
  refs_ok s -> early_mode (mode s) = false -> refs_ok (after_body s tok).
Proof.
  intros HR Hl. unfold after_body.
  assert (forall s', frame s s' -> refs_ok s') as Hf by (intros; by eapply refs_ok_frame).
  assert (forall m, early_mode m = false -> refs_ok (with_mode m s)) as Hm.
  { intros m Hm. apply (refs_ok_late_step s); [by unfold late_step|done..]. }
  rtop_if; [by apply refs_in_body|].
  destruct (type tok); try by_frame Hf; try done.
  all: rtop_if; [by apply refs_in_body|].
  all: rtop_if; [by apply Hm|].
  all: apply refs_in_body; [|done].
  all: apply (refs_ok_late_step s); by unfold late_step.
Qed.

Lemma refs_after_after_body s tok :
  refs_ok s -> early_mode (mode s) = false -> refs_ok (after_after_body s tok).
Proof.
  intros HR Hl. unfold after_after_body.
  assert (forall s', frame s s' -> refs_ok s') as Hf by (intros; by eapply refs_ok_frame).
  rtop_if; [by apply refs_in_body|].
  destruct (type tok); try by_frame Hf; try done; try (by apply refs_in_body).
  all: rtop_if; [by apply refs_in_body|].
  all: apply refs_in_body; [|done].
  all: apply (refs_ok_late_step s); by unfold late_step.
Qed.

Lemma refs_mode_dispatch s tok : refs_ok s -> refs_ok (mode_dispatch s tok).
Proof.
  intros HR. unfold mode_dispatch. destruct (mode s) eqn:Em.
  - apply refs_initial; [done|by rewrite Em].
  - apply refs_before_html; [done|by rewrite Em].
  - apply refs_before_head; [done|by rewrite Em].
  - apply refs_in_head; [done|rewrite Em; simpl; lia].
  - apply refs_after_head; [done|rewrite Em; simpl; lia].
  - apply refs_in_body; [done|by rewrite Em].
  - apply refs_after_body; [done|by rewrite Em].
  - apply refs_after_after_body; [done|by rewrite Em].
  - apply refs_in_body; [done|by rewrite Em].
  - apply refs_in_body; [done|by rewrite Em].
  - apply refs_in_body; [done|by rewrite Em].
  - apply refs_in_body; [done|by rewrite Em].
  - apply refs_in_body; [done|by rewrite Em].
  - apply refs_in_body; [done|by rewrite Em].
  - apply refs_in_body; [done|by rewrite Em].
  - apply refs_in_body; [done|by rewrite Em].
Qed.

Lemma refs_process_one s tok : refs_ok s -> refs_ok (process_one s tok).
Proof.
  intros HR. unfold process_one.
  set (s1 := match type tok with
             | TOKEN_SELF_CLOSING_TAG => _
             | _ => s
             end).
  assert (refs_ok s1) as HR1.
  { unfold s1. destruct (type tok); try done.
    rtop_if; [done|]. by apply (refs_ok_frame s); [frame_solve|]. }
  clearbody s1. cbv zeta.
  assert (forall s', frame s1 s' -> refs_ok s') as Hf
    by (intros; by eapply refs_ok_frame).
  rtop_if; [|by apply refs_mode_dispatch].
  unfold text_rules. destruct (type tok); try by_frame Hf.
  apply refs_mode_dispatch. by_frame Hf.
Qed.

Lemma refs_process_token s tok : refs_ok s -> refs_ok (html_process_token s tok).
Proof.
  intros HR. unfold html_process_token.
  destruct (type tok); try (by apply refs_process_one).
  revert s HR. induction (list_ascii_of_string (data tok)) as [|c cs IH];
    intros s HR; simpl; [done|].
  by apply IH, refs_process_one.
Qed.

Lemma refs_parse_errors es : forall s, refs_ok s -> refs_ok (parse_errors es s).
Proof.
  unfold parse_errors. induction es as [|e es IH]; intros s H; simpl; [done|].
  apply IH. by apply (refs_ok_frame s); [frame_solve|].
Qed.

(** *** The end of the input *)

Lemma eof_not_whitespace tok : type tok = TOKEN_EOF -> is_whitespace_token tok = false.
Proof. intros H. unfold is_whitespace_token. by rewrite H. Qed.

Lemma eof_not_start_tag tok l : type tok = TOKEN_EOF -> start_tag_in tok l = false.
Proof. intros H. unfold start_tag_in, is_start_tag. by rewrite H. Qed.

Lemma eof_not_end_tag tok : type tok = TOKEN_EOF -> is_end_tag tok = false.
Proof. intros H. unfold is_end_tag. by rewrite H. Qed.

Lemma in_body_eof s tok : type tok = TOKEN_EOF -> in_body s tok = s.
Proof. intros H. unfold in_body. by rewrite H. Qed.

Lemma after_head_eof s tok :
  type tok = TOKEN_EOF -> after_head s tok = insert_body s (start_tag "body").
Proof.
  intros H. unfold after_head.
  rewrite (eof_not_whitespace _ H), !(eof_not_start_tag _ _ H), (eof_not_end_tag _ H), H.
  simpl. by apply in_body_eof.
Qed.

Lemma in_head_eof s tok :
  type tok = TOKEN_EOF ->
  in_head s tok = after_head (with_mode MODE_AFTER_HEAD (pop_open s)) tok.
Proof.
  intros H. unfold in_head, end_tag_in.
  rewrite (eof_not_whitespace _ H), !(eof_not_start_tag _ _ H), (eof_not_end_tag _ H), H.
  done.
Qed.

Lemma before_head_eof s tok :
  type tok = TOKEN_EOF ->
  before_head s tok = in_head (insert_head s (start_tag "head")) tok.
Proof.
  intros H. unfold before_head.
  rewrite (eof_not_whitespace _ H), !(eof_not_start_tag _ _ H), (eof_not_end_tag _ H), H.
  done.
Qed.

Lemma before_html_eof s tok :
  type tok = TOKEN_EOF ->
  before_html s tok = before_head (insert_html s (start_tag "html")) tok.
Proof.
  intros H. unfold before_html.
  rewrite (eof_not_whitespace _ H), !(eof_not_start_tag _ _ H), (eof_not_end_tag _ H), H.
  done.
Qed.

Lemma initial_eof s tok :
  type tok = TOKEN_EOF -> initial s tok = before_html (with_mode MODE_BEFORE_HTML s) tok.
Proof.
  intros H. unfold initial. by rewrite (eof_not_whitespace _ H), H.
Qed.

Lemma mode_dispatch_eof s tok :
  type tok = TOKEN_EOF -> early_mode (mode (mode_dispatch s tok)) = false.
Proof.
  intros H. unfold mode_dispatch.
  destruct (mode s) eqn:Em;
    rewrite ?(initial_eof _ _ H), ?(before_html_eof _ _ H), ?(before_head_eof _ _ H),
      ?(in_head_eof _ _ H), ?(after_head_eof _ _ H), ?(in_body_eof _ _ H);
    try done; try (by rewrite Em).
  - unfold after_body. by rewrite (eof_not_whitespace _ H), H, Em.
  - unfold after_after_body. by rewrite (eof_not_whitespace _ H), H, Em.
Qed.

Lemma process_token_eof s tok :
  type tok = TOKEN_EOF -> early_mode (mode (html_process_token s tok)) = false.
Proof.
  intros H. unfold html_process_token, process_one. rewrite H.
  destruct (is_raw_text_element (current_tag s)).
  - unfold text_rules. rewrite H. by apply mode_dispatch_eof.
  - by apply mode_dispatch_eof.
Qed.

(** A document parse that reaches [TOKEN_EOF] ends after the head, with
    all three elements. *)
Lemma parse_loop_refs fuel : forall s tk,
  refs_ok s -> (parse_loop fuel s tk).2 = true ->
  refs_ok (parse_loop fuel s tk).1 /\ early_mode (mode (parse_loop fuel s tk).1) = false.
Proof.
  induction fuel as [|fuel IH]; intros s tk HR; cbn [parse_loop]; [done|].
  destruct (html_tokenizer_next_token tk) as [[tk1 tok] errs].
  assert (refs_ok (html_process_token (parse_errors errs s) tok)) as HR1
    by by apply refs_process_token, refs_parse_errors.
  destruct (type tok) eqn:Et; try (by apply IH).
  intros _. cbn [fst]. split.
  - by apply (refs_ok_frame (html_process_token (parse_errors errs s) tok)).
  - by apply process_token_eof.
Qed.

Lemma refs_reset p fragment : refs_ok (reset_parser p fragment).
Proof. unfold refs_ok. simpl. split; [|split]; intros ?; lia. Qed.

End RefsProofs.

(* --------------------------------------------------------------------- *)
(** ** The skeleton of a document without tags and text                  *)
(* --------------------------------------------------------------------- *)

Module SkeletonProofs.
Import Dom Parser Outcome Invariants TokenizerProofs ArenaProofs InvProofs
       FrameProofs ParseProofs RefsProofs.

(** A new node, appended to the arena, becomes the last child of [p]. *)
Lemma append_fresh a n p :
  p < length a -> parent_node n = None ->
  append_child (a ++ [n]) p (length a)
  = alter (add_child (length a)) p a ++ [set_parent (Some p) n].
Proof.
  intros Hp Hn. unfold append_child, detach.
  rewrite list_lookup_middle by done. rewrite Hn.
  rewrite alter_app_l by done.
  rewrite <- (length_alter (add_child (length a)) a p) at 1.
  rewrite <- (Nat.add_0_r (length (alter _ p a))), alter_app_r. done.
Qed.

Lemma alter_last {A} (f : A -> A) (l : list A) x :
  alter f (length l) (l ++ [x]) = l ++ [f x].
Proof. by rewrite <- (Nat.add_0_r (length l)), alter_app_r. Qed.

Lemma skeleton_arena a :
  0 < length a ->
  let a1 := append_child (a ++ [element_node "html" []]) document_node (length a) in
  let a2 := append_child (a1 ++ [element_node "head" []]) (length a) (length a1) in
  append_child (a2 ++ [element_node "body" []]) (length a) (length a2) = with_skeleton a.
Proof.
  intros Ha a1 a2.
  assert (a1 = alter (add_child (length a)) document_node a
               ++ [set_parent (Some document_node) (element_node "html" [])]) as E1
    by by apply append_fresh.
  assert (length a1 = S (length a)) as L1.
  { rewrite E1, length_app, length_alter. simpl. lia. }
  assert (a2 = alter (add_child (length a)) document_node a
               ++ [add_child (S (length a))
                     (set_parent (Some document_node) (element_node "html" []));
                   set_parent (Some (length a)) (element_node "head" [])]) as E2.
  { unfold a2. rewrite append_fresh; [|lia|done]. rewrite L1, E1.
    rewrite <- (length_alter (add_child (length a)) a document_node) at 2.
    rewrite alter_last, <- app_assoc. done. }
  assert (length a2 = S (S (length a))) as L2.
  { rewrite E2, length_app, length_alter. simpl. lia. }
  rewrite append_fresh; [|lia|done]. rewrite L2, E2.
  rewrite <- (length_alter (add_child (length a)) a document_node) at 2.
  change (?l ++ [?x; ?y]) with (l ++ [x] ++ [y]).
  rewrite app_assoc, alter_app_l; [|rewrite length_app; simpl; lia].
  rewrite alter_last, <- !app_assoc. done.
Qed.

Lemma finish_spec s :
  0 < length (arena s) ->
  arena (finish s) = with_skeleton (arena s) /\
  document_element (document (finish s)) = Some (length (arena s)) /\
  head (document (finish s)) = Some (S (length (arena s))) /\
  body (document (finish s)) = Some (S (S (length (arena s)))).
Proof.
  intros Ha. unfold finish.
  set (s1 := insert_html s (start_tag "html")).
  set (s2 := insert_head s1 (start_tag "head")).
  set (s3 := with_mode MODE_AFTER_HEAD (pop_open s2)).
  set (a1 := append_child (arena s ++ [element_node "html" []]) document_node
                          (length (arena s))).
  assert (arena s1 = a1) as E1 by reflexivity.
  assert (length a1 = S (length (arena s))) as L1.
  { unfold a1. rewrite append_fresh by done.
    rewrite length_app, length_alter. simpl. lia. }
  assert (open_elements s1 = [length (arena s)]) as O1 by reflexivity.
  assert (insertion_parent s1 = length (arena s)) as P1 by reflexivity.
  set (a2 := append_child (a1 ++ [element_node "head" []]) (length (arena s)) (length a1)).
  assert (arena s2 = a2) as E2.
  { change (arena s2) with (arena (insert_element s1 "head" [])).
    by rewrite arena_insert_element, P1, E1. }
  assert (length a2 = S (S (length (arena s)))) as L2.
  { unfold a2. rewrite append_fresh; [|lia|done].
    rewrite length_app, length_alter. simpl. lia. }
  assert (open_elements s2 = [length a1; length (arena s)]) as O2.
  { change (open_elements s2) with (open_elements (insert_element s1 "head" [])).
    rewrite open_insert_element, E1, O1. done. }
  assert (arena s3 = a2) as E3 by exact E2.
  assert (insertion_parent s3 = length (arena s)) as P3.
  { unfold insertion_parent, current_node.
    change (open_elements s3) with (tail (open_elements s2)). by rewrite O2. }
  split.
  { change (arena (insert_body s3 (start_tag "body")))
      with (arena (insert_element s3 "body" [])).
    rewrite arena_insert_element, P3, E3. by apply skeleton_arena. }
  split; [|split].
  - change (document_element (document (insert_element s3 "body" []))
            = Some (length (arena s))).
    destruct (frame_insert_element s3 "body" []) as (_ & -> & _).
    change (document_element (document (insert_element s1 "head" []))
            = Some (length (arena s))).
    destruct (frame_insert_element s1 "head" []) as (_ & -> & _). done.
  - change (head (document (insert_element s3 "body" []))
            = Some (S (length (arena s)))).
    destruct (frame_insert_element s3 "body" []) as (_ & _ & -> & _).
    change (Some (length (arena s1)) = Some (S (length (arena s)))).
    by rewrite E1, L1.
  - change (Some (length (arena s3)) = Some (S (S (length (arena s))))).
    by rewrite E3, L2.
Qed.

Lemma with_skeleton_lookup a k :
  with_skeleton a !! (length a + k)
  = [mk_node NODE_ELEMENT "html" "" [] HTML_NAMESPACE (Some document_node)
             [S (length a); S (S (length a))];
     mk_node NODE_ELEMENT "head" "" [] HTML_NAMESPACE (Some (length a)) [];
     mk_node NODE_ELEMENT "body" "" [] HTML_NAMESPACE (Some (length a)) []] !! k.
Proof.
  unfold with_skeleton. rewrite lookup_app_r; rewrite length_alter; [|lia].
  f_equal. lia.
Qed.

Lemma with_skeleton_length a : length (with_skeleton a) = S (S (S (length a))).
Proof. unfold with_skeleton. rewrite length_app, length_alter. simpl. lia. Qed.

(** The tree of the html element is the empty skeleton. *)
Lemma skeleton_subtree d a :
  nodes d = with_skeleton a -> subtree d (length a) = skeleton.
Proof.
  intros Hd. unfold subtree. rewrite Hd, with_skeleton_length.
  pose proof (with_skeleton_lookup a 0) as H0.
  pose proof (with_skeleton_lookup a 1) as H1.
  pose proof (with_skeleton_lookup a 2) as H2.
  rewrite Nat.add_0_r in H0.
  replace (length a + 1) with (S (length a)) in H1 by lia.
  replace (length a + 2) with (S (S (length a))) in H2 by lia.
  cbn [render]. rewrite H0. cbn [lookup list_lookup node_type child_nodes node_name
                                 node_attributes fmap list_fmap].
  cbn [render]. rewrite H1, H2. reflexivity.
Qed.

(** The html element is the last child of the document node. *)
Lemma skeleton_last_child a :
  0 < length a ->
  children_of (with_skeleton a) document_node = children_of a document_node ++ [length a].
Proof.
  intros Ha. unfold children_of, with_skeleton, document_node.
  rewrite lookup_app_l by (rewrite length_alter; lia).
  rewrite list_lookup_alter_eq.
  destruct (a !! 0) as [n|] eqn:En; [done|].
  apply lookup_ge_None in En. lia.
Qed.

Lemma before_html_state_reset p fragment : before_html_state (reset_parser p fragment).
Proof. unfold before_html_state, arena. simpl. repeat split; lia. Qed.

Lemma before_html_state_errors es : forall s,
  before_html_state s -> before_html_state (parse_errors es s).
Proof.
  unfold parse_errors. induction es as [|e es IH]; intros s H; simpl; [done|].
  by apply IH.
Qed.

Lemma before_html_state_insert s n :
  before_html_state s -> before_html_state (insert_node_at document_node n s).
Proof.
  intros (Hm & Ho & Ha). split; [done|]. split; [done|].
  rewrite length_insert_node_at. lia.
Qed.

Lemma not_raw_text s :
  open_elements s = [] -> is_raw_text_element (current_tag s) = false.
Proof. intros H. unfold current_tag, current_node. by rewrite H. Qed.

(** Comments and doctypes leave the parser before the html element. *)
Lemma before_html_state_token s tok :
  before_html_state s ->
  Tokenizer.type tok = TOKEN_COMMENT \/ Tokenizer.type tok = TOKEN_DOCTYPE ->
  before_html_state (html_process_token s tok).
Proof.
  intros Hs Ht. pose proof Hs as (Hm & Ho & Ha).
  assert (is_whitespace_token tok = false) as Hw
    by (unfold is_whitespace_token; by destruct Ht as [-> | ->]).
  assert (html_process_token s tok = mode_dispatch s tok) as ->.
  { unfold html_process_token, process_one.
    destruct Ht as [-> | ->]; by rewrite (not_raw_text s Ho). }
  unfold mode_dispatch. destruct (mode s) eqn:Em; try discriminate Hm.
  - unfold initial. rewrite Hw.
    destruct Ht as [-> | ->]; [by apply before_html_state_insert|].
    by apply (before_html_state_insert
                (with_mode MODE_BEFORE_HTML s) (doctype_node (Tokenizer.tag_name tok))).
  - unfold before_html. rewrite Hw.
    destruct Ht as [-> | ->]; [by apply before_html_state_insert|done].
Qed.

(** The end of the input makes the skeleton. *)
Lemma before_html_state_eof s tok :
  before_html_state s -> Tokenizer.type tok = TOKEN_EOF ->
  exists s0, arena s0 = arena s /\ html_process_token s tok = finish s0.
Proof.
  intros (Hm & Ho & Ha) Ht.
  assert (html_process_token s tok = mode_dispatch s tok) as ->.
  { unfold html_process_token, process_one. by rewrite Ht, (not_raw_text s Ho). }
  unfold mode_dispatch. destruct (mode s) eqn:Em; try discriminate Hm.
  - exists (with_mode MODE_BEFORE_HTML s). split; [done|].
    by rewrite (initial_eof _ _ Ht), (before_html_eof _ _ Ht), (before_head_eof _ _ Ht),
      (in_head_eof _ _ Ht), (after_head_eof _ _ Ht).
  - exists s. split; [done|].
    by rewrite (before_html_eof _ _ Ht), (before_head_eof _ _ Ht),
      (in_head_eof _ _ Ht), (after_head_eof _ _ Ht).
Qed.

(** A document parse whose tokens are comments and doctypes only ends with
    the steps of [finish]. *)
Lemma parse_loop_quiet fuel : forall s tk,
  before_html_state s ->
  existsb content_token (Tokenizer.tokens fuel tk) = false ->
  (parse_loop fuel s tk).2 = true ->
  exists s0, 0 < length (arena s0) /\
             document (parse_loop fuel s tk).1 = document (finish s0).
Proof.
  induction fuel as [|fuel IH]; intros s tk Hs; [discriminate|].
  rewrite tokens_S. cbn [parse_loop].
  destruct (Tokenizer.html_tokenizer_next_token tk) as [[tk1 tok] errs]. cbn [fst snd].
  pose proof (before_html_state_errors errs s Hs) as Hs1.
  destruct (Tokenizer.type tok) eqn:Et; cbn [existsb]; unfold content_token at 1;
    rewrite Et; try discriminate; cbn [orb]; intros Hq Hc.
  - assert (switch_tokenizer (html_process_token (parse_errors errs s) tok) tok tk1 = tk1)
      as Hsw by (unfold switch_tokenizer, is_start_tag; by rewrite Et).
    rewrite Hsw in *. apply IH; [|done|done].
    apply before_html_state_token; [done|by right].
  - assert (switch_tokenizer (html_process_token (parse_errors errs s) tok) tok tk1 = tk1)
      as Hsw by (unfold switch_tokenizer, is_start_tag; by rewrite Et).
    rewrite Hsw in *. apply IH; [|done|done].
    apply before_html_state_token; [done|by left].
  - destruct (before_html_state_eof _ tok Hs1 Et) as (s0 & Ha & Hp).
    exists s0. split; [rewrite Ha; apply Hs1|]. cbn [fst]. by rewrite <- Hp.
Qed.

(** The document of an input without tags and text ends with the empty
    skeleton. *)
Lemma quiet_document p input len :
  input_stream input len <> [] ->
  existsb content_token
    (Tokenizer.tokens (Tokenizer.enough_calls (Tokenizer.html_tokenizer_create input len))
                      (Tokenizer.html_tokenizer_create input len)) = false ->
  exists d h, (html_parse p input len).2 = Some d /\
              document_element d = Some h /\ subtree d h = skeleton /\
              last (children_of (nodes d) document_node) = Some h.
Proof.
  intros Hne Hq. unfold html_parse.
  destruct (input_stream input len) as [|c cs]; [done|]. cbn [snd fst].
  set (tk := Tokenizer.html_tokenizer_create input len) in *.
  destruct (parse_loop_quiet (Tokenizer.enough_calls tk) (reset_parser p false) tk)
    as (s0 & Ha & Hd);
    [apply before_html_state_reset|done|apply parse_loop_complete, calls_left_enough|].
  destruct (finish_spec s0 Ha) as (H1 & H2 & _).
  eexists _, (length (arena s0)). split; [done|]. rewrite Hd.
  split; [done|]. split; [by apply skeleton_subtree|].
  change (nodes (document (finish s0))) with (arena (finish s0)).
  rewrite H1, skeleton_last_child by done. by rewrite last_snoc.
Qed.

End SkeletonProofs.

(* --------------------------------------------------------------------- *)
(** ** The parser as the specification describes it                      *)
(* --------------------------------------------------------------------- *)

Module ParserClaims.
Import Tokenizer Dom Parser Outcome Invariants TokenizerProofs ArenaProofs ArkProofs
       InvProofs HandlerProofs ParseProofs RefsProofs SkeletonProofs.

Lemma ark_keys_suffix l1 : forall l2, ark_keys (l1 ++ l2) -> ark_keys l2.
Proof.
  induction l1 as [|[k|] l1 IH]; intros l2 H; simpl in H; [done| |by apply IH].
  destruct H as [_ H]. by apply IH.
Qed.

Lemma ark_drop a af n x :
  ark a af -> count_matching (same_element a x) (last_segment (drop n af)) <= 3.
Proof.
  intros H. unfold ark in H. rewrite <- (take_drop n af), keys_app in H.
  apply ark_keys_suffix in H.
  rewrite count_matching_keys, <- last_segment_keys. by apply ark_count.
Qed.

Lemma push_formatting_evicts s x :
  count_matching (same_element (arena s) x) (last_segment (active_formatting s)) = 3 ->
  exists l1 y l2,
    active_formatting s = (Some <$> l1) ++ Some y :: l2 /\
    same_element (arena s) x y = true /\
    existsb (same_element (arena s) x) (last_segment l2) = false /\
    active_formatting (push_formatting s x) = Some x :: (Some <$> l1) ++ l2 /\
    document (push_formatting s x) = document s.
Proof.
  intros H3.
  destruct (remove_earliest_spec (same_element (arena s) x) (active_formatting s))
    as (l1 & y & l2 & Haf & Hy & Hl2 & Hr).
  { destruct (existsb _ _) eqn:E; [done|].
    apply count_matching_existsb in E. lia. }
  exists l1, y, l2. repeat split; try done.
  unfold push_formatting. cbv zeta. rewrite H3. simpl. by rewrite Hr.
Qed.

Lemma insert_void_not_pushed s tag attrs :
  html_is_void_element tag = true ->
  open_elements (insert_element s tag attrs) = open_elements s.
Proof. intros H. by rewrite open_insert_element, H. Qed.

Lemma html_parse_state p input len :
  input_stream input len <> [] ->
  html_parse p input len =
    (parse_state p input len (enough_calls (html_tokenizer_create input len)),
     Some (document
             (parse_state p input len (enough_calls (html_tokenizer_create input len))))).
Proof. intros H. unfold html_parse. by destruct (input_stream input len). Qed.

(** The parser that [html_parse_fragment] returns is a [fragment_state]. *)
Lemma html_parse_fragment_state p input len ctx :
  input_stream input len <> [] ->
  exists body_mode st fuel,
    html_parse_fragment p input len (Some ctx) =
      (fragment_state p input len body_mode st fuel,
       Some (document (fragment_state p input len body_mode st fuel))).
Proof.
  intros H. unfold html_parse_fragment.
  destruct (input_stream input len); [done|].
  exists (negb (bool_decide (node_name ctx = "html"))). eexists. eexists.
  unfold fragment_state. by destruct (bool_decide (node_name ctx = "html")).
Qed.

Lemma parse_loop_enough s tk : (parse_loop (enough_calls tk) s tk).2 = true.
Proof. apply parse_loop_complete, calls_left_enough. Qed.

(** *** C1: what [html_parse] returns *)




(** *** C2: the adoption agency algorithm on a mis-nested input *)



(** *** C3: reconstruction of the active formatting elements *)



(** *** C4: the Noah's Ark clause *)



(** *** C7: void elements *)



(** *** C8: when parsing fails *)



End ParserClaims.

(* ===================================================================== *)
(** * Further properties of [engine.c]: the history of a tab             *)
(* ===================================================================== *)

Module HistoryProofs.
Import Engine History EngineProofs.
Local Open Scope Z_scope.

(** The slots from 1 up to [n] hold URLs. *)
Lemma visible_spec (l : list (option string)) (n : nat) :
  (n <= length l)%nat ->
  Forall is_Some (drop 1 (take n l)) <->
  forall i, (1 <= i < n)%nat -> exists u, l !! i = Some (Some u).
Proof.
  intros Hn. rewrite Forall_lookup. split.
  - intros H i Hi.
    destruct (lookup_lt_is_Some_2 l i) as [e He]; [lia|].
    destruct (H (i - 1)%nat e) as [u ->]; [|by exists u].
    rewrite lookup_drop, lookup_take_lt by lia.
    by replace (1 + (i - 1))%nat with i by lia.
  - intros H i e He. rewrite lookup_drop in He.
    destruct (decide (1 + i < n)%nat) as [Hlt|Hge].
    + rewrite lookup_take_lt in He by lia.
      destruct (H (1 + i)%nat) as [u Hu]; [lia|]. rewrite Hu in He.
      injection He as <-. by eexists.
    + apply lookup_lt_Some in He. rewrite length_take in He. lia.
Qed.

Lemma visible_elim (l : list (option string)) (n : nat) :
  Forall is_Some (drop 1 (take n l)) -> (n <= length l)%nat ->
  forall i, (1 <= i < n)%nat -> exists u, l !! i = Some (Some u).
Proof. intros H Hn. by apply visible_spec. Qed.

Lemma visible_intro (l : list (option string)) (n : nat) :
  (n <= length l)%nat ->
  (forall i, (1 <= i < n)%nat -> exists u, l !! i = Some (Some u)) ->
  Forall is_Some (drop 1 (take n l)).
Proof. intros Hn H. by apply visible_spec. Qed.

Ltac visible H :=
  let H' := fresh in
  pose proof (visible_elim _ _ H) as H'; clear H;
  assert (H := H' ltac:(lia)); clear H'.

Section Collaborators.
Variable request_t : Type.
Variable fetch_create_request : string -> option request_t.
Variable fetch_start : option request_t -> option (option response_t).
Variable load_title : string -> option string.

Local Abbreviation navigate t u :=
  (browser_navigate (fetch request_t fetch_create_request fetch_start) load_title t (Some u)).1.
Local Abbreviation go_back := (browser_go_back request_t fetch_create_request fetch_start load_title).
Local Abbreviation go_forward :=
  (browser_go_forward request_t fetch_create_request fetch_start load_title).
Local Abbreviation visit := (visit_entry request_t fetch_create_request fetch_start load_title).

(** Loading a page leaves the URL, the state flags and the history. *)
Lemma load_fetched_nav t u :
  let t' := load_fetched request_t fetch_create_request fetch_start load_title t u in
  url t' = url t /\ loading t' = loading t /\ secure t' = secure t /\
  progress t' = progress t /\ history t' = history t /\
  history_index t' = history_index t /\ history_count t' = history_count t.
Proof.
  cbv zeta. unfold load_fetched.
  destruct (fetch_start _) as [[resp|]|]; try done.
  destruct (ok resp); [|done]. by destruct (body resp).
Qed.

Lemma visit_entry_spec t idx t' r :
  visit t idx = Some (t', r) ->
  r = 0 /\ history t' = history t /\ history_count t' = history_count t /\
  history_index t' = idx /\ loading t' = false /\ secure t' = secure t /\
  progress t' = progress t /\
  exists u, history t !! Z.to_nat idx = Some (Some u) /\ url t' = Some u.
Proof.
  unfold visit_entry. destruct (history t !! Z.to_nat idx) as [[u|]|]; try done.
  intros [= <- <-].
  match goal with
  | |- context [load_fetched _ _ _ _ ?t1 u] =>
      destruct (load_fetched_nav t1 u) as (H1 & H2 & H3 & H4 & H5 & H6 & H7)
  end.
  simpl in *. repeat split; try done. by exists u.
Qed.

Lemma visit_entry_defined t idx u :
  history t !! Z.to_nat idx = Some (Some u) -> exists t', visit t idx = Some (t', 0).
Proof. intros H. unfold visit_entry. rewrite H. by eexists. Qed.

Lemma visit_entry_undefined t idx :
  history t !! Z.to_nat idx = Some None -> visit t idx = None.
Proof. intros H. unfold visit_entry. by rewrite H. Qed.

Lemma clear_visited idx cnt :
  2 <= cnt <= 100 -> 1 <= idx < cnt ->
  clear_forward_history idx cnt = if idx <? cnt - 1 then idx + 1 else cnt.
Proof.
  intros Hc Hi. unfold clear_forward_history, wrap32, UINT32_MOD.
  rewrite (Z.mod_small (cnt - 1)) by lia.
  destruct (idx <? cnt - 1); [|done]. apply Z.mod_small. lia.
Qed.

(** What a visit does to the history of a tab that has the shape
    [tab_inv]. *)
Lemma navigate_spec t u :
  tab_inv t ->
  let t' := navigate t u in
  let at_end := bool_decide (history_count t = 0 \/ history_index t = history_count t - 1) in
  let pos := if bool_decide (history_count t = 0) then 1
             else if at_end then history_count t else history_index t + 1 in
  if pos <? 100
  then history t' = <[Z.to_nat pos := Some u]> (history t) /\
       history_index t' = pos /\ history_count t' = pos + 1
  else history t' = history t /\ history_index t' = history_index t /\
       history_count t' = history_count t.
Proof.
  intros (Hl & H0 & [(Hc & Hi & Hh)|(Hc & Hi & Hv)]); cbv zeta;
    pose proof (navigation_after (fetch request_t fetch_create_request fetch_start)
                  load_title t u) as Hn; cbv zeta in Hn.
  - rewrite Hc, Hi in *. change (clear_forward_history 0 0) with 1 in Hn.
    change (1 <? HISTORY_CAPACITY) with true in Hn. cbv iota in Hn.
    rewrite bool_decide_eq_true_2 by done. exact Hn.
  - rewrite (clear_visited _ _ Hc Hi) in Hn.
    rewrite (bool_decide_eq_false_2 (history_count t = 0)) by lia.
    unfold HISTORY_CAPACITY, wrap32, UINT32_MOD in Hn.
    destruct (history_index t <? history_count t - 1) eqn:E.
    + apply Z.ltb_lt in E. rewrite bool_decide_eq_false_2 by lia.
      destruct (history_index t + 1 <? 100) eqn:E1; [|apply Z.ltb_ge in E1; lia].
      apply Z.ltb_lt in E1.
      rewrite (Z.mod_small (_ + 1)) in Hn by lia.
      rewrite Z.mod_small in Hn by lia.
      destruct Hn as (? & ? & ?). repeat split; [done|lia|lia].
    + apply Z.ltb_ge in E. rewrite bool_decide_eq_true_2 by lia.
      destruct (history_count t <? 100) eqn:E1; [|done].
      apply Z.ltb_lt in E1.
      rewrite (Z.mod_small (_ + 1)) in Hn by lia.
      rewrite Z.mod_small in Hn by lia.
      destruct Hn as (? & ? & ?). repeat split; [done|lia|lia].
Qed.

Lemma tab_inv_created : tab_inv browser_create_tab_navigation.
Proof. unfold tab_inv. simpl. split; [done|]. split; [done|]. by left. Qed.

Lemma tab_inv_navigate t u : tab_inv t -> tab_inv (navigate t u).
Proof.
  intros HI. pose proof (navigate_spec t u HI) as Hn. cbv zeta in Hn.
  destruct HI as (Hl & H0 & Hcases).
  set (t' := navigate t u) in *.
  set (pos := if bool_decide (history_count t = 0) then 1
              else if bool_decide (history_count t = 0 \/
                                   history_index t = history_count t - 1)
                   then history_count t else history_index t + 1) in *.
  assert (1 <= pos <= 100 /\
          forall i, (1 <= i < Z.to_nat pos)%nat -> exists v, history t !! i = Some (Some v))
    as (Hpos & Hold).
  { unfold pos. destruct Hcases as [(Hc & Hi & Hh)|(Hc & Hi & Hv)].
    - rewrite bool_decide_eq_true_2 by done. split; [lia|]. intros i Hi'. lia.
    - rewrite (bool_decide_eq_false_2 (history_count t = 0)) by lia.
      visible Hv.
      case_bool_decide; (split; [lia|]); intros i Hi'; apply Hv; lia. }
  destruct (pos <? 100) eqn:E.
  - apply Z.ltb_lt in E. destruct Hn as (Hh & Hi & Hc).
    unfold tab_inv. rewrite Hh, Hi, Hc, length_insert.
    split; [done|]. split; [rewrite list_lookup_insert_ne by lia; done|].
    right. split; [lia|]. split; [lia|].
    apply visible_intro; [rewrite length_insert; lia|].
    intros i Hi'. destruct (decide (i = Z.to_nat pos)) as [->|Hne].
    + exists u. apply list_lookup_insert_eq. lia.
    + rewrite list_lookup_insert_ne by done. apply Hold. lia.
  - destruct Hn as (Hh & Hi & Hc). unfold tab_inv. by rewrite Hh, Hi, Hc.
Qed.

Lemma tab_inv_visit t idx t' r :
  tab_inv t -> 2 <= history_count t -> 1 <= idx < history_count t ->
  visit t idx = Some (t', r) -> tab_inv t'.
Proof.
  intros (Hl & H0 & Hcases) Hc Hi Hv.
  apply visit_entry_spec in Hv as (_ & Hh & Hcnt & Hidx & _).
  unfold tab_inv. rewrite Hh, Hcnt, Hidx. split; [done|]. split; [done|].
  destruct Hcases as [(Hc' & _)|(Hc' & _ & Hvis)]; [lia|].
  right. split; [done|]. split; [lia|done].
Qed.

(** The three cases of a step back. *)
Lemma go_back_spec t :
  tab_inv t ->
  (history_index t = 0 -> go_back t = Some (t, -1)) /\
  (history_index t = 1 -> go_back t = None) /\
  (2 <= history_index t ->
   exists t' u, go_back t = Some (t', 0) /\
     history t !! Z.to_nat (history_index t - 1) = Some (Some u) /\
     url t' = Some u /\ history_index t' = history_index t - 1 /\
     history t' = history t /\ history_count t' = history_count t /\
     loading t' = false /\ tab_inv t').
Proof.
  intros HI. pose proof HI as (Hl & H0 & Hcases). unfold browser_go_back.
  split; [by intros ->|]. split.
  - intros ->. simpl. by apply visit_entry_undefined.
  - intros Hi. destruct Hcases as [(_ & Hi' & _)|(Hc & Hi' & Hv)]; [lia|].
    rewrite (proj2 (Z.eqb_neq _ _)) by lia.
    unfold wrap32, UINT32_MOD. rewrite Z.mod_small by lia.
    visible Hv.
    destruct (Hv (Z.to_nat (history_index t - 1))) as [u Hu]; [lia|].
    destruct (visit_entry_defined t _ u Hu) as [t' Ht'].
    pose proof (visit_entry_spec _ _ _ _ Ht') as (_ & Hh & Hcnt & Hidx & Hld & _ & _ & u' & Hu' & Hurl).
    exists t', u. rewrite Hu in Hu'. injection Hu' as <-.
    do 7 (split; [done|]).
    eapply tab_inv_visit; [exact HI|lia| |exact Ht']. lia.
Qed.

(** The three cases of a step forward. *)
Lemma go_forward_spec t :
  tab_inv t ->
  (history_count t = 0 -> go_forward t = None) /\
  (history_count t <> 0 -> history_index t = history_count t - 1 ->
   go_forward t = Some (t, -1)) /\
  (history_index t < history_count t - 1 ->
   exists t' u, go_forward t = Some (t', 0) /\
     history t !! Z.to_nat (history_index t + 1) = Some (Some u) /\
     url t' = Some u /\ history_index t' = history_index t + 1 /\
     history t' = history t /\ history_count t' = history_count t /\
     loading t' = false /\ tab_inv t').
Proof.
  intros HI. pose proof HI as (Hl & H0 & Hcases). unfold browser_go_forward.
  split; [|split].
  - intros Hc. destruct Hcases as [(_ & Hi & Hh)|(Hc' & _)]; [|lia].
    rewrite Hc, Hi. change (wrap32 (0 - 1) <=? 0) with false. cbv iota.
    apply visit_entry_undefined. by rewrite Hh.
  - intros Hc Hi. destruct Hcases as [(Hc' & _)|(Hc' & Hi' & _)]; [lia|].
    unfold wrap32, UINT32_MOD. rewrite Z.mod_small by lia.
    by rewrite (proj2 (Z.leb_le _ _)) by lia.
  - intros Hi. destruct Hcases as [(Hc' & Hi' & _)|(Hc & Hi' & Hv)]; [lia|].
    unfold wrap32, UINT32_MOD. rewrite (Z.mod_small (_ - 1)) by lia.
    rewrite (proj2 (Z.leb_gt _ _)) by lia. rewrite Z.mod_small by lia.
    visible Hv.
    destruct (Hv (Z.to_nat (history_index t + 1))) as [u Hu]; [lia|].
    destruct (visit_entry_defined t _ u Hu) as [t' Ht'].
    pose proof (visit_entry_spec _ _ _ _ Ht') as (_ & Hh & Hcnt & Hidx & Hld & _ & _ & u' & Hu' & Hurl).
    exists t', u. rewrite Hu in Hu'. injection Hu' as <-.
    do 7 (split; [done|]).
    eapply tab_inv_visit; [exact HI|lia| |exact Ht']. lia.
Qed.

Lemma tab_inv_back t t' r : tab_inv t -> go_back t = Some (t', r) -> tab_inv t'.
Proof.
  intros HI H. destruct (go_back_spec t HI) as (H0 & H1 & H2).
  pose proof HI as (_ & _ & [(_ & Hi & _)|(_ & Hi & _)]).
  - rewrite (H0 Hi) in H. by injection H as <- <-.
  - destruct (decide (history_index t = 1)) as [E|E]; [by rewrite (H1 E) in H|].
    destruct H2 as (t2 & u & Hb & _ & _ & _ & _ & _ & _ & HI2); [lia|].
    rewrite Hb in H. by injection H as <- <-.
Qed.

Lemma tab_inv_forward t t' r : tab_inv t -> go_forward t = Some (t', r) -> tab_inv t'.
Proof.
  intros HI H. destruct (go_forward_spec t HI) as (H0 & H1 & H2).
  pose proof HI as (_ & _ & [(Hc & _ & _)|(Hc & Hi & _)]).
  - by rewrite (H0 Hc) in H.
  - destruct (decide (history_index t = history_count t - 1)) as [E|E].
    + rewrite H1 in H by lia. by injection H as <- <-.
    + destruct H2 as (t2 & u & Hb & _ & _ & _ & _ & _ & _ & HI2); [lia|].
      rewrite Hb in H. by injection H as <- <-.
Qed.

Lemma tab_inv_stop t : tab_inv t -> tab_inv (browser_stop t).
Proof. by intros HI. Qed.

Lemma reachable_tab_inv t :
  reachable_tab request_t fetch_create_request fetch_start load_title t -> tab_inv t.
Proof.
  induction 1 as [|t u _ IH|t t' r _ IH Hb|t t' r _ IH Hf|t _ IH].
  - apply tab_inv_created.
  - by apply tab_inv_navigate.
  - by eapply tab_inv_back.
  - by eapply tab_inv_forward.
  - by apply tab_inv_stop.
Qed.

Lemma navigate_url fetch0 t u :
  url (browser_navigate fetch0 load_title t (Some u)).1 = Some u.
Proof.
  unfold browser_navigate. cbv zeta.
  destruct (clear_forward_history _ _ <? HISTORY_CAPACITY);
    destruct (fetch0 u) as [| | |[] html]; done.
Qed.

(** X2. The shape [tab_inv] of the history (slot 0 is NULL; nothing
    visited and all slots NULL, or a count between 2 and 100, an index from
    1 below the count and URLs in the slots from 1 below the count) holds
    for a new tab and is kept by every visit, by every step back or forward
    that is defined, and by a stop; so it holds for every tab a user can
    get. *)
Theorem history_shape_kept :
  tab_inv browser_create_tab_navigation /\
  (forall t u, tab_inv t -> tab_inv (navigate t u)) /\
  (forall t t' r, tab_inv t -> go_back t = Some (t', r) -> tab_inv t') /\
  (forall t t' r, tab_inv t -> go_forward t = Some (t', r) -> tab_inv t') /\
  (forall t, tab_inv t -> tab_inv (browser_stop t)) /\
  (forall t, reachable_tab request_t fetch_create_request fetch_start load_title t ->
             tab_inv t).
Proof.
  split; [exact tab_inv_created|]. split; [exact tab_inv_navigate|].
  split; [exact tab_inv_back|]. split; [exact tab_inv_forward|].
  split; [exact tab_inv_stop|exact reachable_tab_inv].
Qed.






End Collaborators.

(** X1. [browser_navigate] never stores a URL in slot 0 of the history:
    for a tab whose count and index are [uint32_t] values, the index not
    the largest, slot 0 is after the call what it was before; on a new tab
    the first visit goes to slot 1, the count becomes 2 and the index 1,
    whatever the fetch layer answers. *)
Theorem navigate_skips_slot_0 fetch0 load_title u :
  (forall t, 0 <= history_count t < 2 ^ 32 -> 0 <= history_index t < 2 ^ 32 - 1 ->
     history (browser_navigate fetch0 load_title t (Some u)).1 !! 0%nat
     = history t !! 0%nat) /\
  history (browser_navigate fetch0 load_title browser_create_tab_navigation (Some u)).1
    = <[1%nat := Some u]> (replicate 100 None) /\
  history_count (browser_navigate fetch0 load_title browser_create_tab_navigation
                   (Some u)).1 = 2 /\
  history_index (browser_navigate fetch0 load_title browser_create_tab_navigation
                   (Some u)).1 = 1.
Proof.
  split.
  - intros t Hc Hi.
    pose proof (navigation_after fetch0 load_title t u) as Hn. cbv zeta in Hn.
    assert (1 <= clear_forward_history (history_index t) (history_count t)) as H1.
    { unfold clear_forward_history, wrap32, UINT32_MOD.
      destruct (history_index t <? (history_count t - 1) mod 2 ^ 32) eqn:E.
      - rewrite Z.mod_small by lia. lia.
      - apply Z.ltb_ge in E. destruct (decide (history_count t = 0)) as [E0|E0]; [|lia].
        rewrite E0 in E. change ((0 - 1) mod 2 ^ 32) with (2 ^ 32 - 1) in E. lia. }
    destruct (clear_forward_history _ _ <? HISTORY_CAPACITY).
    + destruct Hn as (-> & _). apply list_lookup_insert_ne. lia.
    + by destruct Hn as (-> & _).
  - pose proof (navigation_after fetch0 load_title browser_create_tab_navigation u) as Hn.
    cbv zeta in Hn.
    change (clear_forward_history (history_index browser_create_tab_navigation)
              (history_count browser_create_tab_navigation)) with 1 in Hn.
    change (1 <? HISTORY_CAPACITY) with true in Hn. cbv iota in Hn.
    destruct Hn as (-> & -> & ->). done.
Qed.

(** *** Witnesses *)

Lemma visited_tab_inv : tab_inv visited_tab.
Proof.
  unfold tab_inv. split; [reflexivity|]. split; [reflexivity|]. right.
  split; [simpl; lia|]. split; [simpl; lia|]. by_compute.
Qed.

Lemma full_tab_inv : tab_inv full_tab.
Proof.
  unfold tab_inv. split; [reflexivity|]. split; [reflexivity|]. right.
  split; [simpl; lia|]. split; [simpl; lia|]. by_compute.
Qed.

(** Witness for X1: a visit on [visited_tab]. *)
Lemma navigate_skips_slot_0_witness :
  history (browser_navigate (fun _ => FetchNoResponse) (fun _ => None)
             visited_tab (Some "d")).1 !! 0%nat = history visited_tab !! 0%nat.
Proof.
  apply (proj1 (navigate_skips_slot_0 (fun _ => FetchNoResponse) (fun _ => None) "d")
           visited_tab); simpl; lia.
Defined.

(** Witness for X2: a visit on a new tab. *)
Lemma history_shape_kept_witness :
  tab_inv (browser_navigate
             (fetch unit (fun _ => None) (fun _ => None)) (fun _ => None)
             browser_create_tab_navigation (Some "a")).1.
Proof.
  apply (proj1 (proj2 (history_shape_kept unit (fun _ => None) (fun _ => None)
                         (fun _ => None)))).
  unfold tab_inv. split; [reflexivity|]. split; [reflexivity|]. left.
  repeat split; reflexivity.
Defined.






End HistoryProofs.

(* ===================================================================== *)
(** * The tabs of an engine                                              *)
(* ===================================================================== *)

Module TabsProofs.
Import Engine Tabs.

Local Open Scope Z_scope.

Lemma other_id_elim h tab_id p :
  other_id h tab_id p -> exists a t, p = Some a /\ h !! a = Some t /\ id t <> tab_id.
Proof.
  intros [Ha Hi]. destruct p as [a|]; [|done].
  destruct Ha as [t Ht]. exists a, t. split; [done|]. split; [done|].
  intros <-. apply Hi. unfold tab_id_of. simpl. by rewrite Ht.
Qed.

Lemma drop_cons_lookup {A} (l : list A) i x r :
  drop i l = x :: r -> l !! i = Some x /\ drop (S i) l = r.
Proof.
  revert i. induction l as [|y l IH]; intros [|i] H; simpl in *; try done.
  - inversion H. subst. split; [done|]. by rewrite drop_0.
  - by apply IH.
Qed.

(** The search finds the first tab with the identifier. *)
Lemma find_tab_found h ts tab_id l1 : forall i k a t rest,
  drop i ts = l1 ++ Some a :: rest ->
  (length l1 < k)%nat ->
  Forall (other_id h tab_id) l1 ->
  h !! a = Some t -> id t = tab_id ->
  find_tab h ts tab_id i k = Some (Some ((i + length l1)%nat, a)).
Proof.
  induction l1 as [|p l1 IH]; intros i k a t rest Hd Hk Hf Ha Hi.
  - destruct k as [|k]; [simpl in Hk; lia|]. simpl in *.
    apply drop_cons_lookup in Hd as [-> _]. rewrite Ha.
    rewrite (proj2 (Z.eqb_eq _ _) Hi). by rewrite Nat.add_0_r.
  - destruct k as [|k]; [simpl in Hk; lia|]. simpl in Hk, Hd.
    apply drop_cons_lookup in Hd as [Hl Hd].
    apply Forall_cons in Hf as [Hp Hf].
    apply other_id_elim in Hp as (a' & t' & -> & Ht' & Hne).
    cbn [find_tab]. rewrite Hl, Ht'.
    rewrite (proj2 (Z.eqb_neq _ _) Hne).
    rewrite (IH (S i) k a t rest); [|done|lia|done..].
    simpl. do 3 f_equal. lia.
Qed.

(** The search ends without a tab when no tab has the identifier. *)
Lemma find_tab_absent h ts tab_id l : forall i,
  take (length l) (drop i ts) = l ->
  Forall (other_id h tab_id) l ->
  find_tab h ts tab_id i (length l) = Some None.
Proof.
  induction l as [|p l IH]; intros i Ht Hf; [done|].
  simpl in Ht. destruct (drop i ts) as [|x r] eqn:Hd; [done|].
  simpl in Ht. injection Ht as Hx Hr. subst x.
  apply drop_cons_lookup in Hd as [Hl Hd].
  apply Forall_cons in Hf as [Hp Hf].
  apply other_id_elim in Hp as (a' & t' & -> & Ht' & Hne).
  cbn [find_tab length]. rewrite Hl, Ht'.
  rewrite (proj2 (Z.eqb_neq _ _) Hne).
  apply IH; [|done]. by rewrite Hd.
Qed.

(** The loop that closes the gap moves the slots after the closed one a
    place down; the last of them stays where it was, too. *)
Lemma shift_tabs_spec mid : forall pre x post,
  shift_tabs (pre ++ x :: mid ++ post) (length pre) (length mid)
  = Some (pre ++ mid ++ [default x (last mid)] ++ post).
Proof.
  induction mid as [|y mid IH]; intros pre x post; [done|].
  cbn [shift_tabs length].
  replace ((pre ++ x :: (y :: mid) ++ post) !! S (length pre)) with (Some y).
  2:{ symmetry. rewrite (lookup_app_r pre); [|lia].
      by replace (S (length pre) - length pre)%nat with 1%nat by lia. }
  replace (<[length pre:=y]> (pre ++ x :: (y :: mid) ++ post))
    with ((pre ++ [y]) ++ y :: mid ++ post).
  2:{ rewrite insert_app_r_alt; [|lia]. rewrite Nat.sub_diag. simpl.
      by rewrite <- app_assoc. }
  replace (S (length pre)) with (length (pre ++ [y])) by (rewrite length_app; simpl; lia).
  rewrite IH. rewrite <- app_assoc. simpl. rewrite last_cons.
  by destruct (last mid).
Qed.

Lemma live_split m :
  tabs (engine m)
  = live_tabs m ++ drop (Z.to_nat (tab_count (engine m))) (tabs (engine m)).
Proof. unfold live_tabs. by rewrite take_drop. Qed.

Lemma live_length m :
  engine_ok m -> length (live_tabs m) = Z.to_nat (tab_count (engine m)).
Proof.
  intros (Hm & Hl & Hc & _). unfold live_tabs. rewrite length_take. lia.
Qed.

(** Among tab objects, either none has the identifier or there is a first
    one that has it. *)
Lemma split_first_id h tab_id l :
  Forall (allocated h) l ->
  Forall (other_id h tab_id) l \/
  exists l1 a t l2, l = l1 ++ Some a :: l2 /\ Forall (other_id h tab_id) l1 /\
                    h !! a = Some t /\ id t = tab_id.
Proof.
  induction l as [|p l IH]; intros Hf; [by left|].
  apply Forall_cons in Hf as [Hp Hf].
  destruct p as [a|]; [|done]. destruct Hp as [t Ht].
  destruct (decide (id t = tab_id)) as [Hi|Hi].
  { right. exists [], a, t, l. by repeat split. }
  assert (other_id h tab_id (Some a)) as Ho.
  { split; [by exists t|]. unfold tab_id_of. simpl. rewrite Ht. simpl. congruence. }
  destruct (IH Hf) as [Hall|(l1 & a' & t' & l2 & -> & H1 & H2 & H3)].
  - left. by constructor.
  - right. exists (Some a :: l1), a', t', l2. repeat split; try done. by constructor.
Qed.

(** Closing a tab that is there. *)
Lemma close_tab_spec m tab_id l1 a t l2 :
  engine_ok m ->
  live_tabs m = l1 ++ Some a :: l2 ->
  Forall (other_id (heap m) tab_id) l1 ->
  heap m !! a = Some t -> id t = tab_id ->
  browser_close_tab m tab_id
  = Some {| engine :=
              {| config := config (engine m);
                 tabs := l1 ++ l2 ++ [default (Some a) (last l2)]
                         ++ drop (Z.to_nat (tab_count (engine m))) (tabs (engine m));
                 tab_count := tab_count (engine m) - 1;
                 active_tab :=
                   if (tab_count (engine m) - 1 <=? active_tab (engine m))
                      && (0 <? tab_count (engine m) - 1)
                   then tab_count (engine m) - 2 else active_tab (engine m) |};
            heap := delete a (heap m) |}.
Proof.
  intros Hok Hl H1 Ha Hi. pose proof (live_length m Hok) as Hlen.
  destruct Hok as (Hm & Hlt & Hc & _ & _ & _ & _ & Hpg).
  rewrite Hl, length_app in Hlen. simpl in Hlen.
  pose proof (live_split m) as Hs. rewrite Hl in Hs.
  remember (drop (Z.to_nat (tab_count (engine m))) (tabs (engine m))) as dead.
  unfold browser_close_tab.
  rewrite (find_tab_found _ _ _ l1 0 _ a t (l2 ++ dead));
    [|by rewrite drop_0, Hs, <- app_assoc|lia|done..].
  rewrite Ha.
  assert (history_readable t = true) as ->.
  { apply bool_decide_eq_true_2.
    destruct (Hpg a t Ha) as (Hh & _ & [(-> & _)|(Hcnt & _)]); rewrite Hh; lia. }
  cbn [negb].
  assert (wrap32 (tab_count (engine m) - 1) = tab_count (engine m) - 1) as ->.
  { unfold wrap32, UINT32_MOD. apply Z.mod_small. lia. }
  simpl.
  replace (Z.to_nat (tab_count (engine m) - 1) - length l1)%nat
    with (length l2) by lia.
  rewrite Hs, <- app_assoc. simpl.
  rewrite shift_tabs_spec. do 3 f_equal.
  destruct (_ && _) eqn:E; [|done].
  apply andb_prop in E as [_ E]. apply Z.ltb_lt in E.
  unfold wrap32, UINT32_MOD. rewrite Z.mod_small by lia. lia.
Qed.

(** Closing a tab that is not there. *)
Lemma close_tab_absent m tab_id :
  engine_ok m ->
  Forall (other_id (heap m) tab_id) (live_tabs m) ->
  browser_close_tab m tab_id = Some m.
Proof.
  intros Hok Hf. pose proof (live_length m Hok) as Hlen.
  unfold browser_close_tab. rewrite <- Hlen.
  rewrite find_tab_absent; [done| |done].
  by rewrite drop_0, Hlen.
Qed.

(** The tabs of the result of [close_tab_spec]. *)
Lemma take_closed (l1 l2 : list (option addr)) x post (n : Z) :
  length (l1 ++ x :: l2) = Z.to_nat n ->
  take (Z.to_nat (n - 1)) (l1 ++ l2 ++ post) = l1 ++ l2.
Proof.
  rewrite length_app. simpl. intros Hn.
  rewrite app_assoc. rewrite take_app_length'; [done|].
  rewrite length_app. lia.
Qed.

Lemma close_tab_ok m tab_id :
  engine_ok m ->
  exists m', browser_close_tab m tab_id = Some m' /\ engine_ok m'.
Proof.
  intros Hok. pose proof Hok as (Hm & Hlt & Hc & Hall & Hnd & Ha0 & Ha & Hpg).
  destruct (split_first_id (heap m) tab_id _ Hall)
    as [Hf|(l1 & a & t & l2 & Hl & H1 & H2 & H3)].
  { exists m. split; [by apply close_tab_absent|done]. }
  rewrite (close_tab_spec m tab_id l1 a t l2) by done.
  eexists. split; [done|].
  pose proof (live_length m Hok) as Hlen. rewrite Hl in Hlen.
  pose proof Hlen as Hlen'. rewrite length_app in Hlen'. simpl in Hlen'.
  unfold engine_ok, live_tabs. cbn [engine heap config tabs tab_count active_tab].
  rewrite (take_closed l1 l2 (Some a)) by done.
  rewrite Hl in Hall, Hnd.
  apply NoDup_app in Hnd as (Hn1 & Hn12 & Hn2).
  apply NoDup_cons in Hn2 as [Hn2a Hn2].
  split; [done|]. split.
  { rewrite !length_app. simpl. rewrite length_drop. lia. }
  split; [lia|]. split.
  { apply Forall_app in Hall as [Hall1 Hall2]. apply Forall_cons in Hall2 as [_ Hall2].
    assert (forall l, Forall (allocated (heap m)) l -> Some a ∉ l ->
                      Forall (allocated (delete a (heap m))) l) as Hd.
    { intros l Hl' Hnin. apply Forall_forall. intros [b|] Hb.
      - rewrite Forall_forall in Hl'. specialize (Hl' _ Hb). simpl in *.
        apply lookup_delete_is_Some. split; [|done]. intros ->. done.
      - rewrite Forall_forall in Hl'. by specialize (Hl' _ Hb). }
    apply Forall_app. split; apply Hd; try done.
    intros Hin. apply (Hn12 _ Hin). by left. }
  split.
  { apply NoDup_app. split; [done|]. split; [|done].
    intros x Hx Hx2. apply (Hn12 x Hx). by right. }
  split.
  { destruct (_ && _) eqn:E; [|done].
    apply andb_prop in E as [_ E]. apply Z.ltb_lt in E. lia. }
  split; [|by apply map_Forall_delete].
  destruct (_ && _) eqn:E.
  - right. lia.
  - apply andb_false_iff in E as [E|E].
    + apply Z.leb_gt in E. right. lia.
    + apply Z.ltb_ge in E. left. lia.
Qed.

(** Opening a tab when there is room. *)
Lemma create_tab_spec m a :
  engine_ok m ->
  tab_count (engine m) < max_tabs (config (engine m)) ->
  browser_create_tab m (Some a) true true
  = Some ({| engine :=
               {| config := config (engine m);
                  tabs := <[Z.to_nat (tab_count (engine m)) := Some a]> (tabs (engine m));
                  tab_count := tab_count (engine m) + 1;
                  active_tab := tab_count (engine m) |};
             heap := <[a := {| id := tab_count (engine m);
                               page := browser_create_tab_navigation |}]> (heap m) |},
          Some a).
Proof.
  intros (Hm & Hlt & Hc & _) Hroom. unfold browser_create_tab.
  rewrite (proj2 (Z.leb_gt _ _)) by lia. simpl.
  rewrite bool_decide_eq_true_2 by lia.
  assert (wrap32 (tab_count (engine m) + 1) = tab_count (engine m) + 1) as ->.
  { unfold wrap32, UINT32_MOD. apply Z.mod_small. lia. }
  replace (tab_count (engine m) + 1 - 1) with (tab_count (engine m)) by lia.
  assert (wrap32 (tab_count (engine m)) = tab_count (engine m)) as ->.
  { unfold wrap32, UINT32_MOD. apply Z.mod_small. lia. }
  done.
Qed.

Lemma live_created m a t :
  engine_ok m ->
  tab_count (engine m) < max_tabs (config (engine m)) ->
  live_tabs {| engine :=
                 {| config := config (engine m);
                    tabs := <[Z.to_nat (tab_count (engine m)) := Some a]> (tabs (engine m));
                    tab_count := tab_count (engine m) + 1;
                    active_tab := tab_count (engine m) |};
               heap := <[a := t]> (heap m) |}
  = live_tabs m ++ [Some a].
Proof.
  intros (Hm & Hlt & Hc & _) Hroom. unfold live_tabs. simpl.
  replace (Z.to_nat (tab_count (engine m) + 1))
    with (S (Z.to_nat (tab_count (engine m)))) by lia.
  rewrite (take_S_r _ _ (Some a)).
  - by rewrite take_insert_ge.
  - apply list_lookup_insert_eq. lia.
Qed.

Lemma create_tab_ok m a :
  engine_ok m ->
  heap m !! a = None ->
  exists m' r, browser_create_tab m (Some a) true true = Some (m', r) /\ engine_ok m'.
Proof.
  intros Hok Hfresh. pose proof Hok as (Hm & Hlt & Hc & Hall & Hnd & Ha0 & Ha & Hpg).
  destruct (decide (tab_count (engine m) < max_tabs (config (engine m)))) as [Hr|Hr].
  2:{ exists m, None. split; [|done]. unfold browser_create_tab.
      by rewrite (proj2 (Z.leb_le _ _)) by lia. }
  rewrite create_tab_spec by done. eexists _, _. split; [done|].
  unfold engine_ok. rewrite live_created by done.
  cbn [engine heap config tabs tab_count active_tab].
  split; [done|]. split; [by rewrite length_insert|]. split; [lia|]. split.
  { apply Forall_app. split.
    - eapply Forall_impl; [exact Hall|]. intros [b|] Hb; [|done]. simpl in *.
      apply lookup_insert_is_Some'. by right.
    - constructor; [|done]. simpl. apply lookup_insert_is_Some'. by left. }
  split.
  { apply NoDup_app. split; [done|]. split; [|apply NoDup_singleton].
    intros x Hx Hx2. apply list_elem_of_singleton in Hx2 as ->.
    rewrite Forall_forall in Hall. specialize (Hall _ Hx). simpl in Hall.
    rewrite Hfresh in Hall. by destruct Hall. }
  split; [lia|]. split; [right; lia|].
  apply map_Forall_insert_2; [|done].
  unfold History.tab_inv. simpl. split; [done|]. split; [done|]. by left.
Qed.

Lemma other_ids h tab_id l :
  Forall (allocated h) l ->
  Some tab_id ∉ tab_id_of h <$> l ->
  Forall (other_id h tab_id) l.
Proof.
  intros Hall Hnin. apply Forall_forall. intros p Hp. split.
  - rewrite Forall_forall in Hall. by apply Hall.
  - intros Hi. apply Hnin. rewrite <- Hi. by apply list_elem_of_fmap_2.
Qed.

Lemma get_active_tab_spec m :
  engine_ok m ->
  browser_get_active_tab m
  = if tab_count (engine m) =? 0 then Some None
    else live_tabs m !! Z.to_nat (active_tab (engine m)).
Proof.
  intros (Hm & Hlt & Hc & _ & _ & Ha0 & Ha & _). unfold browser_get_active_tab.
  destruct (tab_count (engine m) =? 0) eqn:E; [done|].
  apply Z.eqb_neq in E. destruct Ha as [Ha|Ha]; [done|].
  rewrite (proj2 (Z.leb_gt _ _)) by lia.
  unfold live_tabs. rewrite lookup_take_lt; [done|lia].
Qed.

Lemma three_tabs_ok : engine_ok three_tabs.
Proof.
  unfold engine_ok. split; [by_compute|]. split; [done|]. split; [by_compute|].
  split; [by_compute|]. split; [by_compute|]. split; [by_compute|].
  split; [by_compute|]. by_compute.
Qed.

(** Tab objects that stay keep their identifiers. *)
Lemma tab_ids_insert h a t (l : list (option addr)) :
  Forall (allocated h) l -> h !! a = None ->
  tab_id_of (<[a:=t]> h) <$> l = tab_id_of h <$> l.
Proof.
  intros Hall Hfresh. apply Forall_fmap_ext_1.
  eapply Forall_impl; [exact Hall|]. intros [b|] Hb; [|done]. simpl in *.
  unfold tab_id_of. simpl. rewrite lookup_insert_ne; [done|].
  intros ->. rewrite Hfresh in Hb. by destruct Hb.
Qed.

Lemma tab_ids_delete h a (l : list (option addr)) :
  Some a ∉ l ->
  tab_id_of (delete a h) <$> l = tab_id_of h <$> l.
Proof.
  intros Hnin. apply Forall_fmap_ext_1. apply Forall_forall.
  intros [b|] Hb; [|done]. unfold tab_id_of. simpl.
  rewrite lookup_delete_ne; [done|]. by intros ->.
Qed.

Lemma create_tab_effect m a :
  engine_ok m -> heap m !! a = None ->
  tab_count (engine m) < max_tabs (config (engine m)) ->
  exists m',
    browser_create_tab m (Some a) true true = Some (m', Some a) /\
    engine_ok m' /\
    live_tabs m' = live_tabs m ++ [Some a] /\
    heap m' = <[a := new_tab (tab_count (engine m))]> (heap m) /\
    tab_count (engine m') = tab_count (engine m) + 1 /\
    active_tab (engine m') = tab_count (engine m) /\
    config (engine m') = config (engine m) /\
    tab_ids m' = tab_ids m ++ [Some (tab_count (engine m))].
Proof.
  intros Hok Hfresh Hroom.
  destruct (create_tab_ok m a Hok Hfresh) as (m' & r & Hc & Hok').
  rewrite create_tab_spec in Hc by done. injection Hc as <- <-.
  eexists. split; [by apply create_tab_spec|]. split; [done|].
  split; [by apply live_created|]. do 4 (split; [done|]).
  unfold tab_ids. rewrite live_created by done. simpl.
  rewrite fmap_app. f_equal.
  - apply tab_ids_insert; [|done]. by destruct Hok as (_ & _ & _ & Hall & _).
  - simpl. unfold tab_id_of. simpl. by rewrite lookup_insert_eq.
Qed.

Lemma close_tab_effect m tab_id l1 a l2 :
  engine_ok m ->
  live_tabs m = l1 ++ Some a :: l2 ->
  Some tab_id ∉ tab_id_of (heap m) <$> l1 ->
  tab_id_of (heap m) (Some a) = Some tab_id ->
  exists m',
    browser_close_tab m tab_id = Some m' /\
    engine_ok m' /\
    live_tabs m' = l1 ++ l2 /\
    heap m' = delete a (heap m) /\
    tab_count (engine m') = tab_count (engine m) - 1 /\
    active_tab (engine m')
      = (if (tab_count (engine m) - 1 <=? active_tab (engine m))
            && (0 <? tab_count (engine m) - 1)
         then tab_count (engine m) - 2 else active_tab (engine m)) /\
    config (engine m') = config (engine m) /\
    tab_ids m' = tab_id_of (heap m) <$> (l1 ++ l2).
Proof.
  intros Hok Hl Hl1 Ha.
  pose proof Hok as (_ & _ & _ & Hall & Hnd & _).
  rewrite Hl in Hall, Hnd.
  assert (Forall (other_id (heap m) tab_id) l1) as Ho.
  { apply other_ids; [|done]. by apply Forall_app in Hall as [? _]. }
  unfold tab_id_of in Ha. simpl in Ha.
  destruct (heap m !! a) as [t|] eqn:Ht; [|done]. simpl in Ha.
  injection Ha as Hi.
  destruct (close_tab_ok m tab_id Hok) as (m' & Hc & Hok').
  rewrite (close_tab_spec m tab_id l1 a t l2) in Hc by done.
  injection Hc as <-.
  pose proof (live_length m Hok) as Hlen. rewrite Hl in Hlen.
  assert (live_tabs
            {| engine :=
                 {| config := config (engine m);
                    tabs := l1 ++ l2 ++ [default (Some a) (last l2)]
                            ++ drop (Z.to_nat (tab_count (engine m))) (tabs (engine m));
                    tab_count := tab_count (engine m) - 1;
                    active_tab :=
                      if (tab_count (engine m) - 1 <=? active_tab (engine m))
                         && (0 <? tab_count (engine m) - 1)
                      then tab_count (engine m) - 2 else active_tab (engine m) |};
               heap := delete a (heap m) |} = l1 ++ l2) as Hlive.
  { unfold live_tabs. cbn [engine tabs tab_count].
    by rewrite (take_closed l1 l2 (Some a)). }
  eexists. split; [by apply (close_tab_spec m tab_id l1 a t l2)|].
  split; [done|]. split; [done|]. do 4 (split; [done|]).
  unfold tab_ids. rewrite Hlive. cbn [heap].
  apply tab_ids_delete.
  apply NoDup_app in Hnd as (Hn1 & Hn12 & Hn2).
  apply NoDup_cons in Hn2 as [Hn2a Hn2].
  intros [Hin|Hin]%elem_of_app; [|done].
  apply (Hn12 _ Hin). by left.
Qed.

Lemma other_ids_notin h tab_id (l : list (option addr)) :
  Forall (other_id h tab_id) l -> Some tab_id ∉ tab_id_of h <$> l.
Proof.
  intros Hf (p & Hp & Hin)%list_elem_of_fmap.
  rewrite Forall_forall in Hf. destruct (Hf _ Hin) as [_ Hne]. by apply Hne.
Qed.

Lemma shutdown_done fuel m :
  tab_count (engine m) = 0 -> browser_engine_shutdown fuel m = Some (m, true).
Proof. intros H. destruct fuel; simpl; by rewrite H. Qed.

(** The loop of the shutdown closes the first tab until none is left. *)
Lemma shutdown_spec : forall k m,
  engine_ok m -> length (live_tabs m) = k ->
  forall fuel, (k <= fuel)%nat ->
  exists m',
    browser_engine_shutdown fuel m = Some (m', true) /\
    engine_ok m' /\ tab_count (engine m') = 0 /\
    config (engine m') = config (engine m) /\
    (forall a, Some a ∈ live_tabs m -> heap m' !! a = None) /\
    (forall a, Some a ∉ live_tabs m -> heap m' !! a = heap m !! a).
Proof.
  induction k as [|k IH]; intros m Hok Hk fuel Hfuel.
  - pose proof (live_length m Hok) as Hlen. rewrite Hk in Hlen.
    destruct Hok as (Hm & Hlt & Hc & Hrest).
    assert (tab_count (engine m) = 0) as H0 by lia.
    exists m. split; [by apply shutdown_done|].
    split; [done|]. split; [done|]. split; [done|].
    apply nil_length_inv in Hk. rewrite Hk. split; [|done].
    intros a Ha. by apply elem_of_nil in Ha.
  - pose proof (live_length m Hok) as Hlen. rewrite Hk in Hlen.
    pose proof Hok as (Hm & Hlt & Hc & Hall & Hnd & _).
    destruct fuel as [|fuel]; [lia|].
    destruct (live_tabs m) as [|p l2] eqn:Hl; [done|].
    apply Forall_cons in Hall as [Hp Hall].
    destruct p as [a|]; [|done]. destruct Hp as [t Ht].
    destruct (close_tab_effect m (id t) [] a l2 Hok Hl)
      as (m1 & Hc1 & Hok1 & Hl1 & Hh1 & Hn1 & _ & Hcf1 & _).
    { apply not_elem_of_nil. }
    { unfold tab_id_of. simpl. by rewrite Ht. }
    simpl in Hl1. injection Hk as Hk.
    destruct (IH m1 Hok1) with (fuel := fuel) as (m' & Hs & Hok' & H0 & Hcf & Hin & Hout);
      [by rewrite Hl1|lia|].
    exists m'. split.
    { cbn [browser_engine_shutdown].
      rewrite (proj2 (Z.eqb_neq _ _)) by lia.
      assert (tabs (engine m) !! 0%nat = Some (Some a)) as ->.
      { unfold live_tabs in Hl.
        destruct (tabs (engine m)) as [|x r]; [by rewrite take_nil in Hl|].
        destruct (Z.to_nat (tab_count (engine m))); [done|].
        simpl in Hl. by injection Hl as -> _. }
      by rewrite Ht, Hc1. }
    split; [done|]. split; [done|]. split; [congruence|].
    apply NoDup_cons in Hnd as [Hna Hnd]. split.
    + intros b [Hb|Hb]%elem_of_cons.
      * injection Hb as ->. rewrite Hout by (by rewrite Hl1).
        rewrite Hh1. apply lookup_delete_eq.
      * apply Hin. by rewrite Hl1.
    + intros b Hb. apply not_elem_of_cons in Hb as [Hba Hb].
      rewrite Hout by (by rewrite Hl1). rewrite Hh1.
      apply lookup_delete_ne. congruence.
Qed.

(** A new engine has no tab. *)
Lemma engine_create_ok cfg e :
  browser_engine_create cfg true true = Some e ->
  0 <= max_tabs (config e) < 2 ^ 32 ->
  engine_ok {| engine := e; heap := ∅ |} /\ tab_count e = 0.
Proof.
  intros He Hm. unfold browser_engine_create in He. simpl in He.
  injection He as <-. unfold engine_ok, live_tabs. simpl in *.
  split; [|done].
  split; [done|]. split; [by rewrite length_replicate|].
  split; [lia|]. split; [done|]. split; [constructor|]. split; [done|].
  split; [by left|]. apply map_Forall_empty.
Qed.

(** ** Properties of the tab functions *)

(** X8. A new engine is well formed, and opening and closing tabs keep
    an engine well formed and never leave the array or a history: the array
    has [max_tabs] slots, the first [tab_count] of them hold distinct live
    tab objects, the active tab is one of them, and the history of every
    tab object has the shape [History.tab_inv].  [browser_get_active_tab]
    gives NULL exactly when there is no tab, and a live tab of the engine
    otherwise. *)
Theorem engine_ok_kept :
  (forall cfg e, browser_engine_create cfg true true = Some e ->
     0 <= max_tabs (config e) < 2 ^ 32 ->
     engine_ok {| engine := e; heap := ∅ |}) /\
  (forall m tab js_ok doc_ok, engine_ok m ->
     (forall a, tab = Some a -> heap m !! a = None) ->
     exists m' r, browser_create_tab m tab js_ok doc_ok = Some (m', r) /\ engine_ok m') /\
  (forall m tab_id, engine_ok m ->
     exists m', browser_close_tab m tab_id = Some m' /\ engine_ok m') /\
  (forall m, engine_ok m ->
     exists r, browser_get_active_tab m = Some r /\
               (r = None <-> tab_count (engine m) = 0) /\
               forall a, r = Some a -> Some a ∈ live_tabs m /\ is_Some (heap m !! a)).
Proof.
  split; [|split; [|split]].
  - intros cfg e He Hm. by apply (engine_create_ok cfg).
  - intros m tab js_ok doc_ok Hok Hfresh.
    destruct tab as [a|].
    2:{ exists m, None. split; [|done]. unfold browser_create_tab.
        by destruct (_ <=? _). }
    destruct js_ok.
    2:{ exists m, None. split; [|done]. unfold browser_create_tab.
        by destruct (_ <=? _). }
    destruct doc_ok.
    2:{ exists m, None. split; [|done]. unfold browser_create_tab.
        by destruct (_ <=? _). }
    apply create_tab_ok; [done|]. by apply Hfresh.
  - intros m tab_id Hok. by apply close_tab_ok.
  - intros m Hok. rewrite get_active_tab_spec by done.
    pose proof (live_length m Hok) as Hlen.
    destruct Hok as (Hm & Hlt & Hc & Hall & Hnd & Ha0 & Ha & _).
    destruct (tab_count (engine m) =? 0) eqn:E.
    { apply Z.eqb_eq in E. exists None. split; [done|]. split; [done|]. done. }
    apply Z.eqb_neq in E. destruct Ha as [Ha|Ha]; [done|].
    destruct (lookup_lt_is_Some_2 (live_tabs m) (Z.to_nat (active_tab (engine m))))
      as [p Hp]; [lia|].
    exists p. split; [done|].
    rewrite Forall_forall in Hall.
    pose proof (Hall p (list_elem_of_lookup_2 _ _ _ Hp)) as Hal.
    destruct p as [a|]; [|done]. split; [done|].
    intros b [= <-]. split; [by eapply list_elem_of_lookup_2|done].
Qed.

(** X9. In a well-formed engine with room, [browser_create_tab] appends
    the new tab after the tabs there are, gives it the number of tabs as
    its identifier and makes it the active tab; the other tabs keep their
    places and identifiers.  When the engine holds [max_tabs] tabs, or an
    allocation fails, it returns NULL and changes nothing. *)
Theorem create_tab_appends m a (Hok : engine_ok m) (Hfresh : heap m !! a = None) :
  (tab_count (engine m) < max_tabs (config (engine m)) ->
   exists m',
     browser_create_tab m (Some a) true true = Some (m', Some a) /\
     live_tabs m' = live_tabs m ++ [Some a] /\
     heap m' = <[a := new_tab (tab_count (engine m))]> (heap m) /\
     tab_ids m' = tab_ids m ++ [Some (tab_count (engine m))] /\
     browser_get_active_tab m' = Some (Some a)) /\
  (max_tabs (config (engine m)) <= tab_count (engine m) ->
   forall tab js_ok doc_ok, browser_create_tab m tab js_ok doc_ok = Some (m, None)) /\
  (forall tab js_ok doc_ok, tab = None \/ js_ok = false \/ doc_ok = false ->
   browser_create_tab m tab js_ok doc_ok = Some (m, None)).
Proof.
  split; [|split].
  - intros Hroom.
    destruct (create_tab_effect m a Hok Hfresh Hroom)
      as (m' & Hc & Hok' & Hl & Hh & Hn & Hact & _ & Hids).
    exists m'. do 4 (split; [done|]).
    rewrite get_active_tab_spec by done. rewrite Hn, Hact, Hl.
    pose proof (live_length m Hok) as Hlen.
    destruct Hok as (Hm & Hlt & Hc0 & _).
    rewrite (proj2 (Z.eqb_neq _ _)) by lia.
    rewrite lookup_app_r by lia. by rewrite Hlen, Nat.sub_diag.
  - intros Hfull tab js_ok doc_ok. unfold browser_create_tab.
    by rewrite (proj2 (Z.leb_le _ _)) by lia.
  - intros tab js_ok doc_ok H. unfold browser_create_tab.
    destruct (_ <=? _); [done|].
    destruct tab as [b|]; [|done]. destruct js_ok; [|done]. destruct doc_ok; [|done].
    by destruct H as [?|[?|?]].
Qed.

(** X10. Closing an identifier that no tab of a well-formed engine has
    changes nothing. *)
Theorem close_tab_unknown_id m tab_id
    (Hok : engine_ok m) (Hnin : Some tab_id ∉ tab_ids m) :
  browser_close_tab m tab_id = Some m.
Proof.
  apply close_tab_absent; [done|]. apply other_ids; [|done].
  by destruct Hok as (_ & _ & _ & Hall & _).
Qed.

(** X11. [browser_close_tab] closes the first tab of the array that has
    the identifier, and only that one: its object is freed, the tabs
    after it move one place down in their order, the count drops by one,
    and the tabs that stay keep their identifiers (they are not
    renumbered). *)
Theorem close_tab_removes_first m tab_id l1 a l2
    (Hok : engine_ok m)
    (Hl : live_tabs m = l1 ++ Some a :: l2)
    (Hl1 : Some tab_id ∉ tab_id_of (heap m) <$> l1)
    (Ha : tab_id_of (heap m) (Some a) = Some tab_id) :
  exists m',
    browser_close_tab m tab_id = Some m' /\
    live_tabs m' = l1 ++ l2 /\
    heap m' = delete a (heap m) /\
    tab_count (engine m') = tab_count (engine m) - 1 /\
    config (engine m') = config (engine m) /\
    tab_ids m' = tab_id_of (heap m) <$> (l1 ++ l2).
Proof.
  destruct (close_tab_effect m tab_id l1 a l2 Hok Hl Hl1 Ha)
    as (m' & Hc & _ & Hl' & Hh & Hn & _ & Hcf & Hids).
  by exists m'.
Qed.

(** X12. The active tab after [browser_close_tab] closes the tab in slot
    [length l1]: with one tab there is none left; a tab before the closed
    one stays active, and so does the last tab when another one is closed;
    when the active tab is not the last one and the closed tab is the
    active tab or a tab before it, the tab that followed the active tab
    becomes active; when the active tab is the last one and is closed, the
    tab before it becomes active. *)
Theorem active_tab_after_close m tab_id l1 a l2
    (Hok : engine_ok m)
    (Hl : live_tabs m = l1 ++ Some a :: l2)
    (Hl1 : Some tab_id ∉ tab_id_of (heap m) <$> l1)
    (Ha : tab_id_of (heap m) (Some a) = Some tab_id) :
  exists m',
    browser_close_tab m tab_id = Some m' /\
    (tab_count (engine m) = 1 -> browser_get_active_tab m' = Some None) /\
    (1 < tab_count (engine m) ->
     active_tab (engine m) < Z.of_nat (length l1) \/
     (active_tab (engine m) = tab_count (engine m) - 1 /\
      Z.of_nat (length l1) < tab_count (engine m) - 1) ->
     browser_get_active_tab m' = browser_get_active_tab m) /\
    (Z.of_nat (length l1) <= active_tab (engine m) < tab_count (engine m) - 1 ->
     browser_get_active_tab m'
     = live_tabs m !! Z.to_nat (active_tab (engine m) + 1)) /\
    (1 < tab_count (engine m) ->
     Z.of_nat (length l1) = active_tab (engine m) ->
     active_tab (engine m) = tab_count (engine m) - 1 ->
     browser_get_active_tab m'
     = live_tabs m !! Z.to_nat (active_tab (engine m) - 1)).
Proof.
  destruct (close_tab_effect m tab_id l1 a l2 Hok Hl Hl1 Ha)
    as (m' & Hc & Hok' & Hl' & Hh & Hn & Hact & Hcf & Hids).
  exists m'. split; [done|].
  pose proof (live_length m Hok) as Hlen. rewrite Hl, length_app in Hlen.
  simpl in Hlen.
  rewrite (get_active_tab_spec m') by done.
  rewrite (get_active_tab_spec m) by done.
  rewrite Hn, Hact, Hl', Hl.
  destruct Hok as (Hm & Hlt & Hcn & _ & _ & Ha0 & Hlive & _).
  split; [|split; [|split]].
  - intros ->. done.
  - intros Hn1 Hcase.
    rewrite (proj2 (Z.eqb_neq _ _)) by lia.
    rewrite (proj2 (Z.eqb_neq (tab_count (engine m)) 0)) by lia.
    destruct Hcase as [Hbefore|[Hlast Hi]].
    + rewrite (proj2 (Z.leb_gt _ _)) by lia. simpl.
      rewrite !lookup_app_l by lia. done.
    + rewrite (proj2 (Z.leb_le _ _)) by lia.
      rewrite (proj2 (Z.ltb_lt _ _)) by lia. simpl.
      rewrite !lookup_app_r by lia.
      replace (Z.to_nat (active_tab (engine m)) - length l1)%nat
        with (S (Z.to_nat (tab_count (engine m) - 2) - length l1)) by lia.
      done.
  - intros Hcase.
    rewrite (proj2 (Z.eqb_neq _ _)) by lia.
    rewrite (proj2 (Z.leb_gt _ _)) by lia. simpl.
    rewrite !lookup_app_r by lia.
    replace (Z.to_nat (active_tab (engine m) + 1) - length l1)%nat
      with (S (Z.to_nat (active_tab (engine m)) - length l1)) by lia.
    done.
  - intros Hn1 Hi Hlast.
    rewrite (proj2 (Z.eqb_neq _ _)) by lia.
    rewrite (proj2 (Z.leb_le _ _)) by lia.
    rewrite (proj2 (Z.ltb_lt _ _)) by lia. simpl.
    replace (tab_count (engine m) - 2) with (active_tab (engine m) - 1) by lia.
    rewrite !lookup_app_l by lia. done.
Qed.

(** X13. Identifiers are not unique.  When a tab other than the one with
    the highest identifier is closed and a tab is opened, the new tab gets
    the identifier of the last tab that was there; closing by the
    identifier of the new tab then closes that older tab and leaves the new
    one open. *)
Theorem tab_ids_collide m tab_id a
    (Hok : engine_ok m) (Hfresh : heap m !! a = None)
    (Hlast : last (tab_ids m) = Some (Some (tab_count (engine m) - 1)))
    (Hin : Some tab_id ∈ tab_ids m)
    (Hne : tab_id <> tab_count (engine m) - 1) :
  exists m1 m2 ids,
    browser_close_tab m tab_id = Some m1 /\
    browser_create_tab m1 (Some a) true true = Some (m2, Some a) /\
    tab_id_of (heap m2) (Some a) = Some (tab_count (engine m) - 1) /\
    browser_get_active_tab m2 = Some (Some a) /\
    tab_ids m2 = ids ++ [Some (tab_count (engine m) - 1);
                         Some (tab_count (engine m) - 1)] /\
    (Some (tab_count (engine m) - 1) ∉ ids ->
     exists m3,
       browser_close_tab m2 (tab_count (engine m) - 1) = Some m3 /\
       is_Some (heap m3 !! a) /\
       last (live_tabs m3) = Some (Some a) /\
       browser_get_active_tab m3 = Some (Some a) /\
       tab_ids m3 = ids ++ [Some (tab_count (engine m) - 1)]).
Proof.
  pose proof Hok as (Hm & Hlt & Hcn & Hall & Hnd & _).
  destruct (split_first_id (heap m) tab_id _ Hall)
    as [Hf|(l1 & b & t & l2 & Hl & Ho & Hb & Hi)].
  { by apply other_ids_notin in Hf. }
  destruct (close_tab_effect m tab_id l1 b l2 Hok Hl)
    as (m1 & Hc1 & Hok1 & Hl1 & Hh1 & Hn1 & _ & Hcf1 & Hids1).
  { by apply other_ids_notin. }
  { unfold tab_id_of. simpl. rewrite Hb. simpl. by rewrite Hi. }
  unfold tab_ids in Hlast. rewrite Hl in Hlast.
  destruct l2 as [|c l2 _] using rev_ind.
  { rewrite fmap_app, last_app in Hlast. simpl in Hlast.
    unfold tab_id_of in Hlast. simpl in Hlast. rewrite Hb in Hlast.
    simpl in Hlast. congruence. }
  assert (tab_id_of (heap m) c = Some (tab_count (engine m) - 1)) as Hc.
  { change (l1 ++ Some b :: l2 ++ [c]) with (l1 ++ (Some b :: l2) ++ [c]) in Hlast.
    rewrite app_assoc, fmap_app in Hlast. simpl in Hlast.
    rewrite last_snoc in Hlast. congruence. }
  destruct c as [ca|]; [|done].
  assert (ca <> a) as Hca.
  { intros ->. unfold tab_id_of in Hc. simpl in Hc. by rewrite Hfresh in Hc. }
  destruct (create_tab_effect m1 a Hok1)
    as (m2 & Hc2 & Hok2 & Hl2 & Hh2 & Hn2 & Hact2 & Hcf2 & Hids2).
  { rewrite Hh1. apply lookup_delete_None. by right. }
  { rewrite Hn1, Hcf1. lia. }
  exists m1, m2, (tab_id_of (heap m) <$> (l1 ++ l2)).
  split; [done|]. split; [done|]. split.
  { rewrite Hh2, Hn1. unfold tab_id_of. simpl. by rewrite lookup_insert_eq. }
  pose proof (live_length m1 Hok1) as Hlen1.
  pose proof Hok1 as (_ & _ & Hcn1 & _).
  split.
  { rewrite get_active_tab_spec by done. rewrite Hn2, Hact2, Hl2.
    rewrite (proj2 (Z.eqb_neq _ _)) by lia.
    rewrite lookup_app_r by lia. by rewrite Hlen1, Nat.sub_diag. }
  rewrite Hl1 in Hlen1.
  assert (tab_ids m2 = (tab_id_of (heap m) <$> (l1 ++ l2))
                       ++ [Some (tab_count (engine m) - 1);
                           Some (tab_count (engine m) - 1)]) as Hids.
  { rewrite Hids2, Hids1, Hn1. rewrite (app_assoc l1 l2), fmap_app, <- app_assoc.
    change (tab_id_of (heap m) <$> [Some ca]) with [tab_id_of (heap m) (Some ca)].
    by rewrite Hc. }
  split; [done|]. intros Hnin.
  assert (live_tabs m2 = (l1 ++ l2) ++ Some ca :: [Some a]) as Hlive2.
  { rewrite Hl2, Hl1. by rewrite !app_assoc, <- (app_assoc (l1 ++ l2)). }
  pose proof Hids as Hids'. unfold tab_ids in Hids'.
  rewrite Hlive2, fmap_app in Hids'.
  apply app_inj_1 in Hids' as [Hpre Hpost]; [|by rewrite !length_fmap].
  simpl in Hpost. injection Hpost as Hpca _.
  destruct (close_tab_effect m2 (tab_count (engine m) - 1) (l1 ++ l2) ca [Some a]
              Hok2 Hlive2)
    as (m3 & Hc3 & Hok3 & Hl3 & Hh3 & Hn3 & Hact3 & Hcf3 & Hids3).
  { by rewrite Hpre. }
  { done. }
  exists m3. split; [done|]. split.
  { rewrite Hh3, lookup_delete_ne by done. rewrite Hh2, lookup_insert_eq. done. }
  split; [by rewrite Hl3, last_snoc|].
  split.
  { rewrite get_active_tab_spec by done. rewrite Hn3, Hact3, Hn2, Hact2, Hl3.
    rewrite !length_app in Hlen1. simpl in Hlen1.
    replace (tab_count (engine m1) + 1 - 1) with (tab_count (engine m1)) by lia.
    rewrite (proj2 (Z.eqb_neq _ _)) by lia.
    rewrite (proj2 (Z.leb_le _ _)) by lia.
    rewrite (proj2 (Z.ltb_lt _ _)) by lia. simpl.
    rewrite lookup_app_r by (rewrite length_app; lia).
    replace (Z.to_nat (tab_count (engine m1) + 1 - 2) - length (l1 ++ l2))%nat
      with 0%nat by (rewrite length_app; lia).
    done. }
  rewrite Hids3, fmap_app, Hpre. simpl. f_equal.
  rewrite Hh2, Hn1. unfold tab_id_of. simpl. by rewrite lookup_insert_eq.
Qed.

(** X14. The loop of [browser_engine_shutdown] ends after as many rounds
    as there are tabs, also when tabs share an identifier: no tab is left,
    every tab object of the engine is freed and nothing else is. *)
Theorem shutdown_closes_all m fuel
    (Hok : engine_ok m) (Hfuel : tab_count (engine m) <= Z.of_nat fuel) :
  exists m',
    browser_engine_shutdown fuel m = Some (m', true) /\
    tab_count (engine m') = 0 /\
    browser_get_active_tab m' = Some None /\
    config (engine m') = config (engine m) /\
    (forall a, Some a ∈ live_tabs m -> heap m' !! a = None) /\
    (forall a, Some a ∉ live_tabs m -> heap m' !! a = heap m !! a).
Proof.
  pose proof (live_length m Hok) as Hlen.
  destruct (shutdown_spec _ m Hok eq_refl fuel) as (m' & Hs & Hok' & H0 & Hcf & Hin & Hout);
    [lia|].
  exists m'. split; [done|]. split; [done|]. split; [|done].
  unfold browser_get_active_tab. by rewrite H0.
Qed.

(** X15. Opening a tab and closing it by its identifier, when no other
    tab has that identifier, gives back the tabs and the tab objects there
    were; the active tab is not restored: the last tab is active. *)
Theorem create_then_close m a
    (Hok : engine_ok m) (Hfresh : heap m !! a = None)
    (Hroom : tab_count (engine m) < max_tabs (config (engine m)))
    (Hnew : Some (tab_count (engine m)) ∉ tab_ids m) :
  exists m1 m2,
    browser_create_tab m (Some a) true true = Some (m1, Some a) /\
    browser_close_tab m1 (tab_count (engine m)) = Some m2 /\
    live_tabs m2 = live_tabs m /\ heap m2 = heap m /\
    tab_count (engine m2) = tab_count (engine m) /\
    active_tab (engine m2) = Z.max 0 (tab_count (engine m) - 1).
Proof.
  destruct (create_tab_effect m a Hok Hfresh Hroom)
    as (m1 & Hc1 & Hok1 & Hl1 & Hh1 & Hn1 & Hact1 & Hcf1 & Hids1).
  pose proof Hok as (Hm & Hlt & Hcn & Hall & _).
  destruct (close_tab_effect m1 (tab_count (engine m)) (live_tabs m) a [] Hok1 Hl1)
    as (m2 & Hc2 & Hok2 & Hl2 & Hh2 & Hn2 & Hact2 & _).
  { rewrite Hh1, tab_ids_insert by done. exact Hnew. }
  { rewrite Hh1. unfold tab_id_of. simpl. by rewrite lookup_insert_eq. }
  exists m1, m2. split; [done|]. split; [done|].
  split; [by rewrite Hl2, app_nil_r|].
  split; [by rewrite Hh2, Hh1, delete_insert_id|].
  split; [lia|]. rewrite Hact2, Hn1, Hact1.
  destruct (decide (tab_count (engine m) = 0)) as [E|E].
  - rewrite E. done.
  - rewrite (proj2 (Z.leb_le _ _)) by lia.
    rewrite (proj2 (Z.ltb_lt _ _)) by lia. simpl. lia.
Qed.

(** *** Witnesses *)

(** Witness for X8: closing the second of three tabs. *)
Lemma engine_ok_kept_witness :
  exists m', browser_close_tab three_tabs 1 = Some m' /\ engine_ok m'.
Proof.
  apply (proj1 (proj2 (proj2 engine_ok_kept)) three_tabs 1 three_tabs_ok).
Defined.

(** Witness for X9: a fourth tab. *)
Lemma create_tab_appends_witness :
  exists m',
    browser_create_tab three_tabs (Some 13%nat) true true = Some (m', Some 13%nat) /\
    live_tabs m' = live_tabs three_tabs ++ [Some 13%nat] /\
    heap m' = <[13%nat := new_tab (tab_count (engine three_tabs))]> (heap three_tabs) /\
    tab_ids m' = tab_ids three_tabs ++ [Some (tab_count (engine three_tabs))] /\
    browser_get_active_tab m' = Some (Some 13%nat).
Proof.
  apply (proj1 (create_tab_appends three_tabs 13%nat three_tabs_ok ltac:(by_compute))).
  simpl. lia.
Defined.

(** Witness for X10: no tab has the identifier 7. *)
Lemma close_tab_unknown_id_witness :
  browser_close_tab three_tabs 7 = Some three_tabs.
Proof.
  apply (close_tab_unknown_id three_tabs 7 three_tabs_ok). by_compute.
Defined.

(** Witness for X11: closing the second of three tabs. *)
Lemma close_tab_removes_first_witness :
  exists m',
    browser_close_tab three_tabs 1 = Some m' /\
    live_tabs m' = [Some 10%nat] ++ [Some 12%nat] /\
    heap m' = delete 11%nat (heap three_tabs) /\
    tab_count (engine m') = tab_count (engine three_tabs) - 1 /\
    config (engine m') = config (engine three_tabs) /\
    tab_ids m' = tab_id_of (heap three_tabs) <$> ([Some 10%nat] ++ [Some 12%nat]).
Proof.
  apply (close_tab_removes_first three_tabs 1 [Some 10%nat] 11%nat [Some 12%nat]
           three_tabs_ok eq_refl); by_compute.
Defined.

(** Witness for X12: the second of three tabs is active and is closed, the
    third one becomes active. *)
Lemma active_tab_after_close_witness :
  exists m',
    browser_close_tab three_tabs 1 = Some m' /\
    browser_get_active_tab m' = Some (Some 12%nat).
Proof.
  destruct (active_tab_after_close three_tabs 1 [Some 10%nat] 11%nat [Some 12%nat]
              three_tabs_ok eq_refl ltac:(by_compute) ltac:(by_compute))
    as (m' & Hc & _ & _ & Hnext & _).
  exists m'. split; [exact Hc|]. rewrite Hnext; [reflexivity|simpl; lia].
Defined.

(** Witness for X13: the first of three tabs is closed and a tab opened. *)
Lemma tab_ids_collide_witness :
  exists m1 m2 ids,
    browser_close_tab three_tabs 0 = Some m1 /\
    browser_create_tab m1 (Some 13%nat) true true = Some (m2, Some 13%nat) /\
    tab_id_of (heap m2) (Some 13%nat) = Some (tab_count (engine three_tabs) - 1) /\
    browser_get_active_tab m2 = Some (Some 13%nat) /\
    tab_ids m2 = ids ++ [Some (tab_count (engine three_tabs) - 1);
                         Some (tab_count (engine three_tabs) - 1)] /\
    (Some (tab_count (engine three_tabs) - 1) ∉ ids ->
     exists m3,
       browser_close_tab m2 (tab_count (engine three_tabs) - 1) = Some m3 /\
       is_Some (heap m3 !! 13%nat) /\
       last (live_tabs m3) = Some (Some 13%nat) /\
       browser_get_active_tab m3 = Some (Some 13%nat) /\
       tab_ids m3 = ids ++ [Some (tab_count (engine three_tabs) - 1)]).
Proof.
  apply (tab_ids_collide three_tabs 0 13%nat three_tabs_ok); by_compute.
Defined.

(** Witness for X14: three rounds close three tabs. *)
Lemma shutdown_closes_all_witness :
  exists m',
    browser_engine_shutdown 3 three_tabs = Some (m', true) /\
    tab_count (engine m') = 0 /\
    browser_get_active_tab m' = Some None /\
    config (engine m') = config (engine three_tabs) /\
    (forall a, Some a ∈ live_tabs three_tabs -> heap m' !! a = None) /\
    (forall a, Some a ∉ live_tabs three_tabs -> heap m' !! a = heap three_tabs !! a).
Proof.
  apply (shutdown_closes_all three_tabs 3 three_tabs_ok). simpl. lia.
Defined.

(** Witness for X15: a fourth tab is opened and closed. *)
Lemma create_then_close_witness :
  exists m1 m2,
    browser_create_tab three_tabs (Some 13%nat) true true = Some (m1, Some 13%nat) /\
    browser_close_tab m1 (tab_count (engine three_tabs)) = Some m2 /\
    live_tabs m2 = live_tabs three_tabs /\ heap m2 = heap three_tabs /\
    tab_count (engine m2) = tab_count (engine three_tabs) /\
    active_tab (engine m2) = Z.max 0 (tab_count (engine three_tabs) - 1).
Proof.
  apply (create_then_close three_tabs 13%nat three_tabs_ok); by_compute.
Defined.

End TabsProofs.

(* ===================================================================== *)
(** * The command line                                                   *)
(* ===================================================================== *)

Module MainProofs.
Import Engine Tabs Main.

Local Open Scope Z_scope.

Lemma prefix_app l : forall a,
  String.prefix l a = true -> exists r, a = String.append l r.
Proof.
  induction l as [|c l IH]; intros a H.
  - by exists a.
  - destruct a as [|d a]; [done|]. simpl in H.
    destruct (ascii_dec c d) as [->|]; [|done].
    destruct (IH a H) as [r ->]. by exists r.
Qed.

Section Libc.
Variable atoi : string -> Z.

(** What an argument that does not leave the program does to the options. *)
Lemma parse_argument_fields a o o' :
  parse_argument atoi a o = inr o' ->
  private_mode o' = private_mode o || ((a =? "-p")%string || (a =? "--private")%string) /\
  fullscreen o' = fullscreen o || ((a =? "-f")%string || (a =? "--fullscreen")%string) /\
  no_sandbox o' = no_sandbox o || (a =? "--no-sandbox")%string /\
  disable_gpu o' = disable_gpu o || (a =? "--disable-gpu")%string /\
  disable_js o' = disable_js o || (a =? "--disable-js")%string /\
  show_devtools o' = show_devtools o || (a =? "--devtools")%string /\
  width o' = (if strncmp_eq a "--width=" then wrap32 (atoi (after 8 a)) else width o) /\
  height o' = (if strncmp_eq a "--height=" then wrap32 (atoi (after 9 a)) else height o) /\
  profile_path o' = (if strncmp_eq a "--profile=" then Some (after 10 a)
                     else profile_path o) /\
  user_agent o' = (if strncmp_eq a "--user-agent=" then Some (after 13 a)
                   else user_agent o) /\
  proxy o' = (if strncmp_eq a "--proxy=" then Some (after 8 a) else proxy o) /\
  initial_url o' = (if not_dash a then Some a else initial_url o).
Proof.
  unfold parse_argument.
  destruct ((a =? "-h")%string || (a =? "--help")%string) eqn:E1; [done|].
  destruct ((a =? "-v")%string || (a =? "--version")%string) eqn:E2; [done|].
  destruct ((a =? "-p")%string || (a =? "--private")%string) eqn:E3.
  { intros [= <-]. apply orb_prop in E3 as [->%String.eqb_eq| ->%String.eqb_eq];
      cbn; rewrite ?orb_true_r, ?orb_false_r; done. }
  destruct ((a =? "-f")%string || (a =? "--fullscreen")%string) eqn:E4.
  { intros [= <-]. apply orb_prop in E4 as [->%String.eqb_eq| ->%String.eqb_eq];
      cbn; rewrite ?orb_true_r, ?orb_false_r; done. }
  destruct (strncmp_eq a "--width=") eqn:E5.
  { intros [= <-]. apply prefix_app in E5 as [r ->].
    cbn; rewrite ?orb_true_r, ?orb_false_r; done. }
  destruct (strncmp_eq a "--height=") eqn:E6.
  { intros [= <-]. apply prefix_app in E6 as [r ->].
    cbn; rewrite ?orb_true_r, ?orb_false_r; done. }
  destruct (strncmp_eq a "--profile=") eqn:E7.
  { intros [= <-]. apply prefix_app in E7 as [r ->].
    cbn; rewrite ?orb_true_r, ?orb_false_r; done. }
  destruct (a =? "--no-sandbox")%string eqn:E8.
  { intros [= <-]. apply String.eqb_eq in E8 as ->.
    cbn; rewrite ?orb_true_r, ?orb_false_r; done. }
  destruct (a =? "--disable-gpu")%string eqn:E9.
  { intros [= <-]. apply String.eqb_eq in E9 as ->.
    cbn; rewrite ?orb_true_r, ?orb_false_r; done. }
  destruct (a =? "--disable-js")%string eqn:E10.
  { intros [= <-]. apply String.eqb_eq in E10 as ->.
    cbn; rewrite ?orb_true_r, ?orb_false_r; done. }
  destruct (strncmp_eq a "--user-agent=") eqn:E11.
  { intros [= <-]. apply prefix_app in E11 as [r ->].
    cbn; rewrite ?orb_true_r, ?orb_false_r; done. }
  destruct (strncmp_eq a "--proxy=") eqn:E12.
  { intros [= <-]. apply prefix_app in E12 as [r ->].
    cbn; rewrite ?orb_true_r, ?orb_false_r; done. }
  destruct (a =? "--devtools")%string eqn:E13.
  { intros [= <-]. apply String.eqb_eq in E13 as ->.
    cbn; rewrite ?orb_true_r, ?orb_false_r; done. }
  destruct (not_dash a) eqn:E14.
  { intros [= <-]. cbn. rewrite ?orb_false_r. done. }
  intros [= <-]. rewrite ?orb_false_r. done.
Qed.

(** The arguments that leave the program, and what they print. *)
Lemma parse_argument_leaves a o e :
  parse_argument atoi a o = inl e <->
  (e = Usage /\ (a = "-h" \/ a = "--help")) \/
  (e = Version /\ (a = "-v" \/ a = "--version")).
Proof.
  unfold parse_argument.
  destruct ((a =? "-h")%string || (a =? "--help")%string) eqn:E1.
  { apply orb_prop in E1 as [->%String.eqb_eq| ->%String.eqb_eq];
      (split; [intros [= <-]; left; auto|intros [[-> _]|[_ [?|?]]]; done]). }
  destruct ((a =? "-v")%string || (a =? "--version")%string) eqn:E2.
  { apply orb_prop in E2 as [->%String.eqb_eq| ->%String.eqb_eq];
      (split; [intros [= <-]; right; auto|intros [[_ [?|?]]|[-> _]]; done]). }
  apply orb_false_elim in E1 as [E1a E1b]. apply orb_false_elim in E2 as [E2a E2b].
  apply String.eqb_neq in E1a, E1b, E2a, E2b.
  split.
  - repeat match goal with |- context [if ?b then _ else _] => destruct b end; done.
  - intros [[_ [?|?]]|[_ [?|?]]]; done.
Qed.

Lemma parse_argument_stays a o :
  ~ leaves a -> exists o', parse_argument atoi a o = inr o'.
Proof.
  intros Hn. destruct (parse_argument atoi a o) as [e|o'] eqn:E; [|by exists o'].
  exfalso. apply Hn. apply parse_argument_leaves in E. unfold leaves.
  destruct E as [[_ [?|?]]|[_ [?|?]]]; auto.
Qed.

Lemma loop_app l1 : forall o l2,
  parse_arguments_loop atoi (l1 ++ l2) o
  = match parse_arguments_loop atoi l1 o with
    | inl e => inl e
    | inr o' => parse_arguments_loop atoi l2 o'
    end.
Proof.
  induction l1 as [|a l1 IH]; intros o l2; [done|]. simpl.
  destruct (parse_argument atoi a o); [done|]. apply IH.
Qed.

Lemma loop_stays l : forall o,
  Forall (fun b => ~ leaves b) l -> exists o', parse_arguments_loop atoi l o = inr o'.
Proof.
  induction l as [|a l IH]; intros o Hf; [by exists o|].
  apply Forall_cons in Hf as [Ha Hf]. simpl.
  destruct (parse_argument_stays a o Ha) as [o1 ->]. by apply IH.
Qed.

Lemma loop_leaves l : forall o e,
  parse_arguments_loop atoi l o = inl e -> Exists leaves l.
Proof.
  induction l as [|a l IH]; intros o e H; [done|]. simpl in H.
  destruct (parse_argument atoi a o) as [e'|o'] eqn:E.
  - left. apply parse_argument_leaves in E. unfold leaves.
    destruct E as [[_ [?|?]]|[_ [?|?]]]; auto.
  - right. by eapply IH.
Qed.

(** A flag is set by its arguments and is never reset. *)
Lemma loop_flag (f : browser_options_t -> bool) (t : string -> bool) :
  (forall a o o', parse_argument atoi a o = inr o' -> f o' = f o || t a) ->
  forall args o o', parse_arguments_loop atoi args o = inr o' ->
                    f o' = f o || existsb t args.
Proof.
  intros Hstep args. induction args as [|a args IH]; intros o o' H; simpl in H.
  - injection H as <-. simpl. by rewrite orb_false_r.
  - destruct (parse_argument atoi a o) as [|o1] eqn:E; [done|].
    rewrite (IH _ _ H), (Hstep _ _ _ E). simpl. by rewrite orb_assoc.
Qed.

(** A value is that of the last argument that sets it. *)
Lemma loop_value {V} (g : browser_options_t -> V) (t : string -> bool) (v : string -> V) :
  (forall a o o', parse_argument atoi a o = inr o' -> g o' = if t a then v a else g o) ->
  forall args o o', parse_arguments_loop atoi args o = inr o' ->
                    g o' = match last (List.filter t args) with
                           | Some a => v a
                           | None => g o
                           end.
Proof.
  intros Hstep args. induction args as [|a args IH]; intros o o' H; simpl in H.
  - by injection H as <-.
  - destruct (parse_argument atoi a o) as [|o1] eqn:E; [done|].
    rewrite (IH _ _ H), (Hstep _ _ _ E). simpl.
    destruct (t a); [|done]. rewrite last_cons.
    by destruct (last (List.filter t args)).
Qed.

End Libc.

Lemma given1 n (args : list string) :
  existsb (fun a => (a =? n)%string) args = true <-> n ∈ args.
Proof.
  rewrite existsb_exists, list_elem_of_In. split.
  - by intros (a & Ha & ->%String.eqb_eq).
  - intros H. exists n. split; [done|]. apply String.eqb_refl.
Qed.

Lemma given2 n1 n2 (args : list string) :
  existsb (fun a => (a =? n1)%string || (a =? n2)%string) args = true <->
  n1 ∈ args \/ n2 ∈ args.
Proof.
  rewrite existsb_exists, !list_elem_of_In. split.
  - intros (a & Ha & [->%String.eqb_eq| ->%String.eqb_eq]%orb_prop); auto.
  - intros [H|H]; [exists n1|exists n2]; (split; [done|]);
      rewrite String.eqb_refl; by rewrite ?orb_true_r.
Qed.

Lemma first_leaves l :
  Exists leaves l ->
  exists l1 a l2, l = l1 ++ a :: l2 /\ Forall (fun b => ~ leaves b) l1 /\ leaves a.
Proof.
  induction l as [|a l IH]; intros H; [by apply Exists_nil in H|].
  destruct (decide (leaves a)) as [Ha|Ha].
  { by exists [], a, l. }
  apply Exists_cons in H as [H|H]; [done|].
  destruct (IH H) as (l1 & b & l2 & -> & Hf & Hb).
  exists (a :: l1), b, l2. split; [done|]. split; [by constructor|done].
Qed.

(** The options returned are those of the loop, with the default address. *)
Lemma parse_arguments_inr atoi argv o :
  parse_arguments atoi argv = inr o ->
  exists o0,
    parse_arguments_loop atoi (drop 1 argv) initial_options = inr o0 /\
    initial_url o = Some (default "about:blank" (initial_url o0)) /\
    private_mode o = private_mode o0 /\ fullscreen o = fullscreen o0 /\
    width o = width o0 /\ height o = height o0 /\
    profile_path o = profile_path o0 /\ no_sandbox o = no_sandbox o0 /\
    disable_gpu o = disable_gpu o0 /\ disable_js o = disable_js o0 /\
    user_agent o = user_agent o0 /\ proxy o = proxy o0 /\
    show_devtools o = show_devtools o0.
Proof.
  unfold parse_arguments.
  destruct (parse_arguments_loop atoi (drop 1 argv) initial_options) as [|o0]; [done|].
  intros H. exists o0. split; [done|].
  destruct (initial_url o0) as [u|] eqn:E; injection H as <-; simpl; by rewrite ?E.
Qed.

(** ** Properties of the command line *)

(** X16. [parse_arguments] leaves the program exactly when one of the
    arguments after the program name is [-h], [--help], [-v] or
    [--version]; the first such argument decides what is printed, whatever
    the arguments before and after it are. *)
Theorem parse_arguments_exits atoi argv :
  ((exists e, parse_arguments atoi argv = inl e) <-> Exists leaves (drop 1 argv)) /\
  (forall l1 a l2,
     drop 1 argv = l1 ++ a :: l2 -> Forall (fun b => ~ leaves b) l1 -> leaves a ->
     parse_arguments atoi argv
     = inl (if bool_decide (a = "-h" \/ a = "--help") then Usage else Version)).
Proof.
  assert (forall l1 a l2,
     drop 1 argv = l1 ++ a :: l2 -> Forall (fun b => ~ leaves b) l1 -> leaves a ->
     parse_arguments atoi argv
     = inl (if bool_decide (a = "-h" \/ a = "--help") then Usage else Version)) as Hfirst.
  { intros l1 a l2 Hl Hf Ha. unfold parse_arguments. rewrite Hl, loop_app.
    destruct (loop_stays atoi l1 initial_options Hf) as [o1 ->].
    cbn [parse_arguments_loop].
    assert (parse_argument atoi a o1
            = inl (if bool_decide (a = "-h" \/ a = "--help") then Usage else Version))
      as ->; [|done].
    apply parse_argument_leaves. case_bool_decide as Hd; [by left|].
    right. split; [done|]. unfold leaves in Ha. tauto. }
  split; [|done]. split.
  - intros [e He]. unfold parse_arguments in He.
    destruct (parse_arguments_loop atoi (drop 1 argv) initial_options) as [e'|o] eqn:E.
    + by eapply loop_leaves.
    + by destruct (initial_url o).
  - intros (l1 & a & l2 & Hl & Hf & Ha)%first_leaves.
    eexists. by apply (Hfirst l1 a l2).
Qed.

(** X17. The address [parse_arguments] returns is never NULL: it is the
    last argument that does not begin with [-] (the empty argument is
    one), and [about:blank] when there is none. *)
Theorem parse_arguments_url atoi argv o (H : parse_arguments atoi argv = inr o) :
  initial_url o
  = Some (default "about:blank" (last (List.filter not_dash (drop 1 argv)))).
Proof.
  apply parse_arguments_inr in H as (o0 & Hl & -> & _). f_equal.
  rewrite (loop_value atoi initial_url not_dash Some) with (o' := o0) (o := initial_options)
                                                          (args := drop 1 argv); [|..|done].
  - by destruct (last _).
  - intros a o1 o2 Hs. by apply parse_argument_fields in Hs as (_&_&_&_&_&_&_&_&_&_&_&?).
Qed.

(** X18. A flag of the options is set exactly when one of its arguments
    is on the command line, wherever it stands: no test of the loop hides
    a flag, and nothing resets one. *)
Theorem parse_arguments_flags atoi argv o (H : parse_arguments atoi argv = inr o) :
  (private_mode o = true <-> "-p" ∈ drop 1 argv \/ "--private" ∈ drop 1 argv) /\
  (fullscreen o = true <-> "-f" ∈ drop 1 argv \/ "--fullscreen" ∈ drop 1 argv) /\
  (no_sandbox o = true <-> "--no-sandbox" ∈ drop 1 argv) /\
  (disable_gpu o = true <-> "--disable-gpu" ∈ drop 1 argv) /\
  (disable_js o = true <-> "--disable-js" ∈ drop 1 argv) /\
  (show_devtools o = true <-> "--devtools" ∈ drop 1 argv).
Proof.
  apply parse_arguments_inr in H
    as (o0 & Hl & _ & -> & -> & _ & _ & _ & -> & -> & -> & _ & _ & ->).
  split; [|split; [|split; [|split; [|split]]]].
  - rewrite <- given2.
    rewrite (fun Hs => loop_flag atoi private_mode
               (fun a => (a =? "-p")%string || (a =? "--private")%string) Hs _ _ _ Hl);
      [done|].
    intros a o1 o2 Hs. by apply parse_argument_fields in Hs as (?&_).
  - rewrite <- given2.
    rewrite (fun Hs => loop_flag atoi fullscreen
               (fun a => (a =? "-f")%string || (a =? "--fullscreen")%string) Hs _ _ _ Hl);
      [done|].
    intros a o1 o2 Hs. by apply parse_argument_fields in Hs as (_&?&_).
  - rewrite <- given1.
    rewrite (fun Hs => loop_flag atoi no_sandbox
               (fun a => (a =? "--no-sandbox")%string) Hs _ _ _ Hl);
      [done|].
    intros a o1 o2 Hs. by apply parse_argument_fields in Hs as (_&_&?&_).
  - rewrite <- given1.
    rewrite (fun Hs => loop_flag atoi disable_gpu
               (fun a => (a =? "--disable-gpu")%string) Hs _ _ _ Hl);
      [done|].
    intros a o1 o2 Hs. by apply parse_argument_fields in Hs as (_&_&_&?&_).
  - rewrite <- given1.
    rewrite (fun Hs => loop_flag atoi disable_js
               (fun a => (a =? "--disable-js")%string) Hs _ _ _ Hl);
      [done|].
    intros a o1 o2 Hs. by apply parse_argument_fields in Hs as (_&_&_&_&?&_).
  - rewrite <- given1.
    rewrite (fun Hs => loop_flag atoi show_devtools
               (fun a => (a =? "--devtools")%string) Hs _ _ _ Hl);
      [done|].
    intros a o1 o2 Hs. by apply parse_argument_fields in Hs as (_&_&_&_&_&?&_).
Qed.

(** X19. The sizes and the strings of the options are those of the last
    argument that gives them; without one the width is 1280, the height
    720 and the strings are NULL.  The text after the [=] is taken as it
    is, and [atoi] of it is stored as an unsigned 32-bit number. *)
Theorem parse_arguments_values atoi argv o (H : parse_arguments atoi argv = inr o) :
  width o = match last (List.filter (fun a => strncmp_eq a "--width=") (drop 1 argv)) with
            | Some a => wrap32 (atoi (after 8 a))
            | None => 1280
            end /\
  height o = match last (List.filter (fun a => strncmp_eq a "--height=") (drop 1 argv)) with
             | Some a => wrap32 (atoi (after 9 a))
             | None => 720
             end /\
  profile_path o
    = after 10 <$> last (List.filter (fun a => strncmp_eq a "--profile=") (drop 1 argv)) /\
  user_agent o
    = after 13 <$> last (List.filter (fun a => strncmp_eq a "--user-agent=") (drop 1 argv)) /\
  proxy o
    = after 8 <$> last (List.filter (fun a => strncmp_eq a "--proxy=") (drop 1 argv)).
Proof.
  apply parse_arguments_inr in H
    as (o0 & Hl & _ & _ & _ & -> & -> & -> & _ & _ & _ & -> & -> & _).
  split; [|split; [|split; [|split]]].
  - rewrite (fun Hs => loop_value atoi width (fun a => strncmp_eq a "--width=")
                         (fun a => wrap32 (atoi (after 8 a))) Hs _ _ _ Hl); [done|].
    intros a o1 o2 Hs. by apply parse_argument_fields in Hs as (_&_&_&_&_&_&?&_).
  - rewrite (fun Hs => loop_value atoi height (fun a => strncmp_eq a "--height=")
                         (fun a => wrap32 (atoi (after 9 a))) Hs _ _ _ Hl); [done|].
    intros a o1 o2 Hs. by apply parse_argument_fields in Hs as (_&_&_&_&_&_&_&?&_).
  - rewrite (fun Hs => loop_value atoi profile_path (fun a => strncmp_eq a "--profile=")
                         (fun a => Some (after 10 a)) Hs _ _ _ Hl); [by destruct (last _)|].
    intros a o1 o2 Hs. by apply parse_argument_fields in Hs as (_&_&_&_&_&_&_&_&?&_).
  - rewrite (fun Hs => loop_value atoi user_agent (fun a => strncmp_eq a "--user-agent=")
                         (fun a => Some (after 13 a)) Hs _ _ _ Hl); [by destruct (last _)|].
    intros a o1 o2 Hs. by apply parse_argument_fields in Hs as (_&_&_&_&_&_&_&_&_&?&_).
  - rewrite (fun Hs => loop_value atoi proxy (fun a => strncmp_eq a "--proxy=")
                         (fun a => Some (after 8 a)) Hs _ _ _ Hl); [by destruct (last _)|].
    intros a o1 o2 Hs. by apply parse_argument_fields in Hs as (_&_&_&_&_&_&_&_&_&_&?&_).
Qed.

(** X20. The engine [init_browser_engine] makes from the parsed options
    has room for 100 tabs whatever the command line is, runs the GPU and
    WebGL unless [--disable-gpu] is given and the sandbox unless
    [--no-sandbox] is given, and starts well formed with no tab; it is
    NULL exactly when one of the allocations fails. *)
Theorem init_browser_engine_config atoi argv o (H : parse_arguments atoi argv = inr o) :
  (forall engine_alloc tabs_alloc html_ok css_ok js_ok render_ok,
     init_browser_engine o engine_alloc tabs_alloc html_ok css_ok js_ok render_ok = None
     <-> engine_alloc && tabs_alloc && html_ok && css_ok && js_ok && render_ok = false) /\
  exists e,
    init_browser_engine o true true true true true true = Some e /\
    max_tabs (config e) = 100 /\
    enable_gpu (config e) = negb (bool_decide ("--disable-gpu" ∈ drop 1 argv)) /\
    enable_webgl (config e) = negb (bool_decide ("--disable-gpu" ∈ drop 1 argv)) /\
    enable_sandbox (config e) = negb (bool_decide ("--no-sandbox" ∈ drop 1 argv)) /\
    engine_ok {| engine := e; heap := ∅ |} /\
    browser_get_active_tab {| engine := e; heap := ∅ |} = Some None.
Proof.
  split.
  { intros [] [] [] [] [] []; by vm_compute. }
  apply parse_arguments_inr in H
    as (o0 & Hl & _ & _ & _ & _ & _ & _ & Hs & Hg & _).
  assert (no_sandbox o = bool_decide ("--no-sandbox" ∈ drop 1 argv)) as Hsb.
  { rewrite Hs.
    rewrite (fun Hs => loop_flag atoi no_sandbox
               (fun a => (a =? "--no-sandbox")%string) Hs _ _ _ Hl).
    - simpl. apply eq_true_iff_eq. by rewrite given1, bool_decide_eq_true.
    - intros a o1 o2 Hs'. by apply parse_argument_fields in Hs' as (_&_&?&_). }
  assert (disable_gpu o = bool_decide ("--disable-gpu" ∈ drop 1 argv)) as Hgpu.
  { rewrite Hg.
    rewrite (fun Hs => loop_flag atoi disable_gpu
               (fun a => (a =? "--disable-gpu")%string) Hs _ _ _ Hl).
    - simpl. apply eq_true_iff_eq. by rewrite given1, bool_decide_eq_true.
    - intros a o1 o2 Hs'. by apply parse_argument_fields in Hs' as (_&_&_&?&_). }
  pose (cfg := {| max_tabs := 100; js_heap_size := 256 * 1024 * 1024;
                  cache_size := 100 * 1024 * 1024;
                  enable_gpu := negb (disable_gpu o);
                  enable_webgl := negb (disable_gpu o);
                  enable_webrtc := true;
                  enable_sandbox := negb (no_sandbox o);
                  max_workers := 4 |}).
  exists {| config := cfg; tabs := replicate (Z.to_nat 100) None;
            tab_count := 0; active_tab := 0 |}.
  split; [reflexivity|]. cbn [config cfg max_tabs enable_gpu enable_webgl enable_sandbox].
  rewrite Hsb, Hgpu. do 4 (split; [done|]).
  split; [|done].
  apply (TabsProofs.engine_create_ok (Some cfg)); [reflexivity|]. simpl. lia.
Qed.

(** *** Witnesses *)

(** Witness for X16: the version argument stands before the help
    argument. *)
Lemma parse_arguments_exits_witness :
  parse_arguments sample_atoi ["browser"; "http://a"; "-v"; "-h"]
  = inl (if bool_decide ("-v" = "-h" \/ "-v" = "--help") then Usage else Version).
Proof.
  apply (proj2 (parse_arguments_exits sample_atoi ["browser"; "http://a"; "-v"; "-h"])
           ["http://a"] "-v" ["-h"] eq_refl); by_compute.
Defined.

(** Witness for X17: two addresses. *)
Lemma parse_arguments_url_witness :
  initial_url sample_options
  = Some (default "about:blank" (last (List.filter not_dash (drop 1 sample_argv)))).
Proof. apply (parse_arguments_url sample_atoi sample_argv sample_options eq_refl). Defined.

(** Witness for X18. *)
Lemma parse_arguments_flags_witness :
  (private_mode sample_options = true
   <-> "-p" ∈ drop 1 sample_argv \/ "--private" ∈ drop 1 sample_argv) /\
  (fullscreen sample_options = true
   <-> "-f" ∈ drop 1 sample_argv \/ "--fullscreen" ∈ drop 1 sample_argv) /\
  (no_sandbox sample_options = true <-> "--no-sandbox" ∈ drop 1 sample_argv) /\
  (disable_gpu sample_options = true <-> "--disable-gpu" ∈ drop 1 sample_argv) /\
  (disable_js sample_options = true <-> "--disable-js" ∈ drop 1 sample_argv) /\
  (show_devtools sample_options = true <-> "--devtools" ∈ drop 1 sample_argv).
Proof. apply (parse_arguments_flags sample_atoi sample_argv sample_options eq_refl). Defined.

(** Witness for X19. *)
Lemma parse_arguments_values_witness :
  width sample_options
  = match last (List.filter (fun a => strncmp_eq a "--width=") (drop 1 sample_argv)) with
    | Some a => wrap32 (sample_atoi (after 8 a))
    | None => 1280
    end /\
  height sample_options
  = match last (List.filter (fun a => strncmp_eq a "--height=") (drop 1 sample_argv)) with
    | Some a => wrap32 (sample_atoi (after 9 a))
    | None => 720
    end /\
  profile_path sample_options
    = after 10 <$> last (List.filter (fun a => strncmp_eq a "--profile=")
                           (drop 1 sample_argv)) /\
  user_agent sample_options
    = after 13 <$> last (List.filter (fun a => strncmp_eq a "--user-agent=")
                           (drop 1 sample_argv)) /\
  proxy sample_options
    = after 8 <$> last (List.filter (fun a => strncmp_eq a "--proxy=")
                          (drop 1 sample_argv)).
Proof. apply (parse_arguments_values sample_atoi sample_argv sample_options eq_refl). Defined.

(** Witness for X20. *)
Lemma init_browser_engine_config_witness :
  exists e,
    init_browser_engine sample_options true true true true true true = Some e /\
    max_tabs (config e) = 100 /\
    enable_gpu (config e) = negb (bool_decide ("--disable-gpu" ∈ drop 1 sample_argv)) /\
    enable_webgl (config e) = negb (bool_decide ("--disable-gpu" ∈ drop 1 sample_argv)) /\
    enable_sandbox (config e) = negb (bool_decide ("--no-sandbox" ∈ drop 1 sample_argv)) /\
    engine_ok {| engine := e; heap := ∅ |} /\
    browser_get_active_tab {| engine := e; heap := ∅ |} = Some None.
Proof.
  apply (proj2 (init_browser_engine_config sample_atoi sample_argv sample_options eq_refl)).
Defined.

End MainProofs.
